(** * go-generic-tools: queues

    A shallow embedding of the queue package of the repository and the
    proofs of its specification:

    - [Slice]: internal/slice/shrink.go ([calCapacity], [Shrink]);
    - [PQ]: the array-backed binary min-heap [PriorityQueue];
    - [CLQ]: the lock-free [ConcurrentLinkedQueue];
    - [DQ]: [DelayQueue] and its broadcast condition [cond].

    Go values are modelled as follows.  An [int] is a 64-bit two's
    complement integer, written as a [Z] with its wrap-around spelled out at
    the one place where it can wrap (the constructor of the priority queue).
    Slice indices and lengths are natural numbers.  A slice is its sequence
    of elements together with the capacity of its backing array.  A run-time
    panic is an explicit outcome of a computation. *)

From Stdlib Require Import ZArith Lia Bool.
From Stdlib Require Import Floats.SpecFloat.
From stdpp Require Import base list.

Local Open Scope Z_scope.

(** ** The Go run time *)

Module Go.

(** Run-time panics the modelled code can raise.  [DanglingPointer] is the
    use of an address that holds no object; a garbage-collected program
    cannot do that, and the model has the case to be total. *)
Inductive panic : Set :=
| DivideByZero
| IndexOutOfRange
| MakeSliceOutOfRange
| GrowsliceLenOutOfRange
| NilDereference
| DanglingPointer
| CloseOfClosedChannel
| CloseOfNilChannel
| UnlockOfUnlockedMutex.

(** The outcome of running a piece of code: a value, a panic, or the
    exhaustion of the fuel given to a loop. *)
Inductive result (A : Type) : Type :=
| Ok (a : A)
| Panic (p : panic)
| OutOfFuel.

Arguments Ok {A} a.
Arguments Panic {A} p.
Arguments OutOfFuel {A}.

Definition bind {A B : Type} (m : result A) (k : A -> result B) : result B :=
  match m with
  | Ok a => k a
  | Panic p => Panic p
  | OutOfFuel => OutOfFuel
  end.

(** 64-bit [int]. *)
Definition int_min : Z := - 2 ^ 63.
Definition int_max : Z := 2 ^ 63 - 1.

(** Two's complement wrap-around of an arithmetic result. *)
Definition wrap (z : Z) : Z := (z + 2 ^ 63) mod 2 ^ 64 - 2 ^ 63.

(** The errors of package queue. *)
Inductive error : Set :=
| ErrOutOfCapacity
| ErrEmptyQueue.

(** A slice: the elements [s[0..len)] and the capacity of the backing
    array counted from the start of the slice. *)
Record slice (T : Type) : Type := mkSlice { elems : list T; cap : Z }.
Arguments mkSlice {T} elems cap.
Arguments elems {T} s.
Arguments cap {T} s.

Definition len {T} (s : slice T) : nat := length (elems s).

(** [s[i]] *)
Definition index {T} (l : list T) (i : nat) : result T :=
  match l !! i with
  | Some x => Ok x
  | None => Panic IndexOutOfRange
  end.

(** [s[i] = x] *)
Definition store {T} (l : list T) (i : nat) (x : T) : result (list T) :=
  if decide (i < length l)%nat then Ok (<[i := x]> l) else Panic IndexOutOfRange.

(** [s[i], s[j] = s[j], s[i]]: both operands are read, then the two
    assignments are carried out from left to right. *)
Definition swap {T} (l : list T) (i j : nat) : result (list T) :=
  bind (index l j) (fun x =>
  bind (index l i) (fun y =>
  bind (store l i x) (fun l1 =>
  store l1 j y))).

(** [make([]T, n, c)] with every element the zero value of [T]: it panics
    when the capacity is below the length, as a negative capacity is.  The
    run time also refuses a capacity whose array would exceed the address
    space, a bound that depends on the size of [T] and on the platform and
    that the model leaves out, as it does the exhaustion of memory: what is
    proved of a slice that [make] returns is proved of every slice the run
    time can return. *)
Definition make {T} (zero : T) (n : nat) (c : Z) : result (slice T) :=
  if (c <? Z.of_nat n) then Panic MakeSliceOutOfRange
  else Ok (mkSlice (replicate n zero) c).

Section Append.
Context {T : Type}.

(** The capacity the run time chooses when an append outgrows the
    backing array, as a function of the old capacity and the length
    needed.  It depends on the size class of the element type and is not
    part of the repository. *)
Variable growslice : Z -> Z -> Z.

(** [append(s, xs...)]: the backing array is kept when it has room;
    otherwise the run time allocates a larger one, and panics when the
    length needed is not an [int]. *)
Definition append (s : slice T) (xs : list T) : result (slice T) :=
  let n := Z.of_nat (length (elems s) + length xs) in
  if n <=? cap s then Ok (mkSlice (elems s ++ xs) (cap s))
  else if int_max <? n then Panic GrowsliceLenOutOfRange
  else Ok (mkSlice (elems s ++ xs) (growslice (cap s) n)).
End Append.

(** [s[:n]].  The code only ever cuts a slice shorter; a bound beyond the
    length (which Go allows up to the capacity, exposing stale elements of
    the backing array) is outside the model and reported as a panic. *)
Definition reslice {T} (s : slice T) (n : nat) : result (slice T) :=
  if decide (n <= length (elems s))%nat then Ok (mkSlice (take n (elems s)) (cap s))
  else Panic IndexOutOfRange.

End Go.

Import Go.

#[global] Instance result_ret : MRet Go.result := @Go.Ok.
#[global] Instance result_bind : MBind Go.result :=
  fun A B (k : A -> Go.result B) (m : Go.result A) => Go.bind m k.

(** ** 32-bit floating point, from the IEEE 754 specification of the
       Standard Library *)

Module Float32.

Definition prec : Z := 24.
Definition emax : Z := 128.

(** [float32(c)] for an integer [c]: rounded to nearest, ties to even. *)
Definition of_int (c : Z) : spec_float := binary_normalize prec emax c 0 false.

(** The constant [0.625] of type float64 is [5 * 2^-3]. *)
Definition factor64 : spec_float := binary_normalize 53 1024 5 (-3) false.

(** [float32(x)] for a float64 [x]. *)
Definition of_float64 (x : spec_float) : spec_float :=
  match x with
  | S754_finite s m e => binary_normalize prec emax (cond_Zopp s (Zpos m)) e s
  | _ => x
  end.

Definition mul : spec_float -> spec_float -> spec_float := SFmul prec emax.

(** [int(x)]: the fraction is discarded (truncation towards zero).  The
    result for a value that does not fit is implementation-specific; the
    amd64 value is used. *)
Definition to_int (x : spec_float) : Z :=
  match x with
  | S754_zero _ => 0
  | S754_finite s m e =>
      let v := cond_Zopp s (if 0 <=? e then Zpos m * 2 ^ e else Zpos m / 2 ^ (- e)) in
      if (Go.int_min <=? v) && (v <=? Go.int_max) then v else Go.int_min
  | _ => Go.int_min
  end.

End Float32.

(** ** internal/slice/shrink.go *)

Module Slice.

(** [calCapacity(c, l)].  Integer division truncates and panics on a zero
    divisor; [&&] evaluates its right operand only when the left one
    holds. *)
Definition calCapacity (c l : Z) : Go.result (Z * bool) :=
  if c <=? 64 then Ok (c, false)
  else
    b1 ← (if 2048 <? c
          then (if l =? 0 then Panic DivideByZero else Ok (2 <=? Z.quot c l))
          else Ok false);
    if (b1 : bool) then
      Ok (Float32.to_int
            (Float32.mul (Float32.of_int c) (Float32.of_float64 Float32.factor64)),
          true)
    else
      b2 ← (if c <=? 2048
            then (if l =? 0 then Panic DivideByZero else Ok (4 <=? Z.quot c l))
            else Ok false);
      if (b2 : bool) then Ok (Z.quot c 2, true)
      else Ok (c, false).

Section Shrink.
Context {T : Type}.
Variable growslice : Z -> Z -> Z.

(** [Shrink(src)] *)
Definition Shrink (src : Go.slice T) : Go.result (Go.slice T) :=
  let c := Go.cap src in
  let l := Z.of_nat (Go.len src) in
  '(n, changed) ← calCapacity c l;
  if negb changed then Ok src
  else
    if n <? 0 then Panic MakeSliceOutOfRange
    else Go.append growslice (Go.mkSlice [] n) (Go.elems src).
End Shrink.

End Slice.

(** ** The priority queue *)

Module PQ.

(** [PriorityQueue[T]].  The comparator is fixed at construction and never
    assigned again; it is a parameter of the operations below. *)
Record PriorityQueue (T : Type) : Type :=
  mkPQ { capacity : Z; data : Go.slice T }.
Arguments mkPQ {T} capacity data.
Arguments capacity {T} p.
Arguments data {T} p.

Section Ops.
Context {T : Type}.
(** The zero value of [T] ([var t T]). *)
Variable zero : T.
Variable compare : T -> T -> Z.
Variable growslice : Z -> Z -> Z.

Definition Len (p : PriorityQueue T) : Z := Z.of_nat (Go.len (data p)) - 1.

Definition Cap (p : PriorityQueue T) : Z := capacity p.

Definition IsBoundless (p : PriorityQueue T) : bool := capacity p <=? 0.

Definition isFull (p : PriorityQueue T) : bool :=
  (0 <? capacity p) && (Z.of_nat (Go.len (data p)) - 1 =? capacity p).

Definition isEmpty (p : PriorityQueue T) : bool :=
  Z.of_nat (Go.len (data p)) <? 2.

(** Every method has a pointer receiver: it returns the state of the
    queue after the call next to its results. *)
Definition Peek (p : PriorityQueue T)
  : Go.result (PriorityQueue T * (T * option Go.error)) :=
  if isEmpty p then Ok (p, (zero, Some ErrEmptyQueue))
  else
    x ← Go.index (Go.elems (data p)) 1;
    Ok (p, (x, None)).

(** The loop of [Enqueue]. *)
Fixpoint siftUp (fuel : nat) (d : list T) (node parent : nat)
  : Go.result (list T) :=
  if (0 <? parent)%nat then
    x ← Go.index d node;
    y ← Go.index d parent;
    if compare x y <? 0 then
      d' ← Go.swap d parent node;
      match fuel with
      | O => OutOfFuel
      | S fuel' => siftUp fuel' d' parent (parent / 2)%nat
      end
    else Ok d
  else Ok d.

Definition Enqueue (p : PriorityQueue T) (t : T)
  : Go.result (PriorityQueue T * option Go.error) :=
  if isFull p then Ok (p, Some ErrOutOfCapacity)
  else
    d ← Go.append growslice (data p) [t];
    let node := (Go.len d - 1)%nat in
    let parent := ((Go.len d - 1) / 2)%nat in
    es ← siftUp (Go.len d) (Go.elems d) node parent;
    Ok (mkPQ (capacity p) (Go.mkSlice es (Go.cap d)), None).

Definition shrinkIfNecessary (p : PriorityQueue T) : Go.result (PriorityQueue T) :=
  if IsBoundless p then
    d ← Slice.Shrink growslice (data p);
    Ok (mkPQ (capacity p) d)
  else Ok p.

(** The loop of [heapify]; [minPos] is declared outside the loop and
    equals [i] whenever an iteration starts. *)
Fixpoint heapify_loop (fuel : nat) (d : list T) (n i minPos : nat)
  : Go.result (list T) :=
  let left := (i * 2)%nat in
  minPos1 ← (if (left <=? n)%nat then
               x ← Go.index d left;
               y ← Go.index d minPos;
               Ok (if compare x y <? 0 then left else minPos)
             else Ok minPos);
  let right := (i * 2 + 1)%nat in
  minPos2 ← (if (right <=? n)%nat then
               x ← Go.index d right;
               y ← Go.index d minPos1;
               Ok (if compare x y <? 0 then right else minPos1)
             else Ok minPos1);
  if (minPos2 =? i)%nat then Ok d
  else
    d' ← Go.swap d i minPos2;
    match fuel with
    | O => OutOfFuel
    | S fuel' => heapify_loop fuel' d' n minPos2 minPos2
    end.

Definition heapify (d : list T) (n i : nat) : Go.result (list T) :=
  heapify_loop (length d) d n i i.

Definition Dequeue (p : PriorityQueue T)
  : Go.result (PriorityQueue T * (T * option Go.error)) :=
  if isEmpty p then Ok (p, (zero, Some ErrEmptyQueue))
  else
    let es := Go.elems (data p) in
    pop ← Go.index es 1;
    last ← Go.index es (length es - 1);
    es1 ← Go.store es 1 last;
    d2 ← Go.reslice (Go.mkSlice es1 (Go.cap (data p))) (length es1 - 1);
    p3 ← shrinkIfNecessary (mkPQ (capacity p) d2);
    es4 ← heapify (Go.elems (data p3)) (Go.len (data p3) - 1) 1;
    Ok (mkPQ (capacity p3) (Go.mkSlice es4 (Go.cap (data p3))), (pop, None)).

Definition NewPriorityQueue (cap0 : Z) : Go.result (PriorityQueue T) :=
  let sliceCap := Go.wrap (cap0 + 1) in
  let '(cap1, sliceCap1) := if cap0 <? 1 then (0, 64) else (cap0, sliceCap) in
  d ← Go.make zero 1 sliceCap1;
  Ok (mkPQ cap1 d).

End Ops.

End PQ.

(** ** The lock-free queue *)

Module CLQ.

Section Model.
Context {T : Type}.
(** The zero value of [T]. *)
Variable zero : T.

(** An [unsafe.Pointer] to a node: nil or the address of a node.  Nodes are
    never freed; the address of a node is its position in the heap. *)
Definition ptr : Type := option nat.

(** [node[T]] *)
Record node : Type := mkNode { val : T; next : ptr }.

(** The memory the goroutines share: the nodes allocated so far and the two
    fields of [ConcurrentLinkedQueue]. *)
Record shared : Type := mkShared { heap : list node; head : ptr; tail : ptr }.

(** What a call returns: [Enqueue] an error, [Dequeue] a value and an
    error. *)
Inductive retval : Type :=
| RetEnqueue (e : option Go.error)
| RetDequeue (v : T) (e : option Go.error).

(** A call in progress: the next shared-memory access of the goroutine and
    the local variables it holds.  Every access of the code is an operation
    of sync/atomic or reads a field that is never written after the node is
    published, so that the runs of a program are the interleavings of these
    steps. *)
Inductive frame : Type :=
| Enq_alloc (t : T)
| Enq_load_tail (t : T) (newPtr : ptr)
| Enq_load_next (t : T) (newPtr tailPtr : ptr)
| Enq_cas_next (t : T) (newPtr tailPtr tailNext : ptr)
| Enq_cas_tail (t : T) (newPtr tailPtr : ptr)
| Deq_load_head
| Deq_load_tail (headPtr : ptr)
| Deq_load_next (headPtr : ptr)
| Deq_cas_head (headPtr headNextPtr : ptr)
| Deq_read_val (headNextPtr : ptr).

(** The outcome of a step of a call: it goes on or it returns. *)
Inductive next_frame : Type :=
| Continue (f : frame)
| Return (r : retval).

(** What a step does to the list, for the specification only: a node
    is linked behind the last one (the compare-and-swap of [tail.next]
    succeeded), or the head moved to a node (the compare-and-swap of [head]
    succeeded). *)
Inductive event : Type :=
| EvLink (p : ptr) (t : T)
| EvTake (p : ptr).

(** The node a pointer refers to. *)
Definition deref (h : list node) (p : ptr) : Go.result node :=
  match p with
  | None => Panic NilDereference
  | Some a =>
      match h !! a with
      | Some nd => Ok nd
      | None => Panic DanglingPointer
      end
  end.

(** [p.next = q] as part of a compare-and-swap *)
Definition set_next (h : list node) (p : ptr) (q : ptr) : list node :=
  match p with
  | Some a => alter (fun nd => mkNode (val nd) q) a h
  | None => h
  end.

Definition step_frame (f : frame) (s : shared)
  : Go.result (next_frame * shared * list event) :=
  match f with
  | Enq_alloc t =>
      (* newNode := &node[T]{val: t}; newPtr := unsafe.Pointer(newNode) *)
      let a := length (heap s) in
      Ok (Continue (Enq_load_tail t (Some a)),
          mkShared (heap s ++ [mkNode t None]) (head s) (tail s), [])
  | Enq_load_tail t newPtr =>
      (* tailPtr := atomic.LoadPointer(&c.tail) *)
      Ok (Continue (Enq_load_next t newPtr (tail s)), s, [])
  | Enq_load_next t newPtr tailPtr =>
      (* tailNext := atomic.LoadPointer(&tail.next); if tailNext != nil { continue } *)
      nd ← deref (heap s) tailPtr;
      if decide (next nd = None)
      then Ok (Continue (Enq_cas_next t newPtr tailPtr (next nd)), s, [])
      else Ok (Continue (Enq_load_tail t newPtr), s, [])
  | Enq_cas_next t newPtr tailPtr tailNext =>
      (* atomic.CompareAndSwapPointer(&tail.next, tailNext, newPtr) *)
      nd ← deref (heap s) tailPtr;
      if decide (next nd = tailNext)
      then Ok (Continue (Enq_cas_tail t newPtr tailPtr),
               mkShared (set_next (heap s) tailPtr newPtr) (head s) (tail s),
               [EvLink newPtr t])
      else Ok (Continue (Enq_load_tail t newPtr), s, [])
  | Enq_cas_tail t newPtr tailPtr =>
      (* atomic.CompareAndSwapPointer(&c.tail, tailPtr, newPtr); return nil *)
      let s' := if decide (tail s = tailPtr)
                then mkShared (heap s) (head s) newPtr else s in
      Ok (Return (RetEnqueue None), s', [])
  | Deq_load_head =>
      (* headPtr := atomic.LoadPointer(&c.head) *)
      Ok (Continue (Deq_load_tail (head s)), s, [])
  | Deq_load_tail headPtr =>
      (* tailPtr := atomic.LoadPointer(&c.tail); if head == tail { return t, ErrEmptyQueue } *)
      if decide (headPtr = tail s)
      then Ok (Return (RetDequeue zero (Some ErrEmptyQueue)), s, [])
      else Ok (Continue (Deq_load_next headPtr), s, [])
  | Deq_load_next headPtr =>
      (* headNextPtr := atomic.LoadPointer(&head.next) *)
      nd ← deref (heap s) headPtr;
      Ok (Continue (Deq_cas_head headPtr (next nd)), s, [])
  | Deq_cas_head headPtr headNextPtr =>
      (* atomic.CompareAndSwapPointer(&c.head, headPtr, headNextPtr) *)
      if decide (head s = headPtr)
      then Ok (Continue (Deq_read_val headNextPtr),
               mkShared (heap s) headNextPtr (tail s), [EvTake headNextPtr])
      else Ok (Continue Deq_load_head, s, [])
  | Deq_read_val headNextPtr =>
      (* headNext is headNextPtr as a node pointer; return headNext.val, nil *)
      nd ← deref (heap s) headNextPtr;
      Ok (Return (RetDequeue (val nd) None), s, [])
  end.

(** [NewConcurrentLinkedQueue]: one empty node, which head and tail point
    to. *)
Definition NewConcurrentLinkedQueue : shared :=
  mkShared [mkNode zero None] (Some 0%nat) (Some 0%nat).

(** The calls a goroutine makes. *)
Inductive op : Type :=
| OpEnqueue (t : T)
| OpDequeue.

Definition enter (o : op) : frame :=
  match o with
  | OpEnqueue t => Enq_alloc t
  | OpDequeue => Deq_load_head
  end.

(** A goroutine: the call in progress, the calls still to make, and what
    the calls made so far returned. *)
Record thread : Type :=
  mkThread { cur : option frame; todo : list op; done : list retval }.

Record system : Type := mkSystem { mem : shared; threads : list thread }.

(** One step of goroutine [tid]: it enters its next call or takes the next
    step of the call in progress; a goroutine that has nothing left to do
    (or does not exist) leaves the system as it is. *)
Definition step (tid : nat) (sys : system)
  : Go.result (system * list (nat * event)) :=
  match threads sys !! tid with
  | None => Ok (sys, [])
  | Some th =>
      match cur th with
      | None =>
          match todo th with
          | [] => Ok (sys, [])
          | o :: rest =>
              Ok (mkSystem (mem sys)
                    (<[tid := mkThread (Some (enter o)) rest (done th)]> (threads sys)),
                  [])
          end
      | Some f =>
          '(nf, s', evs) ← step_frame f (mem sys);
          let th' := match nf with
                     | Continue f' => mkThread (Some f') (todo th) (done th)
                     | Return r => mkThread None (todo th) (done th ++ [r])
                     end in
          Ok (mkSystem s' (<[tid := th']> (threads sys)),
              fmap (M := list) (pair tid) evs)
      end
  end.

(** A run under a schedule, the list of the goroutines that take the
    successive steps, with the events of the run in order. *)
Fixpoint run (sched : list nat) (sys : system)
  : Go.result (system * list (nat * event)) :=
  match sched with
  | [] => Ok (sys, [])
  | tid :: rest =>
      '(sys1, evs1) ← step tid sys;
      '(sys2, evs2) ← run rest sys1;
      Ok (sys2, evs1 ++ evs2)
  end.

(** The system at the start: a new queue and goroutines that have not
    started. *)
Definition init (progs : list (list op)) : system :=
  mkSystem NewConcurrentLinkedQueue ((fun p => mkThread None p []) <$> progs).

(** The values of the nodes behind [p], following [next] at most [fuel]
    times. *)
Fixpoint values_after (fuel : nat) (h : list node) (p : ptr) : list T :=
  match fuel with
  | O => []
  | S fuel' =>
      match p with
      | None => []
      | Some a =>
          match h !! a with
          | None => []
          | Some nd =>
              match next nd with
              | None => []
              | Some b =>
                  match h !! b with
                  | None => []
                  | Some nb => val nb :: values_after fuel' h (Some b)
                  end
              end
          end
      end
  end.

(** The content of the queue: the values behind the head. *)
Definition content (s : shared) : list T :=
  values_after (length (heap s)) (heap s) (head s).

End Model.

Arguments node T : clear implicits.
Arguments shared T : clear implicits.
Arguments retval T : clear implicits.
Arguments frame T : clear implicits.
Arguments next_frame T : clear implicits.
Arguments event T : clear implicits.
Arguments op T : clear implicits.
Arguments thread T : clear implicits.
Arguments system T : clear implicits.

End CLQ.

(** ** The delay queue (queue/delay_queue.go)

    [DelayQueue] guards a priority queue with a mutex and two broadcast
    conditions.  Its calls block and run concurrently, so the model is a
    system of goroutines that take atomic steps under a schedule: a step is
    one statement that reads or writes the shared state (a lock operation,
    a call of the priority queue, which runs under the lock, a read or
    write of the channel of a condition, a channel operation).  The
    schedule also lets time pass, cancels contexts and lets the run time
    deliver the expiry of timers. *)

Module DQ.

(** The two conditions of a delay queue. *)
Inductive which : Type :=
| DequeueSignal
| EnqueueSignal.

(** The errors the calls return: [ctx.Err()], an error of the priority
    queue as it is, and one wrapped by [fmt.Errorf]. *)
Inductive error : Type :=
| CtxErr
| QueueErr (e : Go.error)
| Wrapped (e : Go.error).

(** A [time.Timer]: whether it is running, the instant at which it
    expires, and whether its channel [C] holds a value.  [Reset] leaves a
    value that is in the channel where it is (the behaviour before Go 1.23;
    later versions discard it, which gives fewer runs). *)
Record timer : Type := mkTimer { active : bool; when : Z; C : bool }.

(** The cases of the [select] statements. *)
Inductive select_case : Type :=
| CaseDone
| CaseTimer
| CaseSignal.

(** The steps of [broadcast], by the statement to run next, with the local
    variables assigned so far. *)
Inductive bcast_pc : Type :=
| B_make
| B_load (signal : nat)
| B_store (signal old : nat)
| B_unlock (old : nat)
| B_close (old : nat).

(** What the statements of [broadcast] do, in the order of the run. *)
Inductive bcast_event : Type :=
| BMake (ch : nat)
| BStore (c : which) (ch : nat)
| BUnlock
| BClose (ch : nat).

Section Model.
Context {T : Type}.
(** The zero value of [T]. *)
Variable zero : T.
(** [t.Delay()] at an instant. *)
Variable Delay : T -> Z -> Z.
Variable growslice : Z -> Z -> Z.

(** The comparator [NewDelayQueue] gives the priority queue; it calls
    [Delay] on both elements when it runs.  The clock of the model stands
    still during a call of the priority queue, so both calls read the
    instant [now]; in the run time the second call reads the clock after
    the first, and the order of two elements whose delays change with time
    can differ from the one given here.  The theorems about the delay
    queue rest on what the priority queue does under any comparator, not
    on this order. *)
Definition compare (now : Z) (src dst : T) : Z :=
  let srcDelay := Delay src now in
  let dstDelay := Delay dst now in
  if dstDelay <? srcDelay then 1
  else if srcDelay =? dstDelay then 0
  else -1.

(** The shared state: the priority queue, the mutex, the channel of each
    condition, the channels made so far (a channel is its index; [true]
    once closed) and the clock.  [sync.Mutex] has no owner; the model keeps
    the goroutine that locked it, which no step looks at. *)
Record shared : Type := mkShared {
  q : PQ.PriorityQueue T;
  mutex : option nat;
  dequeueSignal : nat;
  enqueueSignal : nat;
  chans : list bool;
  now : Z
}.

Definition cond_signal (c : which) (s : shared) : nat :=
  match c with
  | DequeueSignal => dequeueSignal s
  | EnqueueSignal => enqueueSignal s
  end.

Definition set_q (p : PQ.PriorityQueue T) (s : shared) : shared :=
  mkShared p (mutex s) (dequeueSignal s) (enqueueSignal s) (chans s) (now s).

Definition set_mutex (m : option nat) (s : shared) : shared :=
  mkShared (q s) m (dequeueSignal s) (enqueueSignal s) (chans s) (now s).

Definition set_signal (c : which) (ch : nat) (s : shared) : shared :=
  match c with
  | DequeueSignal => mkShared (q s) (mutex s) ch (enqueueSignal s) (chans s) (now s)
  | EnqueueSignal => mkShared (q s) (mutex s) (dequeueSignal s) ch (chans s) (now s)
  end.

Definition set_chans (cs : list bool) (s : shared) : shared :=
  mkShared (q s) (mutex s) (dequeueSignal s) (enqueueSignal s) cs (now s).

Definition set_now (t : Z) (s : shared) : shared :=
  mkShared (q s) (mutex s) (dequeueSignal s) (enqueueSignal s) (chans s) t.

(** [mutex.Lock()] by goroutine [tid]: [None] while the mutex is locked. *)
Definition Lock (tid : nat) (s : shared) : option shared :=
  match mutex s with
  | None => Some (set_mutex (Some tid) s)
  | Some _ => None
  end.

(** [mutex.Unlock()]: a fatal error when the mutex is not locked. *)
Definition Unlock (s : shared) : Go.result shared :=
  match mutex s with
  | None => Panic UnlockOfUnlockedMutex
  | Some _ => Ok (set_mutex None s)
  end.

(** [close(ch)] *)
Definition close (ch : nat) (s : shared) : Go.result shared :=
  match chans s !! ch with
  | None => Panic CloseOfNilChannel
  | Some true => Panic CloseOfClosedChannel
  | Some false => Ok (set_chans (<[ch := true]> (chans s)) s)
  end.

(** A receive from [ch] can proceed: the channel is closed (nothing is
    ever sent on the channels of the conditions). *)
Definition closed (ch : nat) (s : shared) : bool :=
  match chans s !! ch with
  | Some b => b
  | None => false
  end.

(** One statement of [c.broadcast()]; [None] when the call returns. *)
Definition step_broadcast (c : which) (pc : bcast_pc) (s : shared)
  : Go.result (option bcast_pc * shared * list bcast_event) :=
  match pc with
  | B_make =>
      (* signal := make(chan struct{}) *)
      let ch := length (chans s) in
      Ok (Some (B_load ch), set_chans (chans s ++ [false]) s, [BMake ch])
  | B_load signal =>
      (* old := c.signal *)
      Ok (Some (B_store signal (cond_signal c s)), s, [])
  | B_store signal old =>
      (* c.signal = signal *)
      Ok (Some (B_unlock old), set_signal c signal s, [BStore c signal])
  | B_unlock old =>
      (* c.l.Unlock() *)
      s' ← Unlock s;
      Ok (Some (B_close old), s', [BUnlock])
  | B_close old =>
      (* close(old) *)
      s' ← close old s;
      Ok (None, s', [BClose old])
  end.

(** A call of [broadcast] from its first statement to its return, when no
    other goroutine takes a step in between. *)
Fixpoint run_broadcast (fuel : nat) (c : which) (pc : bcast_pc) (s : shared)
  : Go.result (shared * list bcast_event) :=
  match fuel with
  | O => OutOfFuel
  | S fuel' =>
      '(pc', s', evs) ← step_broadcast c pc s;
      match pc' with
      | None => Ok (s', evs)
      | Some pc1 =>
          '(s'', evs') ← run_broadcast fuel' c pc1 s';
          Ok (s'', evs ++ evs')
      end
  end.

Definition broadcast (c : which) (s : shared) : Go.result (shared * list bcast_event) :=
  run_broadcast 5 c B_make s.

(** The results of the calls. *)
Inductive retval : Type :=
| RetEnqueue (e : option error)
| RetDequeue (v : T) (e : option error).

(** The calls in progress, by the statement to run next, with the local
    variables it uses. *)
Inductive frame : Type :=
(* Enqueue(ctx, t) *)
| E_check (t : T)
| E_lock (t : T)
| E_enqueue (t : T)
| E_broadcast (pc : bcast_pc)
| E_signalCh (t : T)
| E_signalCh_unlock (t : T) (res : nat)
| E_select (t : T) (signal : nat)
| E_unlock (err : Go.error)
(* Dequeue(ctx) *)
| D_check
| D_lock
| D_peek
| D_delay (val : T)
| D_dequeue (val : T)
| D_broadcast (val : T) (err : option Go.error) (pc : bcast_pc)
| D_signalCh (delay : option Z)
| D_signalCh_unlock (delay : option Z) (res : nat)
| D_timer (delay : Z) (signal : nat)
| D_select3 (signal : nat)
| D_lock2
| D_peek2
| D_delay2 (val : T)
| D_unlock_continue
| D_dequeue2 (val : T)
| D_select2 (signal : nat)
| D_unlock (err : Go.error).

Inductive next_frame : Type :=
| Continue (f : frame)
| Return (r : retval)
| Blocked.

(** What the calls do to the heap. *)
Inductive event : Type :=
| EvInsert (t : T)
| EvRemove (t : T) (at_ : Z)
| EvBroadcast (e : bcast_event).

(** The case a [select] runs: one of those that can proceed, [pick] if it
    is one of them; [None] when none can. *)
Definition select (ready : select_case -> bool) (pick : select_case)
  : option select_case :=
  if ready pick then Some pick
  else if ready CaseDone then Some CaseDone
  else if ready CaseTimer then Some CaseTimer
  else if ready CaseSignal then Some CaseSignal
  else None.

(** [timer = time.NewTimer(delay)] when [timer] is nil, [timer.Reset(delay)]
    otherwise. *)
Definition arm (tm : option timer) (delay : Z) (s : shared) : option timer :=
  match tm with
  | None => Some (mkTimer true (now s + delay) false)
  | Some t => Some (mkTimer true (now s + delay) (C t))
  end.

(** The deferred [timer.Stop()]. *)
Definition stop (tm : option timer) : option timer :=
  match tm with
  | None => None
  | Some t => Some (mkTimer false (when t) (C t))
  end.

(** [val, err = d.q.Dequeue(); d.dequeueSignal.broadcast(); return val, err]
    up to the call of [broadcast]. *)
Definition dequeue_step (s : shared)
  : Go.result (next_frame * shared * list event) :=
  '(p, (val, err)) ← PQ.Dequeue zero (compare (now s)) growslice (q s);
  Ok (Continue (D_broadcast val err B_make), set_q p s,
      match err with
      | None => [EvRemove val (now s)]
      | Some _ => []
      end).

(** One step of a call of goroutine [tid], whose context is cancelled when
    [done] is set and whose timer is [tm]; [pick] is the case the schedule
    prefers at a [select]. *)
Definition step_frame (tid : nat) (done : bool) (tm : option timer)
    (pick : select_case) (f : frame) (s : shared)
  : Go.result (next_frame * option timer * shared * list event) :=
  match f with
  | E_check t =>
      (* select { case <-ctx.Done(): return ctx.Err(); default: } *)
      if done then Ok (Return (RetEnqueue (Some CtxErr)), tm, s, [])
      else Ok (Continue (E_lock t), tm, s, [])
  | E_lock t =>
      (* d.mutex.Lock() *)
      match Lock tid s with
      | Some s' => Ok (Continue (E_enqueue t), tm, s', [])
      | None => Ok (Blocked, tm, s, [])
      end
  | E_enqueue t =>
      (* err := d.q.Enqueue(t); switch err *)
      '(p, err) ← PQ.Enqueue (compare (now s)) growslice (q s) t;
      match err with
      | None => Ok (Continue (E_broadcast B_make), tm, set_q p s, [EvInsert t])
      | Some ErrOutOfCapacity => Ok (Continue (E_signalCh t), tm, set_q p s, [])
      | Some e => Ok (Continue (E_unlock e), tm, set_q p s, [])
      end
  | E_broadcast pc =>
      (* d.enqueueSignal.broadcast(); return nil *)
      '(pc', s', evs) ← step_broadcast EnqueueSignal pc s;
      Ok (match pc' with
          | Some pc1 => Continue (E_broadcast pc1)
          | None => Return (RetEnqueue None)
          end, tm, s', fmap (M := list) EvBroadcast evs)
  | E_signalCh t =>
      (* signal := d.dequeueSignal.signalCh(): res := c.signal *)
      Ok (Continue (E_signalCh_unlock t (dequeueSignal s)), tm, s, [])
  | E_signalCh_unlock t res =>
      (* c.l.Unlock(); return res *)
      s' ← Unlock s;
      Ok (Continue (E_select t res), tm, s', [])
  | E_select t signal =>
      (* select { case <-ctx.Done(): return ctx.Err(); case <-signal: } *)
      match select (fun c => match c with
                             | CaseDone => done
                             | CaseTimer => false
                             | CaseSignal => closed signal s
                             end) pick with
      | Some CaseDone => Ok (Return (RetEnqueue (Some CtxErr)), tm, s, [])
      | Some _ => Ok (Continue (E_check t), tm, s, [])
      | None => Ok (Blocked, tm, s, [])
      end
  | E_unlock err =>
      (* default: d.mutex.Unlock(); return fmt.Errorf(..., err) *)
      s' ← Unlock s;
      Ok (Return (RetEnqueue (Some (Wrapped err))), tm, s', [])
  | D_check =>
      (* select { case <-ctx.Done(): var t T; return t, ctx.Err(); default: } *)
      if done then Ok (Return (RetDequeue zero (Some CtxErr)), tm, s, [])
      else Ok (Continue D_lock, tm, s, [])
  | D_lock =>
      (* d.mutex.Lock() *)
      match Lock tid s with
      | Some s' => Ok (Continue D_peek, tm, s', [])
      | None => Ok (Blocked, tm, s, [])
      end
  | D_peek =>
      (* val, err := d.q.Peek(); switch err *)
      '(p, (val, err)) ← PQ.Peek zero (q s);
      match err with
      | None => Ok (Continue (D_delay val), tm, set_q p s, [])
      | Some ErrEmptyQueue => Ok (Continue (D_signalCh None), tm, set_q p s, [])
      | Some e => Ok (Continue (D_unlock e), tm, set_q p s, [])
      end
  | D_delay val =>
      (* delay := val.Delay(); if delay <= 0 *)
      let delay := Delay val (now s) in
      if delay <=? 0 then Ok (Continue (D_dequeue val), tm, s, [])
      else Ok (Continue (D_signalCh (Some delay)), tm, s, [])
  | D_dequeue _ =>
      (* val, err = d.q.Dequeue() *)
      '(nf, s', evs) ← dequeue_step s;
      Ok (nf, tm, s', evs)
  | D_broadcast val err pc =>
      (* d.dequeueSignal.broadcast(); return val, err *)
      '(pc', s', evs) ← step_broadcast DequeueSignal pc s;
      Ok (match pc' with
          | Some pc1 => Continue (D_broadcast val err pc1)
          | None => Return (RetDequeue val (fmap (M := option) QueueErr err))
          end, tm, s', fmap (M := list) EvBroadcast evs)
  | D_signalCh delay =>
      (* signal := d.enqueueSignal.signalCh(): res := c.signal *)
      Ok (Continue (D_signalCh_unlock delay (enqueueSignal s)), tm, s, [])
  | D_signalCh_unlock delay res =>
      (* c.l.Unlock(); return res *)
      s' ← Unlock s;
      Ok (Continue (match delay with
                    | Some dl => D_timer dl res
                    | None => D_select2 res
                    end), tm, s', [])
  | D_timer delay signal =>
      (* if timer == nil { timer = time.NewTimer(delay) } else { timer.Reset(delay) } *)
      Ok (Continue (D_select3 signal), arm tm delay s, s, [])
  | D_select3 signal =>
      (* select { case <-ctx.Done(): ...; case <-timer.C: ...; case <-signal: } *)
      match select (fun c => match c with
                             | CaseDone => done
                             | CaseTimer => match tm with
                                            | Some t => C t
                                            | None => false
                                            end
                             | CaseSignal => closed signal s
                             end) pick with
      | Some CaseDone => Ok (Return (RetDequeue zero (Some CtxErr)), tm, s, [])
      | Some CaseTimer =>
          Ok (Continue D_lock2,
              match tm with
              | Some t => Some (mkTimer (active t) (when t) false)
              | None => None
              end, s, [])
      | Some CaseSignal => Ok (Continue D_check, tm, s, [])
      | None => Ok (Blocked, tm, s, [])
      end
  | D_lock2 =>
      (* d.mutex.Lock() *)
      match Lock tid s with
      | Some s' => Ok (Continue D_peek2, tm, s', [])
      | None => Ok (Blocked, tm, s, [])
      end
  | D_peek2 =>
      (* val, err := d.q.Peek(); if err != nil || ... *)
      '(p, (val, err)) ← PQ.Peek zero (q s);
      match err with
      | Some _ => Ok (Continue D_unlock_continue, tm, set_q p s, [])
      | None => Ok (Continue (D_delay2 val), tm, set_q p s, [])
      end
  | D_delay2 val =>
      (* ... || val.Delay() > 0 *)
      if 0 <? Delay val (now s) then Ok (Continue D_unlock_continue, tm, s, [])
      else Ok (Continue (D_dequeue2 val), tm, s, [])
  | D_unlock_continue =>
      (* d.mutex.Unlock(); continue *)
      s' ← Unlock s;
      Ok (Continue D_check, tm, s', [])
  | D_dequeue2 _ =>
      (* val, err = d.q.Dequeue() *)
      '(nf, s', evs) ← dequeue_step s;
      Ok (nf, tm, s', evs)
  | D_select2 signal =>
      (* select { case <-ctx.Done(): ...; case <-signal: } *)
      match select (fun c => match c with
                             | CaseDone => done
                             | CaseTimer => false
                             | CaseSignal => closed signal s
                             end) pick with
      | Some CaseDone => Ok (Return (RetDequeue zero (Some CtxErr)), tm, s, [])
      | Some _ => Ok (Continue D_check, tm, s, [])
      | None => Ok (Blocked, tm, s, [])
      end
  | D_unlock err =>
      (* default: d.mutex.Unlock(); var t T; return t, fmt.Errorf(..., err) *)
      s' ← Unlock s;
      Ok (Return (RetDequeue zero (Some (Wrapped err))), tm, s', [])
  end.

(** The calls. *)
Inductive op : Type :=
| OpEnqueue (t : T)
| OpDequeue.

Definition enter (o : op) : frame :=
  match o with
  | OpEnqueue t => E_check t
  | OpDequeue => D_check
  end.

(** A goroutine makes one call: the call in progress or its result,
    whether its context is cancelled, and the timer of a [Dequeue]. *)
Inductive status : Type :=
| Running (f : frame)
| Returned (r : retval).

Record thread : Type :=
  mkThread { state : status; ctxDone : bool; tmr : option timer }.

Record system : Type := mkSystem { mem : shared; threads : list thread }.

(** What a schedule is made of: a step of a goroutine, with the case it
    prefers at a [select]; the passing of time; the cancellation of the
    context of a goroutine; the run time putting the expiry of the timer of
    a goroutine in its channel. *)
Inductive action : Type :=
| Step (tid : nat) (pick : select_case)
| Tick (dt : nat)
| Cancel (tid : nat)
| Fire (tid : nat).

Definition step (a : action) (sys : system)
  : Go.result (system * list (nat * event)) :=
  match a with
  | Step tid pick =>
      match threads sys !! tid with
      | None => Ok (sys, [])
      | Some th =>
          match state th with
          | Returned _ => Ok (sys, [])
          | Running f =>
              '(nf, tm, s', evs) ← step_frame tid (ctxDone th) (tmr th) pick f (mem sys);
              let th' := match nf with
                         | Continue f' => mkThread (Running f') (ctxDone th) tm
                         | Return r => mkThread (Returned r) (ctxDone th) (stop tm)
                         | Blocked => th
                         end in
              Ok (mkSystem s' (<[tid := th']> (threads sys)),
                  fmap (M := list) (pair tid) evs)
          end
      end
  | Tick dt =>
      Ok (mkSystem (set_now (now (mem sys) + Z.of_nat dt) (mem sys)) (threads sys), [])
  | Cancel tid =>
      Ok (mkSystem (mem sys)
            (alter (fun th => mkThread (state th) true (tmr th)) tid (threads sys)), [])
  | Fire tid =>
      Ok (mkSystem (mem sys)
            (alter (fun th =>
                      match tmr th with
                      | Some t =>
                          if active t && (when t <=? now (mem sys))
                          then mkThread (state th) (ctxDone th)
                                 (Some (mkTimer false (when t) true))
                          else th
                      | None => th
                      end) tid (threads sys)), [])
  end.

Fixpoint run (sched : list action) (sys : system)
  : Go.result (system * list (nat * event)) :=
  match sched with
  | [] => Ok (sys, [])
  | a :: rest =>
      '(sys1, evs1) ← step a sys;
      '(sys2, evs2) ← run rest sys1;
      Ok (sys2, evs1 ++ evs2)
  end.

(** [NewDelayQueue(c)] at instant [t0]: the two conditions get a channel
    each. *)
Definition NewDelayQueue (c : Z) (t0 : Z) : Go.result shared :=
  p ← PQ.NewPriorityQueue zero c;
  Ok (mkShared p None 0%nat 1%nat [false; false] t0).

(** The system at the start: a new queue and the goroutines at the first
    statement of their calls. *)
Definition init (c : Z) (t0 : Z) (calls : list op) : Go.result system :=
  s ← NewDelayQueue c t0;
  Ok (mkSystem s ((fun o => mkThread (Running (enter o)) false None) <$> calls)).

End Model.

Arguments shared T : clear implicits.
Arguments retval T : clear implicits.
Arguments frame T : clear implicits.
Arguments next_frame T : clear implicits.
Arguments event T : clear implicits.
Arguments op T : clear implicits.
Arguments status T : clear implicits.
Arguments thread T : clear implicits.
Arguments system T : clear implicits.

End DQ.

(** * Proofs *)

(** ** The run time *)

Lemma index_Ok {T} (l : list T) i x : l !! i = Some x -> Go.index l i = Ok x.
Proof. unfold Go.index. by intros ->. Qed.

Lemma index_inv {T} (l : list T) i x : Go.index l i = Ok x -> l !! i = Some x.
Proof. unfold Go.index. destruct (l !! i); [by intros [= ->] | done]. Qed.

Lemma store_Ok {T} (l : list T) i x :
  (i < length l)%nat -> Go.store l i x = Ok (<[i := x]> l).
Proof. intros H. unfold Go.store. by rewrite decide_True. Qed.

Lemma swap_Ok {T} (l : list T) i j x y :
  l !! i = Some x -> l !! j = Some y ->
  Go.swap l i j = Ok (<[j := x]> (<[i := y]> l)).
Proof.
  intros Hi Hj. unfold Go.swap.
  rewrite (index_Ok _ _ _ Hj), (index_Ok _ _ _ Hi). simpl.
  rewrite store_Ok by (by eapply lookup_lt_Some). simpl.
  rewrite store_Ok; [done |].
  rewrite length_insert. by eapply lookup_lt_Some.
Qed.

Lemma bind_assoc {A B C} (m : Go.result A) (f : A -> Go.result B) (g : B -> Go.result C) :
  (m ≫= f) ≫= g = m ≫= (fun x => f x ≫= g).
Proof. by destruct m. Qed.

(** A swap read at any position. *)
Lemma lookup_swap {T} (l : list T) i j x y k :
  l !! i = Some x -> l !! j = Some y ->
  <[j := x]> (<[i := y]> l) !! k =
    if decide (k = j) then Some x else if decide (k = i) then Some y else l !! k.
Proof.
  intros Hi Hj.
  pose proof (lookup_lt_Some _ _ _ Hi). pose proof (lookup_lt_Some _ _ _ Hj).
  destruct (decide (k = j)) as [-> | Hkj].
  - rewrite list_lookup_insert_eq; [done | by rewrite length_insert].
  - rewrite list_lookup_insert_ne by done.
    destruct (decide (k = i)) as [-> | Hki].
    + by rewrite list_lookup_insert_eq.
    + by rewrite list_lookup_insert_ne.
Qed.

(** ** Rounding to 32-bit floating point *)

Lemma digits2_size p : digits2_pos p = Pos.size p.
Proof. induction p; simpl; congruence. Qed.

Lemma digits2_bounds p :
  2 ^ (Zpos (digits2_pos p) - 1) <= Zpos p < 2 ^ Zpos (digits2_pos p).
Proof.
  rewrite digits2_size.
  pose proof (Pos.size_gt p) as Hg. pose proof (Pos.size_le p) as Hl.
  assert (Hpow : Zpos (2 ^ Pos.size p) = 2 ^ Zpos (Pos.size p)) by apply Pos2Z.inj_pow.
  assert (2 ^ Zpos (Pos.size p) = 2 * 2 ^ (Zpos (Pos.size p) - 1)).
  { rewrite <- Z.pow_succ_r by lia. f_equal. lia. }
  lia.
Qed.

Lemma shr_1_m mrs : 0 <= shr_m mrs -> shr_m (shr_1 mrs) = shr_m mrs / 2.
Proof.
  destruct mrs as [m r s]. simpl. intros Hm.
  destruct m as [| [p | p |] | p]; simpl; try lia; try reflexivity.
  - rewrite Pos2Z.inj_xI. apply (Z.div_unique _ 2 (Zpos p) 1); lia.
  - rewrite Pos2Z.inj_xO. apply (Z.div_unique _ 2 (Zpos p) 0); lia.
Qed.

Lemma iter_shr_1_m p : forall mrs,
  0 <= shr_m mrs -> shr_m (SpecFloat.iter_pos shr_1 p mrs) = shr_m mrs / 2 ^ Zpos p.
Proof.
  induction p as [p IH | p IH |]; intros mrs Hm; simpl SpecFloat.iter_pos.
  - assert (H1 : 0 <= shr_m (shr_1 mrs)) by (rewrite shr_1_m by done; apply Z.div_pos; lia).
    assert (H2 : 0 <= shr_m (SpecFloat.iter_pos shr_1 p (shr_1 mrs)))
      by (rewrite IH by done; apply Z.div_pos; lia).
    rewrite IH, IH, shr_1_m by done.
    rewrite !Z.div_div by lia. f_equal.
    change (Zpos p~1) with (2 * Zpos p + 1).
    replace (2 * Zpos p + 1) with (1 + Zpos p + Zpos p) by lia.
    rewrite !Z.pow_add_r by lia. lia.
  - assert (H2 : 0 <= shr_m (SpecFloat.iter_pos shr_1 p mrs))
      by (rewrite IH by done; apply Z.div_pos; lia).
    rewrite IH, IH by done.
    rewrite !Z.div_div by lia. f_equal.
    change (Zpos p~0) with (2 * Zpos p).
    replace (2 * Zpos p) with (Zpos p + Zpos p) by lia.
    rewrite !Z.pow_add_r by lia. lia.
  - rewrite shr_1_m by done. reflexivity.
Qed.

Lemma round_nearest_even_cases m l :
  round_nearest_even m l = m \/ round_nearest_even m l = m + 1.
Proof.
  destruct l as [| []]; simpl; auto. destruct (Z.even m); auto.
Qed.

Lemma shr_fexp_id (m : positive) (e : Z) :
  Zpos (digits2_pos m) <= 24 -> -149 <= e ->
  shr_fexp 24 128 (Zpos m) e loc_Exact = (Build_shr_record (Zpos m) false false, e).
Proof.
  intros Hd He. unfold shr_fexp, fexp, emin, Zdigits2, shr.
  destruct (Z.max (Zpos (digits2_pos m) + e - 24) (3 - 128 - 24) - e) eqn:E;
    try lia; reflexivity.
Qed.

Lemma shr_fexp_cut (m p : positive) (e : Z) :
  Zpos (digits2_pos m) - 24 = Zpos p -> -149 <= e ->
  shr_fexp 24 128 (Zpos m) e loc_Exact =
    (SpecFloat.iter_pos shr_1 p (Build_shr_record (Zpos m) false false), e + Zpos p).
Proof.
  intros Hd He. unfold shr_fexp, fexp, emin, Zdigits2, shr.
  replace (Z.max (Zpos (digits2_pos m) + e - 24) (3 - 128 - 24) - e) with (Zpos p) by lia.
  reflexivity.
Qed.

Lemma shr_fexp_carry (e : Z) :
  -149 <= e ->
  shr_fexp 24 128 (2 ^ 24) e loc_Exact = (Build_shr_record (2 ^ 23) false false, e + 1).
Proof.
  intros He. unfold shr_fexp, fexp, emin, shr.
  change (Zdigits2 (2 ^ 24)) with 25.
  replace (Z.max (25 + e - 24) (3 - 128 - 24) - e) with 1 by lia.
  reflexivity.
Qed.

Lemma digits_of_bounds (m : positive) (d : Z) :
  2 ^ (d - 1) <= Zpos m < 2 ^ d -> 0 < d -> Zpos (digits2_pos m) = d.
Proof.
  intros [Hl Hu] Hd. destruct (digits2_bounds m) as [Hl' Hu'].
  set (d' := Zpos (digits2_pos m)) in *.
  assert (0 < d') by (unfold d'; lia).
  destruct (Z.lt_trichotomy d d') as [Hlt | [-> | Hgt]]; [| done |].
  - assert (2 ^ d <= 2 ^ (d' - 1)) by (apply Z.pow_le_mono_r; lia). lia.
  - assert (2 ^ d' <= 2 ^ (d - 1)) by (apply Z.pow_le_mono_r; lia). lia.
Qed.

(** Rounding of a mantissa that fits in 24 bits is the identity. *)
Lemma round_fits (m : positive) (e : Z) :
  Zpos (digits2_pos m) <= 24 -> -149 <= e <= 104 ->
  binary_round_aux 24 128 false (Zpos m) e loc_Exact = S754_finite false m e.
Proof.
  intros Hd He. unfold binary_round_aux.
  rewrite shr_fexp_id by lia. cbn [shr_m loc_of_shr_record round_nearest_even].
  rewrite shr_fexp_id by lia. cbn [shr_m].
  destruct (Z.leb_spec e (128 - 24)); [done | lia].
Qed.

(** Rounding of a mantissa of more than 24 bits: the mantissa is cut to its
    leading 24 bits, possibly incremented, and renormalised when the
    increment carries. *)
Lemma round_cut (m : positive) (e : Z) :
  let n := Zpos (digits2_pos m) - 24 in
  0 < n -> -149 <= e -> e + n + 1 <= 104 ->
  exists q, (q = Zpos m / 2 ^ n \/ q = Zpos m / 2 ^ n + 1) /\
    2 ^ 23 <= Zpos m / 2 ^ n < 2 ^ 24 /\
    binary_round_aux 24 128 false (Zpos m) e loc_Exact =
      if q <? 2 ^ 24 then S754_finite false (Z.to_pos q) (e + n)
      else S754_finite false (Z.to_pos (2 ^ 23)) (e + n + 1).
Proof.
  intros n Hn He1 He2.
  assert (Hq0 : 2 ^ 23 <= Zpos m / 2 ^ n < 2 ^ 24).
  { destruct (digits2_bounds m) as [Hl Hu].
    replace (Zpos (digits2_pos m) - 1) with (23 + n) in Hl by (unfold n; lia).
    replace (Zpos (digits2_pos m)) with (24 + n) in Hu by (unfold n; lia).
    rewrite Z.pow_add_r in Hl, Hu by lia.
    assert (0 < 2 ^ n) by (apply Z.pow_pos_nonneg; lia).
    split.
    - apply Z.div_le_lower_bound; lia.
    - apply Z.div_lt_upper_bound; lia. }
  destruct n as [| p |] eqn:En; try lia.
  unfold binary_round_aux. rewrite (shr_fexp_cut m p) by (done || lia).
  set (mrs := SpecFloat.iter_pos shr_1 p _).
  assert (Hm : shr_m mrs = Zpos m / 2 ^ Zpos p)
    by (unfold mrs; rewrite iter_shr_1_m; simpl; [reflexivity | lia]).
  set (q := round_nearest_even (shr_m mrs) (loc_of_shr_record mrs)).
  assert (Hq : q = Zpos m / 2 ^ Zpos p \/ q = Zpos m / 2 ^ Zpos p + 1)
    by (unfold q; rewrite <- Hm; apply round_nearest_even_cases).
  exists q. split; [done | split; [done |]].
  destruct (Z.ltb_spec q (2 ^ 24)) as [Hlt | Hge].
  - assert (Hqp : exists qp, q = Zpos qp) by (destruct q; try lia; eauto).
    destruct Hqp as [qp Hqp]. rewrite Hqp in *.
    assert (Hdq : Zpos (digits2_pos qp) = 24) by (apply digits_of_bounds; lia).
    rewrite shr_fexp_id by lia. cbn [shr_m].
    destruct (Z.leb_spec (e + Zpos p) (128 - 24)); [done | lia].
  - assert (q = 2 ^ 24) as Hq24 by lia. rewrite Hq24.
    rewrite shr_fexp_carry by lia. cbn [shr_m].
    change (2 ^ 23) with (Zpos (Z.to_pos (2 ^ 23))) at 1. cbv iota.
    destruct (Z.leb_spec (e + Zpos p + 1) (128 - 24)); [done | lia].
Qed.

Lemma iter_xO_pow (m k : positive) : Zpos (Pos.iter xO m k) = Zpos m * 2 ^ Zpos k.
Proof.
  induction k as [| k IH] using Pos.peano_ind.
  - simpl. lia.
  - rewrite Pos.iter_succ, Pos2Z.inj_xO, IH, Pos2Z.inj_succ, Z.pow_succ_r by lia. lia.
Qed.

Lemma of_int_spec (c : Z) :
  2048 < c < 2 ^ 63 ->
  exists m1 e1, Float32.of_int c = S754_finite false m1 e1 /\
    2 ^ 23 <= Zpos m1 < 2 ^ 24 /\ -12 <= e1 <= 40 /\
    (e1 <= 0 -> Zpos m1 = c * 2 ^ (- e1)) /\
    (0 < e1 -> c - 2 ^ e1 < Zpos m1 * 2 ^ e1 <= c + 2 ^ e1).
Proof.
  intros Hc. destruct c as [| cp |]; try lia.
  unfold Float32.of_int, Float32.prec, Float32.emax, binary_normalize, binary_round, fexp, emin.
  destruct (digits2_bounds cp) as [Hl Hu].
  pose proof (round_cut cp 0) as Hcut. pose proof (round_fits cp 0) as Hfit.
  cbv zeta in Hcut.
  remember (Zpos (digits2_pos cp)) as d eqn:Hdd in *. clear Hdd.
  assert (Hd : 12 <= d <= 63).
  { split.
    - destruct (Z.le_gt_cases 12 d); [done |].
      assert (2 ^ d <= 2 ^ 11) by (apply Z.pow_le_mono_r; lia). lia.
    - destruct (Z.le_gt_cases d 63); [done |].
      assert (2 ^ 63 <= 2 ^ (d - 1)) by (apply Z.pow_le_mono_r; lia). lia. }
  replace (Z.max (d + 0 - 24) (3 - 128 - 24)) with (d - 24) by lia.
  unfold shl_align.
  destruct (d - 24 - 0) as [| p | p] eqn:E.
  - (* 24 digits *)
    rewrite Hfit by lia.
    exists cp, 0. split; [done |]. replace (d - 1) with 23 in Hl by lia.
    replace d with 24 in Hu by lia. split; [lia |]. split; [lia |].
    split; [intros _; simpl; lia | lia].
  - (* more than 24 digits *)
    assert (Ed : d = 24 + Zpos p) by lia. subst d.
    replace (24 + Zpos p - 24) with (Zpos p) in * by lia.
    destruct Hcut as (q & Hq & Hq0 & ->); try lia.
    assert (Hpow : 0 < 2 ^ Zpos p) by (apply Z.pow_pos_nonneg; lia).
    pose proof (Z.mul_div_le (Zpos cp) (2 ^ Zpos p) Hpow) as Hdl.
    pose proof (Z.mul_succ_div_gt (Zpos cp) (2 ^ Zpos p) Hpow) as Hdu.
    destruct (Z.ltb_spec q (2 ^ 24)) as [Hlt | Hge].
    + exists (Z.to_pos q), (0 + Zpos p). rewrite Z2Pos.id by lia.
      split; [done |]. split; [lia |]. split; [lia |].
      split; [lia |]. intros _. replace (0 + Zpos p) with (Zpos p) by lia.
      destruct Hq as [-> | ->]; nia.
    + exists (Z.to_pos (2 ^ 23)), (0 + Zpos p + 1). rewrite Z2Pos.id by lia.
      split; [done |]. split; [lia |]. split; [lia |].
      split; [lia |]. intros _. replace (0 + Zpos p + 1) with (Z.succ (Zpos p)) by lia.
      rewrite Z.pow_succ_r by lia.
      assert (Zpos cp / 2 ^ Zpos p = 2 ^ 24 - 1) by lia. nia.
  - (* fewer than 24 digits *)
    assert (Hm : Zpos (Pos.iter xO cp p) = Zpos cp * 2 ^ Zpos p) by apply iter_xO_pow.
    assert (Hdm : Zpos (digits2_pos (Pos.iter xO cp p)) = 24).
    { apply digits_of_bounds; [| lia]. rewrite Hm.
      replace 24 with (d + Zpos p) at 2 by lia.
      replace (24 - 1) with (d - 1 + Zpos p) by lia.
      rewrite !Z.pow_add_r by lia.
      assert (0 < 2 ^ Zpos p) by (apply Z.pow_pos_nonneg; lia). nia. }
    clear Hcut Hfit. rewrite round_fits by lia.
    exists (Pos.iter xO cp p), (d - 24).
    destruct (digits2_bounds (Pos.iter xO cp p)) as [Hl' Hu']. rewrite Hdm in Hl', Hu'.
    split; [done |]. split; [done |]. split; [lia |].
    split; [| lia]. intros _. rewrite Hm. do 2 f_equal. lia.
Qed.

Lemma factor32_eq : Float32.of_float64 Float32.factor64 = S754_finite false 10485760 (-24).
Proof. vm_compute. reflexivity. Qed.

Lemma mul_factor_spec (m1 : positive) (e1 : Z) :
  2 ^ 23 <= Zpos m1 < 2 ^ 24 -> -12 <= e1 <= 40 ->
  exists m2 e2, Float32.mul (S754_finite false m1 e1) (Float32.of_float64 Float32.factor64)
                = S754_finite false m2 e2 /\
    2 ^ 23 <= Zpos m2 < 2 ^ 24 /\
    ((e2 = e1 - 1 /\ 5 * Zpos m1 - 4 < 4 * Zpos m2 <= 5 * Zpos m1 + 4) \/
     (e2 = e1 /\ 5 * Zpos m1 - 8 < 8 * Zpos m2 <= 5 * Zpos m1 + 8)).
Proof.
  intros Hm He. rewrite factor32_eq. unfold Float32.mul, Float32.prec, Float32.emax, SFmul. cbn [xorb].
  pose proof (round_cut (m1 * 10485760) (e1 + -24)) as Hcut. cbv zeta in Hcut.
  rewrite Pos2Z.inj_mul in *.
  set (P := Zpos m1 * Zpos 10485760) in *.
  destruct (Z.lt_ge_cases P (2 ^ 47)) as [HP | HP].
  - assert (Hd : Zpos (digits2_pos (m1 * 10485760)) = 47).
    { apply digits_of_bounds; [| lia]. rewrite Pos2Z.inj_mul. fold P. lia. }
    rewrite Hd in Hcut. change (47 - 24) with 23 in Hcut.
    destruct Hcut as (q & Hq & Hq0 & ->); try lia.
    assert (P = Zpos m1 * 10485760) as HPe by done. clearbody P.
    change (2 ^ 23) with 8388608 in *. change (2 ^ 24) with 16777216 in *.
    change (2 ^ 47) with 140737488355328 in *.
    match type of Hq0 with context [ P / ?k ] =>
      pose proof (Z.div_mod P k ltac:(lia));
      pose proof (Z.mod_pos_bound P k ltac:(lia))
    end.
    destruct (Z.ltb_spec q 16777216) as [Hlt | Hge].
    + exists (Z.to_pos q), (e1 - 1). rewrite Z2Pos.id by lia.
      split; [f_equal; lia |]. split; [lia |]. left. split; [done |].
      destruct Hq as [-> | ->]; lia.
    + exists (Z.to_pos 8388608), e1. rewrite Z2Pos.id by lia.
      split; [f_equal; lia |]. split; [lia |]. right. split; [done |]. lia.
  - assert (Hd : Zpos (digits2_pos (m1 * 10485760)) = 48).
    { apply digits_of_bounds; [| lia]. rewrite Pos2Z.inj_mul. fold P. lia. }
    rewrite Hd in Hcut. change (48 - 24) with 24 in Hcut.
    destruct Hcut as (q & Hq & Hq0 & ->); try lia.
    assert (P = Zpos m1 * 10485760) as HPe by done. clearbody P.
    change (2 ^ 23) with 8388608 in *. change (2 ^ 24) with 16777216 in *.
    change (2 ^ 47) with 140737488355328 in *.
    match type of Hq0 with context [ P / ?k ] =>
      pose proof (Z.div_mod P k ltac:(lia));
      pose proof (Z.mod_pos_bound P k ltac:(lia))
    end.
    destruct (Z.ltb_spec q 16777216) as [Hlt | Hge].
    + exists (Z.to_pos q), e1. rewrite Z2Pos.id by lia.
      split; [f_equal; lia |]. split; [lia |]. right. split; [done |].
      destruct Hq as [-> | ->]; lia.
    + exfalso. destruct Hq as [-> | ->]; lia.
Qed.

Ltac split_range e k n :=
  lazymatch n with
  | O => exfalso; lia
  | S ?n' =>
      destruct (Z.eq_dec e k) as [-> | ?];
      [ | let k' := eval compute in (k + 1) in split_range e k' n' ]
  end.

Ltac norm_pow :=
  repeat match goal with
         | |- context [ 2 ^ ?k ] =>
             let v := eval vm_compute in (2 ^ k) in change (2 ^ k) with v
         | H : context [ 2 ^ ?k ] |- _ =>
             let v := eval vm_compute in (2 ^ k) in change (2 ^ k) with v in H
         end.

Ltac div_facts :=
  repeat match goal with
         | |- context [ ?a / ?k ] =>
             let q := fresh "q" in
             pose proof (Z.div_mod a k ltac:(lia));
             pose proof (Z.mod_pos_bound a k ltac:(lia));
             set (q := a / k) in *; clearbody q
         end.

Lemma shrink_5_8 (c : Z) :
  2048 < c <= Go.int_max ->
  let r := Float32.to_int (Float32.mul (Float32.of_int c) (Float32.of_float64 Float32.factor64)) in
  c / 2 <= r /\ 5 * c - 8 - c / 2 ^ 18 <= 8 * r <= 5 * c + c / 2 ^ 18.
Proof.
  intros Hc r. unfold Go.int_max in Hc.
  destruct (of_int_spec c ltac:(lia)) as (m1 & e1 & E1 & Hm1 & He1 & Hle & Hgt).
  destruct (mul_factor_spec m1 e1 Hm1 He1) as (m2 & e2 & E2 & Hm2 & Hcase).
  subst r. rewrite E1, E2. unfold Float32.to_int, cond_Zopp, Go.int_min, Go.int_max.
  clear E1 E2.
  split_range e1 (-12) 53%nat;
    (destruct Hcase as [[-> Hr] | [-> Hr]];
     match goal with
     | |- context [ 0 <=? ?k ] =>
         let b := eval vm_compute in (0 <=? k) in change (0 <=? k) with b
     end;
     cbv iota; norm_pow;
     try (specialize (Hle ltac:(lia))); try (specialize (Hgt ltac:(lia)));
     match goal with
     | |- context [ if ?b then _ else _ ] =>
         replace b with true
           by (symmetry; apply andb_true_intro; split; apply Z.leb_le; div_facts; lia)
     end;
     div_facts; lia).
Qed.

(** ** Comparators *)

(** A three-way comparator of a total order: the sign of [compare a b] is
    the opposite of the sign of [compare b a], and "not after" is
    transitive. *)
Class TotalOrder {T : Type} (compare : T -> T -> Z) : Prop := {
  compare_antisym : forall a b, Z.sgn (compare a b) = - Z.sgn (compare b a);
  compare_trans : forall a b c, compare a b <= 0 -> compare b c <= 0 -> compare a c <= 0
}.

Section Comparator.
Context {T : Type} (compare : T -> T -> Z) `{!TotalOrder compare}.

Lemma compare_flip a b : compare a b < 0 -> 0 <= compare b a.
Proof. intros H. pose proof (compare_antisym a b). lia. Qed.

Lemma compare_ge_le a b : 0 <= compare a b <-> compare b a <= 0.
Proof. pose proof (compare_antisym a b). lia. Qed.

Lemma compare_ge_trans a b c :
  0 <= compare a b -> 0 <= compare b c -> 0 <= compare a c.
Proof.
  rewrite !compare_ge_le. intros H1 H2. by apply compare_trans with b.
Qed.

Lemma compare_refl a : compare a a = 0.
Proof. pose proof (compare_antisym a a). lia. Qed.
End Comparator.

(** The comparator of ascending integers. *)
Definition compareInt (a b : Z) : Z :=
  if a <? b then -1 else if a =? b then 0 else 1.

#[global] Instance compareInt_total : TotalOrder compareInt.
Proof.
  split; unfold compareInt; intros;
    repeat match goal with
           | |- context [ ?a <? ?b ] => destruct (Z.ltb_spec a b)
           | |- context [ ?a =? ?b ] => destruct (Z.eqb_spec a b)
           | H : context [ ?a <? ?b ] |- _ => destruct (Z.ltb_spec a b)
           | H : context [ ?a =? ?b ] |- _ => destruct (Z.eqb_spec a b)
           end; simpl in *; lia.
Qed.

(** ** The heap invariant *)

Section Heap.
Context {T : Type} (zero : T) (compare : T -> T -> Z) `{!TotalOrder compare}.

(** The min-heap property of the 1-indexed backing array: every element
    at an index above 1 is not before its parent. *)
Definition heap_inv (d : list T) : Prop :=
  forall i x y, (1 < i)%nat -> d !! i = Some x -> d !! (i / 2)%nat = Some y ->
                0 <= compare x y.

(** The heap property with one exception, the edge between [k] and its
    parent, as it holds while the element at [k] moves up: the children of
    [k] are not before the parent of [k]. *)
Definition up_inv (d : list T) (k : nat) : Prop :=
  (forall i x y, (1 < i)%nat -> i <> k ->
                 d !! i = Some x -> d !! (i / 2)%nat = Some y -> 0 <= compare x y) /\
  (forall i x y, (1 < k)%nat -> (i / 2)%nat = k ->
                 d !! i = Some x -> d !! (k / 2)%nat = Some y -> 0 <= compare x y).

(** The heap property with the exception of the edges below [k], as it
    holds while the element at [k] moves down. *)
Definition down_inv (d : list T) (k : nat) : Prop :=
  (forall i x y, (1 < i)%nat -> (i / 2)%nat <> k ->
                 d !! i = Some x -> d !! (i / 2)%nat = Some y -> 0 <= compare x y) /\
  (forall i x y, (1 < k)%nat -> (i / 2)%nat = k ->
                 d !! i = Some x -> d !! (k / 2)%nat = Some y -> 0 <= compare x y).

Lemma half_lt k : (1 <= k)%nat -> (k / 2 < k)%nat.
Proof. intros. apply Nat.div_lt; lia. Qed.

Lemma half_pos k : (2 <= k)%nat -> (1 <= k / 2)%nat.
Proof. intros. apply Nat.div_le_lower_bound; lia. Qed.

Lemma half_ge_1 i : (1 <= i / 2)%nat -> (1 < i)%nat.
Proof. destruct i as [| [| i]]; cbn; lia. Qed.

Lemma half_cases i k : (i / 2)%nat = k -> i = (2 * k)%nat \/ i = (2 * k + 1)%nat.
Proof.
  intros <-. pose proof (Nat.div_mod_eq i 2).
  pose proof (Nat.mod_upper_bound i 2). lia.
Qed.

Lemma half_double k : (k * 2 / 2)%nat = k.
Proof. by rewrite Nat.div_mul. Qed.

Lemma half_double_1 k : ((k * 2 + 1) / 2)%nat = k.
Proof.
  symmetry. apply (Nat.div_unique _ 2 k 1); lia.
Qed.

Lemma siftUp_unfold fuel d node parent :
  PQ.siftUp compare fuel d node parent =
    if (0 <? parent)%nat then
      x ← Go.index d node;
      y ← Go.index d parent;
      if compare x y <? 0 then
        d' ← Go.swap d parent node;
        match fuel with
        | O => OutOfFuel
        | S fuel' => PQ.siftUp compare fuel' d' parent (parent / 2)%nat
        end
      else Ok d
    else Ok d.
Proof. by destruct fuel. Qed.

Lemma siftUp_spec fuel : forall d node,
  (1 <= node < length d)%nat -> (node / 2 <= fuel)%nat -> up_inv d node ->
  exists d', PQ.siftUp compare fuel d node (node / 2) = Ok d' /\
             heap_inv d' /\ d' ≡ₚ d /\ d' !! 0%nat = d !! 0%nat.
Proof.
  induction fuel as [| fuel IH]; intros d node Hn Hf [H1 H2].
  - assert (node / 2 = 0)%nat as -> by lia. rewrite siftUp_unfold. simpl.
    exists d. split_and!; try done.
    intros i x y Hi Hx Hy. apply (H1 i); try done.
    destruct (decide (node = 1)%nat) as [-> | ?]; [lia |].
    pose proof (half_pos node). lia.
  - rewrite siftUp_unfold. destruct (Nat.ltb_spec 0 (node / 2)) as [Hp | Hp].
    2:{ exists d. split_and!; try done.
        intros i x y Hi Hx Hy. apply (H1 i); try done.
        intros ->. pose proof (half_pos node). lia. }
    pose proof (half_lt node ltac:(lia)) as Hlt.
    destruct (lookup_lt_is_Some_2 d node ltac:(lia)) as [x Hx].
    destruct (lookup_lt_is_Some_2 d (node / 2) ltac:(lia)) as [y Hy].
    rewrite (index_Ok _ _ _ Hx), (index_Ok _ _ _ Hy). cbn [mbind result_bind Go.bind].
    destruct (Z.ltb_spec (compare x y) 0) as [Hc | Hc].
    2:{ exists d. split_and!; try done.
        intros i a b Hi Ha Hb.
        destruct (decide (i = node)) as [-> | ?].
        - by simplify_eq.
        - by apply (H1 i). }
    rewrite (swap_Ok _ _ _ _ _ Hy Hx). cbn [mbind result_bind Go.bind].
    set (d' := <[node := y]> (<[(node / 2)%nat := x]> d)).
    assert (Hlk : forall k, d' !! k = if decide (k = node) then Some y
                                    else if decide (k = (node / 2)%nat) then Some x
                                    else d !! k)
      by (intros k; by apply lookup_swap).
    assert (Hyx : 0 <= compare y x) by by apply compare_flip.
    destruct (IH d' (node / 2)%nat) as (d'' & Hr & Hh & Hperm & H0).
    + unfold d'. rewrite !length_insert. lia.
    + pose proof (half_lt (node / 2) ltac:(lia)). lia.
    + split.
      * intros i a b Hi Hne. rewrite !Hlk.
        destruct (decide (i = node)) as [-> | Hin].
        { rewrite decide_False by lia. rewrite decide_True by done.
          by intros [= <-] [= <-]. }
        rewrite (decide_False (P := i = (node / 2)%nat)) by done.
        intros Ha.
        destruct (decide ((i / 2)%nat = node)) as [Hpn | Hpn].
        { intros [= <-]. by apply (H2 i a y ltac:(lia) Hpn). }
        destruct (decide ((i / 2)%nat = (node / 2)%nat)) as [Hpp | Hpp].
        { intros [= <-]. apply (compare_ge_trans compare a y x); [| done].
          apply (H1 i); try done. by rewrite Hpp. }
        intros Hb. by apply (H1 i).
      * intros i a b Hk Hi. rewrite !Hlk.
        pose proof (half_lt (node / 2) ltac:(lia)).
        rewrite (decide_False (P := (node / 2 / 2)%nat = node)) by lia.
        rewrite (decide_False (P := (node / 2 / 2)%nat = (node / 2)%nat)) by lia.
        intros Ha Hb.
        assert (Hyb : 0 <= compare y b) by (apply (H1 (node / 2)%nat); [lia | lia | done | done]).
        destruct (decide (i = node)) as [-> | Hin].
        { by simplify_eq. }
        rewrite decide_False in Ha by (intros ->; lia).
        apply (compare_ge_trans compare a y b); [| done].
        apply (H1 i); [ | done | done | by rewrite Hi].
        apply half_ge_1. lia.
    + exists d''. rewrite Hr. split_and!; try done.
      * rewrite Hperm. unfold d'. by apply Permutation_insert_swap.
      * rewrite H0, Hlk. rewrite !decide_False by lia. done.
Qed.

(** The two tests at the head of an iteration of [heapify]: the position
    of the least of the element at [i] and its children. *)
Definition choose (d : list T) (n i minPos : nat) : Go.result nat :=
  minPos1 ← (if (i * 2 <=? n)%nat then
               x ← Go.index d (i * 2)%nat;
               y ← Go.index d minPos;
               Ok (if compare x y <? 0 then (i * 2)%nat else minPos)
             else Ok minPos);
  if (i * 2 + 1 <=? n)%nat then
    x ← Go.index d (i * 2 + 1)%nat;
    y ← Go.index d minPos1;
    Ok (if compare x y <? 0 then (i * 2 + 1)%nat else minPos1)
  else Ok minPos1.

Lemma heapify_loop_unfold fuel d n i minPos :
  PQ.heapify_loop compare fuel d n i minPos =
    m ← choose d n i minPos;
    if (m =? i)%nat then Ok d
    else
      d' ← Go.swap d i m;
      match fuel with
      | O => OutOfFuel
      | S fuel' => PQ.heapify_loop compare fuel' d' n m m
      end.
Proof. unfold choose. rewrite bind_assoc. by destruct fuel. Qed.

Lemma choose_spec d n k :
  length d = S n -> (1 <= k)%nat ->
  exists m, choose d n k k = Ok m /\
    (m = k \/ ((m = k * 2 \/ m = k * 2 + 1) /\ m <= n))%nat /\
    (forall c xc xm, (c / 2)%nat = k -> d !! c = Some xc -> d !! m = Some xm ->
                     0 <= compare xc xm) /\
    (forall xk xm, d !! k = Some xk -> d !! m = Some xm -> 0 <= compare xk xm).
Proof.
  intros Hlen Hk. unfold choose.
  assert (Hrefl : forall a, 0 <= compare a a)
    by (intros a; by rewrite (compare_refl compare)).
  assert (Hch : forall c xc, (c / 2)%nat = k -> d !! c = Some xc ->
            (c = k * 2 \/ c = k * 2 + 1)%nat /\ (c <= n)%nat).
  { intros c xc Hc Hxc. apply lookup_lt_Some in Hxc.
    destruct (half_cases _ _ Hc); lia. }
  destruct (Nat.leb_spec (k * 2) n) as [Hl | Hl].
  - destruct (lookup_lt_is_Some_2 d (k * 2) ltac:(lia)) as [xl Hxl].
    destruct (lookup_lt_is_Some_2 d k ltac:(lia)) as [xk Hxk].
    rewrite (index_Ok _ _ _ Hxl), (index_Ok _ _ _ Hxk).
    cbn [mbind result_bind Go.bind].
    destruct (Nat.leb_spec (k * 2 + 1) n) as [Hr | Hr].
    + destruct (lookup_lt_is_Some_2 d (k * 2 + 1) ltac:(lia)) as [xr Hxr].
      rewrite (index_Ok _ _ _ Hxr).
      destruct (Z.ltb_spec (compare xl xk) 0) as [Hc1 | Hc1].
      * rewrite (index_Ok _ _ _ Hxl). cbn [mbind result_bind Go.bind].
        destruct (Z.ltb_spec (compare xr xl) 0) as [Hc2 | Hc2].
        -- eexists; split; [done |]. split; [lia |].
           assert (0 <= compare xl xr) by by apply compare_flip.
           assert (0 <= compare xk xl) by by apply compare_flip.
           split.
           ++ intros c xc xm Hc Hxc Hxm.
              destruct (Hch _ _ Hc Hxc) as [[-> | ->] _]; by simplify_eq.
           ++ intros a b ? ?. simplify_eq.
              by apply (compare_ge_trans compare _ xl _).
        -- eexists; split; [done |]. split; [lia |].
           split.
           ++ intros c xc xm Hc Hxc Hxm.
              destruct (Hch _ _ Hc Hxc) as [[-> | ->] _]; by simplify_eq.
           ++ intros a b ? ?. simplify_eq. by apply compare_flip.
      * rewrite (index_Ok _ _ _ Hxk). cbn [mbind result_bind Go.bind].
        destruct (Z.ltb_spec (compare xr xk) 0) as [Hc2 | Hc2].
        -- eexists; split; [done |]. split; [lia |].
           assert (0 <= compare xk xr) by by apply compare_flip.
           split.
           ++ intros c xc xm Hc Hxc Hxm.
              destruct (Hch _ _ Hc Hxc) as [[-> | ->] _]; simplify_eq; [| done].
              by apply (compare_ge_trans compare _ xk _).
           ++ intros a b ? ?. by simplify_eq.
        -- eexists; split; [done |]. split; [lia |].
           split.
           ++ intros c xc xm Hc Hxc Hxm.
              destruct (Hch _ _ Hc Hxc) as [[-> | ->] _]; by simplify_eq.
           ++ intros a b ? ?. by simplify_eq.
    + destruct (Z.ltb_spec (compare xl xk) 0) as [Hc1 | Hc1].
      * eexists; split; [done |]. split; [lia |].
        split.
        -- intros c xc xm Hc Hxc Hxm.
           destruct (Hch _ _ Hc Hxc) as [[-> | ->] ?]; [by simplify_eq | lia].
        -- intros a b ? ?. simplify_eq. by apply compare_flip.
      * eexists; split; [done |]. split; [lia |].
        split.
        -- intros c xc xm Hc Hxc Hxm.
           destruct (Hch _ _ Hc Hxc) as [[-> | ->] ?]; [by simplify_eq | lia].
        -- intros a b ? ?. by simplify_eq.
  - cbn [mbind result_bind Go.bind].
    destruct (Nat.leb_spec (k * 2 + 1) n) as [Hr | Hr]; [lia |].
    eexists; split; [done |]. split; [lia |].
    split.
    + intros c xc xm Hc Hxc Hxm. destruct (Hch _ _ Hc Hxc); lia.
    + intros a b ? ?. by simplify_eq.
Qed.

Lemma heapify_loop_spec n fuel : forall d k,
  length d = S n -> (1 <= k)%nat -> (n + 1 <= fuel + k)%nat -> down_inv d k ->
  exists d', PQ.heapify_loop compare fuel d n k k = Ok d' /\
             heap_inv d' /\ d' ≡ₚ d /\ d' !! 0%nat = d !! 0%nat.
Proof.
  induction fuel as [| fuel IH]; intros d k Hlen Hk Hf [H1 H2];
    rewrite heapify_loop_unfold;
    destruct (choose_spec d n k Hlen Hk) as (m & -> & Hm & P2 & P3);
    cbn [mbind result_bind Go.bind];
    (destruct (Nat.eqb_spec m k) as [-> | Hmk];
     [ exists d; split_and!; try done;
       intros i x y Hi Hx Hy;
       destruct (decide ((i / 2)%nat = k)) as [Hik | Hik];
       [ subst k; by apply (P2 i) | by apply (H1 i) ] | ]).
  - lia.
  - destruct Hm as [-> | [Hm Hmn]]; [done |].
    assert (Hmk2 : (m / 2)%nat = k).
    { destruct Hm as [-> | ->]; [apply half_double | apply half_double_1]. }
    assert (Hkm : (k < m)%nat) by lia.
    destruct (lookup_lt_is_Some_2 d k ltac:(lia)) as [xk Hxk].
    destruct (lookup_lt_is_Some_2 d m ltac:(lia)) as [xm Hxm].
    rewrite (swap_Ok _ _ _ _ _ Hxk Hxm). cbn [mbind result_bind Go.bind].
    set (d' := <[m := xk]> (<[k := xm]> d)).
    assert (Hlk : forall j, d' !! j = if decide (j = m) then Some xk
                                    else if decide (j = k) then Some xm
                                    else d !! j)
      by (intros j; by apply lookup_swap).
    destruct (IH d' m) as (d'' & Hr & Hh & Hperm & H0).
    + unfold d'. by rewrite !length_insert.
    + lia.
    + lia.
    + split.
      * intros i a b Hi Hne. rewrite !Hlk.
        rewrite (decide_False (P := (i / 2)%nat = m)) by done.
        destruct (decide (i = m)) as [-> | Him].
        { rewrite Hmk2. rewrite decide_True by done.
          intros [= <-] [= <-]. by apply P3. }
        destruct (decide (i = k)) as [-> | Hik].
        { pose proof (half_lt k Hk).
          rewrite decide_False by lia.
          intros [= <-] Hb. by apply (H2 m xm b). }
        intros Ha.
        destruct (decide ((i / 2)%nat = k)) as [Hik2 | Hik2].
        { intros [= <-]. by apply (P2 i). }
        intros Hb. by apply (H1 i).
      * intros i a b Hm1 Him. rewrite !Hlk. rewrite Hmk2.
        rewrite (decide_False (P := k = m)) by lia.
        rewrite (decide_True (P := k = k)) by done.
        pose proof (half_cases _ _ Him).
        rewrite !decide_False by lia.
        intros Ha [= <-].
        apply (H1 i); [lia | lia | done | by rewrite Him].
    + exists d''. rewrite Hr. split_and!; try done.
      * rewrite Hperm. unfold d'. by apply Permutation_insert_swap.
      * rewrite H0, Hlk. rewrite !decide_False by lia. done.
Qed.
End Heap.

(** ** The shrink decision *)

(** The contract of the run time's growth policy: the capacity chosen
    holds the length needed and is an [int]. *)
Class GrowsliceSpec (growslice : Z -> Z -> Z) : Prop :=
  growslice_fits : forall c n, c < n <= Go.int_max -> n <= growslice c n <= Go.int_max.

Definition grow2 (c n : Z) : Z := Z.min Go.int_max (Z.max n (2 * c)).

#[global] Instance grow2_spec : GrowsliceSpec grow2.
Proof. intros c n. unfold grow2, Go.int_max. lia. Qed.

Lemma calCapacity_small c l : c <= 64 -> Slice.calCapacity c l = Ok (c, false).
Proof. intros H. unfold Slice.calCapacity. by destruct (Z.leb_spec c 64); [| lia]. Qed.

Lemma calCapacity_div_zero c : 64 < c -> Slice.calCapacity c 0 = Panic DivideByZero.
Proof.
  intros H. unfold Slice.calCapacity.
  destruct (Z.leb_spec c 64); [lia |].
  destruct (Z.ltb_spec 2048 c); [done |].
  cbn. by destruct (Z.leb_spec c 2048); [| lia].
Qed.

Lemma calCapacity_spec c l :
  1 <= l <= c -> c <= Go.int_max ->
  exists n changed,
    Slice.calCapacity c l = Ok (n, changed) /\
    l <= n <= c /\
    (changed = false -> n = c) /\
    (c <= 64 -> changed = false) /\
    (2048 < c -> 2 <= c / l ->
     changed = true /\ 5 * c - 8 - c / 2 ^ 18 <= 8 * n <= 5 * c + c / 2 ^ 18) /\
    (64 < c <= 2048 -> 4 <= c / l -> changed = true /\ n = c / 2).
Proof.
  intros Hl Hc. unfold Slice.calCapacity.
  assert (Hq : Z.quot c l = c / l) by (apply Z.quot_div_nonneg; lia).
  assert (Hq2 : Z.quot c 2 = c / 2) by (apply Z.quot_div_nonneg; lia).
  assert (Hdl : 2 <= c / l -> 2 * l <= c).
  { intros H. pose proof (Z.mul_div_le c l ltac:(lia)). nia. }
  assert (Hdl4 : 4 <= c / l -> 4 * l <= c).
  { intros H. pose proof (Z.mul_div_le c l ltac:(lia)). nia. }
  destruct (Z.leb_spec c 64) as [H64 | H64].
  { exists c, false. split_and!; try done; lia. }
  destruct (Z.eqb_spec l 0) as [-> | _]; [lia |].
  rewrite Hq, Hq2.
  destruct (Z.ltb_spec 2048 c) as [Hbig | Hbig].
  - destruct (Z.leb_spec 2 (c / l)) as [Hsparse | Hsparse];
      cbn [mbind result_bind Go.bind].
    + destruct (shrink_5_8 c ltac:(lia)) as [Hlo Hb].
      eexists _, true. split; [done |].
      assert (2 ^ 18 = 262144) as Hp by done. rewrite Hp in *.
      pose proof (Z.div_mod c 2 ltac:(lia)). pose proof (Z.mod_pos_bound c 2 ltac:(lia)).
      pose proof (Z.div_mod c 262144 ltac:(lia)).
      pose proof (Z.mod_pos_bound c 262144 ltac:(lia)).
      specialize (Hdl Hsparse).
      split_and!; try done; try lia.
    + destruct (Z.leb_spec c 2048); [lia |]. cbn [mbind result_bind Go.bind].
      exists c, false. split_and!; try done; lia.
  - cbn [mbind result_bind Go.bind].
    destruct (Z.leb_spec c 2048); [| lia].
    destruct (Z.leb_spec 4 (c / l)) as [Hsparse | Hsparse];
      cbn [mbind result_bind Go.bind].
    + exists (c / 2), true. specialize (Hdl4 Hsparse).
      pose proof (Z.div_mod c 2 ltac:(lia)). pose proof (Z.mod_pos_bound c 2 ltac:(lia)).
      split_and!; try done; lia.
    + exists c, false. split_and!; try done; lia.
Qed.

Section ShrinkFacts.
Context {T : Type} (growslice : Z -> Z -> Z).

(** A slice as the run time keeps it: the length is within the capacity,
    which is an [int]. *)
Definition slice_wf (s : Go.slice T) : Prop :=
  Z.of_nat (Go.len s) <= Go.cap s <= Go.int_max.

Lemma Shrink_spec (src : Go.slice T) :
  slice_wf src -> (1 <= Go.len src)%nat ->
  exists n changed,
    Slice.calCapacity (Go.cap src) (Z.of_nat (Go.len src)) = Ok (n, changed) /\
    Slice.Shrink growslice src = Ok (Go.mkSlice (Go.elems src) n) /\
    Z.of_nat (Go.len src) <= n <= Go.cap src.
Proof.
  intros [Hlc Hci] Hl.
  destruct (calCapacity_spec (Go.cap src) (Z.of_nat (Go.len src)))
    as (n & changed & Hcal & Hn & Hsame & _); [lia | lia |].
  exists n, changed. split; [done |]. split; [| done].
  unfold Slice.Shrink. rewrite Hcal. cbn [mbind result_bind Go.bind].
  destruct changed; cbn [negb].
  - destruct (Z.ltb_spec n 0); [lia |].
    unfold Go.append. cbn [Go.elems Go.cap length Nat.add app].
    fold (Go.len src). by destruct (Z.leb_spec (Z.of_nat (Go.len src)) n); [| lia].
  - rewrite Hsame by done. by destruct src.
Qed.

Lemma Shrink_empty (src : Go.slice T) :
  Go.len src = 0%nat -> 64 < Go.cap src ->
  Slice.Shrink growslice src = Panic DivideByZero.
Proof.
  intros Hl Hc. unfold Slice.Shrink. rewrite Hl. cbn [Z.of_nat].
  by rewrite calCapacity_div_zero.
Qed.
End ShrinkFacts.

(** ** The priority queue *)

Section PQFacts.
Context {T : Type} (zero : T) (compare : T -> T -> Z) (growslice : Z -> Z -> Z).
Context `{!TotalOrder compare} `{!GrowsliceSpec growslice}.

Local Abbreviation PQueue := (PQ.PriorityQueue T).
Local Abbreviation Peek := (PQ.Peek zero).
Local Abbreviation Enqueue := (PQ.Enqueue compare growslice).
Local Abbreviation Dequeue := (PQ.Dequeue zero compare growslice).
Local Abbreviation NewPriorityQueue := (PQ.NewPriorityQueue zero).

(** The backing array of a queue. *)
Definition backing (p : PQueue) : list T := Go.elems (PQ.data p).

(** The elements the queue holds: all but the unused slot 0. *)
Definition held (p : PQueue) : list T := drop 1 (backing p).

(** The shape of a queue: slot 0 is present and the slice is one the run
    time can hold. *)
Definition wf (p : PQueue) : Prop :=
  (1 <= length (backing p))%nat /\ slice_wf (PQ.data p).

(** The states of a queue built by [NewPriorityQueue] and used through
    its methods. *)
Inductive reachable : PQueue -> Prop :=
| reach_new c p :
    Go.int_min <= c <= Go.int_max ->
    NewPriorityQueue c = Ok p -> reachable p
| reach_peek p p' r :
    reachable p -> Peek p = Ok (p', r) -> reachable p'
| reach_enqueue p t p' e :
    reachable p -> Enqueue p t = Ok (p', e) -> reachable p'
| reach_dequeue p p' r :
    reachable p -> Dequeue p = Ok (p', r) -> reachable p'.

Lemma New_spec c p :
  NewPriorityQueue c = Ok p ->
  backing p = [zero] /\ wf p /\ heap_inv compare (backing p) /\
  PQ.capacity p = Z.max 0 c.
Proof.
  unfold PQ.NewPriorityQueue, Go.make.
  destruct (Z.ltb_spec c 1) as [Hc | Hc].
  - cbn. intros [= <-]. unfold wf, slice_wf, backing. cbn.
    split_and!; try done; try lia.
    intros i x y Hi Hx. apply lookup_lt_Some in Hx. cbn in Hx. lia.
  - destruct (Z.ltb_spec (Go.wrap (c + 1)) (Z.of_nat 1)) as [Hw | Hw]; [done |].
    cbn. intros [= <-]. unfold wf, slice_wf, backing. cbn.
    assert (Go.wrap (c + 1) <= Go.int_max).
    { unfold Go.wrap, Go.int_max.
      pose proof (Z.mod_pos_bound (c + 1 + 2 ^ 63) (2 ^ 64) eq_refl). lia. }
    split_and!; try done; try lia.
    intros i x y Hi Hx. apply lookup_lt_Some in Hx. cbn in Hx. lia.
Qed.

Lemma heap_inv_up_inv_snoc d t :
  heap_inv compare d -> up_inv compare (d ++ [t]) (length d).
Proof.
  intros Hh. split.
  - intros i x y Hi Hne Hx Hy.
    pose proof (lookup_lt_Some _ _ _ Hx) as Hlt. rewrite length_app in Hlt. cbn in Hlt.
    pose proof (half_lt i ltac:(lia)).
    rewrite lookup_app_l in Hx by lia. rewrite lookup_app_l in Hy by lia.
    by apply (Hh i).
  - intros i x y Hk Hi Hx Hy.
    pose proof (lookup_lt_Some _ _ _ Hx) as Hlt. rewrite length_app in Hlt. cbn in Hlt.
    destruct (half_cases _ _ Hi); lia.
Qed.

Lemma Enqueue_full p t :
  PQ.isFull p = true -> Enqueue p t = Ok (p, Some ErrOutOfCapacity).
Proof. intros H. unfold PQ.Enqueue. by rewrite H. Qed.

Lemma Enqueue_spec p t :
  wf p -> heap_inv compare (backing p) -> PQ.isFull p = false ->
  Z.of_nat (length (backing p)) < Go.int_max ->
  exists p', Enqueue p t = Ok (p', None) /\
    wf p' /\ heap_inv compare (backing p') /\
    PQ.capacity p' = PQ.capacity p /\
    backing p' ≡ₚ backing p ++ [t] /\ backing p' !! 0%nat = backing p !! 0%nat.
Proof.
  intros [Hlen [Hlc Hci]] Hh Hfull Hmax. unfold PQ.Enqueue. rewrite Hfull.
  unfold backing, Go.len in *.
  destruct p as [capa [es c]]. cbn [PQ.data PQ.capacity Go.elems Go.cap] in *.
  assert (exists c', Go.append growslice (Go.mkSlice es c) [t] = Ok (Go.mkSlice (es ++ [t]) c')
                     /\ Z.of_nat (length (es ++ [t])) <= c' <= Go.int_max)
    as (c' & -> & Hc').
  { unfold Go.append. cbn [Go.elems Go.cap length].
    rewrite length_app. cbn [length].
    destruct (Z.leb_spec (Z.of_nat (length es + 1)) c).
    - exists c. split; [done | lia].
    - destruct (Z.ltb_spec Go.int_max (Z.of_nat (length es + 1))); [lia |].
      eexists. split; [done |]. apply growslice_fits. lia. }
  cbn [mbind result_bind Go.bind Go.len Go.elems Go.cap].
  rewrite length_app in *. cbn [length] in *.
  replace (length es + 1 - 1)%nat with (length es) by lia.
  destruct (siftUp_spec compare (length es + 1) (es ++ [t]) (length es))
    as (d' & -> & Hh' & Hperm & H0).
  - rewrite length_app. cbn. lia.
  - pose proof (half_lt (length es) ltac:(lia)). lia.
  - by apply heap_inv_up_inv_snoc.
  - cbn [mbind result_bind Go.bind].
    eexists. split; [done |]. cbn [PQ.data PQ.capacity Go.elems Go.cap].
    assert (Hl' : length d' = (length es + 1)%nat)
      by (rewrite Hperm, length_app; cbn; lia).
    split_and!; try done.
    + unfold wf, slice_wf, backing, Go.len. cbn. lia.
    + rewrite H0. apply lookup_app_l. lia.
Qed.

Lemma Dequeue_empty p :
  PQ.isEmpty p = true -> Dequeue p = Ok (p, (zero, Some ErrEmptyQueue)).
Proof. intros H. unfold PQ.Dequeue. by rewrite H. Qed.

(** The backing array after the last element has replaced the root and
    the slice has been cut by one. *)
Lemma root_replaced (z pop : T) (r : list T) (l : T) :
  let es := z :: pop :: r ++ [l] in
  Go.index es 1 = Ok pop /\
  Go.index es (length es - 1) = Ok l /\
  Go.store es 1 l = Ok (z :: l :: r ++ [l]) /\
  take (length (z :: l :: r ++ [l]) - 1) (z :: l :: r ++ [l]) = z :: l :: r.
Proof.
  cbn zeta. split_and!.
  - done.
  - apply index_Ok. cbn [length]. rewrite length_app. cbn [length].
    replace (S (S (length r + 1)) - 1)%nat with (S (S (length r))) by lia.
    cbn. by apply list_lookup_middle.
  - rewrite store_Ok by (cbn; lia). done.
  - cbn [length]. rewrite length_app. cbn [length].
    replace (S (S (length r + 1)) - 1)%nat with (S (S (length r))) by lia.
    cbn. by rewrite take_app_length.
Qed.

Lemma lookup_cons_cons (a b : T) (t : list T) i :
  (2 <= i)%nat -> (a :: b :: t) !! i = t !! (i - 2)%nat.
Proof.
  intros Hi. destruct i as [| [| i]]; [lia | lia |].
  cbn. by replace (i - 0)%nat with i by lia.
Qed.

Lemma down_inv_root (z pop : T) (r : list T) (l : T) :
  heap_inv compare (z :: pop :: r ++ [l]) -> down_inv compare (z :: l :: r) 1.
Proof.
  intros Hh. split; [| lia].
  intros i x y Hi Hne Hx Hy.
  assert (Hi2 : (2 <= i / 2)%nat).
  { pose proof (half_pos i ltac:(lia)). lia. }
  rewrite lookup_cons_cons in Hx, Hy by lia.
  apply (Hh i); [done | |]; rewrite lookup_cons_cons by lia;
    by apply lookup_app_l_Some.
Qed.

Lemma Dequeue_spec p :
  wf p -> heap_inv compare (backing p) -> PQ.isEmpty p = false ->
  exists p' pop, Dequeue p = Ok (p', (pop, None)) /\
    backing p !! 1%nat = Some pop /\
    wf p' /\ heap_inv compare (backing p') /\
    PQ.capacity p' = PQ.capacity p /\
    held p ≡ₚ pop :: held p' /\ backing p' !! 0%nat = backing p !! 0%nat.
Proof.
  intros [Hlen [Hlc Hci]] Hh Hempty. unfold PQ.Dequeue. rewrite Hempty.
  unfold PQ.isEmpty in Hempty. apply Z.ltb_ge in Hempty.
  unfold held, backing, Go.len in *.
  destruct p as [capa [es c]]. cbn [PQ.data PQ.capacity Go.elems Go.cap] in *.
  destruct es as [| z [| pop r]]; cbn [length] in Hlen, Hlc, Hempty; [lia | lia |].
  assert (Hshrink : forall d : list T, (1 <= length d)%nat -> (length d <= S (length r))%nat ->
    exists c', PQ.shrinkIfNecessary growslice (PQ.mkPQ capa (Go.mkSlice d c)) =
                 Ok (PQ.mkPQ capa (Go.mkSlice d c')) /\
               Z.of_nat (length d) <= c' <= Go.int_max).
  { intros d Hd1 Hd2. unfold PQ.shrinkIfNecessary, PQ.IsBoundless.
    cbn [PQ.capacity PQ.data].
    destruct (capa <=? 0).
    - destruct (Shrink_spec growslice (Go.mkSlice d c)) as (n & ch & _ & -> & Hn).
      + unfold slice_wf, Go.len. cbn. lia.
      + done.
      + cbn in Hn. unfold Go.len in Hn. cbn in Hn.
        exists n. split; [done | lia].
    - exists c. split; [done | lia]. }
  assert (Hheap : forall (d : list T) c', length d = S (length r) ->
    down_inv compare d 1 -> d !! 0%nat = Some z -> d ≡ₚ z :: r ->
    Z.of_nat (length d) <= c' <= Go.int_max ->
    exists p', (es4 ← PQ.heapify compare d (length d - 1) 1;
                Ok (PQ.mkPQ capa (Go.mkSlice es4 c'), (pop, @None Go.error))) =
               Ok (p', (pop, None)) /\
      wf p' /\ heap_inv compare (backing p') /\ PQ.capacity p' = capa /\
      drop 1 (z :: pop :: r) ≡ₚ pop :: held p' /\
      backing p' !! 0%nat = Some z).
  { intros d c' Hd Hdown Hd0 Hdperm Hc'. unfold PQ.heapify.
    destruct (heapify_loop_spec compare (length d - 1) (length d) d 1)
      as (d' & -> & Hh' & Hperm & H0); [lia | lia | lia | done |].
    cbn [mbind result_bind Go.bind].
    eexists. split; [done |].
    unfold wf, slice_wf, held, backing, Go.len.
    cbn [PQ.data PQ.capacity Go.elems Go.cap].
    assert (length d' = length d) by by rewrite Hperm.
    split_and!; try done; try lia.
    - cbn [drop]. constructor.
      destruct d' as [| z' t']; [cbn in *; lia |].
      rewrite Hd0 in H0. cbn in H0. injection H0 as ->.
      cbn [drop]. rewrite Hdperm in Hperm.
      symmetry. by apply Permutation_cons_inv in Hperm.
    - by rewrite H0. }
  destruct r as [| a r0 _] using rev_ind.
  - (* one element *)
    change (Go.index [z; pop] 1) with (Ok pop).
    change (Go.index [z; pop] (length [z; pop] - 1)) with (Ok pop).
    cbn [mbind result_bind Go.bind].
    rewrite store_Ok by (cbn; lia).
    cbn [mbind result_bind Go.bind].
    unfold Go.reslice. rewrite decide_True by (cbn; lia).
    cbn [mbind result_bind Go.bind Go.elems Go.cap length Nat.sub take
           insert list_insert].
    destruct (Hshrink [z]) as (c' & -> & Hc'); [cbn; lia | cbn; lia |].
    cbn [mbind result_bind Go.bind PQ.data PQ.capacity Go.elems Go.cap Go.len].
    destruct (Hheap [z] c') as (p' & -> & ? & ? & ? & ? & ?); try done.
    + split; [| lia]. intros i x y Hi Hne Hx. apply lookup_lt_Some in Hx. cbn in Hx. lia.
    + exists p', pop. split_and!; done.
  - (* at least two elements *)
    destruct (root_replaced z pop r0 a) as (E1 & E2 & E3 & Htake).
    rewrite E1. cbn [mbind result_bind Go.bind].
    rewrite E2. cbn [mbind result_bind Go.bind].
    rewrite E3. cbn [mbind result_bind Go.bind].
    unfold Go.reslice. cbn [Go.elems Go.cap].
    rewrite decide_True by lia. rewrite Htake.
    cbn [mbind result_bind Go.bind].
    destruct (Hshrink (z :: a :: r0)) as (c' & -> & Hc').
    { cbn; lia. } { rewrite length_app. cbn. lia. }
    cbn [mbind result_bind Go.bind PQ.data PQ.capacity Go.elems Go.cap Go.len].
    destruct (Hheap (z :: a :: r0) c') as (p' & -> & ? & ? & ? & ? & ?); try done.
    + rewrite length_app. cbn. lia.
    + by apply down_inv_root with pop.
    + constructor. by rewrite Permutation_cons_append.
    + exists p', pop. split_and!; done.
Qed.

Lemma Enqueue_overflow p t :
  wf p -> PQ.isFull p = false -> Go.int_max <= Z.of_nat (length (backing p)) ->
  Enqueue p t = Panic GrowsliceLenOutOfRange.
Proof.
  intros [Hlen [Hlc Hci]] Hfull Hmax. unfold PQ.Enqueue. rewrite Hfull.
  unfold backing, Go.len, Go.append in *. rewrite Nat2Z.inj_add. cbn [length].
  destruct (Z.leb_spec (Z.of_nat (length (Go.elems (PQ.data p))) + Z.of_nat 1)
              (Go.cap (PQ.data p))); [lia |].
  by destruct (Z.ltb_spec Go.int_max
                 (Z.of_nat (length (Go.elems (PQ.data p))) + Z.of_nat 1)); [| lia].
Qed.

Lemma Enqueue_inv p t p' e :
  wf p -> heap_inv compare (backing p) -> Enqueue p t = Ok (p', e) ->
  wf p' /\ heap_inv compare (backing p').
Proof.
  intros Hwf Hh He.
  destruct (PQ.isFull p) eqn:Hfull.
  - rewrite Enqueue_full in He by done. by simplify_eq.
  - destruct (Z.lt_ge_cases (Z.of_nat (length (backing p))) Go.int_max) as [Hlt | Hge].
    + destruct (Enqueue_spec p t Hwf Hh Hfull Hlt) as (p'' & E & ? & ? & _).
      rewrite E in He. by simplify_eq.
    + by rewrite Enqueue_overflow in He.
Qed.

Lemma Dequeue_inv p :
  wf p -> heap_inv compare (backing p) ->
  exists p' r, Dequeue p = Ok (p', r) /\ wf p' /\ heap_inv compare (backing p').
Proof.
  intros Hwf Hh.
  destruct (PQ.isEmpty p) eqn:Hempty.
  - rewrite Dequeue_empty by done. by eexists _, _.
  - destruct (Dequeue_spec p Hwf Hh Hempty) as (p' & pop & -> & _ & ? & ? & _).
    by eexists _, _.
Qed.

Lemma Peek_unchanged p p' r : Peek p = Ok (p', r) -> p' = p.
Proof.
  unfold PQ.Peek. destruct (PQ.isEmpty p); [by intros [= <-] |].
  destruct (Go.index _ _); cbn; [by intros [= <-] | done | done].
Qed.

Lemma reachable_inv p : reachable p -> wf p /\ heap_inv compare (backing p).
Proof.
  induction 1 as [c p _ Hnew | p p' r _ IH Hpeek | p t p' e _ [Hwf Hh] Henq
                 | p p' r _ [Hwf Hh] Hdeq].
  - by destruct (New_spec c p Hnew) as (_ & ? & ? & _).
  - by rewrite (Peek_unchanged _ _ _ Hpeek).
  - by apply (Enqueue_inv p t p' e).
  - destruct (Dequeue_inv p Hwf Hh) as (p'' & r' & E & ? & ?).
    rewrite E in Hdeq. by simplify_eq.
Qed.

(** In a heap the root is not after any element. *)
Lemma heap_root_min d r :
  heap_inv compare d -> d !! 1%nat = Some r ->
  forall i y, (1 <= i)%nat -> d !! i = Some y -> compare r y <= 0.
Proof.
  intros Hh Hr i. induction i as [i IH] using lt_wf_ind. intros y Hi Hy.
  destruct (decide (i = 1%nat)) as [-> | Hne].
  - simplify_eq. by rewrite (compare_refl compare).
  - pose proof (half_lt i Hi). pose proof (half_pos i ltac:(lia)).
    pose proof (lookup_lt_Some _ _ _ Hy).
    destruct (lookup_lt_is_Some_2 d (i / 2) ltac:(lia)) as [z Hz].
    apply (compare_trans r z y).
    + by apply (IH (i / 2)%nat).
    + apply compare_ge_le; [done |]. apply (Hh i); [lia | done | done].
Qed.

Lemma Peek_spec p :
  wf p -> heap_inv compare (backing p) ->
  match held p with
  | [] => Peek p = Ok (p, (zero, Some ErrEmptyQueue))
  | x :: _ => Peek p = Ok (p, (x, None)) /\
              forall y, y ∈ held p -> compare x y <= 0
  end.
Proof.
  intros [Hlen _] Hh. unfold held, backing, PQ.Peek, PQ.isEmpty, Go.len in *.
  destruct (Go.elems (PQ.data p)) as [| z [| x r]] eqn:E;
    cbn [length] in *; [lia | reflexivity |].
  cbn [drop]. split.
  { by destruct (Z.ltb_spec (Z.of_nat (S (S (length r)))) 2); [lia |]. }
  intros y [j Hj]%list_elem_of_lookup.
  apply (heap_root_min (z :: x :: r) x Hh eq_refl (S j)); [lia | done].
Qed.
End PQFacts.

(** * The claims about the priority queue and the shrink decision *)

Section PQClaims.
Context {T : Type} (zero : T) (compare : T -> T -> Z) (growslice : Z -> Z -> Z).

(** C1: the min-heap invariant (every element at an index above 1 of the
    1-indexed backing array is not before its parent) holds after
    construction, and every Enqueue and every Dequeue that returns carries a
    well-formed heap to a well-formed heap; Enqueue does return on any heap
    whose length is below the largest [int], and Dequeue always returns.
    Hence the invariant holds in every reachable state. *)
Theorem heap_invariant_preserved `{!TotalOrder compare} `{!GrowsliceSpec growslice} :
  (forall c p, PQ.NewPriorityQueue zero c = Ok p ->
               wf p /\ heap_inv compare (backing p)) /\
  (forall p t, wf p -> heap_inv compare (backing p) ->
     (forall p' e, PQ.Enqueue compare growslice p t = Ok (p', e) ->
                   wf p' /\ heap_inv compare (backing p')) /\
     (Z.of_nat (length (backing p)) < Go.int_max ->
      exists p' e, PQ.Enqueue compare growslice p t = Ok (p', e))) /\
  (forall p, wf p -> heap_inv compare (backing p) ->
     exists p' r, PQ.Dequeue zero compare growslice p = Ok (p', r) /\
                  wf p' /\ heap_inv compare (backing p')) /\
  (forall p, reachable zero compare growslice p -> heap_inv compare (backing p)).
Proof.
  split_and!.
  - intros c p Hnew. by destruct (New_spec zero compare c p Hnew) as (_ & ? & ? & _).
  - intros p t Hwf Hh. split.
    + intros p' e. by apply Enqueue_inv.
    + intros Hlt. destruct (PQ.isFull p) eqn:Hfull.
      * eexists _, _. by apply Enqueue_full.
      * destruct (Enqueue_spec compare growslice p t Hwf Hh Hfull Hlt) as (p' & E & _).
        by eexists _, _.
  - intros p. by apply Dequeue_inv.
  - intros p Hr. by apply (reachable_inv zero compare growslice).
Qed.

(** C7: in every reachable state Peek leaves the queue as it is and, when
    the queue holds an element, returns a held element that is not after
    any held element; it fails with the queue-empty error exactly when the
    queue holds no element. *)
Theorem Peek_returns_minimum `{!TotalOrder compare} `{!GrowsliceSpec growslice} p :
  reachable zero compare growslice p ->
  exists r, PQ.Peek zero p = Ok (p, r) /\
    (held p = [] -> r = (zero, Some ErrEmptyQueue)) /\
    (held p <> [] ->
     exists x, r = (x, None) /\ x ∈ held p /\
               forall y, y ∈ held p -> compare x y <= 0).
Proof.
  intros Hr. destruct (reachable_inv zero compare growslice p Hr) as [Hwf Hh].
  pose proof (Peek_spec zero compare p Hwf Hh) as Hp.
  destruct (held p) as [| x rest].
  - eexists. split; [done |]. split; [done |]. done.
  - destruct Hp as [-> Hmin]. eexists. split; [done |].
    split; [done |]. intros _. exists x. split_and!; [done | by left | done].
Qed.

(** C10: [calCapacity] divides by the length whenever the capacity exceeds
    64, so that [Shrink] of an empty slice of such a capacity panics with a
    division by zero; the slice a Dequeue hands to [Shrink] always has slot 0
    and therefore a length of at least 1, and no method of a reachable queue
    panics with a division by zero: Peek and Dequeue always return, and
    Enqueue returns or reports a length that is not an [int]. *)
Theorem shrink_division_by_zero_unreachable
  `{!TotalOrder compare} `{!GrowsliceSpec growslice} :
  (forall c, 64 < c -> Slice.calCapacity c 0 = Panic DivideByZero) /\
  (forall src : Go.slice T, Go.len src = 0%nat -> 64 < Go.cap src ->
     Slice.Shrink growslice src = Panic DivideByZero) /\
  (forall p, reachable zero compare growslice p ->
     (1 <= length (backing p))%nat /\
     (PQ.isEmpty p = false ->
      exists pop d2,
        (1 <= Go.len d2)%nat /\
        PQ.Dequeue zero compare growslice p =
          (p3 ← PQ.shrinkIfNecessary growslice (PQ.mkPQ (PQ.capacity p) d2);
           es4 ← PQ.heapify compare (Go.elems (PQ.data p3)) (Go.len (PQ.data p3) - 1) 1;
           Ok (PQ.mkPQ (PQ.capacity p3) (Go.mkSlice es4 (Go.cap (PQ.data p3))),
               (pop, None)))) /\
     (exists r, PQ.Peek zero p = Ok r) /\
     (exists r, PQ.Dequeue zero compare growslice p = Ok r) /\
     (forall t, (exists r, PQ.Enqueue compare growslice p t = Ok r) \/
                PQ.Enqueue compare growslice p t = Panic GrowsliceLenOutOfRange)).
Proof.
  split_and!.
  - apply calCapacity_div_zero.
  - apply Shrink_empty.
  - intros p Hr. destruct (reachable_inv zero compare growslice p Hr) as [Hwf Hh].
    split_and!.
    + apply Hwf.
    + intros Hempty. destruct Hwf as [Hlen _].
      unfold PQ.Dequeue. rewrite Hempty.
      unfold PQ.isEmpty in Hempty. apply Z.ltb_ge in Hempty.
      unfold backing, Go.len in *.
      destruct (Go.elems (PQ.data p)) as [| z [| pop r]] eqn:E;
        cbn [length] in Hlen, Hempty; [lia | lia |].
      destruct (lookup_lt_is_Some_2 (z :: pop :: r) (length (z :: pop :: r) - 1))
        as [l Hl]; [cbn; lia |].
      rewrite (index_Ok _ _ _ Hl).
      change (Go.index (z :: pop :: r) 1) with (Ok pop).
      cbn [mbind result_bind Go.bind].
      rewrite store_Ok by (cbn; lia). cbn [mbind result_bind Go.bind].
      unfold Go.reslice. cbn [Go.elems Go.cap]. rewrite decide_True by lia.
      cbn [mbind result_bind Go.bind].
      eexists pop, _. split; [| done].
      cbn [Go.len Go.elems]. rewrite length_take, length_insert. cbn [length]. lia.
    + pose proof (Peek_spec zero compare p Hwf Hh) as Hp.
      destruct (held p); [by eexists | destruct Hp as [-> _]; by eexists].
    + destruct (Dequeue_inv zero compare growslice p Hwf Hh) as (p' & r & -> & _).
      by eexists.
    + intros t. destruct (PQ.isFull p) eqn:Hfull.
      * left. eexists. by apply Enqueue_full.
      * destruct (Z.lt_ge_cases (Z.of_nat (length (backing p))) Go.int_max) as [Hlt | Hge].
        -- destruct (Enqueue_spec compare growslice p t Hwf Hh Hfull Hlt) as (p' & E & _).
           left. by eexists.
        -- right. by apply Enqueue_overflow.
Qed.

End PQClaims.

(** C3: the capacity [calCapacity] decides on is a function of the capacity
    [c] and the length [l] only, and for [1 <= l <= c] it is never below [l]
    and never above [c]: a capacity of at most 64 is kept; a capacity above
    2048 with [c / l >= 2] becomes 5/8 of [c] up to the rounding of 32-bit
    floating point; a capacity in (64, 2048] with [c / l >= 4] becomes
    [c / 2].  [Shrink] returns the same elements in a slice of that
    capacity. *)
Theorem shrink_decision_conservative (c l : Z) :
  1 <= l <= c -> c <= Go.int_max ->
  exists n changed,
    Slice.calCapacity c l = Ok (n, changed) /\
    l <= n <= c /\
    (changed = false -> n = c) /\
    (c <= 64 -> changed = false) /\
    (2048 < c -> 2 <= c / l ->
     changed = true /\ 5 * c - 8 - c / 2 ^ 18 <= 8 * n <= 5 * c + c / 2 ^ 18) /\
    (64 < c <= 2048 -> 4 <= c / l -> changed = true /\ n = c / 2) /\
    (forall (T : Type) (growslice : Z -> Z -> Z) (src : Go.slice T),
        Go.cap src = c -> Z.of_nat (Go.len src) = l ->
        Slice.Shrink growslice src = Ok (Go.mkSlice (Go.elems src) n)).
Proof.
  intros Hl Hc.
  destruct (calCapacity_spec c l Hl Hc) as (n & changed & Hcal & Hn & H1 & H2 & H3 & H4).
  exists n, changed. split_and!; try done; try lia.
  intros T growslice src Hcap Hlen.
  destruct (Shrink_spec growslice src) as (n' & changed' & Hcal' & -> & _).
  - unfold slice_wf. lia.
  - lia.
  - rewrite Hcap, Hlen, Hcal in Hcal'. by simplify_eq.
Qed.

(** C8: the scenario of a bounded queue of capacity 2 over ascending
    integers. *)
Theorem bounded_queue_scenario (growslice : Z -> Z -> Z) :
  exists p0 p1 p2 p4,
    PQ.NewPriorityQueue 0 2 = Ok p0 /\
    PQ.Enqueue compareInt growslice p0 5 = Ok (p1, None) /\
    PQ.Enqueue compareInt growslice p1 3 = Ok (p2, None) /\
    PQ.Peek 0 p2 = Ok (p2, (3, None)) /\
    PQ.Enqueue compareInt growslice p2 9 = Ok (p2, Some ErrOutOfCapacity) /\
    PQ.Dequeue 0 compareInt growslice p2 = Ok (p4, (3, None)) /\
    PQ.Peek 0 p4 = Ok (p4, (5, None)).
Proof.
  exists (PQ.mkPQ 2 (Go.mkSlice [0] 3)), (PQ.mkPQ 2 (Go.mkSlice [0; 5] 3)),
         (PQ.mkPQ 2 (Go.mkSlice [0; 3; 5] 3)), (PQ.mkPQ 2 (Go.mkSlice [0; 5] 3)).
  split_and!; vm_compute; reflexivity.
Qed.

(** ** The claims at concrete inputs *)

Lemma heap_invariant_preserved_witness :
  TotalOrder compareInt /\ GrowsliceSpec grow2 /\
  forall p, reachable 0 compareInt grow2 p -> heap_inv compareInt (backing p).
Proof.
  split; [exact compareInt_total |]. split; [exact grow2_spec |].
  apply (heap_invariant_preserved 0 compareInt grow2
           (TotalOrder0 := compareInt_total) (GrowsliceSpec0 := grow2_spec)).
Defined.

Definition scenario_p2 : PQ.PriorityQueue Z := PQ.mkPQ 2 (Go.mkSlice [0; 3; 5] 3).

Lemma scenario_p2_reachable : reachable 0 compareInt grow2 scenario_p2.
Proof.
  apply (reach_enqueue 0 compareInt grow2 (PQ.mkPQ 2 (Go.mkSlice [0; 5] 3)) 3 _ None);
    [| vm_compute; reflexivity].
  apply (reach_enqueue 0 compareInt grow2 (PQ.mkPQ 2 (Go.mkSlice [0] 3)) 5 _ None);
    [| vm_compute; reflexivity].
  apply (reach_new 0 compareInt grow2 2); [| vm_compute; reflexivity].
  unfold Go.int_min, Go.int_max. lia.
Defined.

Lemma Peek_returns_minimum_witness :
  TotalOrder compareInt /\ GrowsliceSpec grow2 /\
  reachable 0 compareInt grow2 scenario_p2 /\
  exists r, PQ.Peek 0 scenario_p2 = Ok (scenario_p2, r) /\
    (held scenario_p2 = [] -> r = (0, Some ErrEmptyQueue)) /\
    (held scenario_p2 <> [] ->
     exists x, r = (x, None) /\ x ∈ held scenario_p2 /\
               forall y, y ∈ held scenario_p2 -> compareInt x y <= 0).
Proof.
  split; [exact compareInt_total |]. split; [exact grow2_spec |].
  split; [exact scenario_p2_reachable |].
  apply (Peek_returns_minimum 0 compareInt grow2
           (TotalOrder0 := compareInt_total) (GrowsliceSpec0 := grow2_spec)
           scenario_p2 scenario_p2_reachable).
Defined.

(** A run of calls on a queue: [Some t] is [Enqueue(t)], [None] is
    [Dequeue()]. *)
Fixpoint run_calls {T : Type} (zero : T) (compare : T -> T -> Z) (growslice : Z -> Z -> Z)
    (cs : list (option T)) (p : PQ.PriorityQueue T) : Go.result (PQ.PriorityQueue T) :=
  match cs with
  | [] => Ok p
  | Some t :: cs' =>
      '(p', _) ← PQ.Enqueue compare growslice p t;
      run_calls zero compare growslice cs' p'
  | None :: cs' =>
      '(p', _) ← PQ.Dequeue zero compare growslice p;
      run_calls zero compare growslice cs' p'
  end.

Lemma run_calls_reachable {T : Type} (zero : T) compare growslice cs :
  forall p p', reachable zero compare growslice p ->
    run_calls zero compare growslice cs p = Ok p' ->
    reachable zero compare growslice p'.
Proof.
  induction cs as [| [t |] cs IH]; intros p p' Hr; cbn [run_calls].
  - by intros [= <-].
  - destruct (PQ.Enqueue compare growslice p t) as [[p1 e] | |] eqn:E; [| done | done].
    cbn [mbind result_bind Go.bind]. apply IH. by eapply reach_enqueue.
  - destruct (PQ.Dequeue zero compare growslice p) as [[p1 r] | |] eqn:E; [| done | done].
    cbn [mbind result_bind Go.bind]. apply IH. by eapply reach_dequeue.
Qed.

(** An unbounded queue: 1, ..., 64 are enqueued, which makes the slice of
    capacity 64 grow, and 32 elements are dequeued. *)
Definition sparse_calls : list (option Z) := (Some <$> seqZ 1 64) ++ replicate 32 None.

(** On the queue these calls leave, which is unbounded and holds 32
    elements in a slice of capacity 128, [Dequeue] hands [Shrink] a slice
    of length 32 and [Shrink] halves the capacity. *)
Lemma shrink_division_by_zero_unreachable_witness :
  TotalOrder compareInt /\ GrowsliceSpec grow2 /\
  Slice.calCapacity 128 0 = Panic DivideByZero /\
  exists p0 p p' v,
    PQ.NewPriorityQueue 0 0 = Ok p0 /\
    run_calls 0 compareInt grow2 sparse_calls p0 = Ok p /\
    PQ.IsBoundless p = true /\ PQ.Len p = 32 /\ Go.cap (PQ.data p) = 128 /\
    PQ.Dequeue 0 compareInt grow2 p = Ok (p', (v, None)) /\
    PQ.Len p' = 31 /\ Go.cap (PQ.data p') = 64.
Proof.
  split; [exact compareInt_total |]. split; [exact grow2_spec |].
  destruct (shrink_division_by_zero_unreachable (T := Z) 0 compareInt grow2
              (TotalOrder0 := compareInt_total) (GrowsliceSpec0 := grow2_spec))
    as (Hcal & _ & Hreach).
  split; [apply Hcal; lia |].
  pose (p0 := PQ.mkPQ 0 (Go.mkSlice [0] 64)).
  assert (Hnew : PQ.NewPriorityQueue 0 0 = Ok p0) by reflexivity.
  destruct (run_calls 0 compareInt grow2 sparse_calls p0) as [p | |] eqn:Hrun;
    [| vm_compute in Hrun; discriminate Hrun | vm_compute in Hrun; discriminate Hrun].
  assert (Hr : reachable 0 compareInt grow2 p).
  { apply (run_calls_reachable 0 compareInt grow2 sparse_calls p0 p); [| exact Hrun].
    apply (reach_new 0 compareInt grow2 0 p0); [| exact Hnew].
    unfold Go.int_min, Go.int_max. lia. }
  destruct (Hreach p Hr) as (_ & _ & _ & [[[p' [v e]] Hd] _]).
  vm_compute in Hrun. injection Hrun as <-.
  assert (He : e = None) by (vm_compute in Hd; injection Hd as _ _ <-; reflexivity).
  assert (Hl : PQ.Len p' = 31) by (vm_compute in Hd; injection Hd as <- _ _; reflexivity).
  assert (Hc : Go.cap (PQ.data p') = 64)
    by (vm_compute in Hd; injection Hd as <- _ _; reflexivity).
  rewrite He in Hd.
  eexists p0, _, p', v.
  split; [exact Hnew |]. split; [vm_compute; reflexivity |].
  split; [reflexivity |]. split; [reflexivity |]. split; [reflexivity |].
  split; [exact Hd |]. split; [exact Hl | exact Hc].
Defined.

Lemma shrink_decision_conservative_witness :
  1 <= 100 <= 4096 /\ 4096 <= Go.int_max /\
  exists n changed,
    Slice.calCapacity 4096 100 = Ok (n, changed) /\
    100 <= n <= 4096 /\
    (changed = false -> n = 4096) /\
    (4096 <= 64 -> changed = false) /\
    (2048 < 4096 -> 2 <= 4096 / 100 ->
     changed = true /\
     5 * 4096 - 8 - 4096 / 2 ^ 18 <= 8 * n <= 5 * 4096 + 4096 / 2 ^ 18) /\
    (64 < 4096 <= 2048 -> 4 <= 4096 / 100 -> changed = true /\ n = 4096 / 2) /\
    (forall (T : Type) (growslice : Z -> Z -> Z) (src : Go.slice T),
        Go.cap src = 4096 -> Z.of_nat (Go.len src) = 100 ->
        Slice.Shrink growslice src = Ok (Go.mkSlice (Go.elems src) n)).
Proof.
  split; [lia |]. split; [vm_compute; discriminate |].
  apply (shrink_decision_conservative 4096 100); [lia | vm_compute; discriminate].
Defined.

(** ** The lock-free queue *)

Section CLQFacts.
Context {T : Type} (zero : T).

Local Abbreviation node := (CLQ.node T).
Local Abbreviation frame := (CLQ.frame T).
Local Abbreviation thread := (CLQ.thread T).
Local Abbreviation system := (CLQ.system T).
Local Abbreviation event := (CLQ.event T).

(** The list as the specification sees it: the addresses of the nodes in
    the order in which they were linked, starting with the first sentinel,
    and the positions of the head and of the tail in it. *)
Record ghost : Type := mkGhost { chain : list nat; hi : nat; ti : nat }.

(** The value of the node a pointer refers to. *)
Definition valof (h : list node) (p : CLQ.ptr) : option T :=
  a ← p; nd ← h !! a; Some (CLQ.val nd).

(** The node a call has allocated and not yet linked. *)
Definition owned (f : frame) : CLQ.ptr :=
  match f with
  | CLQ.Enq_load_tail _ np | CLQ.Enq_load_next _ np _ | CLQ.Enq_cas_next _ np _ _ => np
  | _ => None
  end.

(** The call has linked its node and not yet moved the tail. *)
Definition at_cas_tail (f : frame) : Prop :=
  match f with
  | CLQ.Enq_cas_tail _ _ _ => True
  | _ => False
  end.

(** The pointer refers to a node of the chain at a position up to [k]. *)
Definition upto (g : ghost) (k : nat) (p : CLQ.ptr) : Prop :=
  exists j, (j <= k)%nat /\ p = chain g !! j.

(** The node of an Enqueue before it is linked. *)
Definition fresh_node (h : list node) (t : T) (np : CLQ.ptr) : Prop :=
  exists a, np = Some a /\ h !! a = Some (CLQ.mkNode t None).

(** What holds of the local variables of a call in progress. *)
Definition frame_inv (g : ghost) (h : list node) (f : frame) : Prop :=
  match f with
  | CLQ.Enq_alloc _ => True
  | CLQ.Enq_load_tail t np => fresh_node h t np
  | CLQ.Enq_load_next t np tp => fresh_node h t np /\ upto g (ti g) tp
  | CLQ.Enq_cas_next t np tp tn => fresh_node h t np /\ upto g (ti g) tp /\ tn = None
  | CLQ.Enq_cas_tail t np tp =>
      tp = chain g !! ti g /\ np = chain g !! S (ti g) /\ S (S (ti g)) = length (chain g)
  | CLQ.Deq_load_head => True
  | CLQ.Deq_load_tail hp => upto g (hi g) hp
  | CLQ.Deq_load_next hp =>
      exists j, (j <= hi g)%nat /\ (j < ti g)%nat /\ hp = chain g !! j
  | CLQ.Deq_cas_head hp hn =>
      exists j, (j <= hi g)%nat /\ (j < ti g)%nat /\ hp = chain g !! j /\ hn = chain g !! S j
  | CLQ.Deq_read_val hn => exists j, (1 <= j <= hi g)%nat /\ hn = chain g !! j
  end.

(** The links and the takes of a run, in order. *)
Definition links (tr : list (nat * event)) : list (nat * (CLQ.ptr * T)) :=
  omap (fun x => match x.2 with CLQ.EvLink p t => Some (x.1, (p, t)) | _ => None end) tr.

(** The nodes and the values of a list of links. *)
Definition link_ptrs (l : list (nat * (CLQ.ptr * T))) : list CLQ.ptr := l.*2.*1.
Definition link_vals (l : list (nat * (CLQ.ptr * T))) : list T := l.*2.*2.

Definition takes (tr : list (nat * event)) : list CLQ.ptr :=
  omap (fun x => match x.2 with CLQ.EvTake p => Some p | _ => None end) tr.

(** The takes of one goroutine. *)
Definition takes_by (tid : nat) (tr : list (nat * event)) : list CLQ.ptr :=
  takes (filter (fun x => x.1 = tid) tr).

(** The values the successful Dequeue calls of a goroutine returned. *)
Definition dequeued (rs : list (CLQ.retval T)) : list T :=
  omap (fun r => match r with CLQ.RetDequeue v None => Some v | _ => None end) rs.

(** The results the code can produce. *)
Definition ok_ret (r : CLQ.retval T) : Prop :=
  match r with
  | CLQ.RetEnqueue e => e = None
  | CLQ.RetDequeue v e => e = None \/ (e = Some ErrEmptyQueue /\ v = zero)
  end.

(** The takes of a goroutine and the values its Dequeue calls returned: the
    calls returned the values of the nodes taken, in order; the node taken
    last is the one a call about to return still holds. *)
Definition takes_inv (h : list node) (tr : list (nat * event)) (tid : nat) (th : thread)
  : Prop :=
  match CLQ.cur th with
  | Some (CLQ.Deq_read_val hn) =>
      exists ps, takes_by tid tr = ps ++ [hn] /\
                 valof h <$> ps = Some <$> dequeued (CLQ.done th)
  | _ => valof h <$> takes_by tid tr = Some <$> dequeued (CLQ.done th)
  end.

Record Inv (sys : system) (g : ghost) (tr : list (nat * event)) : Prop := {
  inv_nodup : NoDup (chain g);
  inv_next : forall i a, chain g !! i = Some a ->
     exists nd, CLQ.heap (CLQ.mem sys) !! a = Some nd /\ CLQ.next nd = chain g !! S i;
  inv_head : CLQ.head (CLQ.mem sys) = chain g !! hi g;
  inv_tail : CLQ.tail (CLQ.mem sys) = chain g !! ti g;
  inv_bounds : (hi g <= ti g < length (chain g))%nat /\ (length (chain g) <= S (S (ti g)))%nat;
  inv_frames : forall tid th f,
     CLQ.threads sys !! tid = Some th -> CLQ.cur th = Some f ->
     frame_inv g (CLQ.heap (CLQ.mem sys)) f;
  inv_own_fresh : forall tid th f a,
     CLQ.threads sys !! tid = Some th -> CLQ.cur th = Some f -> owned f = Some a ->
     a ∉ chain g;
  inv_own_excl : forall i j thi thj fi fj a,
     CLQ.threads sys !! i = Some thi -> CLQ.threads sys !! j = Some thj ->
     CLQ.cur thi = Some fi -> CLQ.cur thj = Some fj ->
     owned fi = Some a -> owned fj = Some a -> i = j;
  inv_lag_unique : forall i j thi thj fi fj,
     CLQ.threads sys !! i = Some thi -> CLQ.threads sys !! j = Some thj ->
     CLQ.cur thi = Some fi -> CLQ.cur thj = Some fj ->
     at_cas_tail fi -> at_cas_tail fj -> i = j;
  inv_lag : S (S (ti g)) = length (chain g) ->
     exists tid th f, CLQ.threads sys !! tid = Some th /\ CLQ.cur th = Some f /\
                      at_cas_tail f;
  inv_links : link_ptrs (links tr) = Some <$> drop 1 (chain g);
  inv_takes : takes tr = Some <$> take (hi g) (drop 1 (chain g));
  inv_link_vals :
     Forall (fun x => valof (CLQ.heap (CLQ.mem sys)) x.2.1 = Some x.2.2) (links tr);
  inv_thread_takes : forall tid th,
     CLQ.threads sys !! tid = Some th -> takes_inv (CLQ.heap (CLQ.mem sys)) tr tid th;
  inv_rets : forall tid th,
     CLQ.threads sys !! tid = Some th -> Forall ok_ret (CLQ.done th)
}.

Lemma init_thread (progs : list (list (CLQ.op T))) tid (th : thread) :
  CLQ.threads (CLQ.init zero progs) !! tid = Some th ->
  CLQ.cur th = None /\ CLQ.done th = [].
Proof.
  unfold CLQ.init. cbn [CLQ.threads].
  intros (p & -> & _)%list_lookup_fmap_Some. done.
Qed.

Lemma Inv_init progs : Inv (CLQ.init zero progs) (mkGhost [0%nat] 0 0) [].
Proof.
  split; cbn [chain hi ti].
  - apply NoDup_singleton.
  - intros [| i] a; [| done]. intros [= <-]. by eexists.
  - done.
  - done.
  - cbn. lia.
  - intros tid th f [Hcur _]%init_thread. congruence.
  - intros tid th f a [Hcur _]%init_thread. congruence.
  - intros i j thi thj fi fj a [Hcur _]%init_thread. congruence.
  - intros i j thi thj fi fj [Hcur _]%init_thread. congruence.
  - done.
  - done.
  - done.
  - constructor.
  - intros tid th [Hcur Hdone]%init_thread. unfold takes_inv. by rewrite Hcur, Hdone.
  - intros tid th [_ Hdone]%init_thread. rewrite Hdone. constructor.
Qed.

Lemma lookup_insert_thread (ths : list thread) tid th' j thj :
  <[tid := th']> ths !! j = Some thj ->
  (j = tid /\ thj = th') \/ (j <> tid /\ ths !! j = Some thj).
Proof.
  intros [(-> & -> & _) | [? ?]]%list_lookup_insert_Some; [by left | by right].
Qed.

(** A step that changes nothing but the goroutine taking it. *)
Lemma Inv_local sys g tr tid th th' :
  Inv sys g tr ->
  CLQ.threads sys !! tid = Some th ->
  (forall f, CLQ.cur th = Some f -> ~ at_cas_tail f) ->
  (forall f', CLQ.cur th' = Some f' ->
     frame_inv g (CLQ.heap (CLQ.mem sys)) f' /\ ~ at_cas_tail f' /\
     (forall a, owned f' = Some a ->
        (exists f, CLQ.cur th = Some f /\ owned f = Some a) \/
        ((a ∉ chain g) /\
         forall j thj fj, CLQ.threads sys !! j = Some thj -> CLQ.cur thj = Some fj ->
                          owned fj <> Some a))) ->
  takes_inv (CLQ.heap (CLQ.mem sys)) tr tid th' ->
  Forall ok_ret (CLQ.done th') ->
  Inv (CLQ.mkSystem (CLQ.mem sys) (<[tid := th']> (CLQ.threads sys))) g tr.
Proof.
  intros [] Hth Hnlag Hnew Htakes Hrets.
  split; cbn [CLQ.mem CLQ.threads]; try done.
  - intros j thj f [[-> ->] | [? Hj]]%lookup_insert_thread Hcur.
    + by apply Hnew.
    + by eapply inv_frames0.
  - intros j thj f a [[-> ->] | [? Hj]]%lookup_insert_thread Hcur Hown.
    + destruct (Hnew f Hcur) as (_ & _ & Ho).
      destruct (Ho a Hown) as [(f0 & ? & ?) | [? _]]; [by eapply inv_own_fresh0 | done].
    + by eapply inv_own_fresh0.
  - intros i j thi thj fi fj a
      [[-> ->] | [? Hi]]%lookup_insert_thread [[-> ->] | [? Hj]]%lookup_insert_thread
      Hci Hcj Hoi Hoj; try done.
    + destruct (Hnew fi Hci) as (_ & _ & Ho).
      destruct (Ho a Hoi) as [(f0 & ? & ?) | [_ Hno]].
      * by eapply (inv_own_excl0 tid j th thj f0 fj a).
      * by destruct (Hno j thj fj Hj Hcj).
    + destruct (Hnew fj Hcj) as (_ & _ & Ho).
      destruct (Ho a Hoj) as [(f0 & ? & ?) | [_ Hno]].
      * by eapply (inv_own_excl0 i tid thi th fi f0 a).
      * by destruct (Hno i thi fi Hi Hci).
    + by eapply (inv_own_excl0 i j thi thj fi fj a).
  - intros i j thi thj fi fj
      [[-> ->] | [? Hi]]%lookup_insert_thread [[-> ->] | [? Hj]]%lookup_insert_thread
      Hci Hcj Hli Hlj; try done.
    + by destruct (Hnew fi Hci) as (_ & ? & _).
    + by destruct (Hnew fj Hcj) as (_ & ? & _).
    + by eapply (inv_lag_unique0 i j thi thj fi fj).
  - intros Hlen. destruct (inv_lag0 Hlen) as (j & thj & f & Hj & Hcj & Hl).
    exists j, thj, f. split; [| done].
    rewrite list_lookup_insert_ne; [done |].
    intros <-. rewrite Hth in Hj. simplify_eq. by eapply Hnlag.
  - intros j thj [[-> ->] | [? Hj]]%lookup_insert_thread; [done |].
    by apply inv_thread_takes0.
  - intros j thj [[-> ->] | [? Hj]]%lookup_insert_thread; [done |].
    by eapply inv_rets0.
Qed.

(** Memory only grows: a node keeps its value. *)
Definition heap_le (h h' : list node) : Prop :=
  forall a nd, h !! a = Some nd -> exists nd', h' !! a = Some nd' /\ CLQ.val nd' = CLQ.val nd.

Lemma valof_mono h h' p v : heap_le h h' -> valof h p = Some v -> valof h' p = Some v.
Proof.
  intros Hle. destruct p as [a |]; [| done]. cbn.
  destruct (h !! a) as [nd |] eqn:E; [| done]. cbn. intros [= <-].
  destruct (Hle a nd E) as (nd' & -> & <-). done.
Qed.

Lemma valof_fmap_mono h h' (ps : list CLQ.ptr) (vs : list T) :
  heap_le h h' -> valof h <$> ps = Some <$> vs -> valof h' <$> ps = Some <$> vs.
Proof.
  intros Hle. revert vs. induction ps as [| p ps IH]; intros [| v vs]; try done.
  cbn. intros [= Hp Hps]. f_equal; [by eapply valof_mono | by apply IH].
Qed.

Lemma takes_inv_mono h h' tr tid th :
  heap_le h h' -> takes_inv h tr tid th -> takes_inv h' tr tid th.
Proof.
  intros Hle. unfold takes_inv.
  destruct (CLQ.cur th) as [[] |]; try by apply valof_fmap_mono.
  intros (ps & ? & ?). exists ps. split; [done |]. by eapply valof_fmap_mono.
Qed.

Lemma heap_le_app h n : heap_le h (h ++ [n]).
Proof. intros a nd Ha. exists nd. split; [by apply lookup_app_l_Some | done]. Qed.

Lemma fresh_node_app h n t np : fresh_node h t np -> fresh_node (h ++ [n]) t np.
Proof. intros (a & -> & Ha). exists a. split; [done |]. by apply lookup_app_l_Some. Qed.

Lemma frame_inv_app g h n f : frame_inv g h f -> frame_inv g (h ++ [n]) f.
Proof. destruct f; cbn; try done; intuition auto using fresh_node_app. Qed.

(** Allocating a node changes nothing else. *)
Lemma Inv_alloc sys g tr n :
  Inv sys g tr ->
  Inv (CLQ.mkSystem
         (CLQ.mkShared (CLQ.heap (CLQ.mem sys) ++ [n]) (CLQ.head (CLQ.mem sys))
            (CLQ.tail (CLQ.mem sys)))
         (CLQ.threads sys)) g tr.
Proof.
  intros []. split; cbn [CLQ.mem CLQ.threads CLQ.heap CLQ.head CLQ.tail]; try done.
  - intros i a Ha. destruct (inv_next0 i a Ha) as (nd & ? & ?).
    exists nd. split; [by apply lookup_app_l_Some | done].
  - intros tid th f Hth Hcur. apply frame_inv_app. by eapply inv_frames0.
  - eapply Forall_impl; [done |]. intros x ?. eapply valof_mono; [apply heap_le_app | done].
  - intros tid th Hth. eapply takes_inv_mono; [apply heap_le_app | by apply inv_thread_takes0].
Qed.

Lemma owned_allocated g h f a :
  frame_inv g h f -> owned f = Some a -> (a < length h)%nat.
Proof.
  destruct f; cbn; try done.
  - intros (b & -> & Hb) [= ->]. by eapply lookup_lt_Some.
  - intros [(b & -> & Hb) _] [= ->]. by eapply lookup_lt_Some.
  - intros [(b & -> & Hb) _] [= ->]. by eapply lookup_lt_Some.
Qed.

Lemma chain_allocated sys g tr a :
  Inv sys g tr -> a ∈ chain g -> (a < length (CLQ.heap (CLQ.mem sys)))%nat.
Proof.
  intros HI [i Hi]%list_elem_of_lookup.
  destruct (inv_next _ _ _ HI i a Hi) as (nd & Hnd & _). by eapply lookup_lt_Some.
Qed.

Lemma upto_deref sys g tr k p :
  Inv sys g tr -> (k < length (chain g))%nat -> upto g k p ->
  exists j a nd, (j <= k)%nat /\ chain g !! j = Some a /\ p = Some a /\
    CLQ.heap (CLQ.mem sys) !! a = Some nd /\ CLQ.next nd = chain g !! S j.
Proof.
  intros HI Hk (j & Hj & ->).
  destruct (lookup_lt_is_Some_2 (chain g) j ltac:(lia)) as [a Ha].
  destruct (inv_next _ _ _ HI j a Ha) as (nd & Hnd & Hnext).
  by exists j, a, nd.
Qed.

Lemma deref_Some (h : list node) a nd : h !! a = Some nd -> CLQ.deref h (Some a) = Ok nd.
Proof. intros H. cbn. by rewrite H. Qed.

Lemma takes_inv_frame h tr tid (th th' : thread) :
  CLQ.done th' = CLQ.done th ->
  (forall hn, CLQ.cur th <> Some (CLQ.Deq_read_val hn)) ->
  (forall hn, CLQ.cur th' <> Some (CLQ.Deq_read_val hn)) ->
  takes_inv h tr tid th -> takes_inv h tr tid th'.
Proof.
  unfold takes_inv. intros -> H1 H2.
  destruct (CLQ.cur th) as [[] |], (CLQ.cur th') as [[] |]; try done;
    try (by edestruct H1); try (by edestruct H2).
Qed.

Lemma links_app tr1 tr2 : links (tr1 ++ tr2) = links tr1 ++ links tr2.
Proof. apply omap_app. Qed.

Lemma takes_app tr1 tr2 : takes (tr1 ++ tr2) = takes tr1 ++ takes tr2.
Proof. apply omap_app. Qed.

Lemma takes_by_app tid tr1 tr2 :
  takes_by tid (tr1 ++ tr2) = takes_by tid tr1 ++ takes_by tid tr2.
Proof. unfold takes_by. by rewrite filter_app, takes_app. Qed.

Lemma takes_by_link tid tid' p t : takes_by tid [(tid', CLQ.EvLink p t)] = [].
Proof.
  unfold takes_by. destruct (decide (tid' = tid)) as [-> | Hne].
  - by rewrite filter_cons_True.
  - by rewrite filter_cons_False.
Qed.

Lemma takes_by_take tid tid' p :
  takes_by tid [(tid', CLQ.EvTake p)] = if decide (tid' = tid) then [p] else [].
Proof.
  unfold takes_by. destruct (decide (tid' = tid)) as [-> | Hne].
  - by rewrite filter_cons_True.
  - by rewrite filter_cons_False.
Qed.

Lemma heap_le_alter (h : list node) b q :
  heap_le h (alter (fun nd => CLQ.mkNode (CLQ.val nd) q) b h).
Proof.
  intros a nd Ha. destruct (decide (a = b)) as [-> | Hne].
  - eexists. split; [by rewrite list_lookup_alter_eq, Ha | done].
  - exists nd. split; [| done]. by rewrite list_lookup_alter_ne by congruence.
Qed.

Lemma chain_lookup_inj sys g tr i j a :
  Inv sys g tr -> chain g !! i = Some a -> chain g !! j = Some a -> i = j.
Proof. intros HI. apply NoDup_lookup. apply HI. Qed.

(** The compare-and-swap of [tail.next] succeeds: the node of the call
    becomes the last node of the chain. *)
Lemma Inv_link sys g tr tid th t a tp :
  Inv sys g tr ->
  CLQ.threads sys !! tid = Some th ->
  CLQ.cur th = Some (CLQ.Enq_cas_next t (Some a) tp None) ->
  (exists nd, CLQ.deref (CLQ.heap (CLQ.mem sys)) tp = Ok nd /\ CLQ.next nd = None) ->
  Inv (CLQ.mkSystem
         (CLQ.mkShared (CLQ.set_next (CLQ.heap (CLQ.mem sys)) tp (Some a))
            (CLQ.head (CLQ.mem sys)) (CLQ.tail (CLQ.mem sys)))
         (<[tid := CLQ.mkThread (Some (CLQ.Enq_cas_tail t (Some a) tp))
                     (CLQ.todo th) (CLQ.done th)]> (CLQ.threads sys)))
      (mkGhost (chain g ++ [a]) (hi g) (ti g))
      (tr ++ [(tid, CLQ.EvLink (Some a) t)]).
Proof.
  intros HI Hth Hcur (nd & Hderef & Hnext).
  pose proof (inv_frames _ _ _ HI tid th _ Hth Hcur) as (Hfresh & Hup & _).
  destruct Hfresh as (a' & [= <-] & Ha).
  pose proof (inv_bounds _ _ _ HI) as [[Hhi Hti] Hlen].
  destruct (upto_deref sys g tr (ti g) tp HI Hti Hup)
    as (j & b & nd' & Hj & Hjb & -> & Hb & Hnext').
  rewrite (deref_Some _ _ _ Hb) in Hderef. injection Hderef as ->.
  rewrite Hnext in Hnext'. symmetry in Hnext'. apply lookup_ge_None in Hnext'.
  assert (j = ti g) as -> by lia. assert (Hlen' : length (chain g) = S (ti g)) by lia.
  clear Hj Hnext' Hlen.
  assert (Hac : a ∉ chain g) by (by eapply (inv_own_fresh _ _ _ HI tid th)).
  assert (Hab : a <> b) by (intros ->; apply Hac; by eapply list_elem_of_lookup_2).
  cbn [CLQ.set_next].
  set (h' := alter _ b _).
  assert (Hle : heap_le (CLQ.heap (CLQ.mem sys)) h') by apply heap_le_alter.
  assert (Hother : forall x, x <> b -> h' !! x = CLQ.heap (CLQ.mem sys) !! x)
    by (intros x Hx; unfold h'; by rewrite list_lookup_alter_ne by congruence).
  assert (Hnocas : forall k thk fk, k <> tid -> CLQ.threads sys !! k = Some thk ->
            CLQ.cur thk = Some fk -> ~ at_cas_tail fk).
  { intros k thk fk Hk Hthk Hck Hcas. destruct fk; try done.
    pose proof (inv_frames _ _ _ HI k thk _ Hthk Hck) as (_ & _ & Hl). lia. }
  split; cbn [CLQ.mem CLQ.threads CLQ.heap CLQ.head CLQ.tail chain hi ti].
  - apply NoDup_app. split; [apply HI |]. split; [| apply NoDup_singleton].
    intros x Hx ->%list_elem_of_singleton. done.
  - intros i x Hx. apply lookup_app_Some in Hx as [Hx | [Hi Hx]].
    + destruct (inv_next _ _ _ HI i x Hx) as (nx & Hnx & Hnn).
      pose proof (lookup_lt_Some _ _ _ Hx) as Hil.
      destruct (decide (x = b)) as [-> | Hxb].
      * assert (i = ti g) as -> by by eapply chain_lookup_inj.
        eexists. split; [unfold h'; by rewrite list_lookup_alter_eq, Hb |].
        cbn. symmetry. apply list_lookup_middle. lia.
      * exists nx. split; [by rewrite Hother |].
        rewrite Hnn. destruct (decide (S i < length (chain g))%nat).
        -- by rewrite lookup_app_l.
        -- assert (i = ti g) as -> by lia. congruence.
    + destruct (i - length (chain g))%nat as [| k] eqn:Ek; [| done].
      injection Hx as <-. exists (CLQ.mkNode t None).
      split; [by rewrite Hother |]. cbn. symmetry. apply lookup_ge_None.
      rewrite length_app. cbn. lia.
  - rewrite lookup_app_l by lia. apply HI.
  - rewrite lookup_app_l by lia. apply HI.
  - rewrite length_app. cbn. lia.
  - intros k thk f Hk Hck. apply lookup_insert_thread in Hk as [[-> ->] | [Hne Hk]].
    + injection Hck as <-. cbn. split_and!.
      * by rewrite lookup_app_l by lia.
      * symmetry. apply list_lookup_middle. lia.
      * rewrite length_app. cbn. lia.
    + pose proof (inv_frames _ _ _ HI k thk f Hk Hck) as Hf.
      assert (Hfr : forall t' np, owned f = np -> fresh_node (CLQ.heap (CLQ.mem sys)) t' np ->
                fresh_node h' t' np).
      { intros t' np Ho (x & -> & Hx). exists x. split; [done |].
        rewrite Hother; [done |]. intros ->.
        eapply (inv_own_fresh _ _ _ HI k thk f b); [done | done | done |].
        by eapply list_elem_of_lookup_2. }
      assert (Hupto : forall k0 p, (k0 < length (chain g))%nat -> upto g k0 p ->
                upto (mkGhost (chain g ++ [a]) (hi g) (ti g)) k0 p).
      { intros k0 p Hk0 (i & Hi & ->). exists i. split; [done |]. cbn.
        by rewrite lookup_app_l by lia. }
      destruct f; cbn in Hf |- *; try done.
      * by apply Hfr.
      * destruct Hf. split; [by apply Hfr | by apply Hupto].
      * destruct Hf as (? & ? & ?). split_and!; [by apply Hfr | by apply Hupto | done].
      * by destruct (Hnocas k thk _ Hne Hk Hck).
      * by apply Hupto; [lia |].
      * destruct Hf as (i & ? & ? & ->). exists i. by rewrite lookup_app_l by lia.
      * destruct Hf as (i & ? & ? & -> & ->). exists i.
        by rewrite !lookup_app_l by lia.
      * destruct Hf as (i & ? & ->). exists i. by rewrite lookup_app_l by lia.
  - intros k thk f x Hk Hck Hown. apply lookup_insert_thread in Hk as [[-> ->] | [Hne Hk]].
    + by injection Hck as <-.
    + intros [Hx | ->%list_elem_of_singleton]%elem_of_app.
      * by eapply (inv_own_fresh _ _ _ HI k thk f x).
      * apply Hne. by eapply (inv_own_excl _ _ _ HI k tid thk th f _ a).
  - intros i k thi thk fi fk x Hi Hk Hci Hck Hoi Hok.
    apply lookup_insert_thread in Hi as [[-> ->] | [Hnei Hi]];
      apply lookup_insert_thread in Hk as [[-> ->] | [Hnek Hk]]; try done.
    + by injection Hci as <-.
    + by injection Hck as <-.
    + by eapply (inv_own_excl _ _ _ HI i k thi thk fi fk x).
  - intros i k thi thk fi fk Hi Hk Hci Hck Hli Hlk.
    apply lookup_insert_thread in Hi as [[-> ->] | [Hnei Hi]];
      apply lookup_insert_thread in Hk as [[-> ->] | [Hnek Hk]]; try done.
    + by destruct (Hnocas k thk fk Hnek Hk Hck).
    + by destruct (Hnocas i thi fi Hnei Hi Hci).
    + by destruct (Hnocas k thk fk Hnek Hk Hck).
  - intros _. exists tid. eexists _, _.
    split; [apply list_lookup_insert_eq; by eapply lookup_lt_Some |]. done.
  - unfold link_ptrs. rewrite links_app, !fmap_app. fold (link_ptrs (links tr)).
    rewrite (inv_links _ _ _ HI). cbn.
    rewrite drop_app_le by lia. by rewrite fmap_app.
  - rewrite takes_app, (inv_takes _ _ _ HI). cbn. rewrite app_nil_r.
    rewrite drop_app_le by lia. rewrite take_app_le; [done |].
    rewrite length_drop. lia.
  - rewrite links_app. apply Forall_app. split.
    + eapply Forall_impl; [apply HI |]. intros x ?. by eapply valof_mono.
    + constructor; [| constructor]. cbn. by rewrite Hother, Ha.
  - intros k thk Hk.
    assert (Hmono : forall th0, takes_inv (CLQ.heap (CLQ.mem sys)) tr k th0 ->
              takes_inv h' (tr ++ [(tid, CLQ.EvLink (Some a) t)]) k th0).
    { intros th0 H0. apply (takes_inv_mono _ h') in H0; [| done].
      unfold takes_inv in *. by rewrite takes_by_app, takes_by_link, app_nil_r. }
    apply lookup_insert_thread in Hk as [[-> ->] | [Hne Hk]].
    + apply Hmono. eapply (takes_inv_frame _ _ _ th); [done | | done |].
      * intros hn. by rewrite Hcur.
      * by apply (inv_thread_takes _ _ _ HI).
    + apply Hmono. by apply (inv_thread_takes _ _ _ HI).
  - intros k thk Hk. apply lookup_insert_thread in Hk as [[-> ->] | [Hne Hk]].
    + by apply (inv_rets _ _ _ HI tid th).
    + by apply (inv_rets _ _ _ HI k thk).
Qed.

Lemma dequeued_app rs1 rs2 : dequeued (rs1 ++ rs2) = dequeued rs1 ++ dequeued rs2.
Proof. apply omap_app. Qed.

(** The compare-and-swap of [c.tail] at the end of Enqueue: it succeeds
    and the call returns. *)
Lemma Inv_tail sys g tr tid th t np tp :
  Inv sys g tr ->
  CLQ.threads sys !! tid = Some th ->
  CLQ.cur th = Some (CLQ.Enq_cas_tail t np tp) ->
  CLQ.tail (CLQ.mem sys) = tp /\
  Inv (CLQ.mkSystem
         (CLQ.mkShared (CLQ.heap (CLQ.mem sys)) (CLQ.head (CLQ.mem sys)) np)
         (<[tid := CLQ.mkThread None (CLQ.todo th)
                     (CLQ.done th ++ [CLQ.RetEnqueue None])]> (CLQ.threads sys)))
      (mkGhost (chain g) (hi g) (S (ti g))) tr.
Proof.
  intros HI Hth Hcur.
  pose proof (inv_frames _ _ _ HI tid th _ Hth Hcur) as (-> & -> & Hlen).
  pose proof (inv_bounds _ _ _ HI) as [[Hhi Hti] _].
  split; [apply HI |].
  assert (Hnocas : forall k thk fk, k <> tid -> CLQ.threads sys !! k = Some thk ->
            CLQ.cur thk = Some fk -> ~ at_cas_tail fk).
  { intros k thk fk Hk Hthk Hck Hcas. apply Hk.
    by eapply (inv_lag_unique _ _ _ HI k tid thk th fk). }
  split; cbn [CLQ.mem CLQ.threads CLQ.heap CLQ.head CLQ.tail chain hi ti];
    try apply HI.
  - done.
  - lia.
  - intros k thk f Hk Hck. apply lookup_insert_thread in Hk as [[-> ->] | [Hne Hk]]; [done |].
    pose proof (inv_frames _ _ _ HI k thk f Hk Hck) as Hf.
    assert (Hupto : forall p, upto g (ti g) p -> upto (mkGhost (chain g) (hi g) (S (ti g))) (S (ti g)) p).
    { intros p (i & Hi & ->). exists i. split; [lia | done]. }
    destruct f; cbn in Hf |- *; try done.
    + destruct Hf. split; [done | by apply Hupto].
    + destruct Hf as (? & ? & ?). split_and!; [done | by apply Hupto | done].
    + by destruct (Hnocas k thk _ Hne Hk Hck).
    + destruct Hf as (i & ? & ? & ->). exists i. split_and!; [done | lia | done].
    + destruct Hf as (i & ? & ? & -> & ->). exists i. split_and!; [done | lia | done | done].
  - intros k thk f x Hk Hck Hown. apply lookup_insert_thread in Hk as [[-> ->] | [Hne Hk]]; [done |].
    by eapply (inv_own_fresh _ _ _ HI k thk f x).
  - intros i k thi thk fi fk x Hi Hk Hci Hck Hoi Hok.
    apply lookup_insert_thread in Hi as [[-> ->] | [Hnei Hi]];
      apply lookup_insert_thread in Hk as [[-> ->] | [Hnek Hk]]; try done.
    by eapply (inv_own_excl _ _ _ HI i k thi thk fi fk x).
  - intros i k thi thk fi fk Hi Hk Hci Hck Hli Hlk.
    apply lookup_insert_thread in Hi as [[-> ->] | [Hnei Hi]];
      apply lookup_insert_thread in Hk as [[-> ->] | [Hnek Hk]]; try done.
    by destruct (Hnocas k thk fk Hnek Hk Hck).
  - lia.
  - intros k thk Hk. apply lookup_insert_thread in Hk as [[-> ->] | [Hne Hk]].
    + pose proof (inv_thread_takes _ _ _ HI tid th Hth) as Ht.
      unfold takes_inv in *. rewrite Hcur in Ht. cbn [CLQ.cur CLQ.done].
      rewrite dequeued_app. cbn. by rewrite app_nil_r.
    + by apply (inv_thread_takes _ _ _ HI).
  - intros k thk Hk. apply lookup_insert_thread in Hk as [[-> ->] | [Hne Hk]].
    + cbn. apply Forall_app. split; [by apply (inv_rets _ _ _ HI tid th) |].
      by repeat constructor.
    + by apply (inv_rets _ _ _ HI k thk).
Qed.

(** The compare-and-swap of [c.head] succeeds: the head moves to the next
    node of the chain. *)
Lemma Inv_take sys g tr tid th hp hn :
  Inv sys g tr ->
  CLQ.threads sys !! tid = Some th ->
  CLQ.cur th = Some (CLQ.Deq_cas_head hp hn) ->
  CLQ.head (CLQ.mem sys) = hp ->
  Inv (CLQ.mkSystem
         (CLQ.mkShared (CLQ.heap (CLQ.mem sys)) hn (CLQ.tail (CLQ.mem sys)))
         (<[tid := CLQ.mkThread (Some (CLQ.Deq_read_val hn)) (CLQ.todo th)
                     (CLQ.done th)]> (CLQ.threads sys)))
      (mkGhost (chain g) (S (hi g)) (ti g))
      (tr ++ [(tid, CLQ.EvTake hn)]).
Proof.
  intros HI Hth Hcur Hhead.
  pose proof (inv_frames _ _ _ HI tid th _ Hth Hcur) as (j & Hj & Hjt & Hhp & Hhn).
  pose proof (inv_bounds _ _ _ HI) as [[Hhi Hti] Hlen].
  assert (j = hi g) as ->.
  { destruct (lookup_lt_is_Some_2 (chain g) j ltac:(lia)) as [x Hx].
    eapply (chain_lookup_inj sys g tr); [done | done |].
    rewrite <- (inv_head _ _ _ HI), Hhead, Hhp. done. }
  destruct (lookup_lt_is_Some_2 (chain g) (S (hi g)) ltac:(lia)) as [c Hc].
  split; cbn [CLQ.mem CLQ.threads CLQ.heap CLQ.head CLQ.tail chain hi ti];
    try apply HI.
  - done.
  - lia.
  - intros k thk f Hk Hck. apply lookup_insert_thread in Hk as [[-> ->] | [Hne Hk]].
    + injection Hck as <-. cbn. exists (S (hi g)). split; [lia | done].
    + pose proof (inv_frames _ _ _ HI k thk f Hk Hck) as Hf.
      destruct f; cbn in Hf |- *; try done.
      * destruct Hf as (i & ? & ->). exists i. split; [lia | done].
      * destruct Hf as (i & ? & ? & ->). exists i. split_and!; [lia | done | done].
      * destruct Hf as (i & ? & ? & -> & ->). exists i. split_and!; [lia | done | done | done].
      * destruct Hf as (i & ? & ->). exists i. split; [lia | done].
  - intros k thk f x Hk Hck Hown. apply lookup_insert_thread in Hk as [[-> ->] | [Hne Hk]].
    + by injection Hck as <-.
    + by eapply (inv_own_fresh _ _ _ HI k thk f x).
  - intros i k thi thk fi fk x Hi Hk Hci Hck Hoi Hok.
    apply lookup_insert_thread in Hi as [[-> ->] | [Hnei Hi]];
      apply lookup_insert_thread in Hk as [[-> ->] | [Hnek Hk]]; try done.
    + by injection Hci as <-.
    + by injection Hck as <-.
    + by eapply (inv_own_excl _ _ _ HI i k thi thk fi fk x).
  - intros i k thi thk fi fk Hi Hk Hci Hck Hli Hlk.
    apply lookup_insert_thread in Hi as [[-> ->] | [Hnei Hi]];
      apply lookup_insert_thread in Hk as [[-> ->] | [Hnek Hk]]; try done.
    + by injection Hci as <-.
    + by injection Hck as <-.
    + by eapply (inv_lag_unique _ _ _ HI i k thi thk fi fk).
  - intros Hl. destruct (inv_lag _ _ _ HI Hl) as (k & thk & f & Hk & Hck & Hcas).
    exists k, thk, f. split; [| done].
    rewrite list_lookup_insert_ne; [done |].
    intros <-. rewrite Hth in Hk. injection Hk as <-. rewrite Hcur in Hck.
    by injection Hck as <-.
  - rewrite links_app. cbn. rewrite app_nil_r. apply HI.
  - rewrite takes_app, (inv_takes _ _ _ HI). cbn.
    erewrite (take_S_r _ (hi g) c); [by rewrite fmap_app, Hhn, Hc |].
    by rewrite lookup_drop.
  - rewrite links_app. cbn. rewrite app_nil_r. apply HI.
  - intros k thk Hk. apply lookup_insert_thread in Hk as [[-> ->] | [Hne Hk]].
    + pose proof (inv_thread_takes _ _ _ HI tid th Hth) as Ht.
      unfold takes_inv in *. rewrite Hcur in Ht. cbn [CLQ.cur CLQ.done].
      exists (takes_by tid tr). split; [| done].
      by rewrite takes_by_app, takes_by_take, decide_True.
    + pose proof (inv_thread_takes _ _ _ HI k thk Hk) as Ht.
      unfold takes_inv in *.
      by rewrite takes_by_app, takes_by_take, decide_False, app_nil_r by done.
  - intros k thk Hk. apply lookup_insert_thread in Hk as [[-> ->] | [Hne Hk]].
    + by apply (inv_rets _ _ _ HI tid th).
    + by apply (inv_rets _ _ _ HI k thk).
Qed.

Lemma system_eta (sys : system) : CLQ.mkSystem (CLQ.mem sys) (CLQ.threads sys) = sys.
Proof. by destruct sys. Qed.

Lemma shared_eta (m : CLQ.shared T) :
  CLQ.mkShared (CLQ.heap m) (CLQ.head m) (CLQ.tail m) = m.
Proof. by destruct m. Qed.

(** The frames at which a call has neither linked a node without moving
    the tail nor taken a node without returning its value. *)
Definition plain (f : frame) : bool :=
  match f with
  | CLQ.Enq_cas_tail _ _ _ | CLQ.Deq_read_val _ => false
  | _ => true
  end.

(** A step of a call in progress that is local to the goroutine. *)
Lemma Inv_continue sys g tr tid th f f' :
  Inv sys g tr ->
  CLQ.threads sys !! tid = Some th -> CLQ.cur th = Some f ->
  plain f = true -> plain f' = true ->
  owned f' = None \/ owned f' = owned f ->
  frame_inv g (CLQ.heap (CLQ.mem sys)) f' ->
  Inv (CLQ.mkSystem (CLQ.mem sys)
         (<[tid := CLQ.mkThread (Some f') (CLQ.todo th) (CLQ.done th)]> (CLQ.threads sys)))
      g tr.
Proof.
  intros HI Hth Hcur Hp Hp' Hown Hf.
  apply (Inv_local sys g tr tid th); try done.
  - intros f0 Hf0. rewrite Hcur in Hf0. injection Hf0 as <-.
    destruct f; cbn in *; (tauto || congruence).
  - intros f0 [= <-]. split_and!; [done | destruct f'; cbn in *; (tauto || congruence) |].
    intros a Ha. left. exists f. split; [done |].
    destruct Hown as [Ho | Ho]; congruence.
  - eapply (takes_inv_frame _ _ _ th); [done | | | by apply (inv_thread_takes _ _ _ HI)].
    + intros hn. rewrite Hcur. intros [= ->]. cbn in *. congruence.
    + intros hn. cbn. intros [= ->]. cbn in *. congruence.
  - by apply (inv_rets _ _ _ HI tid th).
Qed.

(** Every step keeps the invariant; in particular no step panics. *)
Lemma step_Inv tid sys g tr :
  Inv sys g tr ->
  exists sys' evs g', CLQ.step zero tid sys = Ok (sys', evs) /\ Inv sys' g' (tr ++ evs).
Proof.
  intros HI. unfold CLQ.step.
  destruct (CLQ.threads sys !! tid) as [th |] eqn:Hth.
  2:{ exists sys, [], g. by rewrite app_nil_r. }
  pose proof (inv_bounds _ _ _ HI) as [[Hhi Hti] Hlen].
  destruct (CLQ.cur th) as [f |] eqn:Hcur.
  2:{ destruct (CLQ.todo th) as [| o rest] eqn:Htodo.
      - exists sys, [], g. by rewrite app_nil_r.
      - eexists _, [], g. split; [done |]. rewrite app_nil_r.
        apply (Inv_local sys g tr tid th); try done.
        + intros f. by rewrite Hcur.
        + intros f' [= <-]. destruct o; cbn; split_and!; try done; tauto.
        + eapply (takes_inv_frame _ _ _ th); [done | | | by apply (inv_thread_takes _ _ _ HI)].
          * intros hn. by rewrite Hcur.
          * intros hn. by destruct o.
        + by apply (inv_rets _ _ _ HI tid th). }
  pose proof (inv_frames _ _ _ HI tid th f Hth Hcur) as Hf.
  destruct f as [t | t np | t np tp | t np tp tn | t np tp | | hp | hp | hp hn | hn];
    cbn [CLQ.step_frame].
  - (* Enq_alloc *)
    cbn [mbind result_bind Go.bind fmap list_fmap].
    eexists _, [], g. split; [done |]. rewrite app_nil_r.
    pose proof (Inv_alloc sys g tr (CLQ.mkNode t None) HI) as HA.
    eapply (Inv_local _ g tr tid th) in HA; [exact HA | done | | | |].
    + intros f. rewrite Hcur. intros [= <-]. cbn. tauto.
    + intros f' [= <-]. cbn. split_and!; [| tauto |].
      * eexists. split; [done |]. by apply list_lookup_middle.
      * intros a [= <-]. right. split.
        -- intros Hin. apply (chain_allocated sys g tr) in Hin; [lia | done].
        -- intros k thk fk Hk Hck Hown.
           pose proof (inv_frames _ _ _ HI k thk fk Hk Hck) as Hfk.
           pose proof (owned_allocated _ _ _ _ Hfk Hown). lia.
    + eapply (takes_inv_frame _ _ _ th); [done | | done |].
      * intros hn. by rewrite Hcur.
      * eapply takes_inv_mono; [apply heap_le_app | by apply (inv_thread_takes _ _ _ HI)].
    + by apply (inv_rets _ _ _ HI tid th).
  - (* Enq_load_tail *)
    cbn [mbind result_bind Go.bind fmap list_fmap].
    eexists _, [], g. split; [done |]. rewrite app_nil_r.
    apply (Inv_continue sys g tr tid th _ _ HI Hth Hcur); try done; try (by right).
    split; [done |]. exists (ti g). split; [done | apply HI].
  - (* Enq_load_next *)
    destruct Hf as [Hfresh Hup].
    destruct (upto_deref sys g tr (ti g) tp HI Hti Hup)
      as (j & b & nd & Hj & Hjb & -> & Hb & Hnext).
    rewrite (deref_Some _ _ _ Hb). cbn [mbind result_bind Go.bind].
    destruct (decide (CLQ.next nd = None)) as [Hnil | Hnil];
      cbn [mbind result_bind Go.bind fmap list_fmap];
      (eexists _, [], g; split; [done |]); rewrite app_nil_r;
      apply (Inv_continue sys g tr tid th _ _ HI Hth Hcur); try done;
      try (by right).
  - (* Enq_cas_next *)
    destruct Hf as (Hfresh & Hup & ->).
    destruct (upto_deref sys g tr (ti g) tp HI Hti Hup)
      as (j & b & nd & Hj & Hjb & -> & Hb & Hnext).
    rewrite (deref_Some _ _ _ Hb). cbn [mbind result_bind Go.bind].
    destruct (decide (CLQ.next nd = None)) as [Hnil | Hnil];
      cbn [mbind result_bind Go.bind fmap list_fmap].
    + destruct Hfresh as (a & -> & Ha).
      eexists _, _, _. split; [done |].
      apply (Inv_link sys g tr tid th t a (Some b)); try done.
      exists nd. by rewrite (deref_Some _ _ _ Hb).
    + eexists _, [], g. split; [done |]. rewrite app_nil_r.
      apply (Inv_continue sys g tr tid th _ _ HI Hth Hcur); try done; by right.
  - (* Enq_cas_tail *)
    destruct (Inv_tail sys g tr tid th t np tp HI Hth Hcur) as [Htail HI'].
    rewrite decide_True by done. cbn [mbind result_bind Go.bind fmap list_fmap].
    eexists _, [], _. split; [done |]. by rewrite app_nil_r.
  - (* Deq_load_head *)
    cbn [mbind result_bind Go.bind fmap list_fmap].
    eexists _, [], g. split; [done |]. rewrite app_nil_r.
    apply (Inv_continue sys g tr tid th _ _ HI Hth Hcur); try done; try (by left).
    exists (hi g). split; [done | apply HI].
  - (* Deq_load_tail *)
    destruct Hf as (j & Hj & ->).
    destruct (decide _) as [Heq | Hne];
      cbn [mbind result_bind Go.bind fmap list_fmap];
      eexists _, [], g; (split; [done |]); rewrite app_nil_r.
    + apply (Inv_local sys g tr tid th); try done.
      * intros f. rewrite Hcur. intros [= <-]. cbn. tauto.
      * pose proof (inv_thread_takes _ _ _ HI tid th Hth) as Ht.
        unfold takes_inv in *. rewrite Hcur in Ht. cbn [CLQ.cur CLQ.done].
        rewrite dequeued_app. cbn. by rewrite app_nil_r.
      * cbn. apply Forall_app. split; [by apply (inv_rets _ _ _ HI tid th) |].
        constructor; [| constructor]. by right.
    + apply (Inv_continue sys g tr tid th _ _ HI Hth Hcur); try done; try (by left).
      exists j. split_and!; [done | | done].
      destruct (decide (j = ti g)) as [-> | ?]; [| lia].
      by rewrite (inv_tail _ _ _ HI) in Hne.
  - (* Deq_load_next *)
    destruct Hf as (j & Hj & Hjt & ->).
    destruct (upto_deref sys g tr j (chain g !! j) HI ltac:(lia))
      as (j' & b & nd & Hj' & Hjb & Hp & Hb & Hnext); [by exists j |].
    rewrite Hp, (deref_Some _ _ _ Hb). cbn [mbind result_bind Go.bind fmap list_fmap].
    destruct (lookup_lt_is_Some_2 (chain g) j ltac:(lia)) as [b' Hb'].
    assert (j' = j) as ->.
    { eapply (chain_lookup_inj sys g tr); [done | done |]. congruence. }
    eexists _, [], g. split; [done |]. rewrite app_nil_r.
    apply (Inv_continue sys g tr tid th _ _ HI Hth Hcur); try done; try (by left).
    exists j. by rewrite <- Hp.
  - (* Deq_cas_head *)
    destruct (decide _) as [Heq | Hne];
      cbn [mbind result_bind Go.bind fmap list_fmap].
    + eexists _, _, _. split; [done |].
      by apply (Inv_take sys g tr tid th hp hn).
    + eexists _, [], g. split; [done |]. rewrite app_nil_r.
      apply (Inv_continue sys g tr tid th _ _ HI Hth Hcur); try done; by left.
  - (* Deq_read_val *)
    destruct Hf as (j & Hj & ->).
    destruct (upto_deref sys g tr j (chain g !! j) HI ltac:(lia))
      as (j' & b & nd & Hj' & Hjb & Hp & Hb & Hnext); [by exists j |].
    rewrite Hp, (deref_Some _ _ _ Hb). cbn [mbind result_bind Go.bind fmap list_fmap].
    eexists _, [], g. split; [done |]. rewrite app_nil_r.
    apply (Inv_local sys g tr tid th); try done.
    + intros f. rewrite Hcur. intros [= <-]. cbn. tauto.
    + pose proof (inv_thread_takes _ _ _ HI tid th Hth) as Ht.
      unfold takes_inv in *. rewrite Hcur in Ht. cbn [CLQ.cur CLQ.done].
      destruct Ht as (ps & -> & Hps).
      rewrite dequeued_app, !fmap_app, Hps. cbn. f_equal.
      rewrite Hp. cbn. by rewrite Hb.
    + cbn. apply Forall_app. split; [by apply (inv_rets _ _ _ HI tid th) |].
      constructor; [| constructor]. by left.
Qed.

Lemma run_Inv sched : forall sys g tr,
  Inv sys g tr ->
  exists sys' tr' g', CLQ.run zero sched sys = Ok (sys', tr') /\ Inv sys' g' (tr ++ tr').
Proof.
  induction sched as [| tid sched IH]; intros sys g tr HI.
  - exists sys, [], g. by rewrite app_nil_r.
  - destruct (step_Inv tid sys g tr HI) as (sys1 & evs1 & g1 & Hstep & HI1).
    destruct (IH sys1 g1 _ HI1) as (sys2 & evs2 & g2 & Hrun & HI2).
    exists sys2, (evs1 ++ evs2), g2. cbn [CLQ.run]. rewrite Hstep. cbn.
    rewrite Hrun. cbn. by rewrite app_assoc.
Qed.

(** The value of the node at an address, for the nodes of the chain. *)
Definition valat (h : list node) (a : nat) : T :=
  default zero (valof h (Some a)).

Lemma chain_length sys g tr :
  Inv sys g tr -> (length (chain g) <= length (CLQ.heap (CLQ.mem sys)))%nat.
Proof.
  intros HI.
  rewrite <- (length_seq (length (CLQ.heap (CLQ.mem sys))) 0).
  apply submseteq_length, NoDup_submseteq; [apply HI |].
  intros a Ha. apply elem_of_seq. split; [lia |].
  cbn. by eapply chain_allocated.
Qed.

Lemma values_after_chain sys g tr fuel : forall k,
  Inv sys g tr -> (k < length (chain g))%nat -> (length (chain g) <= S k + fuel)%nat ->
  CLQ.values_after fuel (CLQ.heap (CLQ.mem sys)) (chain g !! k) =
    valat (CLQ.heap (CLQ.mem sys)) <$> drop (S k) (chain g).
Proof.
  induction fuel as [| fuel IH]; intros k HI Hk Hf.
  - cbn. by rewrite drop_ge by lia.
  - destruct (lookup_lt_is_Some_2 (chain g) k Hk) as [a Ha].
    destruct (inv_next _ _ _ HI k a Ha) as (nd & Hnd & Hnext).
    cbn [CLQ.values_after]. rewrite Ha, Hnd, Hnext.
    destruct (chain g !! S k) as [b |] eqn:Hb.
    + destruct (inv_next _ _ _ HI (S k) b Hb) as (nb & Hnb & _).
      rewrite Hnb. rewrite (drop_S _ b (S k)) by done. cbn [fmap list_fmap].
      f_equal.
      * unfold valat, valof. cbn. by rewrite Hnb.
      * rewrite <- Hb. apply IH; [done | by eapply lookup_lt_Some | lia].
    + apply lookup_ge_None in Hb. by rewrite drop_ge by lia.
Qed.

Lemma link_vals_chain (h : list node) (L : list (nat * (CLQ.ptr * T))) : forall l,
  link_ptrs L = Some <$> l ->
  Forall (fun x => valof h x.2.1 = Some x.2.2) L ->
  link_vals L = valat h <$> l.
Proof.
  induction L as [| [tid [p t]] L IH]; intros [| a l]; try done.
  cbn. intros [= -> Hl] [Hv HL]%Forall_cons. cbn in Hv.
  f_equal; [| by apply IH]. unfold valat. by rewrite Hv.
Qed.

(** What the invariant says of the events of a run and of the content of
    the queue. *)
Lemma Inv_history sys g tr :
  Inv sys g tr ->
  NoDup (link_ptrs (links tr)) /\
  takes tr = take (length (takes tr)) (link_ptrs (links tr)) /\
  CLQ.content (CLQ.mem sys) = drop (length (takes tr)) (link_vals (links tr)).
Proof.
  intros HI. pose proof (inv_bounds _ _ _ HI) as [[Hhi Hti] Hlen].
  assert (Hk : length (takes tr) = hi g).
  { rewrite (inv_takes _ _ _ HI), length_fmap, length_take, length_drop. lia. }
  split_and!.
  - rewrite (inv_links _ _ _ HI). apply (NoDup_fmap_2 _).
    eapply sublist_NoDup; [apply HI | apply sublist_drop].
  - rewrite Hk, (inv_links _ _ _ HI), (inv_takes _ _ _ HI). by rewrite fmap_take.
  - rewrite Hk. unfold CLQ.content. rewrite (inv_head _ _ _ HI).
    rewrite (values_after_chain sys g tr); [| done | lia |].
    + rewrite (link_vals_chain (CLQ.heap (CLQ.mem sys)) (links tr) (drop 1 (chain g)));
        [| apply HI | apply HI].
      rewrite <- fmap_drop. rewrite drop_drop. do 2 f_equal.
    + pose proof (chain_length sys g tr HI). lia.
Qed.

Lemma filter_ext_elem {A} (P1 P2 : A -> Prop)
    `{!forall x, Decision (P1 x), !forall x, Decision (P2 x)} (l : list A) :
  (forall x, x ∈ l -> P1 x <-> P2 x) -> filter P1 l = filter P2 l.
Proof.
  induction l as [| x l IH]; intros Heq; [done |].
  rewrite !filter_cons.
  rewrite IH by (intros y Hy; apply Heq; by right).
  pose proof (Heq x ltac:(by left)) as Hx.
  destruct (decide (P1 x)), (decide (P2 x)); tauto.
Qed.

Lemma filter_prefix {A} (P : A -> Prop) `{!forall x, Decision (P x)} (l1 l2 : list A) :
  l1 `prefix_of` l2 -> filter P l1 `prefix_of` filter P l2.
Proof. intros [k ->]. rewrite filter_app. by apply prefix_app_r. Qed.

(** The nodes a goroutine linked, in order. *)
Definition linked_by (tid : nat) (tr : list (nat * event)) : list CLQ.ptr :=
  link_ptrs (filter (fun x => x.1 = tid) (links tr)).

Lemma filter_linked (Q : nat * (CLQ.ptr * T) -> Prop) `{!forall x, Decision (Q x)}
    (L : list (nat * (CLQ.ptr * T))) :
  NoDup (link_ptrs L) ->
  filter (fun p => p ∈ link_ptrs (filter Q L)) (link_ptrs L) = link_ptrs (filter Q L).
Proof.
  induction L as [| x L IH]; [done |].
  unfold link_ptrs in *. cbn [fmap list_fmap]. intros [Hx HL]%NoDup_cons.
  assert (Hsub : forall q, q ∈ (filter Q L).*2.*1 -> q ∈ L.*2.*1).
  { intros q (y & -> & (z & -> & [_ Hz]%list_elem_of_filter)%list_elem_of_fmap)%list_elem_of_fmap.
    apply list_elem_of_fmap. exists z.2. split; [done |].
    apply list_elem_of_fmap. by exists z. }
  rewrite (filter_cons Q). destruct (decide (Q x)) as [HQ | HQ].
  - cbn [fmap list_fmap]. rewrite filter_cons_True by by left.
    f_equal. etrans; [| by apply IH].
    apply filter_ext_elem. intros q Hq. split.
    + intros [-> | ?]%elem_of_cons; done.
    + by right.
  - rewrite filter_cons_False by (intros ?%Hsub; done).
    by apply IH.
Qed.

(** The events of a run that kept the invariant: the nodes linked are
    pairwise distinct; the nodes taken are, in order, the first of the nodes
    linked, also for the nodes of each producer; every goroutine returned
    from its successful Dequeue calls the values of the nodes it took; and
    the queue holds the values linked and not taken. *)
Lemma Inv_fifo sys g tr :
  Inv sys g tr ->
  NoDup (link_ptrs (links tr)) /\
  takes tr = take (length (takes tr)) (link_ptrs (links tr)) /\
  (forall tid, filter (fun p => p ∈ linked_by tid tr) (takes tr)
                 `prefix_of` linked_by tid tr) /\
  Forall (fun x => valof (CLQ.heap (CLQ.mem sys)) x.2.1 = Some x.2.2) (links tr) /\
  (forall tid th, CLQ.threads sys !! tid = Some th ->
     exists ps pending,
       takes_by tid tr = ps ++ pending /\
       valof (CLQ.heap (CLQ.mem sys)) <$> ps = Some <$> dequeued (CLQ.done th) /\
       (pending = [] \/
        exists hn, pending = [hn] /\ CLQ.cur th = Some (CLQ.Deq_read_val hn))) /\
  CLQ.content (CLQ.mem sys) = drop (length (takes tr)) (link_vals (links tr)).
Proof.
  intros HI. destruct (Inv_history sys g tr HI) as (Hnd & Htk & Hcontent).
  split_and!; try done.
  - intros tid. unfold linked_by.
    pose proof (filter_linked (fun x => x.1 = tid) (links tr) Hnd) as E.
    etrans; [| by rewrite <- E].
    apply filter_prefix. rewrite Htk. apply prefix_take.
  - apply HI.
  - intros tid th Hth. pose proof (inv_thread_takes _ _ _ HI tid th Hth) as Ht.
    unfold takes_inv in Ht.
    destruct (CLQ.cur th) as [f |] eqn:Hcur.
    2:{ exists (takes_by tid tr), []. rewrite app_nil_r. split_and!; [done | done | by left]. }
    destruct f;
      try (exists (takes_by tid tr), []; rewrite app_nil_r;
           split_and!; [done | done | by left]).
    destruct Ht as (ps & Hps & Hv). exists ps, [headNextPtr].
    split_and!; [done | done |]. right. by eexists.
Qed.

(** *** Progress *)

(** A step of a goroutine leaves the other goroutines as they are. *)
Lemma step_other tid sys sys' evs k :
  CLQ.step zero tid sys = Ok (sys', evs) -> k <> tid ->
  CLQ.threads sys' !! k = CLQ.threads sys !! k.
Proof.
  unfold CLQ.step. intros Hstep Hk.
  destruct (CLQ.threads sys !! tid) as [th |]; [| by simplify_eq].
  destruct (CLQ.cur th) as [f |].
  - destruct (CLQ.step_frame zero f (CLQ.mem sys)) as [[[nf s'] evs'] | |]; [| done | done].
    cbn in Hstep. simplify_eq. cbn. by rewrite list_lookup_insert_ne.
  - destruct (CLQ.todo th); simplify_eq; [done |].
    cbn. by rewrite list_lookup_insert_ne.
Qed.

(** No goroutine other than [tid] has linked a node without moving the
    tail. *)
Definition quiet (tid : nat) (sys : system) : Prop :=
  forall k thk fk, k <> tid -> CLQ.threads sys !! k = Some thk ->
                   CLQ.cur thk = Some fk -> ~ at_cas_tail fk.

(** The number of steps a call needs at most to return when it runs alone
    in a quiet state. *)
Definition steps_left (s : CLQ.shared T) (f : frame) : nat :=
  match f with
  | CLQ.Enq_alloc _ => 6
  | CLQ.Enq_load_tail _ _ => 5
  | CLQ.Enq_load_next _ _ tp => if decide (tp = CLQ.tail s) then 4 else 6
  | CLQ.Enq_cas_next _ _ tp _ => if decide (tp = CLQ.tail s) then 3 else 6
  | CLQ.Enq_cas_tail _ _ _ => 1
  | CLQ.Deq_load_head => 5
  | CLQ.Deq_load_tail hp => if decide (hp = CLQ.head s) then 4 else 8
  | CLQ.Deq_load_next hp => if decide (hp = CLQ.head s) then 3 else 7
  | CLQ.Deq_cas_head hp _ => if decide (hp = CLQ.head s) then 2 else 6
  | CLQ.Deq_read_val _ => 1
  end.

(** The call of a frame. *)
Definition is_enqueue (f : frame) : bool :=
  match f with
  | CLQ.Enq_alloc _ | CLQ.Enq_load_tail _ _ | CLQ.Enq_load_next _ _ _
  | CLQ.Enq_cas_next _ _ _ _ | CLQ.Enq_cas_tail _ _ _ => true
  | _ => false
  end.

(** What a call that runs alone from frame [f] does until it returns [r],
    in terms of the events [tr'] of these steps and of the state [sys'] in
    which it returns: an Enqueue links its node once, unless it has done so,
    and returns no error; a Dequeue takes one node and returns its value, or
    takes none, finds the queue empty and says so. *)
Definition call_post (tid : nat) (sys' : system) (f : frame)
    (tr' : list (nat * event)) (r : CLQ.retval T) : Prop :=
  match f with
  | CLQ.Enq_alloc t | CLQ.Enq_load_tail t _ | CLQ.Enq_load_next t _ _
  | CLQ.Enq_cas_next t _ _ _ =>
      r = CLQ.RetEnqueue None /\ exists p, tr' = [(tid, CLQ.EvLink p t)]
  | CLQ.Enq_cas_tail _ _ _ => r = CLQ.RetEnqueue None /\ tr' = []
  | CLQ.Deq_read_val hn =>
      tr' = [] /\
      exists v, r = CLQ.RetDequeue v None /\ valof (CLQ.heap (CLQ.mem sys')) hn = Some v
  | _ =>
      (tr' = [] /\ r = CLQ.RetDequeue zero (Some ErrEmptyQueue) /\
       CLQ.content (CLQ.mem sys') = []) \/
      (exists p v, tr' = [(tid, CLQ.EvTake p)] /\ r = CLQ.RetDequeue v None /\
                   valof (CLQ.heap (CLQ.mem sys')) p = Some v)
  end.

(** In a quiet state the tail is the last node, unless [tid] itself is
    about to move it. *)
Lemma quiet_no_lag sys g tr tid th f :
  Inv sys g tr -> quiet tid sys ->
  CLQ.threads sys !! tid = Some th -> CLQ.cur th = Some f -> ~ at_cas_tail f ->
  length (chain g) = S (ti g).
Proof.
  intros HI Hq Hth Hcur Hn.
  pose proof (inv_bounds _ _ _ HI) as [[Hhi Hti] Hlen].
  destruct (decide (S (S (ti g)) = length (chain g))) as [Hlag | ?]; [| lia].
  destruct (inv_lag _ _ _ HI Hlag) as (k & thk & fk & Hk & Hck & Hcas).
  destruct (decide (k = tid)) as [-> | Hne].
  - rewrite Hth in Hk. injection Hk as <-. rewrite Hcur in Hck. by injection Hck as <-.
  - by destruct (Hq k thk fk Hne Hk Hck).
Qed.

Lemma content_chain sys g tr :
  Inv sys g tr ->
  CLQ.content (CLQ.mem sys) = valat (CLQ.heap (CLQ.mem sys)) <$> drop (S (hi g)) (chain g).
Proof.
  intros HI. pose proof (inv_bounds _ _ _ HI) as [[Hhi Hti] Hlen].
  unfold CLQ.content. rewrite (inv_head _ _ _ HI).
  apply (values_after_chain sys g tr); [done | lia |].
  pose proof (chain_length sys g tr HI). lia.
Qed.

Lemma solo_frame sys g tr tid th f :
  Inv sys g tr -> quiet tid sys ->
  CLQ.threads sys !! tid = Some th -> CLQ.cur th = Some f ->
  exists nf s' evs,
    CLQ.step_frame zero f (CLQ.mem sys) = Ok (nf, s', evs) /\
    match nf with
    | CLQ.Return r =>
        forall sysf, CLQ.mem sysf = s' ->
                     call_post tid sysf f (fmap (M := list) (pair tid) evs) r
    | CLQ.Continue f' =>
        (steps_left s' f' < steps_left (CLQ.mem sys) f)%nat /\
        forall sysf tr2 r, call_post tid sysf f' tr2 r ->
                           call_post tid sysf f (fmap (M := list) (pair tid) evs ++ tr2) r
    end.
Proof.
  intros HI Hq Hth Hcur.
  pose proof (inv_bounds _ _ _ HI) as [[Hhi Hti] Hlen].
  pose proof (inv_frames _ _ _ HI tid th f Hth Hcur) as Hf.
  pose proof (inv_tail _ _ _ HI) as Htail.
  pose proof (inv_head _ _ _ HI) as Hhead.
  destruct f as [t | t np | t np tp | t np tp tn | t np tp | | hp | hp | hp hn | hn];
    cbn [CLQ.step_frame].
  - eexists _, _, _. split; [done |]. cbn. split; [lia | done].
  - eexists _, _, _. split; [done |]. cbn. rewrite decide_True by done. split; [lia | done].
  - destruct Hf as [Hfresh Hup].
    pose proof (quiet_no_lag sys g tr tid th _ HI Hq Hth Hcur ltac:(cbn; tauto)) as Hlast.
    destruct (upto_deref sys g tr (ti g) tp HI Hti Hup)
      as (j & b & nd & Hj & Hjb & -> & Hb & Hnext).
    rewrite (deref_Some _ _ _ Hb). cbn [mbind result_bind Go.bind].
    destruct (decide (j = ti g)) as [-> | Hne].
    + rewrite Hnext, (lookup_ge_None_2 (chain g) (S (ti g))) by lia.
      rewrite decide_True by done.
      eexists _, _, _. split; [done |]. cbn.
      rewrite !decide_True by congruence. split; [lia | done].
    + destruct (lookup_lt_is_Some_2 (chain g) (S j) ltac:(lia)) as [c Hc].
      rewrite Hnext, Hc. rewrite decide_False by done.
      eexists _, _, _. split; [done |]. cbn.
      destruct (decide _) as [Heq | ?]; [| split; [lia | done]].
      exfalso. apply Hne. eapply (chain_lookup_inj sys g tr); [done | done | congruence].
  - destruct Hf as (Hfresh & Hup & ->).
    pose proof (quiet_no_lag sys g tr tid th _ HI Hq Hth Hcur ltac:(cbn; tauto)) as Hlast.
    destruct (upto_deref sys g tr (ti g) tp HI Hti Hup)
      as (j & b & nd & Hj & Hjb & -> & Hb & Hnext).
    rewrite (deref_Some _ _ _ Hb). cbn [mbind result_bind Go.bind].
    destruct (decide (j = ti g)) as [-> | Hne].
    + rewrite Hnext, (lookup_ge_None_2 (chain g) (S (ti g))) by lia.
      rewrite decide_True by done.
      eexists _, _, _. split; [done |]. cbn.
      rewrite !decide_True by congruence. split; [lia |].
      intros sysf tr2 r [-> ->]. split; [done |]. by eexists.
    + destruct (lookup_lt_is_Some_2 (chain g) (S j) ltac:(lia)) as [c Hc].
      rewrite Hnext, Hc. rewrite decide_False by done.
      eexists _, _, _. split; [done |]. cbn.
      destruct (decide _) as [Heq | ?]; [| split; [lia | done]].
      exfalso. apply Hne. eapply (chain_lookup_inj sys g tr); [done | done | congruence].
  - eexists _, _, _. split; [done |]. by cbn.
  - eexists _, _, _. split; [done |]. cbn. rewrite decide_True by done. split; [lia | done].
  - destruct Hf as (j & Hj & ->).
    destruct (decide _) as [Heq | Hne].
    + eexists _, _, _. split; [done |]. cbn. intros sysf Hsysf. left.
      split_and!; [done | done |].
      pose proof (quiet_no_lag sys g tr tid th _ HI Hq Hth Hcur ltac:(cbn; tauto)) as Hlast.
      destruct (lookup_lt_is_Some_2 (chain g) j ltac:(lia)) as [x Hx].
      assert (j = ti g) as -> by (eapply (chain_lookup_inj sys g tr); [done | done | congruence]).
      assert (hi g = ti g) by lia.
      rewrite Hsysf, (content_chain sys g tr HI). by rewrite drop_ge by lia.
    + eexists _, _, _. split; [done |]. cbn. split; [| done].
      destruct (decide _); lia.
  - destruct Hf as (j & Hj & Hjt & ->).
    destruct (upto_deref sys g tr j (chain g !! j) HI ltac:(lia))
      as (j' & b & nd & Hj' & Hjb & Hp & Hb & Hnext); [by exists j |].
    rewrite Hp, (deref_Some _ _ _ Hb). cbn [mbind result_bind Go.bind].
    eexists _, _, _. split; [done |]. cbn. split; [| done].
    destruct (decide _); lia.
  - destruct (decide _) as [Heq | Hne].
    + eexists _, _, _. split; [done |]. cbn. split.
      * rewrite decide_True by done. lia.
      * intros sysf tr2 r (-> & v & -> & Hv). right. by exists hn, v.
    + eexists _, _, _. split; [done |]. cbn. split; [| done].
      rewrite decide_False by congruence. lia.
  - destruct Hf as (j & Hj & ->).
    destruct (upto_deref sys g tr j (chain g !! j) HI ltac:(lia))
      as (j' & b & nd & Hj' & Hjb & Hp & Hb & Hnext); [by exists j |].
    rewrite Hp, (deref_Some _ _ _ Hb). cbn [mbind result_bind Go.bind].
    eexists _, _, _. split; [done |]. cbn. intros sysf ->. split; [done |].
    exists (CLQ.val nd). split; [done |]. by rewrite Hb.
Qed.

Lemma steps_left_pos s f : (1 <= steps_left s f)%nat.
Proof. destruct f; cbn; try lia; destruct (decide _); lia. Qed.

Lemma quiet_step tid sys sys' evs :
  CLQ.step zero tid sys = Ok (sys', evs) -> quiet tid sys -> quiet tid sys'.
Proof.
  intros Hstep Hq k thk fk Hk Hthk. rewrite (step_other _ _ _ _ _ Hstep Hk) in Hthk.
  by apply (Hq k thk fk).
Qed.

(** A call that runs alone in a quiet state returns. *)
Lemma solo_run n : forall sys g tr tid th f,
  Inv sys g tr -> quiet tid sys ->
  CLQ.threads sys !! tid = Some th -> CLQ.cur th = Some f ->
  (steps_left (CLQ.mem sys) f <= n)%nat ->
  exists k sys' tr' g' th' r,
    (k <= n)%nat /\
    CLQ.run zero (replicate k tid) sys = Ok (sys', tr') /\
    Inv sys' g' (tr ++ tr') /\ quiet tid sys' /\
    CLQ.threads sys' !! tid = Some th' /\
    CLQ.cur th' = None /\ CLQ.todo th' = CLQ.todo th /\
    CLQ.done th' = CLQ.done th ++ [r] /\ call_post tid sys' f tr' r.
Proof.
  induction n as [| n IH]; intros sys g tr tid th f HI Hq Hth Hcur Hn.
  { pose proof (steps_left_pos (CLQ.mem sys) f). lia. }
  destruct (solo_frame sys g tr tid th f HI Hq Hth Hcur) as (nf & s' & evs & Hframe & Hnf).
  destruct (step_Inv tid sys g tr HI) as (sys1 & evs1 & g1 & Hstep & HI1).
  pose proof (quiet_step _ _ _ _ Hstep Hq) as Hq1.
  assert (Hlt : (tid < length (CLQ.threads sys))%nat) by by eapply lookup_lt_Some.
  pose proof Hstep as Hstep'.
  unfold CLQ.step in Hstep'. rewrite Hth, Hcur, Hframe in Hstep'.
  cbn [mbind result_bind Go.bind] in Hstep'. injection Hstep' as <- <-.
  destruct nf as [f' | r].
  - destruct Hnf as [Hlt' Hpost].
    destruct (IH _ g1 _ tid (CLQ.mkThread (Some f') (CLQ.todo th) (CLQ.done th)) f' HI1 Hq1)
      as (k & sys2 & tr2 & g2 & th2 & r & Hk & Hrun & HI2 & Hq2 & Hth2 & ? & ? & ? & Hr).
    { cbn. by apply list_lookup_insert_eq. }
    { done. }
    { cbn [CLQ.mem]. lia. }
    exists (S k), sys2, (fmap (M := list) (pair tid) evs ++ tr2), g2, th2, r.
    split_and!; try done.
    + lia.
    + cbn [replicate CLQ.run]. rewrite Hstep. cbn [mbind result_bind Go.bind].
      by rewrite Hrun.
    + by rewrite app_assoc.
    + by apply Hpost.
  - eexists 1%nat, _, (fmap (M := list) (pair tid) evs), g1, _, r.
    split; [lia |].
    split; [cbn [replicate CLQ.run]; rewrite Hstep; cbn; by rewrite app_nil_r |].
    split; [exact HI1 |]. split; [exact Hq1 |].
    split; [cbn; by apply list_lookup_insert_eq |].
    split_and!; [done | done | done |]. by apply Hnf.
Qed.

(** A goroutine that enters a call which then runs alone in a quiet state:
    the call returns within seven steps. *)
Lemma call_alone sys g tr tid th o rest :
  Inv sys g tr -> quiet tid sys ->
  CLQ.threads sys !! tid = Some th -> CLQ.cur th = None -> CLQ.todo th = o :: rest ->
  exists k sys' tr' g' th' r,
    (k <= 7)%nat /\
    CLQ.run zero (replicate k tid) sys = Ok (sys', tr') /\
    Inv sys' g' (tr ++ tr') /\ quiet tid sys' /\
    CLQ.threads sys' !! tid = Some th' /\
    CLQ.cur th' = None /\ CLQ.todo th' = rest /\
    CLQ.done th' = CLQ.done th ++ [r] /\ call_post tid sys' (CLQ.enter o) tr' r.
Proof.
  intros HI Hq Hth Hcur Htodo.
  destruct (step_Inv tid sys g tr HI) as (sys1 & evs1 & g1 & Hstep & HI1).
  pose proof (quiet_step _ _ _ _ Hstep Hq) as Hq1.
  assert (Hlt : (tid < length (CLQ.threads sys))%nat) by by eapply lookup_lt_Some.
  pose proof Hstep as Hstep'.
  unfold CLQ.step in Hstep'. rewrite Hth, Hcur, Htodo in Hstep'.
  injection Hstep' as <- <-.
  destruct (solo_run 6 _ g1 _ tid (CLQ.mkThread (Some (CLQ.enter o)) rest (CLQ.done th))
              (CLQ.enter o) HI1 Hq1)
    as (k & sys2 & tr2 & g2 & th2 & r & Hk & Hrun & HI2 & Hq2 & Hth2 & ? & ? & ? & Hr).
  { cbn. by apply list_lookup_insert_eq. }
  { done. }
  { destruct o; cbn; lia. }
  exists (S k), sys2, tr2, g2, th2, r. split_and!; try done.
  - lia.
  - cbn [replicate CLQ.run]. rewrite Hstep. cbn [mbind result_bind Go.bind].
    by rewrite Hrun.
  - by rewrite app_nil_r in HI2.
Qed.

Lemma takes_le_links sys g tr :
  Inv sys g tr -> (length (takes tr) <= length (link_vals (links tr)))%nat.
Proof.
  intros HI. destruct (Inv_history sys g tr HI) as (_ & Htk & _).
  apply (f_equal length) in Htk. rewrite length_take in Htk.
  unfold link_vals, link_ptrs in *. rewrite !length_fmap in *. lia.
Qed.

(** Enqueue alone in a quiet state: it returns no error and the value is
    the new last element of the queue. *)
Lemma Enqueue_alone sys g tr tid th t rest :
  Inv sys g tr -> quiet tid sys ->
  CLQ.threads sys !! tid = Some th -> CLQ.cur th = None ->
  CLQ.todo th = CLQ.OpEnqueue t :: rest ->
  exists k sys' tr' g' th',
    (k <= 7)%nat /\
    CLQ.run zero (replicate k tid) sys = Ok (sys', tr') /\
    Inv sys' g' (tr ++ tr') /\ quiet tid sys' /\
    CLQ.threads sys' !! tid = Some th' /\
    CLQ.cur th' = None /\ CLQ.todo th' = rest /\
    CLQ.done th' = CLQ.done th ++ [CLQ.RetEnqueue None] /\
    CLQ.content (CLQ.mem sys') = CLQ.content (CLQ.mem sys) ++ [t].
Proof.
  intros HI Hq Hth Hcur Htodo.
  destruct (call_alone sys g tr tid th _ rest HI Hq Hth Hcur Htodo)
    as (k & sys' & tr' & g' & th' & r & Hk & Hrun & HI' & Hq' & Hth' & ? & ? & Hdone & Hr).
  cbn in Hr. destruct Hr as [-> [p ->]].
  exists k, sys', [(tid, CLQ.EvLink p t)], g', th'. split_and!; try done.
  destruct (Inv_history _ _ _ HI) as (_ & _ & ->).
  destruct (Inv_history _ _ _ HI') as (_ & _ & ->).
  pose proof (takes_le_links _ _ _ HI).
  rewrite takes_app, links_app. cbn. rewrite app_nil_r.
  unfold link_vals. rewrite !fmap_app. cbn. by rewrite drop_app_le.
Qed.

(** Dequeue alone in a quiet state: on an empty queue it returns the zero
    value and the empty-queue error, otherwise it returns the first element
    and leaves the others. *)
Lemma Dequeue_alone sys g tr tid th rest :
  Inv sys g tr -> quiet tid sys ->
  CLQ.threads sys !! tid = Some th -> CLQ.cur th = None ->
  CLQ.todo th = CLQ.OpDequeue :: rest ->
  exists k sys' tr' g' th' r,
    (k <= 7)%nat /\
    CLQ.run zero (replicate k tid) sys = Ok (sys', tr') /\
    Inv sys' g' (tr ++ tr') /\ quiet tid sys' /\
    CLQ.threads sys' !! tid = Some th' /\
    CLQ.cur th' = None /\ CLQ.todo th' = rest /\
    CLQ.done th' = CLQ.done th ++ [r] /\
    match CLQ.content (CLQ.mem sys) with
    | [] => r = CLQ.RetDequeue zero (Some ErrEmptyQueue) /\ CLQ.content (CLQ.mem sys') = []
    | v :: c => r = CLQ.RetDequeue v None /\ CLQ.content (CLQ.mem sys') = c
    end.
Proof.
  intros HI Hq Hth Hcur Htodo.
  destruct (call_alone sys g tr tid th _ rest HI Hq Hth Hcur Htodo)
    as (k & sys' & tr' & g' & th' & r & Hk & Hrun & HI' & Hq' & Hth' & ? & ? & Hdone & Hr).
  exists k, sys', tr', g', th', r. split_and!; try done.
  destruct (Inv_history _ _ _ HI) as (_ & _ & Hc).
  destruct (Inv_fifo _ _ _ HI') as (_ & Htk' & _ & Hvals' & _ & Hc').
  cbn in Hr. destruct Hr as [(-> & -> & Hempty) | (p & v & -> & -> & Hv)].
  - rewrite app_nil_r in Hc'. rewrite Hc, <- Hc', Hempty. done.
  - rewrite links_app in Hvals'. rewrite takes_app, links_app in Htk', Hc'.
    cbn in Htk', Hc', Hvals'. rewrite app_nil_r in Htk', Hc', Hvals'.
    rewrite length_app in Htk', Hc'. cbn in Htk', Hc'.
    rewrite Nat.add_1_r in Htk', Hc'.
    assert (Hp : link_ptrs (links tr) !! length (takes tr) = Some p).
    { assert (Hl : (takes tr ++ [p]) !! length (takes tr) = Some p)
        by (rewrite lookup_app_r by lia; by rewrite Nat.sub_diag).
      rewrite Htk' in Hl. by apply lookup_take_Some in Hl as [? _]. }
    unfold link_ptrs in Hp.
    apply list_lookup_fmap_Some in Hp as (y & -> & Hy).
    apply list_lookup_fmap_Some in Hy as (x & -> & Hx).
    pose proof (proj1 (Forall_lookup _ _) Hvals' _ _ Hx) as Hvx. cbn in Hvx.
    assert (x.2.2 = v) as Hxv by congruence.
    assert (Hlv : link_vals (links tr) !! length (takes tr) = Some v).
    { unfold link_vals. rewrite !list_lookup_fmap, Hx. cbn. by rewrite Hxv. }
    rewrite Hc, (drop_S _ _ _ Hlv), <- Hc'. done.
Qed.

(** A link that waits for its tail update holds up the others; the
    goroutine that made it needs one step to finish. So from every state one
    step at most of another goroutine leads to a state that is quiet for
    [tid]. *)
Lemma settle tid sys g tr :
  Inv sys g tr ->
  exists sched sys' g',
    (length sched <= 1)%nat /\
    CLQ.run zero sched sys = Ok (sys', []) /\
    Inv sys' g' tr /\ quiet tid sys' /\
    CLQ.threads sys' !! tid = CLQ.threads sys !! tid /\
    CLQ.content (CLQ.mem sys') = CLQ.content (CLQ.mem sys).
Proof.
  intros HI.
  assert (Hnow : quiet tid sys ->
    exists sched sys' g',
      (length sched <= 1)%nat /\ CLQ.run zero sched sys = Ok (sys', []) /\
      Inv sys' g' tr /\ quiet tid sys' /\
      CLQ.threads sys' !! tid = CLQ.threads sys !! tid /\
      CLQ.content (CLQ.mem sys') = CLQ.content (CLQ.mem sys)).
  { intros Hq. exists [], sys, g. cbn. split_and!; try done. lia. }
  destruct (decide (S (S (ti g)) = length (chain g))) as [Hlag | Hno].
  - destruct (inv_lag _ _ _ HI Hlag) as (k & thk & fk & Hthk & Hck & Hat).
    destruct (decide (k = tid)) as [-> | Hk].
    + apply Hnow. intros j thj fj Hj Hthj Hcj Hatj. apply Hj.
      by eapply (inv_lag_unique _ _ _ HI j tid).
    + destruct fk as [| | | | t np tp | | | | |]; try done.
      destruct (Inv_tail sys g tr k thk t np tp HI Hthk Hck) as [Htl HI'].
      eexists [k], _, _. split; [cbn; lia |].
      assert (Hstep : CLQ.step zero k sys =
        Ok (CLQ.mkSystem
              (CLQ.mkShared (CLQ.heap (CLQ.mem sys)) (CLQ.head (CLQ.mem sys)) np)
              (<[k := CLQ.mkThread None (CLQ.todo thk)
                        (CLQ.done thk ++ [CLQ.RetEnqueue None])]> (CLQ.threads sys)),
            [])).
      { unfold CLQ.step. rewrite Hthk, Hck. cbn [CLQ.step_frame].
        rewrite decide_True by done. done. }
      split; [cbn [CLQ.run]; rewrite Hstep; done |].
      split; [exact HI' |]. split_and!.
      * intros j thj fj Hj Hthj Hcj Hatj. cbn in Hthj.
        apply lookup_insert_thread in Hthj as [[-> ->] | [Hjk Hthj]]; [done |].
        apply Hjk. by eapply (inv_lag_unique _ _ _ HI j k).
      * cbn. by rewrite list_lookup_insert_ne.
      * done.
  - apply Hnow. intros j thj fj Hj Hthj Hcj Hatj.
    pose proof (inv_frames _ _ _ HI j thj fj Hthj Hcj) as Hf.
    destruct fj; try done. cbn in Hf. tauto.
Qed.

(** The states a run can reach from the start. *)
Definition clq_reachable (progs : list (list (CLQ.op T))) (sys : system)
    (tr : list (nat * event)) : Prop :=
  exists sched, CLQ.run zero sched (CLQ.init zero progs) = Ok (sys, tr).

Lemma clq_reachable_Inv progs sys tr : clq_reachable progs sys tr -> exists g, Inv sys g tr.
Proof.
  intros [sched Hrun].
  destruct (run_Inv sched _ _ _ (Inv_init progs)) as (sys' & tr' & g' & Hrun' & HI).
  rewrite Hrun in Hrun'. injection Hrun' as <- <-. by exists g'.
Qed.

Lemma run_app s1 : forall s2 sys sys1 tr1 sys2 tr2,
  CLQ.run zero s1 sys = Ok (sys1, tr1) -> CLQ.run zero s2 sys1 = Ok (sys2, tr2) ->
  CLQ.run zero (s1 ++ s2) sys = Ok (sys2, tr1 ++ tr2).
Proof.
  induction s1 as [| k s1 IH]; intros s2 sys sys1 tr1 sys2 tr2 H1 H2.
  - cbn in H1. injection H1 as <- <-. done.
  - cbn [CLQ.run app] in *.
    destruct (CLQ.step zero k sys) as [[sysa eva] | |]; cbn [mbind result_bind Go.bind] in *;
      try done.
    destruct (CLQ.run zero s1 sysa) as [[sysb evb] | |] eqn:Hb;
      cbn [mbind result_bind Go.bind] in *; try done.
    injection H1 as <- <-.
    rewrite (IH s2 _ _ _ _ _ Hb H2). cbn. by rewrite app_assoc.
Qed.

(** ** Calls and their links

    The second invariant relates the run to the programs of the goroutines:
    the calls a goroutine has completed are the first calls of its program,
    each with a result of its kind, and the goroutine has linked one node
    for each Enqueue among them, with the value of the call, in the order
    of the program; a call in progress has linked its node once it is
    about to move the tail. *)

Definition op_of (f : frame) : CLQ.op T :=
  match f with
  | CLQ.Enq_alloc t | CLQ.Enq_load_tail t _ | CLQ.Enq_load_next t _ _
  | CLQ.Enq_cas_next t _ _ _ | CLQ.Enq_cas_tail t _ _ => CLQ.OpEnqueue t
  | _ => CLQ.OpDequeue
  end.

Definition linkedb (f : frame) : bool :=
  match f with
  | CLQ.Enq_cas_tail _ _ _ => true
  | _ => false
  end.

Definition enq_args (os : list (CLQ.op T)) : list T :=
  omap (fun o => match o with CLQ.OpEnqueue t => Some t | CLQ.OpDequeue => None end) os.

(** The values a goroutine has linked, in order. *)
Definition enqueued_by (tid : nat) (tr : list (nat * event)) : list T :=
  link_vals (filter (fun x => x.1 = tid) (links tr)).

(** The results of a call: Enqueue returns nil; Dequeue returns a value and
    nil, or the zero value and the empty-queue error. *)
Definition ret_matches (o : CLQ.op T) (r : CLQ.retval T) : Prop :=
  match o, r with
  | CLQ.OpEnqueue _, CLQ.RetEnqueue e => e = None
  | CLQ.OpDequeue, CLQ.RetDequeue v e => e = None \/ (e = Some ErrEmptyQueue /\ v = zero)
  | _, _ => False
  end.

Definition pending_op (th : thread) : list (CLQ.op T) :=
  match CLQ.cur th with
  | Some f => [op_of f]
  | None => []
  end.

Definition pending_link (th : thread) : list T :=
  match CLQ.cur th with
  | Some f => if linkedb f then enq_args [op_of f] else []
  | None => []
  end.

Definition calls_inv (p : list (CLQ.op T)) (tid : nat) (th : thread)
    (tr : list (nat * event)) : Prop :=
  exists completed,
    p = completed ++ pending_op th ++ CLQ.todo th /\
    Forall2 ret_matches completed (CLQ.done th) /\
    enqueued_by tid tr = enq_args completed ++ pending_link th.

Definition Calls (progs : list (list (CLQ.op T))) (sys : system)
    (tr : list (nat * event)) : Prop :=
  forall k th, CLQ.threads sys !! k = Some th ->
               exists p, progs !! k = Some p /\ calls_inv p k th tr.

Lemma Calls_init progs : Calls progs (CLQ.init zero progs) [].
Proof.
  intros k th Hth. unfold CLQ.init in Hth. cbn in Hth.
  apply list_lookup_fmap_Some in Hth as (p & -> & Hp).
  exists p. split; [done |]. exists []. by split_and!; [| constructor |].
Qed.

Lemma step_frame_shape f s nf s' evs :
  CLQ.step_frame zero f s = Ok (nf, s', evs) ->
  match nf with
  | CLQ.Continue f' =>
      op_of f' = op_of f /\ linkedb f = false /\
      ((evs = [] /\ linkedb f' = false) \/
       (exists p t, evs = [CLQ.EvLink p t] /\ op_of f = CLQ.OpEnqueue t /\
                    linkedb f' = true) \/
       (exists p, evs = [CLQ.EvTake p] /\ linkedb f' = false))
  | CLQ.Return r =>
      evs = [] /\ ret_matches (op_of f) r /\
      (forall t, op_of f = CLQ.OpEnqueue t -> linkedb f = true)
  end.
Proof.
  destruct f as [t | t np | t np tp | t np tp tn | t np tp | | hp | hp | hp hn | hn];
    cbn [CLQ.step_frame]; intros Hs.
  - injection Hs as <- <- <-. cbn; split_and?; auto; try done.
  - injection Hs as <- <- <-. cbn; split_and?; auto; try done.
  - destruct (CLQ.deref _ _) as [nd | |]; cbn [mbind result_bind Go.bind] in Hs;
      [| done | done].
    destruct (decide _); injection Hs as <- <- <-; cbn; split_and?; auto; try done.
  - destruct (CLQ.deref _ _) as [nd | |]; cbn [mbind result_bind Go.bind] in Hs;
      [| done | done].
    destruct (decide _); injection Hs as <- <- <-; cbn; [| split_and?; auto; done].
    split_and!; [done | done |]. right; left. by exists np, t.
  - injection Hs as <- <- <-. cbn; split_and?; auto; try done.
  - injection Hs as <- <- <-. cbn; split_and?; auto; try done.
  - destruct (decide _); injection Hs as <- <- <-; cbn; split_and?; auto; try done.
  - destruct (CLQ.deref _ _) as [nd | |]; cbn [mbind result_bind Go.bind] in Hs;
      [| done | done].
    injection Hs as <- <- <-. cbn; split_and?; auto; try done.
  - destruct (decide _); injection Hs as <- <- <-; cbn; [| split_and?; auto; done].
    split_and!; [done | done |]. right; right. by exists hn.
  - destruct (CLQ.deref _ _) as [nd | |]; cbn [mbind result_bind Go.bind] in Hs;
      [| done | done].
    injection Hs as <- <- <-. cbn; split_and?; auto; try done.
Qed.

Lemma enqueued_by_app tid tr1 tr2 :
  enqueued_by tid (tr1 ++ tr2) = enqueued_by tid tr1 ++ enqueued_by tid tr2.
Proof.
  unfold enqueued_by, link_vals. by rewrite links_app, filter_app, !fmap_app.
Qed.

Lemma enqueued_by_other tid k (evs : list event) :
  k <> tid -> enqueued_by k (fmap (M := list) (pair tid) evs) = [].
Proof.
  intros Hk. induction evs as [| e evs IH]; [done |].
  change (fmap (M := list) (pair tid) (e :: evs)) with ([(tid, e)] ++ fmap (M := list) (pair tid) evs).
  rewrite enqueued_by_app, IH, app_nil_r.
  unfold enqueued_by, links. destruct e; cbn; [| done].
  destruct (decide _) as [Heq | ?]; [cbn in Heq; congruence | done].
Qed.

Lemma step_events tid sys sys' evs :
  CLQ.step zero tid sys = Ok (sys', evs) ->
  exists evs0, evs = fmap (M := list) (pair tid) evs0.
Proof.
  unfold CLQ.step. intros Hstep.
  destruct (CLQ.threads sys !! tid) as [th |]; [| exists []; by simplify_eq].
  destruct (CLQ.cur th) as [f |].
  - destruct (CLQ.step_frame zero f (CLQ.mem sys)) as [[[nf s'] evs'] | |]; [| done | done].
    cbn in Hstep. exists evs'. by simplify_eq.
  - exists []. destruct (CLQ.todo th); by simplify_eq.
Qed.

Lemma step_Calls progs tid sys sys' tr evs :
  Calls progs sys tr -> CLQ.step zero tid sys = Ok (sys', evs) ->
  Calls progs sys' (tr ++ evs).
Proof.
  intros HC Hstep k th' Hk.
  destruct (decide (k = tid)) as [-> | Hne].
  - unfold CLQ.step in Hstep.
    destruct (CLQ.threads sys !! tid) as [th |] eqn:Hth.
    2: { injection Hstep as <- <-. congruence. }
    assert (Hlt : (tid < length (CLQ.threads sys))%nat) by by eapply lookup_lt_Some.
    destruct (HC tid th Hth) as (p & Hp & completed & Hprog & Hrets & Henq).
    exists p. split; [done |].
    unfold calls_inv, pending_op, pending_link in *.
    destruct (CLQ.cur th) as [f |] eqn:Hcur.
    + destruct (CLQ.step_frame zero f (CLQ.mem sys)) as [[[nf s'] evs'] | |] eqn:Hsf;
        [| done | done].
      cbn [mbind result_bind Go.bind] in Hstep. injection Hstep as <- <-.
      cbn [CLQ.threads] in Hk. rewrite list_lookup_insert_eq in Hk by done.
      injection Hk as <-.
      apply step_frame_shape in Hsf.
      destruct nf as [f' | r]; cbn [CLQ.cur CLQ.todo CLQ.done].
      * destruct Hsf as (Hop & Hl & Hev). exists completed.
        rewrite enqueued_by_app, Henq, Hop, Hl, app_nil_r.
        split_and!; [done | done |].
        destruct Hev as [[-> ->] | [(q & t & -> & Ht & ->) | (q & -> & ->)]].
        -- done.
        -- rewrite Ht. unfold enqueued_by, links. cbn.
           rewrite decide_True by done. done.
        -- done.
      * destruct Hsf as (-> & Hr & Hl). exists (completed ++ [op_of f]).
        rewrite enqueued_by_app, Henq.
        split_and!.
        -- by rewrite <- app_assoc.
        -- apply Forall2_app; [done |]. by constructor.
        -- unfold enq_args at 3. rewrite omap_app. rewrite !app_nil_r. f_equal.
           destruct (op_of f) as [t |] eqn:Hopf; [by rewrite (Hl t) | by destruct (linkedb f)].
    + destruct (CLQ.todo th) as [| o rest] eqn:Htodo.
      * injection Hstep as <- <-. rewrite Hth in Hk. injection Hk as <-.
        exists completed. rewrite Hcur, Htodo, (app_nil_r tr). done.
      * injection Hstep as <- <-.
        cbn [CLQ.threads] in Hk. rewrite list_lookup_insert_eq in Hk by done.
        injection Hk as <-.
        exists completed. cbn [CLQ.cur CLQ.todo CLQ.done]. rewrite app_nil_r.
        split_and!; [by destruct o | done |].
        rewrite Henq. by destruct o.
  - destruct (step_events _ _ _ _ Hstep) as [evs0 ->].
    rewrite (step_other _ _ _ _ _ Hstep Hne) in Hk.
    destruct (HC k th' Hk) as (p & Hp & completed & Hprog & Hrets & Henq).
    exists p. split; [done |]. exists completed. split_and!; [done | done |].
    by rewrite enqueued_by_app, enqueued_by_other, app_nil_r.
Qed.

Lemma run_Calls progs sched : forall sys tr sys' tr',
  Calls progs sys tr -> CLQ.run zero sched sys = Ok (sys', tr') ->
  Calls progs sys' (tr ++ tr').
Proof.
  induction sched as [| k sched IH]; intros sys tr sys' tr' HC Hrun.
  - cbn in Hrun. injection Hrun as <- <-. by rewrite app_nil_r.
  - cbn [CLQ.run] in Hrun.
    destruct (CLQ.step zero k sys) as [[sysa eva] | |] eqn:Ha;
      cbn [mbind result_bind Go.bind] in Hrun; try done.
    destruct (CLQ.run zero sched sysa) as [[sysb evb] | |] eqn:Hb;
      cbn [mbind result_bind Go.bind] in Hrun; try done.
    injection Hrun as <- <-. rewrite app_assoc.
    eapply IH; [| done]. by eapply step_Calls.
Qed.

(** A goroutine that makes Dequeue calls alone in a quiet state gets the
    first elements of the queue, in order. *)
Lemma drain vs : forall sys g tr tid th rest,
  Inv sys g tr -> quiet tid sys ->
  CLQ.threads sys !! tid = Some th -> CLQ.cur th = None ->
  CLQ.todo th = replicate (length vs) CLQ.OpDequeue ++ rest ->
  vs `prefix_of` CLQ.content (CLQ.mem sys) ->
  exists k sys' tr' g' th',
    (k <= 7 * length vs)%nat /\
    CLQ.run zero (replicate k tid) sys = Ok (sys', tr') /\
    Inv sys' g' (tr ++ tr') /\ quiet tid sys' /\
    CLQ.threads sys' !! tid = Some th' /\
    CLQ.cur th' = None /\ CLQ.todo th' = rest /\
    CLQ.done th' = CLQ.done th ++ ((fun v => CLQ.RetDequeue v None) <$> vs) /\
    CLQ.content (CLQ.mem sys) = vs ++ CLQ.content (CLQ.mem sys').
Proof.
  induction vs as [| v vs IH]; intros sys g tr tid th rest HI Hq Hth Hcur Htodo Hpre.
  - exists 0%nat, sys, [], g, th. cbn. rewrite !app_nil_r. split_and!; try done.
  - cbn [length replicate app] in Htodo.
    destruct (Dequeue_alone sys g tr tid th _ HI Hq Hth Hcur Htodo)
      as (k & sys1 & tr1 & g1 & th1 & r & Hk & Hrun & HI1 & Hq1 & Hth1 & Hc1 & Ht1 & Hd1 & Hr).
    destruct Hpre as [c Hc]. rewrite Hc in Hr. cbn in Hr. destruct Hr as [-> Hc'].
    destruct (IH sys1 g1 _ tid th1 rest HI1 Hq1 Hth1 Hc1 Ht1)
      as (k2 & sys2 & tr2 & g2 & th2 & Hk2 & Hrun2 & HI2 & Hq2 & Hth2 & ? & ? & Hd2 & Hc2).
    { rewrite Hc'. by exists c. }
    exists (k + k2)%nat, sys2, (tr1 ++ tr2), g2, th2. split_and!; try done.
    + cbn [length]. lia.
    + rewrite replicate_add. by eapply run_app.
    + by rewrite app_assoc.
    + rewrite Hd2, Hd1, <- app_assoc. done.
    + rewrite Hc. cbn. f_equal. rewrite <- Hc2. done.
Qed.


Lemma NoDup_take_prefix {A} (l : list A) k : NoDup l -> NoDup (take k l).
Proof. intros H. eapply sublist_NoDup; [done |]. apply sublist_take. Qed.

End CLQFacts.

Section CLQClaims.
Context {T : Type} (zero : T).


(** C9: no loss, no duplication and per-producer order in the lock-free
    queue. Under every schedule the run does not panic, and for the links
    (the successful compare-and-swaps of Enqueue calls on a next field) and
    the takes (those of Dequeue calls on the head) of the run, in order:
    (1) the nodes linked are pairwise distinct; (2) the nodes taken are the
    first nodes linked, in the order of the links, so none is taken twice;
    (3) the values a goroutine has linked are those of the Enqueue calls
    among the first calls of its program, in order, one for each call that
    has returned and one for the call that is about to move the tail;
    (4) the nodes of one producer are taken in the order in which it linked
    them; (5) each node carries the value it was linked with, and the
    values the Dequeue calls of a goroutine returned are those of the nodes
    it took, in order, but for the node a call about to return still holds;
    (6) the values linked and not taken are the content of the queue, in
    the order of the links; (7) a goroutine about to make Dequeue calls can
    make them and get the first elements of the queue, in order, so each
    value in the queue can be dequeued. *)
Theorem lock_free_queue_fifo (progs : list (list (CLQ.op T))) (sched : list nat) :
  exists sys tr,
    CLQ.run zero sched (CLQ.init zero progs) = Ok (sys, tr) /\
    NoDup (link_ptrs (links tr)) /\
    (takes tr = take (length (takes tr)) (link_ptrs (links tr)) /\ NoDup (takes tr)) /\
    (forall tid th, CLQ.threads sys !! tid = Some th ->
       exists p completed,
         progs !! tid = Some p /\
         p = completed ++ pending_op th ++ CLQ.todo th /\
         length completed = length (CLQ.done th) /\
         enqueued_by tid tr = enq_args completed ++ pending_link th) /\
    (forall tid, filter (fun p => p ∈ linked_by tid tr) (takes tr)
                   `prefix_of` linked_by tid tr) /\
    (Forall (fun x => valof (CLQ.heap (CLQ.mem sys)) x.2.1 = Some x.2.2) (links tr) /\
     forall tid th, CLQ.threads sys !! tid = Some th ->
       exists ps pending,
         takes_by tid tr = ps ++ pending /\
         valof (CLQ.heap (CLQ.mem sys)) <$> ps = Some <$> dequeued (CLQ.done th) /\
         (pending = [] \/
          exists hn, pending = [hn] /\ CLQ.cur th = Some (CLQ.Deq_read_val hn))) /\
    CLQ.content (CLQ.mem sys) = drop (length (takes tr)) (link_vals (links tr)) /\
    (forall tid th vs rest,
       CLQ.threads sys !! tid = Some th -> CLQ.cur th = None ->
       CLQ.todo th = replicate (length vs) CLQ.OpDequeue ++ rest ->
       vs `prefix_of` CLQ.content (CLQ.mem sys) ->
       exists sched' sys' tr' th',
         (length sched' <= 1 + 7 * length vs)%nat /\
         CLQ.run zero sched' sys = Ok (sys', tr') /\
         CLQ.threads sys' !! tid = Some th' /\
         CLQ.cur th' = None /\ CLQ.todo th' = rest /\
         CLQ.done th' = CLQ.done th ++ ((fun v => CLQ.RetDequeue v None) <$> vs) /\
         CLQ.content (CLQ.mem sys) = vs ++ CLQ.content (CLQ.mem sys')).
Proof.
  destruct (run_Inv zero sched _ _ _ (Inv_init zero progs))
    as (sys & tr & g & Hrun & HI).
  exists sys, tr. split; [done |].
  pose proof (run_Calls zero progs sched _ _ _ _ (Calls_init zero progs) Hrun) as HC.
  destruct (Inv_fifo zero sys g tr HI) as (Hnd & Htk & Hfifo & Hvals & Hdeq & Hcontent).
  split_and!; try done.
  - rewrite Htk. by apply NoDup_take_prefix.
  - intros tid th Hth.
    destruct (HC tid th Hth) as (p & Hp & completed & Hprog & Hrets & Henq).
    exists p, completed. split_and!; try done. by eapply Forall2_length.
  - intros tid th vs rest Hth Hcur Htodo Hpre.
    destruct (settle zero tid sys g tr HI)
      as (s0 & sys0 & g0 & Hlen0 & Hrun0 & HI0 & Hq0 & Hth0 & Hc0).
    rewrite Hth in Hth0. rewrite <- Hc0 in Hpre |- *.
    destruct (drain zero vs sys0 g0 tr tid th rest HI0 Hq0 Hth0 Hcur Htodo Hpre)
      as (k & sys' & tr' & g' & th' & Hk & Hrun' & _ & _ & Hth' & ? & ? & ? & ?).
    exists (s0 ++ replicate k tid), sys', ([] ++ tr'), th'.
    split_and!; try done.
    + rewrite length_app, length_replicate. lia.
    + by eapply run_app.
Qed.

End CLQClaims.

(** A run of two goroutines, a producer of 7 and 8 and a consumer: the
    consumer takes its first steps while the queue is empty, then the
    producer makes its calls. *)
Definition demo_progs : list (list (CLQ.op Z)) :=
  [[CLQ.OpEnqueue 7; CLQ.OpEnqueue 8]; [CLQ.OpDequeue; CLQ.OpDequeue; CLQ.OpDequeue]].

Definition demo_sched : list nat :=
  [1; 1; 0; 0; 1; 0; 0; 0; 0; 0; 0; 0; 0; 0; 0; 0]%nat.


Lemma lock_free_queue_fifo_witness :
  exists sys tr,
    CLQ.run 0 demo_sched (CLQ.init 0 demo_progs) = Ok (sys, tr) /\
    enqueued_by 0 tr = [7; 8] /\
    exists sched' sys' tr' th',
      CLQ.run 0 sched' sys = Ok (sys', tr') /\
      CLQ.threads sys' !! 1%nat = Some th' /\
      CLQ.done th' = [CLQ.RetDequeue 0 (Some ErrEmptyQueue);
                      CLQ.RetDequeue 7 None; CLQ.RetDequeue 8 None] /\
      CLQ.content (CLQ.mem sys') = [].
Proof.
  destruct (lock_free_queue_fifo 0 demo_progs demo_sched)
    as (sys & tr & Hrun & _ & _ & _ & _ & _ & _ & Hdrain).
  exists sys, tr. split; [exact Hrun |].
  assert (Hc : CLQ.content (CLQ.mem sys) = [7; 8])
    by (vm_compute in Hrun; injection Hrun as <- <-; reflexivity).
  assert (Hth : CLQ.threads sys !! 1%nat =
                Some (CLQ.mkThread None [CLQ.OpDequeue; CLQ.OpDequeue]
                        [CLQ.RetDequeue 0 (Some ErrEmptyQueue)]))
    by (vm_compute in Hrun; injection Hrun as <- <-; reflexivity).
  split; [vm_compute in Hrun; injection Hrun as <- <-; reflexivity |].
  destruct (Hdrain 1%nat _ [7; 8] [] Hth eq_refl eq_refl)
    as (sched' & sys' & tr' & th' & _ & Hrun' & Hth' & _ & _ & Hdone & Hc').
  { rewrite Hc. by exists []. }
  exists sched', sys', tr', th'.
  split; [exact Hrun' |]. split; [exact Hth' |]. split; [exact Hdone |].
  rewrite Hc in Hc'. cbn [app] in Hc'. by injection Hc' as <-.
Defined.

(** ** Properties of [Shrink] *)

(** X18: [Shrink] keeps the elements.  On a slice with an element at
    least it does not panic and returns a slice with the same elements, in
    the same order, whose capacity is within the length and the capacity of
    the argument: the copy in the new array loses nothing and the run time
    does not grow the array it is made in.  A slice of capacity 64 or less
    is returned as it is, also when it is empty. *)
Theorem Shrink_keeps_elements {T : Type} (growslice : Z -> Z -> Z) (src : Go.slice T) :
  slice_wf src ->
  (Go.cap src <= 64 -> Slice.Shrink growslice src = Ok src) /\
  ((1 <= Go.len src)%nat ->
   exists s,
     Slice.Shrink growslice src = Ok s /\ Go.elems s = Go.elems src /\
     Z.of_nat (Go.len src) <= Go.cap s <= Go.cap src /\ slice_wf s).
Proof.
  intros Hwf. split.
  - intros Hc. unfold Slice.Shrink. by rewrite calCapacity_small.
  - intros Hl.
    destruct (Shrink_spec growslice src Hwf Hl) as (n & changed & _ & Hs & Hn).
    eexists. split; [done |]. cbn. split; [done |]. split; [done |].
    destruct Hwf. unfold slice_wf, Go.len in *. cbn. lia.
Qed.

Lemma Shrink_keeps_elements_witness :
  exists s,
    Slice.Shrink grow2 (Go.mkSlice [1; 2; 3] 512) = Ok s /\
    Go.elems s = [1; 2; 3] /\ 3 <= Go.cap s <= 512.
Proof.
  destruct (Shrink_keeps_elements grow2 (Go.mkSlice [1; 2; 3] 512)) as [_ Hs].
  { unfold slice_wf, Go.int_max. cbn. lia. }
  destruct Hs as (s & Hs & He & Hc & _); [cbn; lia |].
  exists s. split; [exact Hs |]. split; [exact He | exact Hc].
Defined.

(** ** The priority queue under a comparator that is no order

    The comparator of the delay queue calls [Delay] when it runs, so the
    heap it keeps at one instant need not be one at the next.  The shape of
    the queue and the results of its calls do not depend on that: whatever
    the comparator answers, the loops stay within the slice and end, [Peek]
    and [Dequeue] return the element at index 1, and a queue that is full
    is left as it is. *)

Section PQShape.
Context {T : Type} (zero : T) (compare : T -> T -> Z) (growslice : Z -> Z -> Z).
Context `{!GrowsliceSpec growslice}.

(** A bounded queue holds no more elements than its capacity. *)
Definition within_cap (p : PQ.PriorityQueue T) : Prop :=
  PQ.IsBoundless p = false -> PQ.Len p <= PQ.Cap p.

Lemma siftUp_shape fuel : forall d node,
  (1 <= node < length d)%nat -> (node / 2 <= fuel)%nat ->
  exists d', PQ.siftUp compare fuel d node (node / 2) = Ok d' /\
             d' ≡ₚ d /\ d' !! 0%nat = d !! 0%nat.
Proof.
  induction fuel as [| fuel IH]; intros d node Hn Hf.
  - assert (node / 2 = 0)%nat as -> by lia. rewrite siftUp_unfold. simpl.
    by exists d.
  - rewrite siftUp_unfold. destruct (Nat.ltb_spec 0 (node / 2)) as [Hp | Hp].
    2:{ by exists d. }
    pose proof (half_lt node ltac:(lia)) as Hlt.
    destruct (lookup_lt_is_Some_2 d node ltac:(lia)) as [x Hx].
    destruct (lookup_lt_is_Some_2 d (node / 2) ltac:(lia)) as [y Hy].
    rewrite (index_Ok _ _ _ Hx), (index_Ok _ _ _ Hy). cbn [mbind result_bind Go.bind].
    destruct (Z.ltb_spec (compare x y) 0) as [Hc | Hc].
    2:{ by exists d. }
    rewrite (swap_Ok _ _ _ _ _ Hy Hx). cbn [mbind result_bind Go.bind].
    set (d' := <[node := y]> (<[(node / 2)%nat := x]> d)).
    assert (Hlk : forall k, d' !! k = if decide (k = node) then Some y
                                    else if decide (k = (node / 2)%nat) then Some x
                                    else d !! k)
      by (intros k; by apply lookup_swap).
    destruct (IH d' (node / 2)%nat) as (d'' & Hr & Hperm & H0).
    + unfold d'. rewrite !length_insert. lia.
    + pose proof (half_lt (node / 2) ltac:(lia)). lia.
    + exists d''. rewrite Hr. split_and!; try done.
      * rewrite Hperm. unfold d'. by apply Permutation_insert_swap.
      * rewrite H0, Hlk. rewrite !decide_False by lia. done.
Qed.

Lemma choose_shape d n k :
  length d = S n -> (1 <= k)%nat ->
  exists m, choose compare d n k k = Ok m /\
    (m = k \/ ((m = k * 2 \/ m = k * 2 + 1) /\ m <= n))%nat.
Proof.
  intros Hlen Hk. unfold choose.
  destruct (Nat.leb_spec (k * 2) n) as [Hl | Hl].
  - destruct (lookup_lt_is_Some_2 d (k * 2) ltac:(lia)) as [xl Hxl].
    destruct (lookup_lt_is_Some_2 d k ltac:(lia)) as [xk Hxk].
    rewrite (index_Ok _ _ _ Hxl), (index_Ok _ _ _ Hxk).
    cbn [mbind result_bind Go.bind].
    destruct (Nat.leb_spec (k * 2 + 1) n) as [Hr | Hr].
    + destruct (lookup_lt_is_Some_2 d (k * 2 + 1) ltac:(lia)) as [xr Hxr].
      rewrite (index_Ok _ _ _ Hxr).
      destruct (compare xl xk <? 0).
      * rewrite (index_Ok _ _ _ Hxl). cbn [mbind result_bind Go.bind].
        destruct (compare xr xl <? 0); eexists; (split; [done | lia]).
      * rewrite (index_Ok _ _ _ Hxk). cbn [mbind result_bind Go.bind].
        destruct (compare xr xk <? 0); eexists; (split; [done | lia]).
    + destruct (compare xl xk <? 0); eexists; (split; [done | lia]).
  - cbn [mbind result_bind Go.bind].
    destruct (Nat.leb_spec (k * 2 + 1) n) as [Hr | Hr]; [lia |].
    eexists; split; [done | lia].
Qed.

Lemma heapify_loop_shape n fuel : forall d k,
  length d = S n -> (1 <= k)%nat -> (n + 1 <= fuel + k)%nat ->
  exists d', PQ.heapify_loop compare fuel d n k k = Ok d' /\
             d' ≡ₚ d /\ d' !! 0%nat = d !! 0%nat.
Proof.
  induction fuel as [| fuel IH]; intros d k Hlen Hk Hf;
    rewrite heapify_loop_unfold;
    destruct (choose_shape d n k Hlen Hk) as (m & -> & Hm);
    cbn [mbind result_bind Go.bind];
    (destruct (Nat.eqb_spec m k) as [-> | Hmk]; [by exists d |]).
  - lia.
  - destruct Hm as [-> | [Hm Hmn]]; [done |].
    assert (Hkm : (k < m)%nat) by lia.
    destruct (lookup_lt_is_Some_2 d k ltac:(lia)) as [xk Hxk].
    destruct (lookup_lt_is_Some_2 d m ltac:(lia)) as [xm Hxm].
    rewrite (swap_Ok _ _ _ _ _ Hxk Hxm). cbn [mbind result_bind Go.bind].
    set (d' := <[m := xk]> (<[k := xm]> d)).
    assert (Hlk : forall j, d' !! j = if decide (j = m) then Some xk
                                    else if decide (j = k) then Some xm
                                    else d !! j)
      by (intros j; by apply lookup_swap).
    destruct (IH d' m) as (d'' & Hr & Hperm & H0).
    + unfold d'. by rewrite !length_insert.
    + lia.
    + lia.
    + exists d''. rewrite Hr. split_and!; try done.
      * rewrite Hperm. unfold d'. by apply Permutation_insert_swap.
      * rewrite H0, Hlk. rewrite !decide_False by lia. done.
Qed.

Lemma Peek_shape (p : PQ.PriorityQueue T) :
  exists v e, PQ.Peek zero p = Ok (p, (v, e)) /\
    ((e = Some ErrEmptyQueue /\ v = zero /\ PQ.isEmpty p = true) \/
     (e = None /\ backing p !! 1%nat = Some v /\ PQ.isEmpty p = false)).
Proof.
  unfold PQ.Peek. destruct (PQ.isEmpty p) eqn:He.
  - exists zero, (Some ErrEmptyQueue). split; [done |]. by left.
  - unfold PQ.isEmpty in He. apply Z.ltb_ge in He. unfold Go.len in He.
    destruct (lookup_lt_is_Some_2 (Go.elems (PQ.data p)) 1 ltac:(lia)) as [v Hv].
    rewrite (index_Ok _ _ _ Hv). exists v, None. split; [done |]. by right.
Qed.

Lemma Enqueue_shape (p : PQ.PriorityQueue T) t :
  wf p -> Z.of_nat (length (backing p)) < Go.int_max ->
  exists p' e, PQ.Enqueue compare growslice p t = Ok (p', e) /\ wf p' /\
    PQ.capacity p' = PQ.capacity p /\
    ((e = Some ErrOutOfCapacity /\ p' = p /\ PQ.isFull p = true) \/
     (e = None /\ PQ.isFull p = false /\
      length (backing p') = S (length (backing p)) /\
      held p' ≡ₚ held p ++ [t] /\ backing p' !! 0%nat = backing p !! 0%nat /\
      (Z.of_nat (length (backing p)) + 1 <= Go.cap (PQ.data p) ->
       Go.cap (PQ.data p') = Go.cap (PQ.data p)))).
Proof.
  intros Hwf Hmax. destruct (PQ.isFull p) eqn:Hfull.
  { exists p, (Some ErrOutOfCapacity). rewrite Enqueue_full by done.
    split_and!; [done | done | done |]. by left. }
  destruct Hwf as [Hlen [Hlc Hci]]. unfold PQ.Enqueue. rewrite Hfull.
  unfold held, backing, Go.len in *.
  destruct p as [capa [es c]]. cbn [PQ.data PQ.capacity Go.elems Go.cap] in *.
  assert (exists c', Go.append growslice (Go.mkSlice es c) [t] = Ok (Go.mkSlice (es ++ [t]) c')
                     /\ Z.of_nat (length (es ++ [t])) <= c' <= Go.int_max
                     /\ (Z.of_nat (length es) + 1 <= c -> c' = c))
    as (c' & -> & Hc' & Hsame).
  { unfold Go.append. cbn [Go.elems Go.cap length].
    rewrite length_app. cbn [length].
    destruct (Z.leb_spec (Z.of_nat (length es + 1)) c).
    - exists c. split; [done |]. split; [lia | done].
    - destruct (Z.ltb_spec Go.int_max (Z.of_nat (length es + 1))); [lia |].
      eexists. split; [done |]. split; [apply growslice_fits; lia | lia]. }
  cbn [mbind result_bind Go.bind Go.len Go.elems Go.cap].
  rewrite length_app in *. cbn [length] in *.
  replace (length es + 1 - 1)%nat with (length es) by lia.
  destruct (siftUp_shape (length es + 1) (es ++ [t]) (length es))
    as (d' & -> & Hperm & H0).
  - rewrite length_app. cbn. lia.
  - pose proof (half_lt (length es) ltac:(lia)). lia.
  - cbn [mbind result_bind Go.bind].
    eexists _, None. split; [done |]. cbn [PQ.data PQ.capacity Go.elems Go.cap].
    assert (Hl' : length d' = (length es + 1)%nat)
      by (rewrite Hperm, length_app; cbn; lia).
    split_and!; [| done |].
    + unfold wf, slice_wf, backing, Go.len. cbn. lia.
    + right. split_and!; [done | done | lia | | | done].
      * destruct es as [| z r]; [cbn in Hlen; lia |].
        destruct d' as [| z' r']; [cbn in Hl'; lia |].
        cbn in H0. injection H0 as ->. cbn [drop app] in *.
        by apply Permutation_cons_inv in Hperm.
      * rewrite H0. apply lookup_app_l. lia.
Qed.

Lemma Dequeue_shape (p : PQ.PriorityQueue T) :
  wf p ->
  exists p' v e, PQ.Dequeue zero compare growslice p = Ok (p', (v, e)) /\ wf p' /\
    PQ.capacity p' = PQ.capacity p /\
    (length (backing p') <= length (backing p))%nat /\
    ((e = Some ErrEmptyQueue /\ p' = p /\ v = zero /\ PQ.isEmpty p = true) \/
     (e = None /\ backing p !! 1%nat = Some v /\
      held p ≡ₚ v :: held p' /\ backing p' !! 0%nat = backing p !! 0%nat /\
      S (length (backing p')) = length (backing p) /\
      Go.cap (PQ.data p') <= Go.cap (PQ.data p) /\
      (PQ.IsBoundless p = false -> Go.cap (PQ.data p') = Go.cap (PQ.data p)))).
Proof.
  intros Hwf. destruct (PQ.isEmpty p) eqn:Hempty.
  { exists p, zero, (Some ErrEmptyQueue). rewrite Dequeue_empty by done.
    split_and!; [done | done | done | done |]. by left. }
  destruct Hwf as [Hlen [Hlc Hci]]. unfold PQ.Dequeue. rewrite Hempty.
  unfold PQ.isEmpty in Hempty. apply Z.ltb_ge in Hempty.
  unfold held, backing, Go.len in *.
  destruct p as [capa [es c]]. cbn [PQ.data PQ.capacity Go.elems Go.cap] in *.
  destruct es as [| z [| pop r]]; cbn [length] in Hlen, Hlc, Hempty; [lia | lia |].
  assert (Hshrink : forall d : list T, (1 <= length d)%nat -> (length d <= S (length r))%nat ->
    exists c', PQ.shrinkIfNecessary growslice (PQ.mkPQ capa (Go.mkSlice d c)) =
                 Ok (PQ.mkPQ capa (Go.mkSlice d c')) /\
               Z.of_nat (length d) <= c' <= Go.int_max /\ c' <= c /\
               ((capa <=? 0) = false -> c' = c)).
  { intros d Hd1 Hd2. unfold PQ.shrinkIfNecessary, PQ.IsBoundless.
    cbn [PQ.capacity PQ.data].
    destruct (capa <=? 0).
    - destruct (Shrink_spec growslice (Go.mkSlice d c)) as (n & ch & _ & -> & Hn).
      + unfold slice_wf, Go.len. cbn. lia.
      + done.
      + cbn in Hn. unfold Go.len in Hn. cbn in Hn.
        exists n. split; [done |]. split; [lia |]. split; [lia | done].
    - exists c. split; [done |]. split; [lia |]. split; [lia | done]. }
  assert (Hheap : forall (d : list T) c', length d = S (length r) ->
    d !! 0%nat = Some z -> d ≡ₚ z :: r ->
    Z.of_nat (length d) <= c' <= Go.int_max ->
    exists p', (es4 ← PQ.heapify compare d (length d - 1) 1;
                Ok (PQ.mkPQ capa (Go.mkSlice es4 c'), (pop, @None Go.error))) =
               Ok (p', (pop, None)) /\
      wf p' /\ PQ.capacity p' = capa /\ Go.cap (PQ.data p') = c' /\
      length (Go.elems (PQ.data p')) = length d /\
      drop 1 (z :: pop :: r) ≡ₚ pop :: drop 1 (Go.elems (PQ.data p')) /\
      Go.elems (PQ.data p') !! 0%nat = Some z).
  { intros d c' Hd Hd0 Hdperm Hc'. unfold PQ.heapify.
    destruct (heapify_loop_shape (length d - 1) (length d) d 1)
      as (d' & -> & Hperm & H0); [lia | lia | lia |].
    cbn [mbind result_bind Go.bind].
    eexists. split; [done |].
    unfold wf, slice_wf, held, backing, Go.len.
    cbn [PQ.data PQ.capacity Go.elems Go.cap].
    assert (length d' = length d) by by rewrite Hperm.
    split_and!; try done; try lia.
    - cbn [drop]. constructor.
      destruct d' as [| z' t']; [cbn in *; lia |].
      rewrite Hd0 in H0. cbn in H0. injection H0 as ->.
      cbn [drop]. rewrite Hdperm in Hperm.
      symmetry. by apply Permutation_cons_inv in Hperm.
    - by rewrite H0. }
  destruct r as [| a r0 _] using rev_ind.
  - change (Go.index [z; pop] 1) with (Ok pop).
    change (Go.index [z; pop] (length [z; pop] - 1)) with (Ok pop).
    cbn [mbind result_bind Go.bind].
    rewrite store_Ok by (cbn; lia).
    cbn [mbind result_bind Go.bind].
    unfold Go.reslice. rewrite decide_True by (cbn; lia).
    cbn [mbind result_bind Go.bind Go.elems Go.cap length Nat.sub take
           insert list_insert].
    destruct (Hshrink [z]) as (c' & -> & Hc' & Hle & Hsame); [cbn; lia | cbn; lia |].
    cbn [mbind result_bind Go.bind PQ.data PQ.capacity Go.elems Go.cap Go.len].
    destruct (Hheap [z] c') as (p' & -> & ? & ? & Hcap & Hl & ? & ?); try done.
    exists p', pop, None. split_and!; try done.
    + rewrite Hl. cbn. lia.
    + right. split_and!; try done; [by rewrite Hl | by rewrite Hcap |].
      unfold PQ.IsBoundless. cbn [PQ.capacity]. intros Hb. rewrite Hcap. by apply Hsame.
  - destruct (root_replaced z pop r0 a) as (E1 & E2 & E3 & Htake).
    rewrite E1. cbn [mbind result_bind Go.bind].
    rewrite E2. cbn [mbind result_bind Go.bind].
    rewrite E3. cbn [mbind result_bind Go.bind].
    unfold Go.reslice. cbn [Go.elems Go.cap].
    rewrite decide_True by lia. rewrite Htake.
    cbn [mbind result_bind Go.bind].
    destruct (Hshrink (z :: a :: r0)) as (c' & -> & Hc' & Hle & Hsame).
    { cbn; lia. } { rewrite length_app. cbn. lia. }
    cbn [mbind result_bind Go.bind PQ.data PQ.capacity Go.elems Go.cap Go.len].
    destruct (Hheap (z :: a :: r0) c') as (p' & -> & ? & ? & Hcap & Hl & ? & ?); try done.
    + rewrite length_app. cbn. lia.
    + constructor. by rewrite Permutation_cons_append.
    + exists p', pop, None. split_and!; try done.
      * rewrite Hl. cbn. rewrite length_app. cbn. lia.
      * right. split_and!; try done.
        -- rewrite Hl. cbn. rewrite length_app. cbn. lia.
        -- by rewrite Hcap.
        -- unfold PQ.IsBoundless. cbn [PQ.capacity]. intros Hb. rewrite Hcap.
           by apply Hsame.
Qed.

End PQShape.

(** ** Properties of the priority queue *)

Section PQProperties.
Context {T : Type} (zero : T) (compare : T -> T -> Z) (growslice : Z -> Z -> Z).
Context `{!GrowsliceSpec growslice}.

Local Abbreviation reachable := (reachable zero compare growslice).

(** X13: [NewPriorityQueue].  A queue it returns is empty: a positive
    capacity gives a bounded queue of that capacity whose slice has room
    for one element more, any other capacity gives an unbounded queue,
    which reports capacity 0, with a slice of capacity 64; [Peek] and
    [Dequeue] then return the zero value and [ErrEmptyQueue] and leave the
    queue as it is.  For the largest [int] it returns no queue: the
    capacity of the slice, [capacity + 1], wraps around to a negative
    number and [make] panics. *)
Theorem NewPriorityQueue_contract (c : Z) :
  Go.int_min <= c <= Go.int_max ->
  (c = Go.int_max -> PQ.NewPriorityQueue zero c = Panic MakeSliceOutOfRange) /\
  (forall p, PQ.NewPriorityQueue zero c = Ok p ->
     c < Go.int_max /\
     PQ.Len p = 0 /\ PQ.Cap p = Z.max 0 c /\ PQ.IsBoundless p = (c <=? 0) /\
     Go.cap (PQ.data p) = (if c <=? 0 then 64 else c + 1) /\
     PQ.Peek zero p = Ok (p, (zero, Some ErrEmptyQueue)) /\
     PQ.Dequeue zero compare growslice p = Ok (p, (zero, Some ErrEmptyQueue))).
Proof.
  intros Hc. unfold PQ.NewPriorityQueue, Go.wrap, Go.make, Go.int_min, Go.int_max in *.
  split.
  - intros ->. by vm_compute.
  - intros p. destruct (Z.ltb_spec c 1) as [H1 | H1].
    + cbn. intros [= <-].
      unfold PQ.Len, PQ.Cap, PQ.IsBoundless, PQ.Peek, PQ.Dequeue, PQ.isEmpty. cbn.
      destruct (Z.leb_spec c 0); [| lia]. split_and!; try done; lia.
    + destruct (decide (c = 2 ^ 63 - 1)) as [-> | Hne].
      { change ((2 ^ 63 - 1 + 1 + 2 ^ 63) mod 2 ^ 64 - 2 ^ 63 <? Z.of_nat 1) with true.
        discriminate. }
      replace ((c + 1 + 2 ^ 63) mod 2 ^ 64 - 2 ^ 63) with (c + 1).
      2:{ rewrite Z.mod_small; lia. }
      destruct (Z.ltb_spec (c + 1) (Z.of_nat 1)) as [H2 | H2]; [cbn in H2; lia |].
      cbn. intros [= <-].
      unfold PQ.Len, PQ.Cap, PQ.IsBoundless, PQ.Peek, PQ.Dequeue, PQ.isEmpty. cbn.
      destruct (Z.leb_spec c 0); [lia |]. split_and!; try done; lia.
Qed.

(** The queues built by [NewPriorityQueue] and used through the methods
    have slot 0, hold no more than their capacity when it is positive, and
    then have the slice [NewPriorityQueue] made. *)
Lemma reachable_bounded p :
  reachable p ->
  wf p /\ within_cap p /\
  (PQ.IsBoundless p = false -> Go.cap (PQ.data p) = PQ.capacity p + 1).
Proof.
  induction 1 as [c p Hc Hnew | p p' r _ IH Hpeek | p t p' e _ IH Henq | p p' r _ IH Hdeq].
  - destruct (New_spec zero (fun _ _ => 0) c p Hnew) as (Hb & Hwf & _ & Hcap).
    split; [done |].
    unfold within_cap, PQ.IsBoundless, PQ.Len, PQ.Cap, Go.len. unfold backing in Hb.
    rewrite Hb, Hcap. cbn. split; [lia |].
    intros Hbd. apply Z.leb_gt in Hbd.
    revert Hnew. unfold PQ.NewPriorityQueue, Go.make, Go.wrap, Go.int_min, Go.int_max in *.
    destruct (Z.ltb_spec c 1); [lia |].
    destruct (Z.ltb_spec ((c + 1 + 2 ^ 63) mod 2 ^ 64 - 2 ^ 63) (Z.of_nat 1)) as [| Hw];
      [done |].
    intros [= <-]. cbn.
    destruct (decide (c = 2 ^ 63 - 1)) as [-> | Hne]; [by vm_compute in Hw |].
    rewrite Z.mod_small; lia.
  - by rewrite (Peek_unchanged zero _ _ _ Hpeek).
  - destruct IH as (Hwf & Hw & Hcap).
    destruct (PQ.isFull p) eqn:Hfull.
    { rewrite (Enqueue_full compare growslice p t Hfull) in Henq. by injection Henq as <- <-. }
    destruct (Z.lt_ge_cases (Z.of_nat (length (backing p))) Go.int_max) as [Hlt | Hge].
    2:{ by rewrite (Enqueue_overflow compare growslice p t Hwf Hfull Hge) in Henq. }
    destruct (Enqueue_shape compare growslice p t Hwf Hlt)
      as (p1 & e1 & He1 & Hwf1 & Hc1 & [(_ & _ & Hf) | (_ & _ & Hl & _ & _ & Hsame)]);
      [congruence |].
    rewrite Henq in He1. injection He1 as <- <-.
    split; [done |].
    unfold within_cap, PQ.IsBoundless, PQ.Len, PQ.Cap, PQ.isFull, backing, Go.len in *.
    rewrite Hc1.
    assert (Hlen : (PQ.capacity p <=? 0) = false ->
                   Z.of_nat (length (Go.elems (PQ.data p))) - 1 < PQ.capacity p).
    { intros Hb. specialize (Hw Hb). apply Z.leb_gt in Hb.
      apply andb_false_iff in Hfull as [Hf | Hf].
      - apply Z.ltb_ge in Hf. lia.
      - apply Z.eqb_neq in Hf. lia. }
    split.
    + intros Hb. specialize (Hlen Hb). lia.
    + intros Hb. specialize (Hlen Hb). specialize (Hcap Hb).
      rewrite Hsame; [done | lia].
  - destruct IH as (Hwf & Hw & Hcap).
    destruct (Dequeue_shape zero compare growslice p Hwf)
      as (p1 & v & e & Hd1 & Hwf1 & Hc1 & Hl & [(_ & -> & _) | (_ & _ & _ & _ & _ & _ & Hsame)]);
      rewrite Hdeq in Hd1; injection Hd1 as <- ?; [done |].
    split; [done |].
    unfold within_cap, PQ.IsBoundless, PQ.Len, PQ.Cap, backing, Go.len in *.
    rewrite Hc1. split.
    + intros Hb. specialize (Hw Hb). lia.
    + intros Hb. rewrite (Hsame Hb). by apply Hcap.
Qed.

(** X14: [Enqueue].  On a queue built by [NewPriorityQueue] and used
    through the methods, that holds fewer than 2^63 - 2 elements,
    [Enqueue(t)] returns [ErrOutOfCapacity] when the queue is bounded and
    holds as many elements as its capacity, and leaves the queue as it is;
    otherwise it returns nil, the queue holds [t] and the elements it held,
    one element more, and its capacity is the same. *)
Theorem Enqueue_contract p t :
  reachable p -> PQ.Len p < Go.int_max - 1 ->
  exists p' e,
    PQ.Enqueue compare growslice p t = Ok (p', e) /\ PQ.Cap p' = PQ.Cap p /\
    ((e = Some ErrOutOfCapacity /\ p' = p /\
      PQ.IsBoundless p = false /\ PQ.Len p = PQ.Cap p) \/
     (e = None /\ held p' ≡ₚ held p ++ [t] /\ PQ.Len p' = PQ.Len p + 1 /\
      (PQ.IsBoundless p = false -> PQ.Len p < PQ.Cap p))).
Proof.
  intros Hr Hlen. destruct (reachable_bounded p Hr) as (Hwf & Hw & _).
  destruct (Enqueue_shape compare growslice p t Hwf)
    as (p' & e & He & _ & Hc & [(-> & -> & Hf) | (-> & Hf & Hl & Hp & _)]).
  { unfold PQ.Len, backing, Go.len in *. lia. }
  - exists p, (Some ErrOutOfCapacity). split; [done |]. split; [done |]. left.
    unfold PQ.isFull, PQ.IsBoundless, PQ.Len, PQ.Cap in *.
    apply andb_true_iff in Hf as [Hf1 Hf2].
    apply Z.ltb_lt in Hf1. apply Z.eqb_eq in Hf2.
    split_and!; [done | done | by apply Z.leb_gt | done].
  - exists p', None. split; [done |]. split; [done |]. right.
    unfold within_cap, PQ.isFull, PQ.IsBoundless, PQ.Len, PQ.Cap, backing, Go.len in *.
    split_and!; [done | done | lia |].
    intros Hb. specialize (Hw Hb). apply Z.leb_gt in Hb.
    apply andb_false_iff in Hf as [Hf | Hf].
    + apply Z.ltb_ge in Hf. lia.
    + apply Z.eqb_neq in Hf. lia.
Qed.

(** X17: a bounded queue keeps the slice [NewPriorityQueue] made.  In a
    queue built with a positive capacity and used through the methods, the
    capacity of the slice is the capacity of the queue plus one: [Enqueue]
    never makes [append] allocate and [Dequeue] never shrinks; and the
    queue holds no more elements than its capacity. *)
Theorem bounded_queue_fixed_slice p :
  reachable p -> PQ.IsBoundless p = false ->
  Go.cap (PQ.data p) = PQ.Cap p + 1 /\ 0 <= PQ.Len p <= PQ.Cap p.
Proof.
  intros Hr Hb. destruct (reachable_bounded p Hr) as ((Hl & _) & Hw & Hcap).
  split; [by apply Hcap |]. specialize (Hw Hb).
  unfold PQ.Len, backing, Go.len in *. lia.
Qed.

Context `{!TotalOrder compare}.

(** X15: [Dequeue].  On a queue built by [NewPriorityQueue] and used
    through the methods, [Dequeue] returns the zero value and
    [ErrEmptyQueue] when the queue holds no element, and leaves it as it
    is; otherwise it returns nil and the element [Peek] returns, which no
    element held is before, and the queue holds the other elements, one
    element less, with the same capacity. *)
Theorem Dequeue_contract p :
  reachable p ->
  exists p' v e,
    PQ.Dequeue zero compare growslice p = Ok (p', (v, e)) /\ PQ.Cap p' = PQ.Cap p /\
    ((e = Some ErrEmptyQueue /\ v = zero /\ p' = p /\ PQ.Len p = 0) \/
     (e = None /\ PQ.Peek zero p = Ok (p, (v, None)) /\
      (forall y, y ∈ held p -> compare v y <= 0) /\
      held p ≡ₚ v :: held p' /\ PQ.Len p' = PQ.Len p - 1)).
Proof.
  intros Hr. destruct (reachable_inv zero compare growslice p Hr) as [Hwf Hh].
  destruct (Dequeue_shape zero compare growslice p Hwf)
    as (p' & v & e & Hd & _ & Hc & _ & [(-> & -> & -> & He) | (-> & Hv & Hp & _ & Hl & _)]).
  - exists p, zero, (Some ErrEmptyQueue). split; [done |]. split; [done |]. left.
    destruct Hwf as [Hl _].
    unfold PQ.isEmpty, PQ.Len, backing, Go.len in *. apply Z.ltb_lt in He.
    split_and!; try done. lia.
  - exists p', v, None. split; [done |]. split; [done |]. right.
    assert (Hlen : PQ.Len p' = PQ.Len p - 1)
      by (unfold PQ.Len, backing, Go.len in *; lia).
    pose proof (Peek_spec zero compare p Hwf Hh) as Hpeek.
    unfold held in Hpeek at 1.
    destruct (backing p) as [| z [| x r]] eqn:Hb; try done. cbn [drop] in Hpeek.
    cbn in Hv. injection Hv as ->. destruct Hpeek as [Hpk Hmin].
    by split_and!.
Qed.

(** Successive calls of [Dequeue], as a caller that empties the queue
    makes them: the values returned, in order, until [n] calls are made or
    one returns an error. *)
Fixpoint DequeueN (n : nat) (p : PQ.PriorityQueue T)
  : Go.result (PQ.PriorityQueue T * list T) :=
  match n with
  | O => Ok (p, [])
  | S n' =>
      '(p1, (v, err)) ← PQ.Dequeue zero compare growslice p;
      match err with
      | Some _ => Ok (p1, [])
      | None =>
          '(p2, vs) ← DequeueN n' p1;
          Ok (p2, v :: vs)
      end
  end.

(** A list in which no element is after a later one. *)
Definition ascending (vs : list T) : Prop :=
  forall i j a b, (i < j)%nat -> vs !! i = Some a -> vs !! j = Some b -> compare a b <= 0.

Lemma DequeueN_sorted n : forall p,
  wf p -> heap_inv compare (backing p) -> length (held p) = n ->
  exists p' vs,
    DequeueN n p = Ok (p', vs) /\ vs ≡ₚ held p /\
    ascending vs /\ held p' = [] /\
    PQ.capacity p' = PQ.capacity p /\ wf p'.
Proof.
  induction n as [| n IH]; intros p Hwf Hh Hn.
  - exists p, []. apply nil_length_inv in Hn. rewrite Hn. by split_and!.
  - destruct (PQ.isEmpty p) eqn:He.
    { destruct Hwf as [Hl _]. unfold PQ.isEmpty, held, backing, Go.len in *.
      apply Z.ltb_lt in He. rewrite length_drop in Hn. lia. }
    destruct (Dequeue_spec zero compare growslice p Hwf Hh He)
      as (p1 & pop & Hd & Hpop & Hwf1 & Hh1 & Hc1 & Hp & _).
    assert (Hn1 : length (held p1) = n).
    { apply Permutation_length in Hp. cbn in Hp. lia. }
    destruct (IH p1 Hwf1 Hh1 Hn1) as (p' & vs & Hrun & Hvs & Hs & Hempty & Hc' & Hwf').
    exists p', (pop :: vs). cbn [DequeueN]. rewrite Hd. cbn [mbind result_bind Go.bind].
    rewrite Hrun. cbn [mbind result_bind Go.bind].
    split_and!; [done | by rewrite Hp, Hvs | | done | congruence | done].
    intros [| i] [| j] a b Hij Ha Hb; try lia; cbn in Ha, Hb.
    + injection Ha as <-.
      assert (Hy : b ∈ held p).
      { rewrite Hp. right. rewrite <- Hvs. by eapply list_elem_of_lookup_2. }
      unfold held in Hy. apply list_elem_of_lookup in Hy as [k Hk].
      rewrite lookup_drop in Hk.
      apply (heap_root_min compare _ _ Hh Hpop (1 + k)%nat b); [lia | done].
    + apply (Hs i j a b); [lia | done | done].
Qed.

(** X16: emptying a queue sorts its elements.  On a queue built by
    [NewPriorityQueue] and used through the methods, as many calls of
    [Dequeue] as the queue holds elements all return nil; the values they
    return are the elements the queue held, each not after the ones
    returned later; and the queue is then empty. *)
Theorem Dequeue_all_sorted p :
  reachable p ->
  exists p' vs,
    DequeueN (length (held p)) p = Ok (p', vs) /\ vs ≡ₚ held p /\
    ascending vs /\
    PQ.Len p' = 0 /\ PQ.Cap p' = PQ.Cap p.
Proof.
  intros Hr. destruct (reachable_inv zero compare growslice p Hr) as [Hwf Hh].
  destruct (DequeueN_sorted (length (held p)) p Hwf Hh eq_refl)
    as (p' & vs & Hrun & Hvs & Hs & Hempty & Hc & [Hl _]).
  exists p', vs. split_and!; try done.
  unfold PQ.Len, held, backing, Go.len in *.
  apply (f_equal length) in Hempty. rewrite length_drop in Hempty. cbn in Hempty. lia.
Qed.

End PQProperties.

(** The properties of the priority queue on the queue of capacity 2 that
    holds 3 and 5. *)
Lemma NewPriorityQueue_contract_witness :
  PQ.NewPriorityQueue 0 Go.int_max = Panic MakeSliceOutOfRange /\
  PQ.NewPriorityQueue 0 2 = Ok (PQ.mkPQ 2 (Go.mkSlice [0] 3)) /\
  PQ.Cap (PQ.mkPQ 2 (Go.mkSlice [0] 3)) = 2 /\
  PQ.Dequeue 0 compareInt grow2 (PQ.mkPQ 2 (Go.mkSlice [0] 3)) =
    Ok (PQ.mkPQ 2 (Go.mkSlice [0] 3), (0, Some ErrEmptyQueue)).
Proof.
  split.
  - apply (NewPriorityQueue_contract 0 compareInt grow2 Go.int_max); [| reflexivity].
    vm_compute. split; discriminate.
  - destruct (NewPriorityQueue_contract 0 compareInt grow2 2) as [_ Hok].
    { vm_compute. split; discriminate. }
    assert (Hnew : PQ.NewPriorityQueue 0 2 = Ok (PQ.mkPQ 2 (Go.mkSlice [0] 3)))
      by reflexivity.
    destruct (Hok _ Hnew) as (_ & _ & Hcap & _ & _ & _ & Hd).
    split; [exact Hnew |]. split; [exact Hcap | exact Hd].
Defined.

Lemma Enqueue_contract_witness :
  exists p' e,
    PQ.Enqueue compareInt grow2 scenario_p2 9 = Ok (p', e) /\
    e = Some ErrOutOfCapacity /\ p' = scenario_p2.
Proof.
  destruct (Enqueue_contract 0 compareInt grow2 scenario_p2 9 scenario_p2_reachable eq_refl)
    as (p' & e & He & _ & [(-> & -> & _) | (_ & _ & Hl & _)]).
  - exists scenario_p2, (Some ErrOutOfCapacity).
    split; [exact He |]. split; reflexivity.
  - exfalso. vm_compute in He. injection He as <- _. vm_compute in Hl. discriminate Hl.
Defined.

Lemma Dequeue_contract_witness :
  exists p',
    PQ.Dequeue 0 compareInt grow2 scenario_p2 = Ok (p', (3, None)) /\
    held scenario_p2 ≡ₚ 3 :: held p'.
Proof.
  destruct (Dequeue_contract 0 compareInt grow2 scenario_p2 scenario_p2_reachable)
    as (p' & v & e & Hd & _ & [(_ & _ & _ & Hl) | (-> & Hpeek & _ & Hp & _)]).
  - exfalso. vm_compute in Hl. discriminate Hl.
  - vm_compute in Hpeek. injection Hpeek as <-.
    exists p'. split; [exact Hd | exact Hp].
Defined.

Lemma Dequeue_all_sorted_witness :
  exists p',
    DequeueN 0 compareInt grow2 2 scenario_p2 = Ok (p', [3; 5]) /\ PQ.Len p' = 0.
Proof.
  destruct (Dequeue_all_sorted 0 compareInt grow2 scenario_p2 scenario_p2_reachable)
    as (p' & vs & Hrun & _ & _ & Hl & _).
  assert (Hvs : vs = [3; 5]).
  { vm_compute in Hrun. by injection Hrun as _ <-. }
  rewrite Hvs in Hrun.
  exists p'. split; [exact Hrun | exact Hl].
Defined.

Lemma bounded_queue_fixed_slice_witness :
  Go.cap (PQ.data scenario_p2) = PQ.Cap scenario_p2 + 1 /\
  0 <= PQ.Len scenario_p2 <= PQ.Cap scenario_p2.
Proof.
  exact (bounded_queue_fixed_slice 0 compareInt grow2 scenario_p2 scenario_p2_reachable
           eq_refl).
Defined.

(** ** Properties of the lock-free queue *)

Section CLQProperties.
Context {T : Type} (zero : T).

Local Abbreviation system := (CLQ.system T).
Local Abbreviation thread := (CLQ.thread T).
Local Abbreviation event := (CLQ.event T).

(** A goroutine that runs alone in a quiet state makes its next calls of
    Enqueue one after the other. *)
Lemma fill vs : forall (sys : system) g tr tid (th : thread) rest,
  Inv zero sys g tr -> quiet tid sys ->
  CLQ.threads sys !! tid = Some th -> CLQ.cur th = None ->
  CLQ.todo th = (CLQ.OpEnqueue <$> vs) ++ rest ->
  exists k sys' tr' g' th',
    (k <= 7 * length vs)%nat /\
    CLQ.run zero (replicate k tid) sys = Ok (sys', tr') /\
    Inv zero sys' g' (tr ++ tr') /\ quiet tid sys' /\
    CLQ.threads sys' !! tid = Some th' /\
    CLQ.cur th' = None /\ CLQ.todo th' = rest /\
    CLQ.done th' = CLQ.done th ++ replicate (length vs) (CLQ.RetEnqueue None) /\
    CLQ.content (CLQ.mem sys') = CLQ.content (CLQ.mem sys) ++ vs.
Proof.
  induction vs as [| v vs IH]; intros sys g tr tid th rest HI Hq Hth Hcur Htodo.
  - exists 0%nat, sys, [], g, th. cbn. rewrite !app_nil_r. split_and!; try done.
  - cbn [fmap list_fmap app] in Htodo.
    destruct (Enqueue_alone zero sys g tr tid th v _ HI Hq Hth Hcur Htodo)
      as (k & sys1 & tr1 & g1 & th1 & Hk & Hrun & HI1 & Hq1 & Hth1 & Hc1 & Ht1 & Hd1 & Hr).
    destruct (IH sys1 g1 _ tid th1 rest HI1 Hq1 Hth1 Hc1 Ht1)
      as (k2 & sys2 & tr2 & g2 & th2 & Hk2 & Hrun2 & HI2 & Hq2 & Hth2 & ? & ? & Hd2 & Hc2).
    exists (k + k2)%nat, sys2, (tr1 ++ tr2), g2, th2. split_and!; try done.
    + cbn [length]. lia.
    + rewrite replicate_add. by eapply run_app.
    + by rewrite app_assoc.
    + rewrite Hd2, Hd1, <- app_assoc. done.
    + rewrite Hc2, Hr, <- app_assoc. done.
Qed.

(** X19: the lock-free queue used by one goroutine is a queue.  A
    goroutine that enqueues the values [vs] on a new queue and then calls
    Dequeue once more than there are values returns from all its calls
    within seven steps for each: every Enqueue returns nil, the Dequeue
    calls return the values of [vs] in the order in which they were
    enqueued, and the last one returns the zero value and ErrEmptyQueue. *)
Theorem lock_free_queue_sequential (vs : list T) :
  let prog := (CLQ.OpEnqueue <$> vs) ++
              replicate (length vs) CLQ.OpDequeue ++ [CLQ.OpDequeue] in
  exists k sys tr th,
    (k <= 7 * (2 * length vs + 1))%nat /\
    CLQ.run zero (replicate k 0%nat) (CLQ.init zero [prog]) = Ok (sys, tr) /\
    CLQ.threads sys !! 0%nat = Some th /\
    CLQ.cur th = None /\ CLQ.todo th = [] /\
    CLQ.done th = replicate (length vs) (CLQ.RetEnqueue None) ++
                  ((fun v => CLQ.RetDequeue v None) <$> vs) ++
                  [CLQ.RetDequeue zero (Some ErrEmptyQueue)] /\
    CLQ.content (CLQ.mem sys) = [].
Proof.
  intros prog.
  pose proof (Inv_init zero [prog]) as HI0.
  assert (Hq : forall sys : system, length (CLQ.threads sys) = 1%nat -> quiet 0 sys).
  { intros sys Hl k thk fk Hk Hthk. apply lookup_lt_Some in Hthk. lia. }
  destruct (fill vs (CLQ.init zero [prog]) _ [] 0%nat (CLQ.mkThread None prog []) _
              HI0 (Hq (CLQ.init zero [prog]) eq_refl) eq_refl eq_refl eq_refl)
    as (k1 & sys1 & tr1 & g1 & th1 & Hk1 & Hrun1 & HI1 & Hq1 & Hth1 & Hc1 & Ht1 & Hd1 & Hcont1).
  cbn [app CLQ.done] in HI1, Hd1.
  change (CLQ.content (CLQ.mem (CLQ.init zero [prog]))) with (@nil T) in Hcont1.
  cbn [app] in Hcont1.
  destruct (drain zero vs sys1 g1 tr1 0%nat th1 [CLQ.OpDequeue] HI1 Hq1 Hth1 Hc1 Ht1)
    as (k2 & sys2 & tr2 & g2 & th2 & Hk2 & Hrun2 & HI2 & Hq2 & Hth2 & Hc2 & Ht2 & Hd2 & Hcont2).
  { by rewrite Hcont1. }
  rewrite Hcont1 in Hcont2.
  assert (Hempty : CLQ.content (CLQ.mem sys2) = []).
  { apply (f_equal length) in Hcont2. rewrite length_app in Hcont2.
    apply nil_length_inv. lia. }
  destruct (Dequeue_alone zero sys2 g2 _ 0%nat th2 [] HI2 Hq2 Hth2 Hc2 Ht2)
    as (k3 & sys3 & tr3 & g3 & th3 & r & Hk3 & Hrun3 & HI3 & _ & Hth3 & Hc3 & Ht3 & Hd3 & Hr).
  rewrite Hempty in Hr. destruct Hr as [-> Hcont3].
  exists (k1 + (k2 + k3))%nat, sys3, (tr1 ++ (tr2 ++ tr3)), th3.
  split_and!; try done.
  - lia.
  - rewrite replicate_add. eapply run_app; [done |].
    rewrite replicate_add. by eapply run_app.
  - rewrite Hd3, Hd2, Hd1. by rewrite <- app_assoc.
Qed.

(** X20: a Dequeue says that the queue is empty only when it is.  In every
    state reached, when a Dequeue is about to load the tail and the tail is
    the head it has loaded, so that its next step returns ErrEmptyQueue,
    the queue holds no value, or it holds one value, that of the node a
    call of Enqueue has linked and whose Enqueue has not returned: it has
    yet to move the tail. *)
Theorem lock_free_queue_empty (progs : list (list (CLQ.op T))) (sched : list nat) :
  exists sys tr,
    CLQ.run zero sched (CLQ.init zero progs) = Ok (sys, tr) /\
    forall tid th hp,
      CLQ.threads sys !! tid = Some th -> CLQ.cur th = Some (CLQ.Deq_load_tail hp) ->
      hp = CLQ.tail (CLQ.mem sys) ->
      CLQ.step_frame zero (CLQ.Deq_load_tail hp) (CLQ.mem sys) =
        Ok (CLQ.Return (CLQ.RetDequeue zero (Some ErrEmptyQueue)), CLQ.mem sys, []) /\
      CLQ.head (CLQ.mem sys) = CLQ.tail (CLQ.mem sys) /\
      (CLQ.content (CLQ.mem sys) = [] \/
       exists v k thk t np tp,
         CLQ.content (CLQ.mem sys) = [v] /\
         CLQ.threads sys !! k = Some thk /\
         CLQ.cur thk = Some (CLQ.Enq_cas_tail t np tp) /\
         valof (CLQ.heap (CLQ.mem sys)) np = Some v).
Proof.
  destruct (run_Inv zero sched (CLQ.init zero progs) _ [] (Inv_init zero progs))
    as (sys & tr & g & Hrun & HI).
  exists sys, tr. split; [done |].
  intros tid th hp Hth Hcur Hhp.
  split; [cbn; by rewrite decide_True |].
  pose proof (inv_frames _ _ _ _ HI tid th _ Hth Hcur) as (j & Hj & Hhpj).
  destruct (inv_bounds _ _ _ _ HI) as [[Hht Htl] Hlag].
  assert (Hji : j = ti g).
  { destruct (lookup_lt_is_Some_2 (chain g) (ti g) Htl) as [a Ha].
    apply (chain_lookup_inj zero sys g (tr) j (ti g) a HI); [| done].
    rewrite <- Hhpj, Hhp, (inv_tail _ _ _ _ HI). done. }
  assert (Hhi : hi g = ti g) by lia.
  split.
  { by rewrite (inv_head _ _ _ _ HI), (inv_tail _ _ _ _ HI), Hhi. }
  rewrite (content_chain zero sys g _ HI). rewrite Hhi.
  destruct (decide (length (chain g) = S (ti g))) as [Heq | Hne].
  - left. rewrite drop_ge; [done | lia].
  - right. assert (Hl2 : S (S (ti g)) = length (chain g)) by lia.
    destruct (inv_lag _ _ _ _ HI Hl2) as (k & thk & f & Hk & Hf & Hat).
    destruct f; try done.
    destruct (inv_frames _ _ _ _ HI k thk _ Hk Hf) as (Htp & Hnp & _).
    destruct (lookup_lt_is_Some_2 (chain g) (S (ti g)) ltac:(lia)) as [b Hb].
    assert (Hdrop : drop (S (ti g)) (chain g) = [b]).
    { apply list_eq. intros i. rewrite lookup_drop.
      destruct i as [| i]; [by rewrite Nat.add_0_r |].
      cbn. apply lookup_ge_None_2. lia. }
    rewrite Hdrop. cbn.
    exists (valat zero (CLQ.heap (CLQ.mem sys)) b), k, thk, t, newPtr, tailPtr.
    split; [done |]. split; [done |]. split; [done |].
    destruct (inv_next _ _ _ _ HI _ _ Hb) as (nd & Hnd & _).
    rewrite Hnp, Hb. unfold valof, valat. cbn. by rewrite Hnd.
Qed.

(** The results of Dequeue calls. *)
Definition is_dequeue_ret (r : CLQ.retval T) : Prop :=
  match r with
  | CLQ.RetDequeue _ _ => True
  | CLQ.RetEnqueue _ => False
  end.

(** While goroutine [k] has linked a node and not moved the tail, a step
    of another goroutine links no node, leaves the tail where it is, and
    returns from no Enqueue. *)
Lemma lag_step (sys : system) g tr k (thk : thread) t np tp tid :
  Inv zero sys g tr ->
  CLQ.threads sys !! k = Some thk -> CLQ.cur thk = Some (CLQ.Enq_cas_tail t np tp) ->
  tid <> k ->
  exists sys' evs g',
    CLQ.step zero tid sys = Ok (sys', evs) /\ Inv zero sys' g' (tr ++ evs) /\
    links evs = [] /\ CLQ.tail (CLQ.mem sys') = CLQ.tail (CLQ.mem sys) /\
    CLQ.threads sys' !! k = Some thk /\
    forall j (thj' : thread), CLQ.threads sys' !! j = Some thj' ->
      exists (thj : thread) rs, CLQ.threads sys !! j = Some thj /\
        CLQ.done thj' = CLQ.done thj ++ rs /\ Forall is_dequeue_ret rs.
Proof.
  intros HI Hk Hfk Hne.
  destruct (step_Inv zero tid sys g tr HI) as (sys' & evs & g' & Hstep & HI').
  exists sys', evs, g'. split; [done |]. split; [done |].
  assert (Hk' : CLQ.threads sys' !! k = Some thk).
  { by rewrite (step_other zero tid sys sys' evs k Hstep). }
  destruct (inv_frames _ _ _ _ HI k thk _ Hk Hfk) as (_ & _ & Hlag).
  destruct (inv_bounds _ _ _ _ HI) as [[_ Htl] _].
  assert (Hsame : forall j (thj : thread), CLQ.threads sys !! j = Some thj ->
            exists (thj0 : thread) rs, CLQ.threads sys !! j = Some thj0 /\
              CLQ.done thj = CLQ.done thj0 ++ rs /\ Forall is_dequeue_ret rs).
  { intros j thj Hj. exists thj, []. by rewrite app_nil_r. }
  revert Hstep. unfold CLQ.step.
  destruct (CLQ.threads sys !! tid) as [th |] eqn:Hth; [| by intros [= <- <-]].
  destruct (CLQ.cur th) as [f |] eqn:Hf.
  2:{ destruct (CLQ.todo th) as [| o rest]; intros [= <- <-]; [done |].
      split_and!; try done. cbn [CLQ.threads]. intros j thj' Hj.
      apply list_lookup_insert_Some in Hj as [(-> & <- & _) | [_ Hj]]; [| by apply Hsame].
      exists th, []. by rewrite app_nil_r. }
  assert (Hthreads : forall (s' : CLQ.shared T) nf rs,
    match nf with
    | CLQ.Continue _ => rs = []
    | CLQ.Return r => rs = [r] /\ is_dequeue_ret r
    end ->
    forall j (thj' : thread),
      <[tid := match nf with
               | CLQ.Continue f' => CLQ.mkThread (Some f') (CLQ.todo th) (CLQ.done th)
               | CLQ.Return r => CLQ.mkThread None (CLQ.todo th) (CLQ.done th ++ [r])
               end]> (CLQ.threads sys) !! j = Some thj' ->
      exists (thj : thread) rs, CLQ.threads sys !! j = Some thj /\
        CLQ.done thj' = CLQ.done thj ++ rs /\ Forall is_dequeue_ret rs).
  { intros s' nf rs Hnf j thj' Hj.
    apply list_lookup_insert_Some in Hj as [(-> & <- & _) | [_ Hj]]; [| by apply Hsame].
    destruct nf as [f' | r].
    - exists th, []. by rewrite app_nil_r.
    - destruct Hnf as [_ Hr]. exists th, [r]. split_and!; [done | done |].
      by constructor. }
  pose proof (inv_frames _ _ _ _ HI tid th f Hth Hf) as Hfi.
  destruct f; cbn [CLQ.step_frame frame_inv] in *.
  - intros [= <- <-]. cbn. split_and!; try done. by apply (Hthreads (CLQ.mem sys) (CLQ.Continue _) []).
  - intros [= <- <-]. cbn. split_and!; try done. by apply (Hthreads (CLQ.mem sys) (CLQ.Continue _) []).
  - destruct (CLQ.deref _ _) as [nd | |]; cbn [mbind result_bind Go.bind]; try done.
    destruct (decide _); intros [= <- <-]; cbn; (split_and!; try done);
      by apply (Hthreads (CLQ.mem sys) (CLQ.Continue _) []).
  - destruct Hfi as (_ & Hup & ->).
    destruct (upto_deref zero sys g tr (ti g) tailPtr HI Htl Hup)
      as (j & a & nd & Hj & Hcj & -> & Hnd & Hnext).
    rewrite (deref_Some _ _ _ Hnd). cbn [mbind result_bind Go.bind].
    destruct (lookup_lt_is_Some_2 (chain g) (S j) ltac:(lia)) as [b Hb].
    rewrite decide_False by (rewrite Hnext, Hb; done).
    intros [= <- <-]. cbn. split_and!; try done.
    by apply (Hthreads (CLQ.mem sys) (CLQ.Continue _) []).
  - exfalso. apply Hne.
    by apply (inv_lag_unique _ _ _ _ HI tid k th thk _ _ Hth Hk Hf Hfk).
  - intros [= <- <-]. cbn. split_and!; try done. by apply (Hthreads (CLQ.mem sys) (CLQ.Continue _) []).
  - destruct (decide _); intros [= <- <-]; cbn; (split_and!; try done).
    + by apply (Hthreads (CLQ.mem sys) (CLQ.Return _) [CLQ.RetDequeue zero (Some ErrEmptyQueue)]).
    + by apply (Hthreads (CLQ.mem sys) (CLQ.Continue _) []).
  - destruct (CLQ.deref _ _) as [nd | |]; cbn [mbind result_bind Go.bind]; try done.
    intros [= <- <-]; cbn; (split_and!; try done).
    by apply (Hthreads (CLQ.mem sys) (CLQ.Continue _) []).
  - destruct (decide _); intros [= <- <-]; cbn; (split_and!; try done);
      by apply (Hthreads (CLQ.mem sys) (CLQ.Continue _) []).
  - destruct (CLQ.deref _ _) as [nd | |]; cbn [mbind result_bind Go.bind]; try done.
    intros [= <- <-]; cbn; (split_and!; try done).
    by apply (Hthreads (CLQ.mem sys) (CLQ.Return _) [CLQ.RetDequeue (CLQ.val nd) None]).
Qed.

Lemma lag_run sched : forall (sys : system) g tr k (thk : thread) t np tp,
  Inv zero sys g tr ->
  CLQ.threads sys !! k = Some thk -> CLQ.cur thk = Some (CLQ.Enq_cas_tail t np tp) ->
  Forall (fun tid => tid <> k) sched ->
  exists sys' tr',
    CLQ.run zero sched sys = Ok (sys', tr') /\
    links tr' = [] /\ CLQ.tail (CLQ.mem sys') = CLQ.tail (CLQ.mem sys) /\
    CLQ.threads sys' !! k = Some thk /\
    forall j (thj' : thread), CLQ.threads sys' !! j = Some thj' ->
      exists (thj : thread) rs, CLQ.threads sys !! j = Some thj /\
        CLQ.done thj' = CLQ.done thj ++ rs /\ Forall is_dequeue_ret rs.
Proof.
  induction sched as [| tid sched IH]; intros sys g tr k thk t np tp HI Hk Hfk Hs.
  - exists sys, []. split_and!; try done. intros j thj Hj. exists thj, [].
    by rewrite app_nil_r.
  - apply Forall_cons in Hs as [Hne Hs].
    destruct (lag_step sys g tr k thk t np tp tid HI Hk Hfk Hne)
      as (sys1 & evs1 & g1 & Hstep & HI1 & Hl1 & Ht1 & Hk1 & Hd1).
    destruct (IH sys1 g1 _ k thk t np tp HI1 Hk1 Hfk Hs)
      as (sys2 & tr2 & Hrun & Hl2 & Ht2 & Hk2 & Hd2).
    exists sys2, (evs1 ++ tr2). cbn [CLQ.run]. rewrite Hstep.
    cbn [mbind result_bind Go.bind]. rewrite Hrun. cbn [mbind result_bind Go.bind].
    split_and!; try done.
    + by rewrite links_app, Hl1, Hl2.
    + congruence.
    + intros j thj2 Hj. destruct (Hd2 j thj2 Hj) as (thj1 & rs2 & Hj1 & Hdone2 & Hrs2).
      destruct (Hd1 j thj1 Hj1) as (thj & rs1 & Hj0 & Hdone1 & Hrs1).
      exists thj, (rs1 ++ rs2). split_and!; [done | | by apply Forall_app].
      by rewrite Hdone2, Hdone1, <- app_assoc.
Qed.

(** X21: an Enqueue waits for the tail.  In every state reached, while a
    goroutine has linked its node and has not taken the step that moves the
    tail, the other goroutines, however many steps they take, link no node
    and return from no Enqueue: their Enqueue calls find the next field of
    the tail set and start over, and the calls that return are Dequeue
    calls.  The run does not panic and the tail stays where it is. *)
Theorem lock_free_queue_enqueue_waits (progs : list (list (CLQ.op T))) (sched : list nat) :
  exists sys tr,
    CLQ.run zero sched (CLQ.init zero progs) = Ok (sys, tr) /\
    forall k thk t np tp sched',
      CLQ.threads sys !! k = Some thk -> CLQ.cur thk = Some (CLQ.Enq_cas_tail t np tp) ->
      Forall (fun tid => tid <> k) sched' ->
      exists sys' tr',
        CLQ.run zero sched' sys = Ok (sys', tr') /\
        links tr' = [] /\ CLQ.tail (CLQ.mem sys') = CLQ.tail (CLQ.mem sys) /\
        CLQ.threads sys' !! k = Some thk /\
        forall j thj', CLQ.threads sys' !! j = Some thj' ->
          exists thj rs, CLQ.threads sys !! j = Some thj /\
            CLQ.done thj' = CLQ.done thj ++ rs /\ Forall is_dequeue_ret rs.
Proof.
  destruct (run_Inv zero sched (CLQ.init zero progs) _ [] (Inv_init zero progs))
    as (sys & tr & g & Hrun & HI).
  exists sys, tr. split; [done |].
  intros k thk t np tp sched' Hk Hfk Hs.
  by apply (lag_run sched' sys g _ k thk t np tp HI).
Qed.

End CLQProperties.

(** A Dequeue loads the head of a new queue; then an Enqueue of 7 links
    its node and is about to move the tail. *)
Definition lag_progs : list (list (CLQ.op Z)) := [[CLQ.OpEnqueue 7]; [CLQ.OpDequeue]].

Definition lag_sched : list nat := [1; 1; 0; 0; 0; 0; 0]%nat.

Lemma lock_free_queue_empty_witness :
  exists sys tr th,
    CLQ.run 0 lag_sched (CLQ.init 0 lag_progs) = Ok (sys, tr) /\
    CLQ.threads sys !! 1%nat = Some th /\
    CLQ.cur th = Some (CLQ.Deq_load_tail (Some 0%nat)) /\
    CLQ.step_frame 0 (CLQ.Deq_load_tail (Some 0%nat)) (CLQ.mem sys) =
      Ok (CLQ.Return (CLQ.RetDequeue 0 (Some ErrEmptyQueue)), CLQ.mem sys, []) /\
    CLQ.content (CLQ.mem sys) = [7].
Proof.
  destruct (lock_free_queue_empty 0 lag_progs lag_sched) as (sys & tr & Hrun & Hempty).
  assert (Hth : CLQ.threads sys !! 1%nat =
                Some (CLQ.mkThread (Some (CLQ.Deq_load_tail (Some 0%nat))) [] []))
    by (vm_compute in Hrun; injection Hrun as <- <-; reflexivity).
  assert (Htail : Some 0%nat = CLQ.tail (CLQ.mem sys))
    by (vm_compute in Hrun; injection Hrun as <- <-; reflexivity).
  assert (Hc : CLQ.content (CLQ.mem sys) = [7])
    by (vm_compute in Hrun; injection Hrun as <- <-; reflexivity).
  destruct (Hempty 1%nat _ (Some 0%nat) Hth eq_refl Htail) as (Hstep & _ & _).
  exists sys, tr, (CLQ.mkThread (Some (CLQ.Deq_load_tail (Some 0%nat))) [] []).
  split; [exact Hrun |]. split; [exact Hth |]. split; [reflexivity |].
  split; [exact Hstep | exact Hc].
Defined.

(** Two goroutines enqueue: the first links its node and is about to
    move the tail, then the second takes twenty steps. *)
Definition wait_progs : list (list (CLQ.op Z)) := [[CLQ.OpEnqueue 7]; [CLQ.OpEnqueue 8]].

Lemma lock_free_queue_enqueue_waits_witness :
  exists sys tr sys' tr' th,
    CLQ.run 0 (replicate 5 0%nat) (CLQ.init 0 wait_progs) = Ok (sys, tr) /\
    CLQ.run 0 (replicate 20 1%nat) sys = Ok (sys', tr') /\
    links tr' = [] /\ CLQ.threads sys' !! 1%nat = Some th /\ CLQ.done th = [].
Proof.
  destruct (lock_free_queue_enqueue_waits 0 wait_progs (replicate 5 0%nat))
    as (sys & tr & Hrun & Hwait).
  assert (H0 : CLQ.threads sys !! 0%nat =
               Some (CLQ.mkThread (Some (CLQ.Enq_cas_tail 7 (Some 1%nat) (Some 0%nat))) [] []))
    by (vm_compute in Hrun; injection Hrun as <- <-; reflexivity).
  assert (H1 : CLQ.threads sys !! 1%nat = Some (CLQ.mkThread None [CLQ.OpEnqueue 8] []))
    by (vm_compute in Hrun; injection Hrun as <- <-; reflexivity).
  destruct (Hwait 0%nat _ 7 (Some 1%nat) (Some 0%nat) (replicate 20 1%nat) H0 eq_refl)
    as (sys' & tr' & Hrun' & Hl & _ & _ & Hd).
  { apply Forall_replicate. discriminate. }
  assert (Hth' : exists th, CLQ.threads sys' !! 1%nat = Some th).
  { vm_compute in Hrun. injection Hrun as <- <-.
    vm_compute in Hrun'. injection Hrun' as <- <-. eexists. reflexivity. }
  destruct Hth' as [th Hth'].
  destruct (Hd 1%nat th Hth') as (th1 & rs & Hth1 & Hdone & Hrs).
  rewrite H1 in Hth1. injection Hth1 as <-. cbn [CLQ.done app] in Hdone.
  assert (Hnil : CLQ.done th = []).
  { vm_compute in Hrun. injection Hrun as <- <-.
    vm_compute in Hrun'. injection Hrun' as <- <-.
    vm_compute in Hth'. injection Hth' as <-. reflexivity. }
  exists sys, tr, sys', tr', th.
  split; [exact Hrun |]. split; [exact Hrun' |]. split; [exact Hl |].
  split; [exact Hth' | exact Hnil].
Defined.



(** ** The delay queue *)

Section DQFacts.
Context {T : Type} (zero : T) (Delay : T -> Z -> Z) (growslice : Z -> Z -> Z).
Context `{!GrowsliceSpec growslice}.
(** The calls the goroutines make. *)
Context (calls : list (DQ.op T)).

Local Abbreviation shared := (DQ.shared T).
Local Abbreviation frame := (DQ.frame T).
Local Abbreviation status := (DQ.status T).
Local Abbreviation thread := (DQ.thread T).
Local Abbreviation system := (DQ.system T).
Local Abbreviation event := (DQ.event T).
Local Abbreviation step := (DQ.step zero Delay growslice).
Local Abbreviation run := (DQ.run zero Delay growslice).

(** The statements a goroutine runs with the mutex locked. *)
Definition holds_bcast (pc : DQ.bcast_pc) : bool :=
  match pc with
  | DQ.B_close _ => false
  | _ => true
  end.

Definition holds (f : frame) : bool :=
  match f with
  | DQ.E_enqueue _ | DQ.E_signalCh _ | DQ.E_signalCh_unlock _ _ | DQ.E_unlock _
  | DQ.D_peek | DQ.D_delay _ | DQ.D_dequeue _ | DQ.D_signalCh _
  | DQ.D_signalCh_unlock _ _ | DQ.D_peek2 | DQ.D_delay2 _ | DQ.D_unlock_continue
  | DQ.D_dequeue2 _ | DQ.D_unlock _ => true
  | DQ.E_broadcast pc | DQ.D_broadcast _ _ pc => holds_bcast pc
  | _ => false
  end.

Definition holds_st (st : status) : bool :=
  match st with
  | DQ.Running f => holds f
  | DQ.Returned _ => false
  end.

(** The channel only the goroutine running [broadcast] refers to: the one
    it has made, until it is the channel of the condition, then the one it
    has replaced, until it is closed. *)
Definition own_chan_bcast (pc : DQ.bcast_pc) : option nat :=
  match pc with
  | DQ.B_make => None
  | DQ.B_load n | DQ.B_store n _ => Some n
  | DQ.B_unlock old | DQ.B_close old => Some old
  end.

Definition own_chan (f : frame) : option nat :=
  match f with
  | DQ.E_broadcast pc | DQ.D_broadcast _ _ pc => own_chan_bcast pc
  | _ => None
  end.

Definition own_chan_st (st : status) : option nat :=
  match st with
  | DQ.Running f => own_chan f
  | DQ.Returned _ => None
  end.

(** What holds of the local variables of a call in progress.  The
    branches for errors the priority queue does not return are not
    reached. *)
Definition locals_inv (s : shared) (f : frame) : Prop :=
  match f with
  | DQ.D_delay val | DQ.D_delay2 val => backing (DQ.q s) !! 1%nat = Some val
  | DQ.D_dequeue val | DQ.D_dequeue2 val =>
      backing (DQ.q s) !! 1%nat = Some val /\
      exists t0, t0 <= DQ.now s /\ Delay val t0 <= 0
  | DQ.E_broadcast (DQ.B_store _ old) => old = DQ.enqueueSignal s
  | DQ.D_broadcast _ err pc =>
      err = None /\
      match pc with
      | DQ.B_store _ old => old = DQ.dequeueSignal s
      | _ => True
      end
  | DQ.E_unlock _ | DQ.D_unlock _ => False
  | _ => True
  end.

(** The events of one goroutine. *)
Definition events_of (tid : nat) (tr : list (nat * event)) : list event :=
  (filter (fun x => x.1 = tid) tr).*2.

(** The events of a call of [broadcast] that is at [pc]. *)
Definition bcast_hist (c : DQ.which) (pc : DQ.bcast_pc) (evs : list DQ.bcast_event) : Prop :=
  match pc with
  | DQ.B_make => evs = []
  | DQ.B_load n | DQ.B_store n _ => evs = [DQ.BMake n]
  | DQ.B_unlock old => exists n, n <> old /\ evs = [DQ.BMake n; DQ.BStore c n]
  | DQ.B_close old => exists n, n <> old /\ evs = [DQ.BMake n; DQ.BStore c n; DQ.BUnlock]
  end.

(** The events of a call of [broadcast] that has returned. *)
Definition bcast_done (c : DQ.which) (s : shared) (evs : list DQ.bcast_event) : Prop :=
  exists n old, n <> old /\
    evs = [DQ.BMake n; DQ.BStore c n; DQ.BUnlock; DQ.BClose old] /\
    DQ.chans s !! old = Some true.

(** The call a statement belongs to. *)
Definition call_of (f : frame) (o : DQ.op T) : Prop :=
  match f with
  | DQ.E_check t | DQ.E_lock t | DQ.E_enqueue t | DQ.E_signalCh t
  | DQ.E_signalCh_unlock t _ | DQ.E_select t _ => o = DQ.OpEnqueue t
  | DQ.E_broadcast _ | DQ.E_unlock _ => exists t, o = DQ.OpEnqueue t
  | _ => o = DQ.OpDequeue
  end.

(** The events of a goroutine that makes the call [o], by the state of the
    call: a call changes the heap once, when it has put its element in or
    has the element to return, and then runs [broadcast]; the calls that
    return an error return [ctx.Err()], their context is cancelled, and
    they have done nothing. *)
Definition thread_hist (s : shared) (o : DQ.op T) (d : bool) (st : status)
    (evs : list event) : Prop :=
  match st with
  | DQ.Running f =>
      call_of f o /\
      match f with
      | DQ.E_broadcast pc =>
          exists t bevs, o = DQ.OpEnqueue t /\
                         evs = DQ.EvInsert t :: (DQ.EvBroadcast <$> bevs) /\
                         bcast_hist DQ.EnqueueSignal pc bevs
      | DQ.D_broadcast val _ pc =>
          exists t bevs, evs = DQ.EvRemove val t :: (DQ.EvBroadcast <$> bevs) /\
                         bcast_hist DQ.DequeueSignal pc bevs
      | _ => evs = []
      end
  | DQ.Returned (DQ.RetEnqueue None) =>
      exists t bevs, o = DQ.OpEnqueue t /\
                     evs = DQ.EvInsert t :: (DQ.EvBroadcast <$> bevs) /\
                     bcast_done DQ.EnqueueSignal s bevs
  | DQ.Returned (DQ.RetDequeue v None) =>
      o = DQ.OpDequeue /\
      exists t bevs, evs = DQ.EvRemove v t :: (DQ.EvBroadcast <$> bevs) /\
                     bcast_done DQ.DequeueSignal s bevs
  | DQ.Returned (DQ.RetEnqueue (Some e)) =>
      (exists t, o = DQ.OpEnqueue t) /\ evs = [] /\ e = DQ.CtxErr /\ d = true
  | DQ.Returned (DQ.RetDequeue v (Some e)) =>
      o = DQ.OpDequeue /\ evs = [] /\ e = DQ.CtxErr /\ v = zero /\ d = true
  end.

(** An element is taken out of the heap after a call of [Delay] on it has
    returned a value that is not positive. *)
Definition ready_ev (e : event) : Prop :=
  match e with
  | DQ.EvRemove v t => exists t0, t0 <= t /\ Delay v t0 <= 0
  | _ => True
  end.

(** The invariant of the system after [n] steps with the events [tr]. *)
Record DInv (sys : system) (n : nat) (tr : list (nat * event)) : Prop := {
  dinv_wf : wf (DQ.q (DQ.mem sys));
  dinv_len : Z.of_nat (length (backing (DQ.q (DQ.mem sys)))) <= 1 + Z.of_nat n;
  dinv_signals :
    DQ.dequeueSignal (DQ.mem sys) <> DQ.enqueueSignal (DQ.mem sys) /\
    DQ.chans (DQ.mem sys) !! DQ.dequeueSignal (DQ.mem sys) = Some false /\
    DQ.chans (DQ.mem sys) !! DQ.enqueueSignal (DQ.mem sys) = Some false;
  dinv_holds : forall tid th,
    DQ.threads sys !! tid = Some th -> holds_st (DQ.state th) = true ->
    DQ.mutex (DQ.mem sys) = Some tid;
  dinv_holder : forall k,
    DQ.mutex (DQ.mem sys) = Some k ->
    exists th, DQ.threads sys !! k = Some th /\ holds_st (DQ.state th) = true;
  dinv_frames : forall tid th f,
    DQ.threads sys !! tid = Some th -> DQ.state th = DQ.Running f ->
    locals_inv (DQ.mem sys) f;
  dinv_owned : forall tid th c,
    DQ.threads sys !! tid = Some th -> own_chan_st (DQ.state th) = Some c ->
    DQ.chans (DQ.mem sys) !! c = Some false /\
    c <> DQ.dequeueSignal (DQ.mem sys) /\ c <> DQ.enqueueSignal (DQ.mem sys);
  dinv_owned_excl : forall i j thi thj c,
    DQ.threads sys !! i = Some thi -> DQ.threads sys !! j = Some thj ->
    own_chan_st (DQ.state thi) = Some c -> own_chan_st (DQ.state thj) = Some c -> i = j;
  dinv_hist : forall tid th,
    DQ.threads sys !! tid = Some th ->
    exists o, calls !! tid = Some o /\
              thread_hist (DQ.mem sys) o (DQ.ctxDone th) (DQ.state th) (events_of tid tr);
  dinv_ready : Forall (fun x => ready_ev x.2) tr
}.

Lemma events_of_app tid tr1 tr2 :
  events_of tid (tr1 ++ tr2) = events_of tid tr1 ++ events_of tid tr2.
Proof. unfold events_of. by rewrite filter_app, fmap_app. Qed.

Lemma events_of_own tid (evs : list event) :
  events_of tid (fmap (M := list) (pair tid) evs) = evs.
Proof.
  unfold events_of. induction evs as [| e evs IH]; [done |].
  rewrite fmap_cons, filter_cons_True by done. rewrite fmap_cons. cbn [snd].
  by rewrite IH.
Qed.

Lemma events_of_other tid k (evs : list event) :
  k <> tid -> events_of k (fmap (M := list) (pair tid) evs) = [].
Proof.
  intros Hk. unfold events_of. induction evs as [| e evs IH]; [done |].
  rewrite fmap_cons, filter_cons_False by (cbn; congruence). done.
Qed.

Lemma locals_inv_ext (s s' : shared) f :
  DQ.q s' = DQ.q s -> DQ.dequeueSignal s' = DQ.dequeueSignal s ->
  DQ.enqueueSignal s' = DQ.enqueueSignal s -> DQ.now s <= DQ.now s' ->
  locals_inv s f -> locals_inv s' f.
Proof.
  intros Hq Hd He Hn. destruct f; cbn; rewrite ?Hq; try done;
    try match goal with pc : DQ.bcast_pc |- _ => destruct pc; cbn end;
    rewrite ?Hd, ?He; try done.
  all: intros [? (t0 & ? & ?)]; (split; [done |]); exists t0; (split; [lia | done]).
Qed.

Lemma thread_hist_ext (s s' : shared) o (d d' : bool) st evs :
  (forall c, DQ.chans s !! c = Some true -> DQ.chans s' !! c = Some true) ->
  (d = true -> d' = true) ->
  thread_hist s o d st evs -> thread_hist s' o d' st evs.
Proof.
  intros Hc Hd. destruct st as [f | [[e |] | v [e |]]]; cbn; try done.
  - intros (? & ? & ? & ?). split_and!; auto.
  - intros (t & bevs & ? & ? & n & old & ? & ? & ?). exists t, bevs. split_and!; try done.
    exists n, old. auto.
  - intros (? & ? & ? & ? & ?). split_and!; auto.
  - intros (? & t & bevs & ? & n & old & ? & ? & ?). split; [done |].
    exists t, bevs. split; [done |]. exists n, old. auto.
Qed.

(** A step of goroutine [tid] that leaves the clock alone. *)
Lemma DInv_step sys n tr tid th f s' st' tm' evs o :
  let s := DQ.mem sys in
  DInv sys n tr ->
  DQ.threads sys !! tid = Some th -> DQ.state th = DQ.Running f ->
  calls !! tid = Some o ->
  DQ.now s' = DQ.now s ->
  wf (DQ.q s') ->
  Z.of_nat (length (backing (DQ.q s'))) <= 1 + Z.of_nat (S n) ->
  (holds f = false ->
   DQ.q s' = DQ.q s /\ DQ.dequeueSignal s' = DQ.dequeueSignal s /\
   DQ.enqueueSignal s' = DQ.enqueueSignal s) ->
  (holds_st st' = true -> DQ.mutex s' = Some tid) ->
  (holds_st st' = false -> holds f = true -> DQ.mutex s' = None) ->
  (holds_st st' = false -> holds f = false -> DQ.mutex s' = DQ.mutex s) ->
  (holds_st st' = true -> holds f = false -> DQ.mutex s = None) ->
  (DQ.dequeueSignal s' <> DQ.enqueueSignal s' /\
   DQ.chans s' !! DQ.dequeueSignal s' = Some false /\
   DQ.chans s' !! DQ.enqueueSignal s' = Some false) ->
  (forall c, DQ.chans s !! c = Some false ->
             DQ.chans s' !! c = Some false \/ own_chan f = Some c) ->
  (forall c, DQ.chans s !! c = Some true -> DQ.chans s' !! c = Some true) ->
  (forall c, c = DQ.dequeueSignal s' \/ c = DQ.enqueueSignal s' ->
             c = DQ.dequeueSignal s \/ c = DQ.enqueueSignal s \/ own_chan f = Some c) ->
  (forall c, own_chan_st st' = Some c ->
     DQ.chans s' !! c = Some false /\
     c <> DQ.dequeueSignal s' /\ c <> DQ.enqueueSignal s' /\
     (own_chan f = Some c \/ DQ.chans s !! c = None \/
      c = DQ.dequeueSignal s \/ c = DQ.enqueueSignal s)) ->
  (forall f', st' = DQ.Running f' -> locals_inv s' f') ->
  thread_hist s' o (DQ.ctxDone th) st' (events_of tid tr ++ evs) ->
  Forall ready_ev evs ->
  DInv (DQ.mkSystem s' (<[tid := DQ.mkThread st' (DQ.ctxDone th) tm']> (DQ.threads sys)))
      (S n) (tr ++ fmap (M := list) (pair tid) evs).
Proof.
  intros s HI Hth Hst Ho Hnow Hwf Hlen Hsame Hm1 Hm2 Hm3 Hm4 Hsig Hopen Hclosed Hnewsig
    Hown Hfr Hhist Hready.
  assert (Hlt : (tid < length (DQ.threads sys))%nat) by by eapply lookup_lt_Some.
  assert (Hhf : holds_st (DQ.state th) = holds f) by by rewrite Hst.
  assert (Hof : own_chan_st (DQ.state th) = own_chan f) by by rewrite Hst.
  assert (Hother : forall j thj, j <> tid -> DQ.threads sys !! j = Some thj ->
            holds_st (DQ.state thj) = true ->
            holds f = false /\ DQ.mutex s = Some j).
  { intros j thj Hj Hthj Hh. pose proof (dinv_holds _ _ _ HI j thj Hthj Hh) as Hmj.
    split; [| done]. destruct (holds f) eqn:Hf; [| done].
    pose proof (dinv_holds _ _ _ HI tid th Hth ltac:(by rewrite Hhf)). congruence. }
  split; cbn [DQ.mem DQ.threads].
  - done.
  - done.
  - done.
  - intros j thj Hthj Hh.
    apply list_lookup_insert_Some in Hthj as [(-> & <- & _) | [Hj Hthj]]; [by apply Hm1 |].
    destruct (Hother j thj ltac:(done) Hthj Hh) as [Hf Hmj].
    destruct (holds_st st') eqn:Hh'.
    + rewrite (Hm4 eq_refl Hf) in Hmj. done.
    + by rewrite (Hm3 eq_refl Hf).
  - intros k Hk.
    destruct (decide (k = tid)) as [-> | Hne].
    + eexists. rewrite list_lookup_insert_eq by done. split; [done |]. cbn.
      destruct (holds_st st') eqn:Hh'; [done |].
      destruct (holds f) eqn:Hf.
      * rewrite (Hm2 eq_refl eq_refl) in Hk. done.
      * rewrite (Hm3 eq_refl eq_refl) in Hk.
        destruct (dinv_holder _ _ _ HI tid Hk) as (th0 & Hth0 & Hh0).
        rewrite Hth in Hth0. injection Hth0 as <-. congruence.
    + rewrite list_lookup_insert_ne by done.
      destruct (holds_st st') eqn:Hh'.
      { rewrite (Hm1 eq_refl) in Hk. congruence. }
      destruct (holds f) eqn:Hf.
      { rewrite (Hm2 eq_refl eq_refl) in Hk. done. }
      rewrite (Hm3 eq_refl eq_refl) in Hk. by apply (dinv_holder _ _ _ HI).
  - intros j thj fj Hthj Hfj.
    apply list_lookup_insert_Some in Hthj as [(-> & <- & _) | [Hj Hthj]]; [by apply Hfr |].
    pose proof (dinv_frames _ _ _ HI j thj fj Hthj Hfj) as Hinv.
    destruct (holds fj) eqn:Hhj.
    + destruct (Hother j thj ltac:(done) Hthj ltac:(by rewrite Hfj)) as [Hf _].
      destruct (Hsame Hf) as (? & ? & ?).
      apply (locals_inv_ext s s'); try done. fold s in Hnow. lia.
    + revert Hinv. clear -Hhj.
      destruct fj; cbn in *; try done;
        match goal with pc : DQ.bcast_pc |- _ => destruct pc; cbn in *; try done end.
      all: intros [? ?]; done.
  - intros j thj c Hthj Hc.
    apply list_lookup_insert_Some in Hthj as [(-> & <- & _) | [Hj Hthj]].
    { destruct (Hown c Hc) as (? & ? & ? & _). done. }
    destruct (dinv_owned _ _ _ HI j thj c Hthj Hc) as (Hcopen & Hcd & Hce).
    assert (Hnot : own_chan f <> Some c).
    { intros Hfc. apply Hj.
      apply (dinv_owned_excl _ _ _ HI tid j th thj c); try done. by rewrite Hof. }
    split_and!.
    + by destruct (Hopen c Hcopen).
    + intros Heq. destruct (Hnewsig c (or_introl Heq)) as [? | [? | ?]]; done.
    + intros Heq. destruct (Hnewsig c (or_intror Heq)) as [? | [? | ?]]; done.
  - assert (Hfresh : forall j thj c, j <> tid -> DQ.threads sys !! j = Some thj ->
              own_chan_st (DQ.state thj) = Some c -> own_chan_st st' = Some c -> False).
    { intros j thj c Hj Hthj Hcj Hc'.
      destruct (dinv_owned _ _ _ HI j thj c Hthj Hcj) as (Hcopen & Hcd & Hce).
      destruct (Hown c Hc') as (_ & _ & _ & [Hfc | [Hnone | [? | ?]]]); try done.
      - apply Hj. symmetry.
        apply (dinv_owned_excl _ _ _ HI tid j th thj c); try done. by rewrite Hof.
      - fold s in Hcopen. congruence. }
    intros i j thi thj c Hthi Hthj Hci Hcj.
    apply list_lookup_insert_Some in Hthi as [(-> & <- & _) | [Hi Hthi]];
      apply list_lookup_insert_Some in Hthj as [(-> & <- & _) | [Hj Hthj]]; cbn in *.
    + done.
    + exfalso. by eapply (Hfresh j thj c).
    + exfalso. by eapply (Hfresh i thi c).
    + by eapply (dinv_owned_excl _ _ _ HI i j).
  - intros j thj Hthj. rewrite events_of_app.
    apply list_lookup_insert_Some in Hthj as [(-> & <- & _) | [Hj Hthj]].
    + exists o. split; [done |]. cbn. by rewrite events_of_own.
    + rewrite events_of_other, app_nil_r by done.
      destruct (dinv_hist _ _ _ HI j thj Hthj) as (oj & Hoj & Hhj).
      exists oj. split; [done |]. by apply (thread_hist_ext s _ _ (DQ.ctxDone thj)).
  - apply Forall_app. split; [by apply (dinv_ready _ _ _ HI) |].
    apply Forall_fmap. by eapply Forall_impl.
Qed.

(** A step of the schedule that is not one of a goroutine: time passes,
    a context is cancelled, a timer expires. *)
Definition same_calls (ths ths' : list thread) : Prop :=
  forall k,
    match ths !! k, ths' !! k with
    | Some th, Some th' =>
        DQ.state th' = DQ.state th /\ (DQ.ctxDone th = true -> DQ.ctxDone th' = true)
    | None, None => True
    | _, _ => False
    end.

Lemma DInv_env sys sys' n tr :
  DInv sys n tr ->
  DQ.q (DQ.mem sys') = DQ.q (DQ.mem sys) ->
  DQ.mutex (DQ.mem sys') = DQ.mutex (DQ.mem sys) ->
  DQ.dequeueSignal (DQ.mem sys') = DQ.dequeueSignal (DQ.mem sys) ->
  DQ.enqueueSignal (DQ.mem sys') = DQ.enqueueSignal (DQ.mem sys) ->
  DQ.chans (DQ.mem sys') = DQ.chans (DQ.mem sys) ->
  DQ.now (DQ.mem sys) <= DQ.now (DQ.mem sys') ->
  same_calls (DQ.threads sys) (DQ.threads sys') ->
  DInv sys' (S n) tr.
Proof.
  intros HI Hq Hm Hd He Hc Ht Hths.
  assert (Hback : forall k th', DQ.threads sys' !! k = Some th' ->
            exists th, DQ.threads sys !! k = Some th /\ DQ.state th = DQ.state th' /\
                       (DQ.ctxDone th = true -> DQ.ctxDone th' = true)).
  { intros k th' Hk. pose proof (Hths k) as Hs. rewrite Hk in Hs.
    destruct (DQ.threads sys !! k) as [th |]; [| done]. exists th.
    destruct Hs as [? ?]. by split_and!. }
  split; rewrite ?Hq, ?Hm, ?Hd, ?He, ?Hc.
  - by apply (dinv_wf _ _ _ HI).
  - pose proof (dinv_len _ _ _ HI). lia.
  - by apply (dinv_signals _ _ _ HI).
  - intros k th' Hk Hh. destruct (Hback k th' Hk) as (th & Hth & Hs & _).
    apply (dinv_holds _ _ _ HI k th Hth). by rewrite Hs.
  - intros k Hk. destruct (dinv_holder _ _ _ HI k Hk) as (th & Hth & Hh).
    pose proof (Hths k) as Hs. rewrite Hth in Hs.
    destruct (DQ.threads sys' !! k) as [th' |]; [| done]. exists th'. split; [done |].
    destruct Hs as [Hs _]. by rewrite Hs.
  - intros k th' f Hk Hf. destruct (Hback k th' Hk) as (th & Hth & Hs & _).
    apply (locals_inv_ext (DQ.mem sys)); try done.
    apply (dinv_frames _ _ _ HI k th f Hth). by rewrite Hs.
  - intros k th' c Hk Hc'. destruct (Hback k th' Hk) as (th & Hth & Hs & _).
    apply (dinv_owned _ _ _ HI k th c Hth). by rewrite Hs.
  - intros i j thi' thj' c Hi Hj Hci Hcj.
    destruct (Hback i thi' Hi) as (thi & Hthi & Hsi & _).
    destruct (Hback j thj' Hj) as (thj & Hthj & Hsj & _).
    apply (dinv_owned_excl _ _ _ HI i j thi thj c); try done; congruence.
  - intros k th' Hk. destruct (Hback k th' Hk) as (th & Hth & Hs & Hdn).
    destruct (dinv_hist _ _ _ HI k th Hth) as (o & Ho & Hh).
    exists o. split; [done |]. rewrite <- Hs.
    apply (thread_hist_ext (DQ.mem sys) _ _ (DQ.ctxDone th)); [by rewrite Hc | done | done].
  - by apply (dinv_ready _ _ _ HI).
Qed.

Lemma same_calls_refl (ths : list thread) : same_calls ths ths.
Proof. intros k. by destruct (ths !! k). Qed.

Lemma same_calls_alter (g : thread -> thread) (ths : list thread) tid :
  (forall th, DQ.state (g th) = DQ.state th /\
              (DQ.ctxDone th = true -> DQ.ctxDone (g th) = true)) ->
  same_calls ths (alter g tid ths).
Proof.
  intros Hg k. rewrite list_lookup_alter.
  destruct (decide (tid = k)) as [<- |]; [| by destruct (ths !! k)].
  destruct (ths !! tid) as [th |]; cbn; [apply Hg | done].
Qed.

Lemma DInv_init c t0 sys0 :
  DQ.init zero c t0 calls = Ok sys0 -> DInv sys0 0 [].
Proof.
  unfold DQ.init, DQ.NewDelayQueue.
  destruct (PQ.NewPriorityQueue zero c) as [p | |] eqn:Hp; [| done | done].
  cbn [mbind result_bind Go.bind]. intros [= <-].
  destruct (New_spec zero (fun _ _ => 0) c p Hp) as (Hb & Hwf & _ & _).
  assert (Hst : forall k th,
    ((fun o => DQ.mkThread (DQ.Running (DQ.enter o)) false None) <$> calls) !! k = Some th ->
    exists o, calls !! k = Some o /\ DQ.state th = DQ.Running (DQ.enter o)).
  { intros k th (o & -> & ?)%list_lookup_fmap_Some. by exists o. }
  split; cbn [DQ.mem DQ.threads DQ.q DQ.mutex DQ.dequeueSignal DQ.enqueueSignal
              DQ.chans DQ.now].
  - done.
  - rewrite Hb. cbn. lia.
  - done.
  - intros k th Hk Hh. destruct (Hst k th Hk) as (o & _ & Ho). rewrite Ho in Hh.
    by destruct o.
  - done.
  - intros k th f Hk Hf. destruct (Hst k th Hk) as (o & _ & Ho). rewrite Ho in Hf.
    injection Hf as <-. by destruct o.
  - intros k th ch Hk Hc. destruct (Hst k th Hk) as (o & _ & Ho). rewrite Ho in Hc.
    by destruct o.
  - intros i j thi thj ch Hi _ Hc. destruct (Hst i thi Hi) as (o & _ & Ho).
    rewrite Ho in Hc. by destruct o.
  - intros k th Hk. destruct (Hst k th Hk) as (o & Hok & Ho). exists o. split; [done |].
    rewrite Ho. by destruct o.
  - constructor.
Qed.

(** The thread a step of a call leaves. *)
Definition after (th : thread) (nf : DQ.next_frame T) (tm : option DQ.timer) : thread :=
  match nf with
  | DQ.Continue f' => DQ.mkThread (DQ.Running f') (DQ.ctxDone th) tm
  | DQ.Return r => DQ.mkThread (DQ.Returned r) (DQ.ctxDone th) (DQ.stop tm)
  | DQ.Blocked => th
  end.

Local Ltac unfold_state :=
  cbn [holds holds_st holds_bcast own_chan own_chan_st own_chan_bcast locals_inv thread_hist
       call_of bcast_hist DQ.q DQ.mutex DQ.dequeueSignal DQ.enqueueSignal DQ.chans DQ.now
       DQ.set_q DQ.set_mutex DQ.set_signal DQ.set_chans DQ.mem DQ.cond_signal] in *.

Local Ltac side Hown0 :=
  unfold_state; rewrite ?app_nil_r;
  first
    [ done
    | lia
    | by intuition (eauto; congruence)
    | let c := fresh "c" in
      let Hc := fresh "Hc" in
      intros c Hc; destruct (Hown0 c Hc) as (? & ? & ?); by auto
    | let f' := fresh "f'" in
      intros f' [= <-]; unfold_state; by intuition eauto
    | idtac ].

Local Ltac go sys n tr tid th HI Hth Hst Hown0 o Ho :=
  eexists _, _, _, _; (split; [reflexivity |]); cbn [after];
  apply (DInv_step sys n tr tid th _ _ _ _ _ o HI Hth Hst Ho); side Hown0.

Lemma select_ready (ready : DQ.select_case -> bool) p c :
  DQ.select ready p = Some c -> ready c = true.
Proof.
  unfold DQ.select. destruct (ready p) eqn:Hp; [by intros [= <-] |].
  destruct (ready DQ.CaseDone) eqn:H1; [by intros [= <-] |].
  destruct (ready DQ.CaseTimer) eqn:H2; [by intros [= <-] |].
  destruct (ready DQ.CaseSignal) eqn:H3; [by intros [= <-] | done].
Qed.

Lemma frame_DInv sys n tr tid th f pick :
  DInv sys n tr -> Z.of_nat n + 3 < Go.int_max ->
  DQ.threads sys !! tid = Some th -> DQ.state th = DQ.Running f ->
  exists nf tm s' evs,
    DQ.step_frame zero Delay growslice tid (DQ.ctxDone th) (DQ.tmr th) pick f (DQ.mem sys)
      = Ok (nf, tm, s', evs) /\
    DInv (DQ.mkSystem s' (<[tid := after th nf tm]> (DQ.threads sys))) (S n)
        (tr ++ fmap (M := list) (pair tid) evs).
Proof.
  intros HI Hn Hth Hst.
  pose proof (dinv_wf _ _ _ HI) as Hwf0.
  pose proof (dinv_len _ _ _ HI) as Hlen0.
  pose proof (dinv_signals _ _ _ HI) as (Hsig1 & Hsig2 & Hsig3).
  pose proof (dinv_frames _ _ _ HI tid th f Hth Hst) as Hfi.
  pose proof (dinv_holds _ _ _ HI tid th Hth) as Hmx. rewrite Hst in Hmx.
  destruct (dinv_hist _ _ _ HI tid th Hth) as (o & Ho & Hh). rewrite Hst in Hh.
  pose proof (dinv_owned _ _ _ HI tid th) as Hown0. rewrite Hst in Hown0.
  specialize (fun c => Hown0 c Hth).
  assert (Hblocked : DInv (DQ.mkSystem (DQ.mem sys) (<[tid := th]> (DQ.threads sys))) (S n)
                       (tr ++ fmap (M := list) (pair tid) [])).
  { destruct th as [st d tm]. cbn in Hst. subst st.
    apply (DInv_step sys n tr tid _ f (DQ.mem sys) (DQ.Running f) tm [] o HI Hth eq_refl Ho);
      side Hown0. }
  destruct f as [t | t | t | pc | t | t res | t sg | err | | | | val | val | val err pc
                | dl | dl res | dl sg | sg | | | val | | val | sg | err];
    cbn [DQ.step_frame].
  - (* E_check *)
    destruct (DQ.ctxDone th) eqn:Hd; go sys n tr tid th HI Hth Hst Hown0 o Ho.
  - (* E_lock *)
    unfold DQ.Lock. destruct (DQ.mutex (DQ.mem sys)) eqn:Hmu.
    + by eexists _, _, _, _.
    + go sys n tr tid th HI Hth Hst Hown0 o Ho.
  - (* E_enqueue *)
    destruct (Enqueue_shape (DQ.compare Delay (DQ.now (DQ.mem sys))) growslice
                (DQ.q (DQ.mem sys)) t Hwf0 ltac:(lia))
      as (p' & e & -> & Hwf' & _ & [(-> & -> & _) | (-> & _ & Hl & _)]);
      cbn [mbind result_bind Go.bind]; go sys n tr tid th HI Hth Hst Hown0 o Ho.
    destruct Hh as [-> Hev]. split; [by eexists |]. exists t, []. by rewrite Hev.
  - (* E_broadcast *)
    destruct Hh as (_ & t & bevs & Hot & Hevs & Hb).
    assert (Hlt2 := lookup_lt_Some _ _ _ Hsig2).
    assert (Hlt3 := lookup_lt_Some _ _ _ Hsig3).
    destruct pc as [| sg | sg old | old | old]; cbn [DQ.step_broadcast].
    + go sys n tr tid th HI Hth Hst Hown0 o Ho.
      * split_and!; [done | by apply lookup_app_l_Some | by apply lookup_app_l_Some].
      * intros c Hc. left. by apply lookup_app_l_Some.
      * intros c Hc. by apply lookup_app_l_Some.
      * intros c [= <-]. split_and!; [by apply list_lookup_middle | lia | lia |].
        right; left. by apply lookup_ge_None_2.
      * split; [by eexists |]. exists t, (bevs ++ [DQ.BMake (length (DQ.chans (DQ.mem sys)))]). split; [done |].
        rewrite Hevs, Hb. done.
      * by repeat constructor.
    + go sys n tr tid th HI Hth Hst Hown0 o Ho.
    + destruct (Hown0 sg eq_refl) as (Ho1 & Ho2 & Ho3).
      go sys n tr tid th HI Hth Hst Hown0 o Ho.
      * split; [by eexists |]. exists t, (bevs ++ [DQ.BStore DQ.EnqueueSignal sg]). split; [done |].
        rewrite Hevs, Hb. split; [done |]. exists sg. split; [congruence | done].
      * by repeat constructor.
    + unfold DQ.Unlock. rewrite Hmx by done. cbn [mbind result_bind Go.bind].
      go sys n tr tid th HI Hth Hst Hown0 o Ho.
      * destruct Hb as (n0 & ? & ->).
        split; [by eexists |]. exists t, [DQ.BMake n0; DQ.BStore DQ.EnqueueSignal n0; DQ.BUnlock]. split; [done |].
        rewrite Hevs. split; [done |]. by exists n0.
      * by repeat constructor.
    + destruct (Hown0 old eq_refl) as (Ho1 & Ho2 & Ho3).
      unfold DQ.close. rewrite Ho1. cbn [mbind result_bind Go.bind].
      go sys n tr tid th HI Hth Hst Hown0 o Ho.
      * split_and!; [done | |]; by rewrite list_lookup_insert_ne.
      * intros c Hc. destruct (decide (c = old)) as [-> | ?]; [by right | left].
        by rewrite list_lookup_insert_ne.
      * intros c Hc. rewrite list_lookup_insert_ne; [done | congruence].
      * destruct Hb as (n0 & ? & ->).
        exists t, [DQ.BMake n0; DQ.BStore DQ.EnqueueSignal n0; DQ.BUnlock; DQ.BClose old]. split; [done |].
        rewrite Hevs. split; [done |]. exists n0, old. split_and!; [done | done |].
        cbn. apply list_lookup_insert_eq. by eapply lookup_lt_Some.
      * by repeat constructor.
  - (* E_signalCh *)
    go sys n tr tid th HI Hth Hst Hown0 o Ho.
  - (* E_signalCh_unlock *)
    unfold DQ.Unlock. rewrite Hmx by done. cbn [mbind result_bind Go.bind].
    go sys n tr tid th HI Hth Hst Hown0 o Ho.
  - (* E_select *)
    destruct (DQ.select _ pick) as [c |] eqn:Hsel; [| by eexists _, _, _, _].
    apply select_ready in Hsel.
    destruct c; go sys n tr tid th HI Hth Hst Hown0 o Ho.
  - (* E_unlock *)
    done.
  - (* D_check *)
    destruct (DQ.ctxDone th) eqn:Hd; go sys n tr tid th HI Hth Hst Hown0 o Ho.
  - (* D_lock *)
    unfold DQ.Lock. destruct (DQ.mutex (DQ.mem sys)) eqn:Hmu.
    + by eexists _, _, _, _.
    + go sys n tr tid th HI Hth Hst Hown0 o Ho.
  - (* D_peek *)
    destruct (Peek_shape zero (DQ.q (DQ.mem sys)))
      as (v & e & -> & [(-> & -> & Hem) | (-> & Hv & Hem)]);
      cbn [mbind result_bind Go.bind]; go sys n tr tid th HI Hth Hst Hown0 o Ho.
  - (* D_delay *)
    destruct (Z.leb_spec (Delay val (DQ.now (DQ.mem sys))) 0);
      go sys n tr tid th HI Hth Hst Hown0 o Ho.
    intros f' [= <-]. cbn. split; [done |]. exists (DQ.now (DQ.mem sys)). split; [lia | done].
  - (* D_dequeue *)
    destruct Hfi as [Hval Hready].
    destruct (Dequeue_shape zero (DQ.compare Delay (DQ.now (DQ.mem sys))) growslice
                (DQ.q (DQ.mem sys)) Hwf0)
      as (p' & v & e & Hdq & Hwf' & _ & Hl & [(-> & -> & _ & Hem) | (-> & Hv & _)]).
    { exfalso. unfold PQ.isEmpty in Hem. apply Z.ltb_lt in Hem.
      apply lookup_lt_Some in Hval. unfold backing, Go.len in *. lia. }
    assert (v = val) as -> by congruence.
    unfold DQ.dequeue_step. rewrite Hdq. cbn [mbind result_bind Go.bind].
    go sys n tr tid th HI Hth Hst Hown0 o Ho.
    destruct Hh as [Hod Hev]. split; [done |].
    exists (DQ.now (DQ.mem sys)), []. by rewrite Hev.
  - (* D_broadcast *)
    destruct Hfi as [-> Hfi]. cbn [fmap option_fmap option_map].
    destruct Hh as (Hot & t & bevs & Hevs & Hb).
    assert (Hlt2 := lookup_lt_Some _ _ _ Hsig2).
    assert (Hlt3 := lookup_lt_Some _ _ _ Hsig3).
    destruct pc as [| sg | sg old | old | old]; cbn [DQ.step_broadcast].
    + go sys n tr tid th HI Hth Hst Hown0 o Ho.
      * split_and!; [done | by apply lookup_app_l_Some | by apply lookup_app_l_Some].
      * intros c Hc. left. by apply lookup_app_l_Some.
      * intros c Hc. by apply lookup_app_l_Some.
      * intros c [= <-]. split_and!; [by apply list_lookup_middle | lia | lia |].
        right; left. by apply lookup_ge_None_2.
      * split; [done |]. exists t, (bevs ++ [DQ.BMake (length (DQ.chans (DQ.mem sys)))]).
        rewrite Hevs, Hb. done.
      * by repeat constructor.
    + go sys n tr tid th HI Hth Hst Hown0 o Ho.
    + destruct (Hown0 sg eq_refl) as (Ho1 & Ho2 & Ho3).
      go sys n tr tid th HI Hth Hst Hown0 o Ho.
      * split; [done |]. exists t, (bevs ++ [DQ.BStore DQ.DequeueSignal sg]).
        rewrite Hevs, Hb. split; [done |]. exists sg. split; [congruence | done].
      * by repeat constructor.
    + unfold DQ.Unlock. rewrite Hmx by done. cbn [mbind result_bind Go.bind].
      go sys n tr tid th HI Hth Hst Hown0 o Ho.
      * destruct Hb as (n0 & ? & ->).
        split; [done |]. exists t, [DQ.BMake n0; DQ.BStore DQ.DequeueSignal n0; DQ.BUnlock].
        rewrite Hevs. split; [done |]. by exists n0.
      * by repeat constructor.
    + destruct (Hown0 old eq_refl) as (Ho1 & Ho2 & Ho3).
      unfold DQ.close. rewrite Ho1. cbn [mbind result_bind Go.bind].
      go sys n tr tid th HI Hth Hst Hown0 o Ho.
      * split_and!; [done | |]; by rewrite list_lookup_insert_ne.
      * intros c Hc. destruct (decide (c = old)) as [-> | ?]; [by right | left].
        by rewrite list_lookup_insert_ne.
      * intros c Hc. rewrite list_lookup_insert_ne; [done | congruence].
      * destruct Hb as (n0 & ? & ->).
        split; [done |]. exists t, [DQ.BMake n0; DQ.BStore DQ.DequeueSignal n0; DQ.BUnlock; DQ.BClose old].
        rewrite Hevs. split; [done |]. exists n0, old. split_and!; [done | done |].
        cbn. apply list_lookup_insert_eq. by eapply lookup_lt_Some.
      * by repeat constructor.
  - (* D_signalCh *)
    go sys n tr tid th HI Hth Hst Hown0 o Ho.
  - (* D_signalCh_unlock *)
    unfold DQ.Unlock. rewrite Hmx by done. cbn [mbind result_bind Go.bind].
    destruct dl; go sys n tr tid th HI Hth Hst Hown0 o Ho.
  - (* D_timer *)
    go sys n tr tid th HI Hth Hst Hown0 o Ho.
  - (* D_select3 *)
    destruct (DQ.select _ pick) as [c |] eqn:Hsel; [| by eexists _, _, _, _].
    apply select_ready in Hsel.
    destruct c; go sys n tr tid th HI Hth Hst Hown0 o Ho.
  - (* D_lock2 *)
    unfold DQ.Lock. destruct (DQ.mutex (DQ.mem sys)) eqn:Hmu.
    + by eexists _, _, _, _.
    + go sys n tr tid th HI Hth Hst Hown0 o Ho.
  - (* D_peek2 *)
    destruct (Peek_shape zero (DQ.q (DQ.mem sys)))
      as (v & e & -> & [(-> & -> & Hem) | (-> & Hv & Hem)]);
      cbn [mbind result_bind Go.bind]; go sys n tr tid th HI Hth Hst Hown0 o Ho.
  - (* D_delay2 *)
    destruct (Z.ltb_spec 0 (Delay val (DQ.now (DQ.mem sys))));
      go sys n tr tid th HI Hth Hst Hown0 o Ho.
    intros f' [= <-]. cbn. split; [done |]. exists (DQ.now (DQ.mem sys)). split; [lia | done].
  - (* D_unlock_continue *)
    unfold DQ.Unlock. rewrite Hmx by done. cbn [mbind result_bind Go.bind].
    go sys n tr tid th HI Hth Hst Hown0 o Ho.
  - (* D_dequeue2 *)
    destruct Hfi as [Hval Hready].
    destruct (Dequeue_shape zero (DQ.compare Delay (DQ.now (DQ.mem sys))) growslice
                (DQ.q (DQ.mem sys)) Hwf0)
      as (p' & v & e & Hdq & Hwf' & _ & Hl & [(-> & -> & _ & Hem) | (-> & Hv & _)]).
    { exfalso. unfold PQ.isEmpty in Hem. apply Z.ltb_lt in Hem.
      apply lookup_lt_Some in Hval. unfold backing, Go.len in *. lia. }
    assert (v = val) as -> by congruence.
    unfold DQ.dequeue_step. rewrite Hdq. cbn [mbind result_bind Go.bind].
    go sys n tr tid th HI Hth Hst Hown0 o Ho.
    destruct Hh as [Hod Hev]. split; [done |].
    exists (DQ.now (DQ.mem sys)), []. by rewrite Hev.
  - (* D_select2 *)
    destruct (DQ.select _ pick) as [c |] eqn:Hsel; [| by eexists _, _, _, _].
    apply select_ready in Hsel.
    destruct c; go sys n tr tid th HI Hth Hst Hown0 o Ho.
  - (* D_unlock *)
    done.
Qed.

(** The invariant holds along every run of fewer than 2^63 - 4 steps: no
    step panics. *)
Lemma step_DInv a sys n tr :
  DInv sys n tr -> Z.of_nat n + 3 < Go.int_max ->
  exists sys' evs, step a sys = Ok (sys', evs) /\ DInv sys' (S n) (tr ++ evs).
Proof.
  intros HI Hn. destruct a as [tid pick | dt | tid | tid]; cbn [DQ.step].
  - destruct (DQ.threads sys !! tid) as [th |] eqn:Hth.
    2:{ exists sys, []. rewrite app_nil_r. split; [done |].
        apply (DInv_env sys sys n tr); try done. apply same_calls_refl. }
    destruct (DQ.state th) as [f | r] eqn:Hst.
    2:{ exists sys, []. rewrite app_nil_r. split; [done |].
        apply (DInv_env sys sys n tr); try done. apply same_calls_refl. }
    destruct (frame_DInv sys n tr tid th f pick HI Hn Hth Hst)
      as (nf & tm & s' & evs & -> & HI').
    cbn [mbind result_bind Go.bind]. eexists _, _. split; [done |].
    by destruct nf.
  - eexists _, _. split; [done |]. rewrite app_nil_r.
    apply (DInv_env sys _ n tr); cbn; try done; [lia | apply same_calls_refl].
  - eexists _, _. split; [done |]. rewrite app_nil_r.
    apply (DInv_env sys _ n tr); cbn [DQ.mem DQ.threads]; try done.
    by apply same_calls_alter.
  - eexists _, _. split; [done |]. rewrite app_nil_r.
    apply (DInv_env sys _ n tr); cbn [DQ.mem DQ.threads]; try done.
    apply same_calls_alter. intros th. destruct (DQ.tmr th) as [t |]; [| done].
    by destruct (_ && _).
Qed.

Lemma run_DInv sched : forall sys n tr,
  DInv sys n tr -> Z.of_nat (n + length sched) + 2 < Go.int_max ->
  exists sys' tr',
    run sched sys = Ok (sys', tr') /\ DInv sys' (n + length sched) (tr ++ tr').
Proof.
  induction sched as [| a sched IH]; intros sys n tr HI Hn.
  - exists sys, []. cbn. rewrite app_nil_r, Nat.add_0_r. done.
  - cbn [length] in *.
    destruct (step_DInv a sys n tr HI ltac:(lia)) as (sys1 & evs1 & Hstep & HI1).
    destruct (IH sys1 (S n) _ HI1 ltac:(lia)) as (sys2 & tr2 & Hrun & HI2).
    exists sys2, (evs1 ++ tr2). cbn [DQ.run]. rewrite Hstep.
    cbn [mbind result_bind Go.bind]. rewrite Hrun. cbn [mbind result_bind Go.bind].
    split; [done |]. rewrite app_assoc.
    by replace (n + S (length sched))%nat with (S n + length sched)%nat by lia.
Qed.

(** ** Calls whose context is cancelled *)

(** The calls of the priority queue change the queue only when they
    return no error. *)
Lemma Peek_same (p p' : PQ.PriorityQueue T) r : PQ.Peek zero p = Ok (p', r) -> p' = p.
Proof.
  unfold PQ.Peek. destruct (PQ.isEmpty p); [by intros [= <- _] |].
  destruct (Go.index _ _); cbn; [by intros [= <- _] | done | done].
Qed.

Lemma Enqueue_err_same cmp (p p' : PQ.PriorityQueue T) t e :
  PQ.Enqueue cmp growslice p t = Ok (p', Some e) -> p' = p.
Proof.
  unfold PQ.Enqueue. destruct (PQ.isFull p); [by intros [= <- _] |].
  destruct (Go.append _ _ _); cbn; [| done | done].
  destruct (PQ.siftUp _ _ _ _ _); cbn; done.
Qed.

Lemma Dequeue_err_same cmp (p p' : PQ.PriorityQueue T) v e :
  PQ.Dequeue zero cmp growslice p = Ok (p', (v, Some e)) -> p' = p.
Proof.
  unfold PQ.Dequeue. destruct (PQ.isEmpty p); [by intros [= <- _] |].
  repeat (match goal with |- context [@mbind _ _ _ _ _ ?m] => destruct m end;
          cbn [mbind result_bind Go.bind]; try done).
Qed.

(** The events of the heap, as opposed to those of [broadcast]. *)
Definition heap_event (e : event) : bool :=
  match e with
  | DQ.EvBroadcast _ => false
  | _ => true
  end.

Lemma step_broadcast_q w pc (s s' : shared) pc' evs :
  DQ.step_broadcast w pc s = Ok (pc', s', evs) -> DQ.q s' = DQ.q s.
Proof.
  destruct pc; cbn; try by intros [= <- <- <-].
  - intros [= <- <- <-]. by destruct w.
  - unfold DQ.Unlock. destruct (DQ.mutex s); cbn; [| done]. by intros [= <- <- <-].
  - unfold DQ.close. destruct (DQ.chans s !! old) as [[|] |]; cbn; try done.
    by intros [= <- <- <-].
Qed.

Lemma step_at (sys : system) tid (th : thread) f pick nf tm s' evs :
  DQ.threads sys !! tid = Some th -> DQ.state th = DQ.Running f ->
  DQ.step_frame zero Delay growslice tid (DQ.ctxDone th) (DQ.tmr th) pick f (DQ.mem sys)
    = Ok (nf, tm, s', evs) ->
  step (DQ.Step tid pick) sys =
    Ok (DQ.mkSystem s' (<[tid := after th nf tm]> (DQ.threads sys)),
        fmap (M := list) (pair tid) evs).
Proof.
  intros Hth Hst Hf. cbn [DQ.step]. rewrite Hth, Hst, Hf. cbn. by destruct nf.
Qed.

Lemma run_returned tid picks : forall (sys : system) (th : thread) r,
  DQ.threads sys !! tid = Some th -> DQ.state th = DQ.Returned r ->
  run (DQ.Step tid <$> picks) sys = Ok (sys, []).
Proof.
  induction picks as [| p picks IH]; intros sys th r Hth Hst; [done |].
  cbn [fmap list_fmap DQ.run DQ.step]. rewrite Hth, Hst. cbn [mbind result_bind Go.bind].
  by rewrite (IH sys th r Hth Hst).
Qed.

(** The call of goroutine [tid] returns [r] when the goroutine takes the
    steps of [picks], without an event and with the heap as it was. *)
Definition returns (tid : nat) (sys : system) (picks : list DQ.select_case)
    (r : DQ.retval T) : Prop :=
  exists sys' th',
    run (DQ.Step tid <$> picks) sys = Ok (sys', []) /\
    DQ.threads sys' !! tid = Some th' /\ DQ.state th' = DQ.Returned r /\
    DQ.q (DQ.mem sys') = DQ.q (DQ.mem sys).

(** One step that leaves the heap alone and makes no event, then a run
    that returns. *)
Lemma returns_step tid (sys : system) (th : thread) f p picks nf tm s' r :
  DQ.threads sys !! tid = Some th -> DQ.state th = DQ.Running f ->
  DQ.step_frame zero Delay growslice tid (DQ.ctxDone th) (DQ.tmr th) p f (DQ.mem sys)
    = Ok (nf, tm, s', []) ->
  DQ.q s' = DQ.q (DQ.mem sys) ->
  returns tid (DQ.mkSystem s' (<[tid := after th nf tm]> (DQ.threads sys))) picks r ->
  returns tid sys (p :: picks) r.
Proof.
  intros Hth Hst Hf Hq (sys' & th' & Hrun & Hth' & Hst' & Hq').
  exists sys', th'. split_and!; try done.
  - cbn [fmap list_fmap DQ.run]. rewrite (step_at sys tid th f p _ _ _ _ Hth Hst Hf).
    cbn [mbind result_bind Go.bind]. fold (fmap (M := list) (DQ.Step tid) picks).
    by rewrite Hrun.
  - by rewrite Hq'.
Qed.

Lemma returns_now tid (sys : system) (th : thread) f p picks tm r :
  DQ.threads sys !! tid = Some th -> DQ.state th = DQ.Running f ->
  DQ.step_frame zero Delay growslice tid (DQ.ctxDone th) (DQ.tmr th) p f (DQ.mem sys)
    = Ok (DQ.Return r, tm, DQ.mem sys, []) ->
  returns tid sys (p :: picks) r.
Proof.
  intros Hth Hst Hf.
  assert (Hlt : (tid < length (DQ.threads sys))%nat) by by eapply lookup_lt_Some.
  eapply returns_step; try done.
  eexists _, _. split_and!; [| | | done].
  - eapply run_returned; [by apply list_lookup_insert_eq | done].
  - by apply list_lookup_insert_eq.
  - done.
Qed.

Lemma E_check_cancelled tid (sys : system) (th : thread) t picks :
  DQ.threads sys !! tid = Some th -> DQ.state th = DQ.Running (DQ.E_check t) ->
  DQ.ctxDone th = true -> (1 <= length picks)%nat ->
  returns tid sys picks (DQ.RetEnqueue (Some DQ.CtxErr)).
Proof.
  intros Hth Hst Hd Hl. destruct picks as [| p picks]; [cbn in Hl; lia |].
  eapply returns_now; [done | done |]. cbn [DQ.step_frame]. by rewrite Hd.
Qed.

Lemma D_check_cancelled tid (sys : system) (th : thread) picks :
  DQ.threads sys !! tid = Some th -> DQ.state th = DQ.Running DQ.D_check ->
  DQ.ctxDone th = true -> (1 <= length picks)%nat ->
  returns tid sys picks (DQ.RetDequeue zero (Some DQ.CtxErr)).
Proof.
  intros Hth Hst Hd Hl. destruct picks as [| p picks]; [cbn in Hl; lia |].
  eapply returns_now; [done | done |]. cbn [DQ.step_frame]. by rewrite Hd.
Qed.

Lemma select_done (ready : DQ.select_case -> bool) p :
  ready DQ.CaseDone = true -> exists c, DQ.select ready p = Some c.
Proof.
  intros Hd. unfold DQ.select. rewrite Hd. destruct (ready p); by eexists.
Qed.

Lemma E_select_cancelled tid (sys : system) (th : thread) t sg picks :
  DQ.threads sys !! tid = Some th -> DQ.state th = DQ.Running (DQ.E_select t sg) ->
  DQ.ctxDone th = true -> (2 <= length picks)%nat ->
  returns tid sys picks (DQ.RetEnqueue (Some DQ.CtxErr)).
Proof.
  intros Hth Hst Hd Hl. destruct picks as [| p picks]; [cbn in Hl; lia |].
  assert (Hlt : (tid < length (DQ.threads sys))%nat) by by eapply lookup_lt_Some.
  cbn [length] in Hl.
  destruct (select_done (fun c => match c with
                                  | DQ.CaseDone => DQ.ctxDone th
                                  | DQ.CaseTimer => false
                                  | DQ.CaseSignal => DQ.closed sg (DQ.mem sys)
                                  end) p Hd) as [c Hs].
  destruct c.
  - eapply returns_now; [done | done |]. cbn [DQ.step_frame]. by rewrite Hs.
  - eapply returns_step; [done | done | cbn [DQ.step_frame]; by rewrite Hs | done |].
    eapply E_check_cancelled; [by apply list_lookup_insert_eq | done | done | lia].
  - eapply returns_step; [done | done | cbn [DQ.step_frame]; by rewrite Hs | done |].
    eapply E_check_cancelled; [by apply list_lookup_insert_eq | done | done | lia].
Qed.

Lemma D_select2_cancelled tid (sys : system) (th : thread) sg picks :
  DQ.threads sys !! tid = Some th -> DQ.state th = DQ.Running (DQ.D_select2 sg) ->
  DQ.ctxDone th = true -> (2 <= length picks)%nat ->
  returns tid sys picks (DQ.RetDequeue zero (Some DQ.CtxErr)).
Proof.
  intros Hth Hst Hd Hl. destruct picks as [| p picks]; [cbn in Hl; lia |].
  assert (Hlt : (tid < length (DQ.threads sys))%nat) by by eapply lookup_lt_Some.
  cbn [length] in Hl.
  destruct (select_done (fun c => match c with
                                  | DQ.CaseDone => DQ.ctxDone th
                                  | DQ.CaseTimer => false
                                  | DQ.CaseSignal => DQ.closed sg (DQ.mem sys)
                                  end) p Hd) as [c Hs].
  destruct c.
  - eapply returns_now; [done | done |]. cbn [DQ.step_frame]. by rewrite Hs.
  - eapply returns_step; [done | done | cbn [DQ.step_frame]; by rewrite Hs | done |].
    eapply D_check_cancelled; [by apply list_lookup_insert_eq | done | done | lia].
  - eapply returns_step; [done | done | cbn [DQ.step_frame]; by rewrite Hs | done |].
    eapply D_check_cancelled; [by apply list_lookup_insert_eq | done | done | lia].
Qed.

(** The element at the head of the heap, if there is one, is not ready. *)
Definition none_ready (s : shared) : Prop :=
  forall v, backing (DQ.q s) !! 1%nat = Some v -> 0 < Delay v (DQ.now s).

Lemma D_unlock_continue_cancelled tid (sys : system) (th : thread) picks :
  DQ.threads sys !! tid = Some th -> DQ.state th = DQ.Running DQ.D_unlock_continue ->
  DQ.ctxDone th = true -> is_Some (DQ.mutex (DQ.mem sys)) -> (2 <= length picks)%nat ->
  returns tid sys picks (DQ.RetDequeue zero (Some DQ.CtxErr)).
Proof.
  intros Hth Hst Hd [k Hk] Hl. destruct picks as [| p picks]; [cbn in Hl; lia |].
  assert (Hlt : (tid < length (DQ.threads sys))%nat) by by eapply lookup_lt_Some.
  cbn [length] in Hl.
  eapply returns_step; [done | done | | |].
  - cbn [DQ.step_frame]. unfold DQ.Unlock. rewrite Hk. done.
  - done.
  - eapply D_check_cancelled; [by apply list_lookup_insert_eq | done | done | lia].
Qed.

Lemma D_delay2_cancelled tid (sys : system) (th : thread) val picks :
  DQ.threads sys !! tid = Some th -> DQ.state th = DQ.Running (DQ.D_delay2 val) ->
  DQ.ctxDone th = true -> is_Some (DQ.mutex (DQ.mem sys)) ->
  0 < Delay val (DQ.now (DQ.mem sys)) -> (3 <= length picks)%nat ->
  returns tid sys picks (DQ.RetDequeue zero (Some DQ.CtxErr)).
Proof.
  intros Hth Hst Hd Hk Hv Hl. destruct picks as [| p picks]; [cbn in Hl; lia |].
  assert (Hlt : (tid < length (DQ.threads sys))%nat) by by eapply lookup_lt_Some.
  cbn [length] in Hl.
  eapply returns_step; [done | done | | |].
  - cbn [DQ.step_frame]. by destruct (Z.ltb_spec 0 (Delay val (DQ.now (DQ.mem sys)))); [| lia].
  - done.
  - eapply D_unlock_continue_cancelled;
      [by apply list_lookup_insert_eq | done | done | done | lia].
Qed.

Lemma D_peek2_cancelled tid (sys : system) (th : thread) picks :
  DQ.threads sys !! tid = Some th -> DQ.state th = DQ.Running DQ.D_peek2 ->
  DQ.ctxDone th = true -> is_Some (DQ.mutex (DQ.mem sys)) ->
  none_ready (DQ.mem sys) -> (4 <= length picks)%nat ->
  returns tid sys picks (DQ.RetDequeue zero (Some DQ.CtxErr)).
Proof.
  intros Hth Hst Hd Hk Hnr Hl. destruct picks as [| p picks]; [cbn in Hl; lia |].
  assert (Hlt : (tid < length (DQ.threads sys))%nat) by by eapply lookup_lt_Some.
  cbn [length] in Hl.
  destruct (Peek_shape zero (DQ.q (DQ.mem sys)))
    as (v & e & Hp & [(-> & -> & Hem) | (-> & Hv & Hem)]).
  - eapply returns_step; [done | done | | |].
    + cbn [DQ.step_frame]. rewrite Hp. done.
    + done.
    + eapply D_unlock_continue_cancelled;
        [by apply list_lookup_insert_eq | done | done | done | lia].
  - eapply returns_step; [done | done | | |].
    + cbn [DQ.step_frame]. rewrite Hp. done.
    + done.
    + eapply D_delay2_cancelled;
        [by apply list_lookup_insert_eq | done | done | done | by apply Hnr | lia].
Qed.

Lemma D_lock2_cancelled tid (sys : system) (th : thread) picks :
  DQ.threads sys !! tid = Some th -> DQ.state th = DQ.Running DQ.D_lock2 ->
  DQ.ctxDone th = true -> DQ.mutex (DQ.mem sys) = None ->
  none_ready (DQ.mem sys) -> (5 <= length picks)%nat ->
  returns tid sys picks (DQ.RetDequeue zero (Some DQ.CtxErr)).
Proof.
  intros Hth Hst Hd Hk Hnr Hl. destruct picks as [| p picks]; [cbn in Hl; lia |].
  assert (Hlt : (tid < length (DQ.threads sys))%nat) by by eapply lookup_lt_Some.
  cbn [length] in Hl.
  eapply returns_step; [done | done | | |].
  - cbn [DQ.step_frame]. unfold DQ.Lock. rewrite Hk. done.
  - done.
  - eapply D_peek2_cancelled;
      [by apply list_lookup_insert_eq | done | done | by eexists | done | lia].
Qed.

Lemma D_select3_cancelled tid (sys : system) (th : thread) sg picks :
  DQ.threads sys !! tid = Some th -> DQ.state th = DQ.Running (DQ.D_select3 sg) ->
  DQ.ctxDone th = true -> DQ.mutex (DQ.mem sys) = None ->
  none_ready (DQ.mem sys) -> (6 <= length picks)%nat ->
  returns tid sys picks (DQ.RetDequeue zero (Some DQ.CtxErr)).
Proof.
  intros Hth Hst Hd Hk Hnr Hl. destruct picks as [| p picks]; [cbn in Hl; lia |].
  assert (Hlt : (tid < length (DQ.threads sys))%nat) by by eapply lookup_lt_Some.
  cbn [length] in Hl.
  destruct (select_done (fun c => match c with
                                  | DQ.CaseDone => DQ.ctxDone th
                                  | DQ.CaseTimer => match DQ.tmr th with
                                                    | Some t => DQ.C t
                                                    | None => false
                                                    end
                                  | DQ.CaseSignal => DQ.closed sg (DQ.mem sys)
                                  end) p Hd) as [c Hs].
  destruct c.
  - eapply returns_now; [done | done |]. cbn [DQ.step_frame]. by rewrite Hs.
  - eapply returns_step; [done | done | cbn [DQ.step_frame]; by rewrite Hs | done |].
    eapply D_lock2_cancelled;
      [by apply list_lookup_insert_eq | done | done | done | done | lia].
  - eapply returns_step; [done | done | cbn [DQ.step_frame]; by rewrite Hs | done |].
    eapply D_check_cancelled; [by apply list_lookup_insert_eq | done | done | lia].
Qed.

(** ** The events of a goroutine *)

Lemma events_of_elem tid (tr : list (nat * event)) e :
  e ∈ events_of tid tr -> (tid, e) ∈ tr.
Proof.
  unfold events_of. intros ([k e'] & -> & [Hk Hin]%list_elem_of_filter)%list_elem_of_fmap.
  cbn in Hk. by subst k.
Qed.

(** The events of [broadcast] among those of a goroutine. *)
Definition bcast_events (evs : list event) : list DQ.bcast_event :=
  omap (fun e => match e with DQ.EvBroadcast b => Some b | _ => None end) evs.

Lemma bcast_events_fmap (bevs : list DQ.bcast_event) :
  bcast_events (DQ.EvBroadcast <$> bevs) = bevs.
Proof.
  unfold bcast_events. induction bevs as [| b bevs IH]; [done |].
  cbn. by rewrite IH.
Qed.

Lemma bcast_events_hist e (bevs : list DQ.bcast_event) :
  heap_event e = true -> bcast_events (e :: (DQ.EvBroadcast <$> bevs)) = bevs.
Proof. intros He. destruct e; [| | done]; apply bcast_events_fmap. Qed.

(** A call of [broadcast] that no step of another goroutine interrupts,
    made with the mutex locked while the channel of the condition is
    open. *)
Lemma broadcast_alone w (s : shared) :
  is_Some (DQ.mutex s) -> DQ.chans s !! DQ.cond_signal w s = Some false ->
  let n := length (DQ.chans s) in
  let old := DQ.cond_signal w s in
  exists s',
    DQ.broadcast w s = Ok (s', [DQ.BMake n; DQ.BStore w n; DQ.BUnlock; DQ.BClose old]) /\
    DQ.chans s' = <[old := true]> (DQ.chans s ++ [false]) /\
    DQ.cond_signal w s' = n /\ n <> old /\
    DQ.chans s' !! n = Some false /\ DQ.chans s' !! old = Some true /\
    DQ.mutex s' = None /\ DQ.q s' = DQ.q s /\ DQ.now s' = DQ.now s /\
    (forall w', w' <> w -> DQ.cond_signal w' s' = DQ.cond_signal w' s).
Proof.
  intros [k Hk] Hopen n old.
  assert (Hlt : (old < n)%nat) by by eapply lookup_lt_Some.
  destruct s as [p mx d e ch nw]. cbn in Hk. subst mx.
  destruct w; cbn in *; unfold DQ.broadcast, DQ.close; cbn;
    rewrite (lookup_app_l_Some _ _ _ _ Hopen); cbn;
    (eexists; split; [done |]); cbn; split_and!; try done; try lia;
    try (rewrite list_lookup_insert_ne by lia; by apply list_lookup_middle);
    try (apply list_lookup_insert_eq; rewrite length_app; cbn; lia);
    by intros [].
Qed.

End DQFacts.

(** ** What the calls of the delay queue do to the heap *)

Section DQHeap.
Context {T : Type} (zero : T) (Delay : T -> Z -> Z) (growslice : Z -> Z -> Z).

Local Abbreviation shared := (DQ.shared T).
Local Abbreviation frame := (DQ.frame T).
Local Abbreviation thread := (DQ.thread T).
Local Abbreviation system := (DQ.system T).
Local Abbreviation event := (DQ.event T).
Local Abbreviation step := (DQ.step zero Delay growslice).
Local Abbreviation run := (DQ.run zero Delay growslice).

(** The elements the events put in the heap, and those they take out. *)
Definition inserted (evs : list event) : list T :=
  omap (fun e => match e with DQ.EvInsert t => Some t | _ => None end) evs.

Definition removed (evs : list event) : list T :=
  omap (fun e => match e with DQ.EvRemove v _ => Some v | _ => None end) evs.

Lemma inserted_app evs1 evs2 : inserted (evs1 ++ evs2) = inserted evs1 ++ inserted evs2.
Proof. apply omap_app. Qed.

Lemma removed_app evs1 evs2 : removed (evs1 ++ evs2) = removed evs1 ++ removed evs2.
Proof. apply omap_app. Qed.

Lemma inserted_broadcast (bevs : list DQ.bcast_event) :
  inserted (DQ.EvBroadcast <$> bevs) = [].
Proof. unfold inserted. by induction bevs. Qed.

Lemma removed_broadcast (bevs : list DQ.bcast_event) :
  removed (DQ.EvBroadcast <$> bevs) = [].
Proof. unfold removed. by induction bevs. Qed.

Lemma step_broadcast_now w pc (s s' : shared) pc' evs :
  DQ.step_broadcast w pc s = Ok (pc', s', evs) -> DQ.now s' = DQ.now s.
Proof.
  destruct pc; cbn; try by intros [= <- <- <-].
  - intros [= <- <- <-]. by destruct w.
  - unfold DQ.Unlock. destruct (DQ.mutex s); cbn; [| done]. by intros [= <- <- <-].
  - unfold DQ.close. destruct (DQ.chans s !! old) as [[|] |]; cbn; try done.
    by intros [= <- <- <-].
Qed.

(** A step of a call leaves the clock alone, and either leaves the
    priority queue as it is and makes no event of the heap, or is the
    successful call of [q.Enqueue] of an [Enqueue], or the successful call
    of [q.Dequeue] of a [Dequeue]. *)
Definition heap_step (s s' : shared) (evs : list event) : Prop :=
  (DQ.q s' = DQ.q s /\ inserted evs = [] /\ removed evs = []) \/
  (exists t, evs = [DQ.EvInsert t] /\
     PQ.Enqueue (DQ.compare Delay (DQ.now s)) growslice (DQ.q s) t = Ok (DQ.q s', None)) \/
  (exists v, evs = [DQ.EvRemove v (DQ.now s)] /\
     PQ.Dequeue zero (DQ.compare Delay (DQ.now s)) growslice (DQ.q s) =
       Ok (DQ.q s', (v, None))).

Lemma step_frame_heap tid d tm pick f (s s' : shared) nf tm' evs :
  DQ.step_frame zero Delay growslice tid d tm pick f s = Ok (nf, tm', s', evs) ->
  DQ.now s' = DQ.now s /\ heap_step s s' evs.
Proof.
  unfold heap_step.
  destruct f; cbn [DQ.step_frame].
  - destruct d; intros [= <- <- <- <-]; auto.
  - unfold DQ.Lock. destruct (DQ.mutex s); intros [= <- <- <- <-]; auto.
  - destruct (PQ.Enqueue _ _ _ _) as [[p [e |]] | |] eqn:He;
      cbn [mbind result_bind Go.bind]; try done.
    + apply (Enqueue_err_same growslice) in He as ->.
      destruct e; intros [= <- <- <- <-]; auto.
    + intros [= <- <- <- <-]. split; [done |]. right; left. by exists t.
  - destruct (DQ.step_broadcast _ _ _) as [[[pc' s1] evs1] | |] eqn:Hb;
      cbn [mbind result_bind Go.bind]; try done.
    intros [= <- <- <- <-]. split; [by eapply step_broadcast_now |]. left.
    split_and!; [by eapply step_broadcast_q | apply inserted_broadcast
                | apply removed_broadcast].
  - intros [= <- <- <- <-]; auto.
  - unfold DQ.Unlock. destruct (DQ.mutex s); cbn; [| done]. intros [= <- <- <- <-]; auto.
  - destruct (DQ.select _ _) as [[| |] |]; intros [= <- <- <- <-]; auto.
  - unfold DQ.Unlock. destruct (DQ.mutex s); cbn; [| done]. intros [= <- <- <- <-]; auto.
  - destruct d; intros [= <- <- <- <-]; auto.
  - unfold DQ.Lock. destruct (DQ.mutex s); intros [= <- <- <- <-]; auto.
  - destruct (PQ.Peek _ _) as [[p [v e]] | |] eqn:He;
      cbn [mbind result_bind Go.bind]; try done.
    apply Peek_same in He as ->. destruct e as [[|] |]; intros [= <- <- <- <-]; auto.
  - destruct (_ <=? _); intros [= <- <- <- <-]; auto.
  - unfold DQ.dequeue_step.
    destruct (PQ.Dequeue _ _ _ _) as [[p [v [e |]]] | |] eqn:He;
      cbn [mbind result_bind Go.bind]; try done.
    + apply (Dequeue_err_same zero growslice) in He as ->. intros [= <- <- <- <-]; auto.
    + intros [= <- <- <- <-]. split; [done |]. right; right. exists v. auto.
  - destruct (DQ.step_broadcast _ _ _) as [[[pc' s1] evs1] | |] eqn:Hb;
      cbn [mbind result_bind Go.bind]; try done.
    intros [= <- <- <- <-]. split; [by eapply step_broadcast_now |]. left.
    split_and!; [by eapply step_broadcast_q | apply inserted_broadcast
                | apply removed_broadcast].
  - intros [= <- <- <- <-]; auto.
  - unfold DQ.Unlock. destruct (DQ.mutex s); cbn; [| done]. intros [= <- <- <- <-]; auto.
  - intros [= <- <- <- <-]; auto.
  - destruct (DQ.select _ _) as [[| |] |]; intros [= <- <- <- <-]; auto.
  - unfold DQ.Lock. destruct (DQ.mutex s); intros [= <- <- <- <-]; auto.
  - destruct (PQ.Peek _ _) as [[p [v e]] | |] eqn:He;
      cbn [mbind result_bind Go.bind]; try done.
    apply Peek_same in He as ->. destruct e; intros [= <- <- <- <-]; auto.
  - destruct (_ <? _); intros [= <- <- <- <-]; auto.
  - unfold DQ.Unlock. destruct (DQ.mutex s); cbn; [| done]. intros [= <- <- <- <-]; auto.
  - unfold DQ.dequeue_step.
    destruct (PQ.Dequeue _ _ _ _) as [[p [v [e |]]] | |] eqn:He;
      cbn [mbind result_bind Go.bind]; try done.
    + apply (Dequeue_err_same zero growslice) in He as ->. intros [= <- <- <- <-]; auto.
    + intros [= <- <- <- <-]. split; [done |]. right; right. exists v. auto.
  - destruct (DQ.select _ _) as [[| |] |]; intros [= <- <- <- <-]; auto.
  - unfold DQ.Unlock. destruct (DQ.mutex s); cbn; [| done]. intros [= <- <- <- <-]; auto.
Qed.


Lemma step_heap a (sys sys' : system) tr1 :
  step a sys = Ok (sys', tr1) ->
  heap_step (DQ.mem sys) (DQ.mem sys') tr1.*2 /\
  (DQ.now (DQ.mem sys') = DQ.now (DQ.mem sys) \/
   (tr1 = [] /\ DQ.now (DQ.mem sys) <= DQ.now (DQ.mem sys'))).
Proof.
  destruct a as [tid pick | dt | tid | tid]; cbn [DQ.step].
  - destruct (DQ.threads sys !! tid) as [th |];
      [| intros [= <- <-]; split; [by left | by left]].
    destruct (DQ.state th) as [f | r];
      [| intros [= <- <-]; split; [by left | by left]].
    destruct (DQ.step_frame _ _ _ _ _ _ _ _ _) as [[[[nf tm] s'] evs'] | |] eqn:Hf;
      cbn [mbind result_bind Go.bind]; try done.
    intros [= <- <-]. cbn [DQ.mem].
    apply step_frame_heap in Hf as [Hn Hh].
    replace ((pair tid <$> evs').*2) with evs'; [by auto |].
    clear. induction evs' as [| e evs IH]; [done |]. cbn. by rewrite <- IH.
  - intros [= <- <-]. cbn. split; [by left |]. right. split; [done | lia].
  - intros [= <- <-]. split; [by left | by left].
  - intros [= <- <-]. split; [by left | by left].
Qed.

Context `{!GrowsliceSpec growslice}.

(** What goes in comes out or is held: the elements held before a step
    and those it puts in are those it takes out and those held after it. *)
Lemma heap_step_conserve (s s' : shared) evs :
  wf (DQ.q s) -> Z.of_nat (length (backing (DQ.q s))) < Go.int_max ->
  heap_step s s' evs ->
  PQ.capacity (DQ.q s') = PQ.capacity (DQ.q s) /\
  held (DQ.q s) ++ inserted evs ≡ₚ removed evs ++ held (DQ.q s') /\
  (within_cap (DQ.q s) -> within_cap (DQ.q s')).
Proof.
  intros Hwf Hlen [(-> & -> & ->) | [(t & -> & He) | (v & -> & Hd)]].
  - by rewrite app_nil_r.
  - destruct (Enqueue_shape (DQ.compare Delay (DQ.now s)) growslice (DQ.q s) t Hwf Hlen)
      as (p' & e & He' & _ & Hc & [(-> & _) | (_ & Hfull & Hl & Hp & _)]);
      rewrite He in He'; injection He' as <-; [done |].
    split_and!; [done | by rewrite Hp |].
    unfold within_cap, PQ.IsBoundless, PQ.Len, PQ.Cap, PQ.isFull, backing, Go.len in *.
    rewrite Hc. intros Hw Hb. specialize (Hw Hb).
    apply Z.leb_gt in Hb. apply andb_false_iff in Hfull as [Hf | Hf].
    + apply Z.ltb_ge in Hf. lia.
    + apply Z.eqb_neq in Hf. lia.
  - destruct (Dequeue_shape zero (DQ.compare Delay (DQ.now s)) growslice (DQ.q s) Hwf)
      as (p' & v' & e & Hd' & _ & Hc & Hl & [(-> & _) | (_ & _ & Hp & _)]);
      rewrite Hd in Hd'; injection Hd' as <- <-; [done |].
    split_and!; [done | by rewrite app_nil_r, Hp |].
    unfold within_cap, PQ.IsBoundless, PQ.Len, PQ.Cap, backing, Go.len in *.
    rewrite Hc. intros Hw Hb. specialize (Hw Hb). lia.
Qed.

Context (calls : list (DQ.op T)).

Lemma run_conserve sched : forall (sys : system) n tr,
  DInv zero Delay calls sys n tr -> Z.of_nat (n + length sched) + 2 < Go.int_max ->
  forall sys' tr', run sched sys = Ok (sys', tr') ->
  PQ.capacity (DQ.q (DQ.mem sys')) = PQ.capacity (DQ.q (DQ.mem sys)) /\
  held (DQ.q (DQ.mem sys)) ++ inserted tr'.*2 ≡ₚ removed tr'.*2 ++ held (DQ.q (DQ.mem sys')) /\
  (within_cap (DQ.q (DQ.mem sys)) -> within_cap (DQ.q (DQ.mem sys'))).
Proof.
  induction sched as [| a sched IH]; intros sys n tr HI Hn sys' tr'; cbn [DQ.run].
  - intros [= <- <-]. cbn. by rewrite app_nil_r.
  - cbn [length] in Hn.
    destruct (step_DInv zero Delay growslice calls a sys n tr HI ltac:(lia))
      as (sys1 & evs1 & Hstep & HI1).
    rewrite Hstep. cbn [mbind result_bind Go.bind].
    destruct (run sched sys1) as [[sys2 evs2] | |] eqn:Hrun;
      cbn [mbind result_bind Go.bind]; try done.
    intros [= <- <-].
    destruct (IH sys1 (S n) _ HI1 ltac:(lia) _ _ Hrun) as (Hc2 & Hp2 & Hw2).
    destruct (step_heap a sys sys1 evs1 Hstep) as [Hh _].
    destruct (heap_step_conserve _ _ _ (dinv_wf _ _ _ _ _ _ HI) ltac:(pose proof (dinv_len _ _ _ _ _ _ HI); lia) Hh)
      as (Hc1 & Hp1 & Hw1).
    split_and!; [congruence | | tauto].
    rewrite fmap_app, inserted_app, removed_app.
    rewrite (assoc_L (++)), Hp1, <- (assoc_L (++)), Hp2.
    rewrite !(assoc_L (++)). done.
Qed.

End DQHeap.

(** ** No broadcast is missed *)

Section DQWake.
Context {T : Type} (zero : T) (Delay : T -> Z -> Z) (growslice : Z -> Z -> Z).
Context `{!GrowsliceSpec growslice}.
Context (calls : list (DQ.op T)).

Local Abbreviation shared := (DQ.shared T).
Local Abbreviation frame := (DQ.frame T).
Local Abbreviation thread := (DQ.thread T).
Local Abbreviation system := (DQ.system T).
Local Abbreviation event := (DQ.event T).
Local Abbreviation step := (DQ.step zero Delay growslice).
Local Abbreviation run := (DQ.run zero Delay growslice).

(** The condition and the channel a call has got from [signalCh] and
    waits on, or is about to wait on. *)
Definition waits (f : frame) : option (DQ.which * nat) :=
  match f with
  | DQ.E_signalCh_unlock _ sg | DQ.E_select _ sg => Some (DQ.DequeueSignal, sg)
  | DQ.D_signalCh_unlock _ sg | DQ.D_timer _ sg | DQ.D_select3 sg | DQ.D_select2 sg =>
      Some (DQ.EnqueueSignal, sg)
  | _ => None
  end.

(** The condition and the channel a call of [broadcast] has replaced and
    not closed yet. *)
Definition closing_bcast (pc : DQ.bcast_pc) : option nat :=
  match pc with
  | DQ.B_unlock old | DQ.B_close old => Some old
  | _ => None
  end.

Definition closing (f : frame) : option (DQ.which * nat) :=
  match f with
  | DQ.E_broadcast pc => pair DQ.EnqueueSignal <$> closing_bcast pc
  | DQ.D_broadcast _ _ pc => pair DQ.DequeueSignal <$> closing_bcast pc
  | _ => None
  end.

(** The channel [sg] got from condition [w] is still the channel of the
    condition, so that the next [broadcast] closes it, or it is closed, or
    a goroutine that runs [broadcast] has replaced it and closes it at its
    next step or the one after. *)
Definition woken (sys : system) (w : DQ.which) (sg : nat) : Prop :=
  sg = DQ.cond_signal w (DQ.mem sys) \/
  DQ.chans (DQ.mem sys) !! sg = Some true \/
  exists j thj f, DQ.threads sys !! j = Some thj /\ DQ.state thj = DQ.Running f /\
                  closing f = Some (w, sg).

Definition Wake (sys : system) : Prop :=
  forall i thi f w sg,
    DQ.threads sys !! i = Some thi -> DQ.state thi = DQ.Running f ->
    waits f = Some (w, sg) -> woken sys w sg.

Local Ltac fin :=
  split_and!; cbn;
  [ try done; auto
  | intros []; by left
  | try done
  | let Hnf := fresh in let Hw := fresh in
    intros ? ? ? Hnf Hw; simplify_eq/=; auto
  | try done ].

Lemma step_frame_signal tid d tm pick f (s s' : shared) nf tm' evs :
  locals_inv Delay s f ->
  DQ.step_frame zero Delay growslice tid d tm pick f s = Ok (nf, tm', s', evs) ->
  (forall c, DQ.chans s !! c = Some true -> DQ.chans s' !! c = Some true) /\
  (forall w, DQ.cond_signal w s' = DQ.cond_signal w s \/
             exists f', nf = DQ.Continue f' /\ closing f' = Some (w, DQ.cond_signal w s)) /\
  (forall w c, closing f = Some (w, c) ->
               (exists f', nf = DQ.Continue f' /\ closing f' = Some (w, c)) \/
               DQ.chans s' !! c = Some true) /\
  (forall f' w sg, nf = DQ.Continue f' -> waits f' = Some (w, sg) ->
                   waits f = Some (w, sg) \/ sg = DQ.cond_signal w s') /\
  (nf = DQ.Blocked -> s' = s).
Proof.
  intros Hfi.
  assert (Hb : forall w pc pc' s1 evs1,
    match pc with DQ.B_store _ old => old = DQ.cond_signal w s | _ => True end ->
    DQ.step_broadcast w pc s = Ok (pc', s1, evs1) ->
    (forall c, DQ.chans s !! c = Some true -> DQ.chans s1 !! c = Some true) /\
    (forall w', DQ.cond_signal w' s1 = DQ.cond_signal w' s \/
                exists pc1, pc' = Some pc1 /\ w' = w /\
                            closing_bcast pc1 = Some (DQ.cond_signal w' s)) /\
    (forall c, closing_bcast pc = Some c ->
               (exists pc1, pc' = Some pc1 /\ closing_bcast pc1 = Some c) \/
               DQ.chans s1 !! c = Some true)).
  { intros w pc pc' s1 evs1 Hold. destruct pc; cbn [DQ.step_broadcast].
    - intros [= <- <- <-]. split_and!; cbn; [| by left | done].
      intros c Hc. by apply lookup_app_l_Some.
    - intros [= <- <- <-]. split_and!; cbn; [done | by left | done].
    - intros [= <- <- <-]. subst old. split_and!; [by destruct w | | done].
      intros w'. destruct w, w'; cbn; try (by left); right; by eexists.
    - unfold DQ.Unlock. destruct (DQ.mutex s); cbn; [| done]. intros [= <- <- <-].
      split_and!; cbn; [done | by left |]. intros c [= <-]. left. by eexists.
    - unfold DQ.close. destruct (DQ.chans s !! old) as [[|] |] eqn:Ho; cbn; try done.
      intros [= <- <- <-]. split_and!; cbn; [| by left |].
      + intros c Hc. destruct (decide (c = old)) as [-> | Hne]; [congruence |].
        by rewrite list_lookup_insert_ne.
      + intros c [= <-]. right. apply list_lookup_insert_eq. by eapply lookup_lt_Some. }
  destruct f; cbn [DQ.step_frame].
  - destruct d; intros [= <- <- <- <-]; fin.
  - unfold DQ.Lock. destruct (DQ.mutex s); intros [= <- <- <- <-]; fin.
  - destruct (PQ.Enqueue _ _ _ _) as [[p [[|] |]] | |];
      cbn [mbind result_bind Go.bind]; try done; intros [= <- <- <- <-]; fin.
  - destruct (DQ.step_broadcast _ _ _) as [[[pc' s1] evs1] | |] eqn:Hsb;
      cbn [mbind result_bind Go.bind]; try done.
    intros [= <- <- <- <-].
    destruct (Hb DQ.EnqueueSignal pc pc' s1 evs1) as (H1 & H2 & H3); [by destruct pc | done |].
    split_and!; [done | | | |].
    + intros w. destruct (H2 w) as [? | (pc1 & -> & -> & Hc)]; [by left |].
      right. eexists. split; [done |]. cbn. by rewrite Hc.
    + intros w c. cbn. intros Hc.
      destruct (closing_bcast pc) as [c0 |] eqn:Hc0; [| done]. cbn in Hc.
      injection Hc as <- <-.
      destruct (H3 c0 eq_refl) as [(pc1 & -> & Hc1) | ?]; [| by right].
      left. eexists. split; [done |]. cbn. by rewrite Hc1.
    + intros f' w sg Hnf Hw. destruct pc'; simplify_eq/=.
    + by destruct pc'.
  - intros [= <- <- <- <-]; fin.
  - unfold DQ.Unlock. destruct (DQ.mutex s); cbn; [| done]. intros [= <- <- <- <-]; fin.
  - destruct (DQ.select _ _) as [[| |] |]; intros [= <- <- <- <-]; fin.
  - unfold DQ.Unlock. destruct (DQ.mutex s); cbn; [| done]. intros [= <- <- <- <-]; fin.
  - destruct d; intros [= <- <- <- <-]; fin.
  - unfold DQ.Lock. destruct (DQ.mutex s); intros [= <- <- <- <-]; fin.
  - destruct (PQ.Peek _ _) as [[p [v [[|] |]]] | |];
      cbn [mbind result_bind Go.bind]; try done; intros [= <- <- <- <-]; fin.
  - destruct (_ <=? _); intros [= <- <- <- <-]; fin.
  - unfold DQ.dequeue_step.
    destruct (PQ.Dequeue _ _ _ _) as [[p [v e]] | |];
      cbn [mbind result_bind Go.bind]; try done; intros [= <- <- <- <-]; fin.
  - destruct (DQ.step_broadcast _ _ _) as [[[pc' s1] evs1] | |] eqn:Hsb;
      cbn [mbind result_bind Go.bind]; try done.
    intros [= <- <- <- <-].
    destruct (Hb DQ.DequeueSignal pc pc' s1 evs1) as (H1 & H2 & H3);
      [destruct Hfi as [_ Hfi]; by destruct pc | done |].
    split_and!; [done | | | |].
    + intros w. destruct (H2 w) as [? | (pc1 & -> & -> & Hc)]; [by left |].
      right. eexists. split; [done |]. cbn. by rewrite Hc.
    + intros w c. cbn. intros Hc.
      destruct (closing_bcast pc) as [c0 |] eqn:Hc0; [| done]. cbn in Hc.
      injection Hc as <- <-.
      destruct (H3 c0 eq_refl) as [(pc1 & -> & Hc1) | ?]; [| by right].
      left. eexists. split; [done |]. cbn. by rewrite Hc1.
    + intros f' w sg Hnf Hw. destruct pc'; simplify_eq/=.
    + by destruct pc'.
  - intros [= <- <- <- <-]; fin.
  - unfold DQ.Unlock. destruct (DQ.mutex s); cbn; [| done].
    intros [= <- <- <- <-]; destruct delay; fin.
  - intros [= <- <- <- <-]; fin.
  - destruct (DQ.select _ _) as [[| |] |]; intros [= <- <- <- <-]; fin.
  - unfold DQ.Lock. destruct (DQ.mutex s); intros [= <- <- <- <-]; fin.
  - destruct (PQ.Peek _ _) as [[p [v [e |]]] | |];
      cbn [mbind result_bind Go.bind]; try done; intros [= <- <- <- <-]; fin.
  - destruct (_ <? _); intros [= <- <- <- <-]; fin.
  - unfold DQ.Unlock. destruct (DQ.mutex s); cbn; [| done]. intros [= <- <- <- <-]; fin.
  - unfold DQ.dequeue_step.
    destruct (PQ.Dequeue _ _ _ _) as [[p [v e]] | |];
      cbn [mbind result_bind Go.bind]; try done; intros [= <- <- <- <-]; fin.
  - destruct (DQ.select _ _) as [[| |] |]; intros [= <- <- <- <-]; fin.
  - unfold DQ.Unlock. destruct (DQ.mutex s); cbn; [| done]. intros [= <- <- <- <-]; fin.
Qed.

Lemma Wake_env (sys sys' : system) :
  Wake sys ->
  DQ.dequeueSignal (DQ.mem sys') = DQ.dequeueSignal (DQ.mem sys) ->
  DQ.enqueueSignal (DQ.mem sys') = DQ.enqueueSignal (DQ.mem sys) ->
  DQ.chans (DQ.mem sys') = DQ.chans (DQ.mem sys) ->
  same_calls (DQ.threads sys) (DQ.threads sys') ->
  Wake sys'.
Proof.
  intros HW Hd He Hc Hths.
  assert (Hback : forall k th', DQ.threads sys' !! k = Some th' ->
            exists th, DQ.threads sys !! k = Some th /\ DQ.state th = DQ.state th').
  { intros k th' Hk. pose proof (Hths k) as Hs. rewrite Hk in Hs.
    destruct (DQ.threads sys !! k) as [th |]; [| done]. exists th. by destruct Hs. }
  intros i thi' f w sg Hi Hf Hw.
  destruct (Hback i thi' Hi) as (thi & Hthi & Hsi).
  destruct (HW i thi f w sg Hthi ltac:(congruence) Hw) as [-> | [Hcl | (j & thj & fj & Hj & Hfj & Hcj)]].
  - left. by destruct w.
  - right; left. by rewrite Hc.
  - right; right. pose proof (Hths j) as Hs. rewrite Hj in Hs.
    destruct (DQ.threads sys' !! j) as [thj' |] eqn:Hj'; [| done].
    exists j, thj', fj. destruct Hs as [Hs _]. split_and!; [done | congruence | done].
Qed.

(** The steps keep it: no goroutine waits on a channel that no
    [broadcast] will close. *)
Lemma step_Wake a (sys : system) n tr sys' evs :
  DInv zero Delay calls sys n tr -> Wake sys ->
  step a sys = Ok (sys', evs) -> Wake sys'.
Proof.
  intros HI HW. destruct a as [tid pick | dt | tid | tid]; cbn [DQ.step].
  - destruct (DQ.threads sys !! tid) as [th |] eqn:Hth; [| by intros [= <- <-]].
    destruct (DQ.state th) as [f | r] eqn:Hst; [| by intros [= <- <-]].
    destruct (DQ.step_frame _ _ _ _ _ _ _ _ _) as [[[[nf tm] s'] evs'] | |] eqn:Hf;
      cbn [mbind result_bind Go.bind]; try done.
    intros [= <- <-].
    destruct (step_frame_signal _ _ _ _ _ _ _ _ _ _
                (dinv_frames _ _ _ _ _ _ HI tid th f Hth Hst) Hf)
      as (Hcl & Hsig & Hclosing & Hwaits & Hblocked).
    assert (Hlt : (tid < length (DQ.threads sys))%nat) by by eapply lookup_lt_Some.
    set (th' := match nf with
                | DQ.Continue f' => DQ.mkThread (DQ.Running f') (DQ.ctxDone th) tm
                | DQ.Return r => DQ.mkThread (DQ.Returned r) (DQ.ctxDone th) (DQ.stop tm)
                | DQ.Blocked => th
                end).
    assert (Hkeep : forall w sg, woken sys w sg ->
              woken (DQ.mkSystem s' (<[tid := th']> (DQ.threads sys))) w sg).
    { intros w sg [-> | [Hc | (j & thj & fj & Hj & Hfj & Hcj)]]; unfold woken; cbn [DQ.mem DQ.threads].
      - destruct (Hsig w) as [Heq | (f' & -> & Hc)]; [by left |].
        right; right. exists tid, th', f'. split_and!; [by apply list_lookup_insert_eq | done | done].
      - right; left. by apply Hcl.
      - destruct (decide (j = tid)) as [-> | Hne].
        + rewrite Hth in Hj. injection Hj as <-. rewrite Hst in Hfj. injection Hfj as <-.
          destruct (Hclosing w sg Hcj) as [(f' & -> & Hc) | Hc]; [| by right; left].
          right; right. exists tid, th', f'.
          split_and!; [by apply list_lookup_insert_eq | done | done].
        + right; right. exists j, thj, fj. by rewrite list_lookup_insert_ne. }
    intros i thi fi w sg Hi Hfi Hw. cbn [DQ.threads] in Hi.
    apply list_lookup_insert_Some in Hi as [(-> & <- & _) | [Hne Hi]].
    + destruct nf as [f' | r |]; subst th'; cbn in Hfi.
      * injection Hfi as <-.
        destruct (Hwaits f' w sg eq_refl Hw) as [Hwf | ->].
        -- apply Hkeep. by apply (HW i th f).
        -- by left.
      * done.
      * apply Hkeep. by apply (HW i th fi).
    + apply Hkeep. by apply (HW i thi fi).
  - intros [= <- <-]. apply (Wake_env sys); try done. apply same_calls_refl.
  - intros [= <- <-]. apply (Wake_env sys); try done. by apply same_calls_alter.
  - intros [= <- <-]. apply (Wake_env sys); try done.
    apply same_calls_alter. intros th. destruct (DQ.tmr th) as [t |]; [| done].
    by destruct (_ && _).
Qed.

Lemma run_Wake sched : forall (sys : system) n tr,
  DInv zero Delay calls sys n tr -> Z.of_nat (n + length sched) + 2 < Go.int_max ->
  Wake sys ->
  forall sys' tr', run sched sys = Ok (sys', tr') -> Wake sys'.
Proof.
  induction sched as [| a sched IH]; intros sys n tr HI Hn HW sys' tr'; cbn [DQ.run].
  - by intros [= <- <-].
  - cbn [length] in Hn.
    destruct (step_DInv zero Delay growslice calls a sys n tr HI ltac:(lia))
      as (sys1 & evs1 & Hstep & HI1).
    rewrite Hstep. cbn [mbind result_bind Go.bind].
    destruct (run sched sys1) as [[sys2 evs2] | |] eqn:Hrun;
      cbn [mbind result_bind Go.bind]; try done.
    intros [= <- <-].
    apply (IH sys1 (S n) _ HI1 ltac:(lia)) with evs2; [| done].
    exact (step_Wake a sys n tr sys1 evs1 HI HW Hstep).
Qed.

Lemma Wake_init c t0 sys0 : DQ.init zero c t0 calls = Ok sys0 -> Wake sys0.
Proof.
  unfold DQ.init, DQ.NewDelayQueue.
  destruct (PQ.NewPriorityQueue zero c) as [p | |]; [| done | done].
  cbn [mbind result_bind Go.bind]. intros [= <-].
  intros i thi f w sg Hi Hf Hw. cbn [DQ.threads] in Hi.
  apply list_lookup_fmap_Some in Hi as (o & -> & _). cbn in Hf.
  injection Hf as <-. by destruct o.
Qed.

End DQWake.

(** ** Calls of the delay queue that run alone *)

Section DQSolo.
Context {T : Type} (zero : T) (Delay : T -> Z -> Z) (growslice : Z -> Z -> Z).
Context `{!GrowsliceSpec growslice}.

Local Abbreviation shared := (DQ.shared T).
Local Abbreviation frame := (DQ.frame T).
Local Abbreviation thread := (DQ.thread T).
Local Abbreviation system := (DQ.system T).
Local Abbreviation event := (DQ.event T).
Local Abbreviation step := (DQ.step zero Delay growslice).
Local Abbreviation run := (DQ.run zero Delay growslice).

(** The call of goroutine [tid] returns [r] when the goroutine takes the
    steps of [picks]: the steps make the events [evs] and lead to [sys'],
    where the other goroutines are as they were. *)
Definition finishes (tid : nat) (sys : system) (picks : list DQ.select_case)
    (r : DQ.retval T) (evs : list event) (sys' : system) : Prop :=
  exists th',
    run (DQ.Step tid <$> picks) sys = Ok (sys', fmap (M := list) (pair tid) evs) /\
    DQ.threads sys' !! tid = Some th' /\ DQ.state th' = DQ.Returned r /\
    forall j, j <> tid -> DQ.threads sys' !! j = DQ.threads sys !! j.

Lemma finishes_step tid (sys : system) (th : thread) f p picks nf tm s' evs1 r evs2 evs sys' :
  DQ.threads sys !! tid = Some th -> DQ.state th = DQ.Running f ->
  DQ.step_frame zero Delay growslice tid (DQ.ctxDone th) (DQ.tmr th) p f (DQ.mem sys)
    = Ok (nf, tm, s', evs1) ->
  finishes tid (DQ.mkSystem s' (<[tid := after th nf tm]> (DQ.threads sys))) picks r evs2 sys' ->
  evs = evs1 ++ evs2 ->
  finishes tid sys (p :: picks) r evs sys'.
Proof.
  intros Hth Hst Hf (th' & Hrun & Hth' & Hst' & Hoth) ->.
  exists th'. split_and!; try done.
  - cbn [fmap list_fmap DQ.run].
    rewrite (step_at zero Delay growslice sys tid th f p _ _ _ _ Hth Hst Hf).
    cbn [mbind result_bind Go.bind]. fold (fmap (M := list) (DQ.Step tid) picks).
    rewrite Hrun. cbn [mbind result_bind Go.bind]. by rewrite fmap_app.
  - intros j Hj. rewrite (Hoth j Hj). cbn [DQ.threads]. by rewrite list_lookup_insert_ne.
Qed.

Lemma finishes_now tid (sys : system) (th : thread) f p tm s' evs r :
  DQ.threads sys !! tid = Some th -> DQ.state th = DQ.Running f ->
  DQ.step_frame zero Delay growslice tid (DQ.ctxDone th) (DQ.tmr th) p f (DQ.mem sys)
    = Ok (DQ.Return r, tm, s', evs) ->
  finishes tid sys [p] r evs
    (DQ.mkSystem s' (<[tid := after th (DQ.Return r) tm]> (DQ.threads sys))).
Proof.
  intros Hth Hst Hf.
  assert (Hlt : (tid < length (DQ.threads sys))%nat) by by eapply lookup_lt_Some.
  eexists. split_and!.
  - cbn [fmap list_fmap DQ.run].
    rewrite (step_at zero Delay growslice sys tid th f p _ _ _ _ Hth Hst Hf).
    cbn [mbind result_bind Go.bind]. by rewrite app_nil_r.
  - cbn [DQ.threads]. by apply list_lookup_insert_eq.
  - done.
  - intros j Hj. cbn [DQ.threads]. by rewrite list_lookup_insert_ne.
Qed.

(** The five steps of a call of [broadcast], made with the mutex locked
    while the channel of the condition is open, by a goroutine whose
    statements are those of [mk] and that returns [r] afterwards. *)
Lemma broadcast_finishes w (mk : DQ.bcast_pc -> frame) r tid (sys : system) (th : thread)
    picks :
  (forall pc d tm p s,
     DQ.step_frame zero Delay growslice tid d tm p (mk pc) s =
       '(pc', s', evs) ← DQ.step_broadcast w pc s;
       Ok (match pc' with
           | Some pc1 => DQ.Continue (mk pc1)
           | None => DQ.Return r
           end, tm, s', fmap (M := list) DQ.EvBroadcast evs)) ->
  DQ.threads sys !! tid = Some th -> DQ.state th = DQ.Running (mk DQ.B_make) ->
  is_Some (DQ.mutex (DQ.mem sys)) ->
  DQ.chans (DQ.mem sys) !! DQ.cond_signal w (DQ.mem sys) = Some false ->
  length picks = 5%nat ->
  exists s' bevs ths',
    DQ.broadcast w (DQ.mem sys) = Ok (s', bevs) /\
    finishes tid sys picks r (DQ.EvBroadcast <$> bevs) (DQ.mkSystem s' ths').
Proof.
  intros Hmk Hth Hst [m Hm] Hopen Hl.
  assert (Hlt : (tid < length (DQ.threads sys))%nat) by by eapply lookup_lt_Some.
  destruct picks as [| p1 [| p2 [| p3 [| p4 [| p5 [| ? ?]]]]]]; try done.
  destruct sys as [s ths]. destruct s as [p mx d e ch nw]. cbn in Hm, Hopen, Hth, Hlt.
  subst mx.
  exists (DQ.set_chans (<[DQ.cond_signal w (DQ.mkShared p (Some m) d e ch nw) := true]>
                          (ch ++ [false]))
            (DQ.set_mutex None
               (DQ.set_signal w (length ch) (DQ.mkShared p (Some m) d e ch nw)))),
    [DQ.BMake (length ch); DQ.BStore w (length ch); DQ.BUnlock;
     DQ.BClose (DQ.cond_signal w (DQ.mkShared p (Some m) d e ch nw))].
  destruct w; cbn [DQ.cond_signal DQ.dequeueSignal DQ.enqueueSignal] in *.
  all: eexists; split;
    [ unfold DQ.broadcast; cbn; unfold DQ.close; cbn;
      rewrite (lookup_app_l_Some _ _ _ _ Hopen); cbn; reflexivity |].
  all: eapply finishes_step;
         [exact Hth | exact Hst | rewrite Hmk; cbn; reflexivity | | reflexivity].
  all: eapply finishes_step;
         [ cbn; by apply list_lookup_insert_eq | reflexivity
         | rewrite Hmk; cbn; reflexivity | | reflexivity].
  all: eapply finishes_step;
         [ cbn; apply list_lookup_insert_eq; by rewrite length_insert | reflexivity
         | rewrite Hmk; cbn; reflexivity | | reflexivity].
  all: eapply finishes_step;
         [ cbn; apply list_lookup_insert_eq; by rewrite !length_insert | reflexivity
         | rewrite Hmk; cbn; reflexivity | | reflexivity].
  all: eapply finishes_now;
         [ cbn; apply list_lookup_insert_eq; by rewrite !length_insert | reflexivity |].
  all: rewrite Hmk; cbn; unfold DQ.close; cbn;
    rewrite (lookup_app_l_Some _ _ _ _ Hopen); cbn; reflexivity.
Qed.

(** An [Enqueue] that runs alone from its first statement, while the
    mutex is unlocked and the queue has room. *)
Lemma Enqueue_runs_alone tid (sys : system) (th : thread) t picks :
  let s := DQ.mem sys in
  DQ.threads sys !! tid = Some th -> DQ.state th = DQ.Running (DQ.E_check t) ->
  DQ.ctxDone th = false -> DQ.mutex s = None ->
  wf (DQ.q s) -> Z.of_nat (length (backing (DQ.q s))) < Go.int_max ->
  PQ.isFull (DQ.q s) = false ->
  DQ.chans s !! DQ.enqueueSignal s = Some false ->
  length picks = 8%nat ->
  exists sys' n,
    finishes tid sys picks (DQ.RetEnqueue None)
      (DQ.EvInsert t ::
       (DQ.EvBroadcast <$> [DQ.BMake n; DQ.BStore DQ.EnqueueSignal n; DQ.BUnlock;
                            DQ.BClose (DQ.enqueueSignal s)])) sys' /\
    wf (DQ.q (DQ.mem sys')) /\ held (DQ.q (DQ.mem sys')) ≡ₚ held (DQ.q s) ++ [t] /\
    PQ.capacity (DQ.q (DQ.mem sys')) = PQ.capacity (DQ.q s) /\
    DQ.mutex (DQ.mem sys') = None /\ DQ.now (DQ.mem sys') = DQ.now s /\
    DQ.dequeueSignal (DQ.mem sys') = DQ.dequeueSignal s /\
    DQ.enqueueSignal (DQ.mem sys') = n /\ n = length (DQ.chans s) /\
    DQ.chans (DQ.mem sys') = <[DQ.enqueueSignal s := true]> (DQ.chans s ++ [false]).
Proof.
  intros s Hth Hst Hd Hmx Hwf Hlen Hfull Hopen Hl.
  assert (Hlt : (tid < length (DQ.threads sys))%nat) by by eapply lookup_lt_Some.
  destruct picks as [| p1 [| p2 [| p3 rest]]]; try done.
  assert (Hrest : length rest = 5%nat) by (cbn in Hl; lia).
  destruct (Enqueue_shape (DQ.compare Delay (DQ.now s)) growslice (DQ.q s) t Hwf Hlen)
    as (p' & e & He & Hwf' & Hcap & [(_ & _ & Hf) | (-> & _ & _ & Hp & _)]); [congruence |].
  set (th1 := DQ.mkThread (DQ.Running (DQ.E_lock t)) (DQ.ctxDone th) (DQ.tmr th)).
  set (th2 := DQ.mkThread (DQ.Running (DQ.E_enqueue t)) (DQ.ctxDone th) (DQ.tmr th)).
  set (th3 := DQ.mkThread (T := T) (DQ.Running (DQ.E_broadcast DQ.B_make))
                (DQ.ctxDone th) (DQ.tmr th)).
  set (s2 := DQ.set_mutex (Some tid) s).
  set (s3 := DQ.set_q p' s2).
  set (sys3 := DQ.mkSystem s3
                 (<[tid := th3]> (<[tid := th2]> (<[tid := th1]> (DQ.threads sys))))).
  assert (Hth3 : DQ.threads sys3 !! tid = Some th3).
  { cbn. apply list_lookup_insert_eq. by rewrite !length_insert. }
  destruct (broadcast_finishes DQ.EnqueueSignal DQ.E_broadcast (DQ.RetEnqueue None)
              tid sys3 th3 rest ltac:(intros; reflexivity) Hth3 eq_refl
              ltac:(by eexists) Hopen Hrest)
    as (s' & bevs & ths' & Hb & Hfin).
  destruct (broadcast_alone DQ.EnqueueSignal s3 ltac:(by eexists) Hopen)
    as (s'' & Hb' & Hch & Hsig & _ & _ & _ & Hmu & Hq & Hnow & Hoth).
  change (DQ.mem _) with s3 in Hb. rewrite Hb' in Hb. injection Hb as <- <-.
  exists (DQ.mkSystem s'' ths'), (length (DQ.chans s)).
  split.
  { eapply finishes_step; [exact Hth | exact Hst | cbn; rewrite Hd; reflexivity | | reflexivity].
    eapply finishes_step;
      [ cbn; by apply list_lookup_insert_eq | reflexivity
      | cbn; unfold DQ.Lock; fold s; rewrite Hmx; reflexivity | | reflexivity].
    eapply finishes_step;
      [ cbn; apply list_lookup_insert_eq; by rewrite length_insert | reflexivity
      | cbn; fold s; rewrite He; reflexivity | | reflexivity].
    exact Hfin. }
  cbn [DQ.mem]. rewrite Hq, Hnow, Hmu, Hch. cbn in Hsig.
  split_and!; try done.
  apply (Hoth DQ.DequeueSignal). done.
Qed.

(** A [Dequeue] that runs alone from its first statement, while the
    mutex is unlocked and the element at the head of the heap is ready. *)
Lemma Dequeue_runs_alone tid (sys : system) (th : thread) v picks :
  let s := DQ.mem sys in
  DQ.threads sys !! tid = Some th -> DQ.state th = DQ.Running DQ.D_check ->
  DQ.ctxDone th = false -> DQ.mutex s = None ->
  wf (DQ.q s) -> backing (DQ.q s) !! 1%nat = Some v -> Delay v (DQ.now s) <= 0 ->
  DQ.chans s !! DQ.dequeueSignal s = Some false ->
  length picks = 10%nat ->
  exists sys' n,
    finishes tid sys picks (DQ.RetDequeue v None)
      (DQ.EvRemove v (DQ.now s) ::
       (DQ.EvBroadcast <$> [DQ.BMake n; DQ.BStore DQ.DequeueSignal n; DQ.BUnlock;
                            DQ.BClose (DQ.dequeueSignal s)])) sys' /\
    wf (DQ.q (DQ.mem sys')) /\ held (DQ.q s) ≡ₚ v :: held (DQ.q (DQ.mem sys')) /\
    PQ.capacity (DQ.q (DQ.mem sys')) = PQ.capacity (DQ.q s) /\
    DQ.mutex (DQ.mem sys') = None /\ DQ.now (DQ.mem sys') = DQ.now s /\
    DQ.enqueueSignal (DQ.mem sys') = DQ.enqueueSignal s /\
    DQ.dequeueSignal (DQ.mem sys') = n /\ n = length (DQ.chans s) /\
    DQ.chans (DQ.mem sys') = <[DQ.dequeueSignal s := true]> (DQ.chans s ++ [false]).
Proof.
  intros s Hth Hst Hd Hmx Hwf Hv Hready Hopen Hl.
  assert (Hlt : (tid < length (DQ.threads sys))%nat) by by eapply lookup_lt_Some.
  destruct picks as [| p1 [| p2 [| p3 [| p4 [| p5 rest]]]]]; try done.
  assert (Hrest : length rest = 5%nat) by (cbn in Hl; lia).
  destruct (Peek_shape zero (DQ.q s)) as (v1 & e1 & Hpk & [(_ & _ & Hem) | (-> & Hv1 & _)]).
  { unfold PQ.isEmpty in Hem. apply Z.ltb_lt in Hem. apply lookup_lt_Some in Hv.
    unfold backing, Go.len in *. lia. }
  assert (v1 = v) as -> by congruence.
  destruct (Dequeue_shape zero (DQ.compare Delay (DQ.now s)) growslice (DQ.q s) Hwf)
    as (p' & v2 & e & Hdq & Hwf' & Hcap & _ & [(_ & _ & _ & Hem) | (-> & Hv2 & Hp & _)]).
  { unfold PQ.isEmpty in Hem. apply Z.ltb_lt in Hem. apply lookup_lt_Some in Hv.
    unfold backing, Go.len in *. lia. }
  assert (v2 = v) as -> by congruence.
  set (th1 := DQ.mkThread (T := T) (DQ.Running DQ.D_lock) (DQ.ctxDone th) (DQ.tmr th)).
  set (th2 := DQ.mkThread (T := T) (DQ.Running DQ.D_peek) (DQ.ctxDone th) (DQ.tmr th)).
  set (th3 := DQ.mkThread (DQ.Running (DQ.D_delay v)) (DQ.ctxDone th) (DQ.tmr th)).
  set (th4 := DQ.mkThread (DQ.Running (DQ.D_dequeue v)) (DQ.ctxDone th) (DQ.tmr th)).
  set (th5 := DQ.mkThread (DQ.Running (DQ.D_broadcast v None DQ.B_make))
                (DQ.ctxDone th) (DQ.tmr th)).
  set (s2 := DQ.set_mutex (Some tid) s).
  set (s5 := DQ.set_q p' (DQ.set_q (DQ.q s) s2)).
  set (sys5 := DQ.mkSystem s5
                 (<[tid := th5]> (<[tid := th4]> (<[tid := th3]> (<[tid := th2]>
                    (<[tid := th1]> (DQ.threads sys))))))).
  assert (Hth5 : DQ.threads sys5 !! tid = Some th5).
  { cbn. apply list_lookup_insert_eq. by rewrite !length_insert. }
  destruct (broadcast_finishes DQ.DequeueSignal (DQ.D_broadcast v None)
              (DQ.RetDequeue v None) tid sys5 th5 rest ltac:(intros; reflexivity) Hth5
              eq_refl ltac:(by eexists) Hopen Hrest)
    as (s' & bevs & ths' & Hb & Hfin).
  destruct (broadcast_alone DQ.DequeueSignal s5 ltac:(by eexists) Hopen)
    as (s'' & Hb' & Hch & Hsig & _ & _ & _ & Hmu & Hq & Hnow & Hoth).
  change (DQ.mem _) with s5 in Hb. rewrite Hb' in Hb. injection Hb as <- <-.
  exists (DQ.mkSystem s'' ths'), (length (DQ.chans s)).
  split.
  { eapply finishes_step; [exact Hth | exact Hst | cbn; rewrite Hd; reflexivity | | reflexivity].
    eapply finishes_step;
      [ cbn; by apply list_lookup_insert_eq | reflexivity
      | cbn; unfold DQ.Lock; fold s; rewrite Hmx; reflexivity | | reflexivity].
    eapply finishes_step;
      [ cbn; apply list_lookup_insert_eq; by rewrite length_insert | reflexivity
      | cbn; fold s; rewrite Hpk; reflexivity | | reflexivity].
    eapply finishes_step;
      [ cbn; apply list_lookup_insert_eq; by rewrite !length_insert | reflexivity
      | cbn; fold s; destruct (Z.leb_spec (Delay v (DQ.now s)) 0); [reflexivity | lia]
      | | reflexivity].
    eapply finishes_step;
      [ cbn; apply list_lookup_insert_eq; by rewrite !length_insert | reflexivity
      | cbn; unfold DQ.dequeue_step; cbn; fold s; rewrite Hdq; reflexivity | | reflexivity].
    exact Hfin. }
  cbn [DQ.mem]. rewrite Hq, Hnow, Hmu, Hch. cbn in Hsig.
  split_and!; try done.
  apply (Hoth DQ.EnqueueSignal). done.
Qed.

Lemma dq_run_app s1 : forall s2 (sys sys1 sys2 : system) tr1 tr2,
  run s1 sys = Ok (sys1, tr1) -> run s2 sys1 = Ok (sys2, tr2) ->
  run (s1 ++ s2) sys = Ok (sys2, tr1 ++ tr2).
Proof.
  induction s1 as [| a s1 IH]; intros s2 sys sys1 sys2 tr1 tr2; cbn [app DQ.run].
  - by intros [= <- <-] ->.
  - destruct (step a sys) as [[sysa evsa] | |]; cbn [mbind result_bind Go.bind]; try done.
    destruct (run s1 sysa) as [[sysb evsb] | |] eqn:Hrun; cbn [mbind result_bind Go.bind];
      try done.
    intros [= <- <-] H2. rewrite (IH s2 sysa sysb sys2 evsb tr2 Hrun H2).
    cbn [mbind result_bind Go.bind]. by rewrite app_assoc.
Qed.

(** X22: an [Enqueue] that runs alone succeeds.  From its first statement,
    with a context that is not cancelled, while the mutex is unlocked, the
    queue has room and the channel of [enqueueSignal] is open, the call
    returns nil within eight steps of its goroutine: it has put its element
    in the heap and run [broadcast], so that the channel a waiting
    [Dequeue] has got from [enqueueSignal] is closed; the mutex is unlocked
    again and the other goroutines are as they were. *)
Theorem enqueue_alone_returns tid (sys : system) (th : thread) t picks :
  let s := DQ.mem sys in
  DQ.threads sys !! tid = Some th -> DQ.state th = DQ.Running (DQ.E_check t) ->
  DQ.ctxDone th = false -> DQ.mutex s = None ->
  wf (DQ.q s) -> Z.of_nat (length (backing (DQ.q s))) < Go.int_max ->
  PQ.isFull (DQ.q s) = false ->
  DQ.chans s !! DQ.enqueueSignal s = Some false ->
  length picks = 8%nat ->
  exists sys' n,
    finishes tid sys picks (DQ.RetEnqueue None)
      (DQ.EvInsert t ::
       (DQ.EvBroadcast <$> [DQ.BMake n; DQ.BStore DQ.EnqueueSignal n; DQ.BUnlock;
                            DQ.BClose (DQ.enqueueSignal s)])) sys' /\
    held (DQ.q (DQ.mem sys')) ≡ₚ held (DQ.q s) ++ [t] /\
    DQ.mutex (DQ.mem sys') = None /\
    DQ.chans (DQ.mem sys') !! DQ.enqueueSignal s = Some true /\
    DQ.chans (DQ.mem sys') !! DQ.enqueueSignal (DQ.mem sys') = Some false.
Proof.
  intros s Hth Hst Hd Hmx Hwf Hlen Hfull Hopen Hl.
  destruct (Enqueue_runs_alone tid sys th t picks Hth Hst Hd Hmx Hwf Hlen Hfull Hopen Hl)
    as (sys' & n & Hfin & _ & Hp & _ & Hmu & _ & _ & Hn & -> & Hch).
  exists sys', (length (DQ.chans s)). split_and!; try done.
  - rewrite Hch. apply list_lookup_insert_eq. rewrite length_app. cbn.
    apply lookup_lt_Some in Hopen. unfold s in *. lia.
  - rewrite Hch, Hn. apply lookup_lt_Some in Hopen. unfold s in *.
    rewrite list_lookup_insert_ne by lia. by apply list_lookup_middle.
Qed.

(** X23: a [Dequeue] that runs alone succeeds.  From its first statement,
    with a context that is not cancelled, while the mutex is unlocked, the
    element at the head of the heap is ready and the channel of
    [dequeueSignal] is open, the call returns that element and nil within
    ten steps of its goroutine: it has taken the element out of the heap,
    which holds the others, and run [broadcast], so that the channel a
    waiting [Enqueue] has got from [dequeueSignal] is closed; the mutex is
    unlocked again and the other goroutines are as they were. *)
Theorem dequeue_alone_returns tid (sys : system) (th : thread) v picks :
  let s := DQ.mem sys in
  DQ.threads sys !! tid = Some th -> DQ.state th = DQ.Running DQ.D_check ->
  DQ.ctxDone th = false -> DQ.mutex s = None ->
  wf (DQ.q s) -> backing (DQ.q s) !! 1%nat = Some v -> Delay v (DQ.now s) <= 0 ->
  DQ.chans s !! DQ.dequeueSignal s = Some false ->
  length picks = 10%nat ->
  exists sys' n,
    finishes tid sys picks (DQ.RetDequeue v None)
      (DQ.EvRemove v (DQ.now s) ::
       (DQ.EvBroadcast <$> [DQ.BMake n; DQ.BStore DQ.DequeueSignal n; DQ.BUnlock;
                            DQ.BClose (DQ.dequeueSignal s)])) sys' /\
    held (DQ.q s) ≡ₚ v :: held (DQ.q (DQ.mem sys')) /\
    DQ.mutex (DQ.mem sys') = None /\
    DQ.chans (DQ.mem sys') !! DQ.dequeueSignal s = Some true /\
    DQ.chans (DQ.mem sys') !! DQ.dequeueSignal (DQ.mem sys') = Some false.
Proof.
  intros s Hth Hst Hd Hmx Hwf Hv Hready Hopen Hl.
  destruct (Dequeue_runs_alone tid sys th v picks Hth Hst Hd Hmx Hwf Hv Hready Hopen Hl)
    as (sys' & n & Hfin & _ & Hp & _ & Hmu & _ & _ & Hn & -> & Hch).
  exists sys', (length (DQ.chans s)). split_and!; try done.
  - rewrite Hch. apply list_lookup_insert_eq. rewrite length_app. cbn.
    apply lookup_lt_Some in Hopen. unfold s in *. lia.
  - rewrite Hch, Hn. apply lookup_lt_Some in Hopen. unfold s in *.
    rewrite list_lookup_insert_ne by lia. by apply list_lookup_middle.
Qed.

(** X24: what goes in comes out.  On a new delay queue, a goroutine calls
    [Enqueue(ctx, t)] and runs to the end of the call, time passes until
    [t] is ready, and another goroutine calls [Dequeue(ctx)] and runs to
    the end of the call: the [Enqueue] returns nil, the [Dequeue] returns
    [t] and nil, and the queue is empty and its mutex unlocked
    afterwards. *)
Theorem delay_queue_round_trip c t0 t dt (sys0 : system) picks1 picks2 :
  DQ.init zero c t0 [DQ.OpEnqueue t; DQ.OpDequeue] = Ok sys0 ->
  Delay t (t0 + Z.of_nat dt) <= 0 ->
  length picks1 = 8%nat -> length picks2 = 10%nat ->
  exists sys tr th0 th1,
    run ((DQ.Step 0 <$> picks1) ++ [DQ.Tick dt] ++ (DQ.Step 1 <$> picks2)) sys0
      = Ok (sys, tr) /\
    DQ.threads sys !! 0%nat = Some th0 /\ DQ.state th0 = DQ.Returned (DQ.RetEnqueue None) /\
    DQ.threads sys !! 1%nat = Some th1 /\ DQ.state th1 = DQ.Returned (DQ.RetDequeue t None) /\
    held (DQ.q (DQ.mem sys)) = [] /\ DQ.mutex (DQ.mem sys) = None.
Proof.
  intros Hinit Hready Hl1 Hl2.
  revert Hinit. unfold DQ.init, DQ.NewDelayQueue.
  destruct (PQ.NewPriorityQueue zero c) as [p | |] eqn:Hp; [| done | done].
  cbn [mbind result_bind Go.bind fmap list_fmap]. intros [= <-].
  destruct (New_spec zero (fun _ _ => 0) c p Hp) as (Hb & Hwf & _ & Hcap).
  set (thE := DQ.mkThread (DQ.Running (DQ.E_check t)) false None).
  set (thD := DQ.mkThread (T := T) (DQ.Running DQ.D_check) false None).
  set (s0 := DQ.mkShared p None 0%nat 1%nat [false; false] t0).
  assert (Hlen0 : Z.of_nat (length (backing p)) < Go.int_max).
  { rewrite Hb. cbn. unfold Go.int_max. lia. }
  assert (Hfull0 : PQ.isFull p = false).
  { unfold PQ.isFull. unfold backing in Hb. unfold Go.len. rewrite Hb, Hcap. cbn.
    apply andb_false_iff.
    destruct (decide (0 < Z.max 0 c)); [right; apply Z.eqb_neq; lia | left; apply Z.ltb_ge; lia]. }
  destruct (Enqueue_runs_alone 0%nat (DQ.mkSystem s0 [thE; thD]) thE t picks1
              eq_refl eq_refl eq_refl eq_refl Hwf Hlen0 Hfull0 eq_refl Hl1)
    as (sys1 & n & (th0 & Hrun1 & Hth0 & Hst0 & Hoth1) & Hwf1 & Hp1 & _ & Hmu1 & Hnow1 &
        Hds1 & _ & _ & Hch1).
  assert (Hheld1 : held (DQ.q (DQ.mem sys1)) = [t]).
  { assert (Hp1' : held (DQ.q (DQ.mem sys1)) ≡ₚ held p ++ [t]) by exact Hp1.
    unfold held in Hp1' at 2. rewrite Hb in Hp1'. cbn in Hp1'.
    by apply Permutation_singleton_r in Hp1'. }
  assert (Hnow1' : DQ.now (DQ.mem sys1) = t0) by exact Hnow1.
  assert (Hds1' : DQ.dequeueSignal (DQ.mem sys1) = 0%nat) by exact Hds1.
  assert (Hch1' : DQ.chans (DQ.mem sys1) = [false; true; false]) by exact Hch1.
  assert (Hoth1' : DQ.threads sys1 !! 1%nat = Some thD) by exact (Hoth1 1%nat ltac:(lia)).
  assert (Hhead : backing (DQ.q (DQ.mem sys1)) !! 1%nat = Some t).
  { unfold held in Hheld1. destruct (backing (DQ.q (DQ.mem sys1))) as [| z r]; [done |].
    change (r = [t]) in Hheld1. by subst r. }
  set (sys2 := DQ.mkSystem
                 (DQ.set_now (DQ.now (DQ.mem sys1) + Z.of_nat dt) (DQ.mem sys1))
                 (DQ.threads sys1)).
  assert (HthD : DQ.threads sys2 !! 1%nat = Some thD) by exact Hoth1'.
  assert (Hready2 : Delay t (DQ.now (DQ.mem sys2)) <= 0) by (cbn; by rewrite Hnow1').
  assert (Hopen2 : DQ.chans (DQ.mem sys2) !! DQ.dequeueSignal (DQ.mem sys2) = Some false)
    by (cbn; by rewrite Hds1', Hch1').
  destruct (Dequeue_runs_alone 1%nat sys2 thD t picks2 HthD eq_refl eq_refl Hmu1 Hwf1
              Hhead Hready2 Hopen2 Hl2)
    as (sys3 & n3 & (th1 & Hrun3 & Hth1 & Hst1 & Hoth3) & _ & Hp3 & _ & Hmu3 & _).
  exists sys3. eexists. exists th0, th1.
  split.
  { eapply dq_run_app; [exact Hrun1 |].
    eapply (dq_run_app [DQ.Tick dt]); [reflexivity | exact Hrun3]. }
  split_and!; try done.
  - rewrite (Hoth3 0%nat ltac:(lia)). done.
  - assert (Hp3' : held (DQ.q (DQ.mem sys1)) ≡ₚ t :: held (DQ.q (DQ.mem sys3)))
      by exact Hp3.
    rewrite Hheld1 in Hp3'. apply Permutation_cons_inv in Hp3'.
    by apply Permutation_nil_l in Hp3'.
Qed.

(** ** Calls that wait *)

Lemma run_step_cons tid (sys : system) (th : thread) f p rest nf tm s' evs :
  DQ.threads sys !! tid = Some th -> DQ.state th = DQ.Running f ->
  DQ.step_frame zero Delay growslice tid (DQ.ctxDone th) (DQ.tmr th) p f (DQ.mem sys)
    = Ok (nf, tm, s', evs) ->
  run (DQ.Step tid p :: rest) sys =
    '(sys2, evs2) ← run rest (DQ.mkSystem s' (<[tid := after th nf tm]> (DQ.threads sys)));
    Ok (sys2, fmap (M := list) (pair tid) evs ++ evs2).
Proof.
  intros Hth Hst Hf. cbn [DQ.run].
  by rewrite (step_at zero Delay growslice sys tid th f p _ _ _ _ Hth Hst Hf).
Qed.

(** A goroutine whose call cannot proceed stays where it is, whatever it
    is given to run, and so does the system. *)
Lemma blocked_stays tid (sys : system) (th : thread) f picks :
  DQ.threads sys !! tid = Some th -> DQ.state th = DQ.Running f ->
  (forall p, DQ.step_frame zero Delay growslice tid (DQ.ctxDone th) (DQ.tmr th) p f
               (DQ.mem sys) = Ok (DQ.Blocked, DQ.tmr th, DQ.mem sys, [])) ->
  run (DQ.Step tid <$> picks) sys = Ok (sys, []).
Proof.
  intros Hth Hst Hb. induction picks as [| p picks IH]; [done |].
  cbn [fmap list_fmap]. rewrite (run_step_cons tid sys th f p _ _ _ _ _ Hth Hst (Hb p)).
  cbn [after]. rewrite list_insert_id by done.
  replace (DQ.mkSystem (DQ.mem sys) (DQ.threads sys)) with sys by by destruct sys.
  fold (fmap (M := list) (DQ.Step tid) picks). by rewrite IH.
Qed.

(** X25: a [Dequeue] on an empty queue waits.  From its first statement,
    with a context that is not cancelled, while the mutex is unlocked and
    the channel of [enqueueSignal] is open, a [Dequeue] that finds the
    queue empty and runs alone reaches, within five steps of its goroutine,
    the [select] on its context and on the channel it has got from
    [enqueueSignal]; it has unlocked the mutex and left the shared state
    and the other goroutines as they were, and it returns no error: from
    there its steps do nothing, however many it is given, while the context
    is not cancelled and the channel is not closed. *)
Theorem dequeue_empty_waits tid (sys : system) (th : thread) picks picks' :
  let s := DQ.mem sys in
  DQ.threads sys !! tid = Some th -> DQ.state th = DQ.Running DQ.D_check ->
  DQ.ctxDone th = false -> DQ.mutex s = None -> PQ.isEmpty (DQ.q s) = true ->
  DQ.chans s !! DQ.enqueueSignal s = Some false ->
  length picks = 5%nat ->
  exists sys',
    run (DQ.Step tid <$> picks) sys = Ok (sys', []) /\
    DQ.mem sys' = s /\
    DQ.threads sys' !! tid =
      Some (DQ.mkThread (DQ.Running (DQ.D_select2 (DQ.enqueueSignal s))) false (DQ.tmr th)) /\
    (forall j, j <> tid -> DQ.threads sys' !! j = DQ.threads sys !! j) /\
    run (DQ.Step tid <$> picks') sys' = Ok (sys', []).
Proof.
  intros s Hth Hst Hd Hmx Hem Hopen Hl.
  assert (Hlt : (tid < length (DQ.threads sys))%nat) by by eapply lookup_lt_Some.
  destruct picks as [| p1 [| p2 [| p3 [| p4 [| p5 [| ? ?]]]]]]; try done.
  destruct sys as [s0 ths]. destruct s0 as [p mx d e ch nw].
  cbn in s, Hth, Hmx, Hem, Hopen, Hlt. subst mx s.
  cbn [DQ.mem DQ.enqueueSignal].
  set (s := DQ.mkShared p None d e ch nw).
  set (th5 := DQ.mkThread (T := T) (DQ.Running (DQ.D_select2 e)) false (DQ.tmr th)).
  eexists. split; [| split; [| split; [| split]]].
  - cbn [fmap list_fmap].
    erewrite run_step_cons; [| exact Hth | exact Hst | cbn; rewrite Hd; reflexivity].
    erewrite run_step_cons;
      [| cbn; by apply list_lookup_insert_eq | reflexivity | cbn; reflexivity].
    erewrite run_step_cons;
      [| cbn; apply list_lookup_insert_eq; by rewrite length_insert | reflexivity
       | cbn; unfold PQ.Peek; cbn; rewrite Hem; reflexivity].
    erewrite run_step_cons;
      [| cbn; apply list_lookup_insert_eq; by rewrite !length_insert | reflexivity
       | cbn; reflexivity].
    erewrite run_step_cons;
      [| cbn; apply list_lookup_insert_eq; by rewrite !length_insert | reflexivity
       | cbn; reflexivity].
    cbn. rewrite Hd. reflexivity.
  - reflexivity.
  - cbn. apply list_lookup_insert_eq. by rewrite !length_insert.
  - intros j Hj. cbn. by rewrite !list_lookup_insert_ne.
  - apply (blocked_stays tid _ th5 (DQ.D_select2 e)).
    + cbn. apply list_lookup_insert_eq. by rewrite !length_insert.
    + reflexivity.
    + intros q. cbn. unfold DQ.select, DQ.closed. cbn. rewrite Hopen.
      by destruct q.
Qed.

(** X26: an [Enqueue] on a full queue waits.  From its first statement,
    with a context that is not cancelled, while the mutex is unlocked and
    the channel of [dequeueSignal] is open, an [Enqueue] that finds the
    queue full and runs alone reaches, within five steps of its goroutine,
    the [select] on its context and on the channel it has got from
    [dequeueSignal]; it has put nothing in the heap, has unlocked the mutex
    and left the shared state and the other goroutines as they were, and it
    returns no error: from there its steps do nothing, however many it is
    given, while the context is not cancelled and the channel is not
    closed. *)
Theorem enqueue_full_waits tid (sys : system) (th : thread) t picks picks' :
  let s := DQ.mem sys in
  DQ.threads sys !! tid = Some th -> DQ.state th = DQ.Running (DQ.E_check t) ->
  DQ.ctxDone th = false -> DQ.mutex s = None -> PQ.isFull (DQ.q s) = true ->
  DQ.chans s !! DQ.dequeueSignal s = Some false ->
  length picks = 5%nat ->
  exists sys',
    run (DQ.Step tid <$> picks) sys = Ok (sys', []) /\
    DQ.mem sys' = s /\
    DQ.threads sys' !! tid =
      Some (DQ.mkThread (DQ.Running (DQ.E_select t (DQ.dequeueSignal s))) false (DQ.tmr th)) /\
    (forall j, j <> tid -> DQ.threads sys' !! j = DQ.threads sys !! j) /\
    run (DQ.Step tid <$> picks') sys' = Ok (sys', []).
Proof.
  intros s Hth Hst Hd Hmx Hfull Hopen Hl.
  assert (Hlt : (tid < length (DQ.threads sys))%nat) by by eapply lookup_lt_Some.
  destruct picks as [| p1 [| p2 [| p3 [| p4 [| p5 [| ? ?]]]]]]; try done.
  destruct sys as [s0 ths]. destruct s0 as [p mx d e ch nw].
  cbn in s, Hth, Hmx, Hfull, Hopen, Hlt. subst mx s.
  cbn [DQ.mem DQ.dequeueSignal].
  set (s := DQ.mkShared p None d e ch nw).
  set (th5 := DQ.mkThread (DQ.Running (DQ.E_select t d)) false (DQ.tmr th)).
  eexists. split; [| split; [| split; [| split]]].
  - cbn [fmap list_fmap].
    erewrite run_step_cons; [| exact Hth | exact Hst | cbn; rewrite Hd; reflexivity].
    erewrite run_step_cons;
      [| cbn; by apply list_lookup_insert_eq | reflexivity | cbn; reflexivity].
    erewrite run_step_cons;
      [| cbn; apply list_lookup_insert_eq; by rewrite length_insert | reflexivity
       | cbn; rewrite (Enqueue_full _ growslice p t Hfull); cbn; reflexivity].
    erewrite run_step_cons;
      [| cbn; apply list_lookup_insert_eq; by rewrite !length_insert | reflexivity
       | cbn; reflexivity].
    erewrite run_step_cons;
      [| cbn; apply list_lookup_insert_eq; by rewrite !length_insert | reflexivity
       | cbn; reflexivity].
    cbn. rewrite Hd. reflexivity.
  - reflexivity.
  - cbn. apply list_lookup_insert_eq. by rewrite !length_insert.
  - intros j Hj. cbn. by rewrite !list_lookup_insert_ne.
  - apply (blocked_stays tid _ th5 (DQ.E_select t d)).
    + cbn. apply list_lookup_insert_eq. by rewrite !length_insert.
    + reflexivity.
    + intros q. cbn. unfold DQ.select, DQ.closed. cbn. rewrite Hopen.
      by destruct q.
Qed.

End DQSolo.

(** ** Properties of the delay queue

    In the theorems below a system of goroutines that make one call each,
    [Enqueue] or [Dequeue], on a new delay queue runs under a schedule of
    steps of goroutines, passing of time, cancellations and expiries of
    timers.  The schedule has fewer than 2^63 - 3 steps, so that the length
    of the heap stays an [int]. *)

Section DQProperties.
Context {T : Type} (zero : T) (Delay : T -> Z -> Z) (growslice : Z -> Z -> Z).
Context `{!GrowsliceSpec growslice}.

Lemma dq_reach c t0 calls sys0 sched :
  DQ.init zero c t0 calls = Ok sys0 ->
  Z.of_nat (length sched) + 2 < Go.int_max ->
  exists sys tr,
    DQ.run zero Delay growslice sched sys0 = Ok (sys, tr) /\
    DInv zero Delay calls sys (length sched) tr.
Proof.
  intros Hinit Hlen.
  destruct (run_DInv zero Delay growslice calls sched sys0 0 []
              (DInv_init zero Delay calls c t0 sys0 Hinit))
    as (sys & tr & Hrun & HI); [cbn; lia |].
  cbn [app Nat.add] in HI. by exists sys, tr.
Qed.

Lemma init_queue c t0 calls sys0 :
  DQ.init zero c t0 calls = Ok sys0 ->
  backing (DQ.q (DQ.mem sys0)) = [zero] /\ PQ.capacity (DQ.q (DQ.mem sys0)) = Z.max 0 c.
Proof.
  unfold DQ.init, DQ.NewDelayQueue.
  destruct (PQ.NewPriorityQueue zero c) as [p | |] eqn:Hp; [| done | done].
  cbn [mbind result_bind Go.bind]. intros [= <-].
  destruct (New_spec zero (fun _ _ => 0) c p Hp) as (Hb & _ & _ & Hc). done.
Qed.

(** X1: the mutex of the delay queue.  No run panics: no call unlocks an
    unlocked mutex, closes a closed channel or reads the heap out of its
    bounds.  In every state reached, a goroutine that is at a statement
    between [Lock] and the [Unlock] that follows it (in [Enqueue],
    [Dequeue], [signalCh] or [broadcast]) is the one that has locked the
    mutex, so there is one such goroutine at most; and when the mutex is
    locked, the goroutine that locked it is at such a statement: no call
    returns or waits with the mutex locked. *)
Theorem delay_queue_mutual_exclusion c t0 calls sys0 sched :
  DQ.init zero c t0 calls = Ok sys0 ->
  Z.of_nat (length sched) + 2 < Go.int_max ->
  exists sys tr,
    DQ.run zero Delay growslice sched sys0 = Ok (sys, tr) /\
    (forall tid th,
       DQ.threads sys !! tid = Some th -> holds_st (DQ.state th) = true ->
       DQ.mutex (DQ.mem sys) = Some tid) /\
    (forall i j thi thj,
       DQ.threads sys !! i = Some thi -> DQ.threads sys !! j = Some thj ->
       holds_st (DQ.state thi) = true -> holds_st (DQ.state thj) = true -> i = j) /\
    (forall k,
       DQ.mutex (DQ.mem sys) = Some k ->
       exists th, DQ.threads sys !! k = Some th /\ holds_st (DQ.state th) = true).
Proof.
  intros Hinit Hlen.
  destruct (dq_reach c t0 calls sys0 sched Hinit Hlen) as (sys & tr & Hrun & HI).
  exists sys, tr. split; [done |]. split_and!.
  - apply (dinv_holds _ _ _ _ _ _ HI).
  - intros i j thi thj Hi Hj Hhi Hhj.
    pose proof (dinv_holds _ _ _ _ _ _ HI i thi Hi Hhi).
    pose proof (dinv_holds _ _ _ _ _ _ HI j thj Hj Hhj). congruence.
  - apply (dinv_holder _ _ _ _ _ _ HI).
Qed.

(** X2: [Dequeue] gives only elements that are ready.  When the remaining
    delay of an element does not grow as time passes, then for every
    element [v] a call takes out of the heap, at the instant [t] of the
    call of [q.Dequeue], [Delay] of [v] at [t] is at most 0; and a
    [Dequeue] that has returned [v] and nil has taken [v] out of the heap
    in this way. *)
Theorem delay_queue_yields_ready c t0 calls sys0 sched :
  (forall v t t', t <= t' -> Delay v t' <= Delay v t) ->
  DQ.init zero c t0 calls = Ok sys0 ->
  Z.of_nat (length sched) + 2 < Go.int_max ->
  exists sys tr,
    DQ.run zero Delay growslice sched sys0 = Ok (sys, tr) /\
    (forall tid v t, (tid, DQ.EvRemove v t) ∈ tr -> Delay v t <= 0) /\
    (forall tid th v,
       DQ.threads sys !! tid = Some th ->
       DQ.state th = DQ.Returned (DQ.RetDequeue v None) ->
       exists t, (tid, DQ.EvRemove v t) ∈ tr /\ Delay v t <= 0).
Proof.
  intros Hmono Hinit Hlen.
  destruct (dq_reach c t0 calls sys0 sched Hinit Hlen) as (sys & tr & Hrun & HI).
  exists sys, tr. split; [done |].
  assert (Hready : forall tid v t, (tid, DQ.EvRemove v t) ∈ tr -> Delay v t <= 0).
  { intros tid v t Hin.
    pose proof (proj1 (Forall_forall _ _) (dinv_ready _ _ _ _ _ _ HI) _ Hin) as Hr.
    cbn in Hr. destruct Hr as (t1 & Ht1 & Hd). pose proof (Hmono v t1 t Ht1). lia. }
  split; [done |].
  intros tid th v Hth Hst.
  destruct (dinv_hist _ _ _ _ _ _ HI tid th Hth) as (o & _ & Hh).
  rewrite Hst in Hh. cbn [thread_hist] in Hh.
  destruct Hh as (_ & t & bevs & Hevs & _).
  assert (Hin : (tid, DQ.EvRemove v t) ∈ tr).
  { apply events_of_elem. rewrite Hevs. by left. }
  exists t. split; [done |]. by apply (Hready tid).
Qed.

(** X3: what [broadcast] does when no other goroutine takes a step during
    the call.  Called with the mutex locked while the channel of the
    condition is open, it makes a new channel, stores it in the condition,
    unlocks the mutex and closes the channel the condition had, in this
    order, and returns; then the channel of the condition is the new one,
    which is open and is not the old one, the old one is closed, the mutex
    is unlocked, and the heap, the clock and the channel of the other
    condition are as they were. *)
Theorem cond_broadcast_alone w (s : DQ.shared T) :
  is_Some (DQ.mutex s) -> DQ.chans s !! DQ.cond_signal w s = Some false ->
  let n := length (DQ.chans s) in
  let old := DQ.cond_signal w s in
  exists s',
    DQ.broadcast w s = Ok (s', [DQ.BMake n; DQ.BStore w n; DQ.BUnlock; DQ.BClose old]) /\
    DQ.chans s' = <[old := true]> (DQ.chans s ++ [false]) /\
    DQ.cond_signal w s' = n /\ n <> old /\
    DQ.chans s' !! n = Some false /\ DQ.chans s' !! old = Some true /\
    DQ.mutex s' = None /\ DQ.q s' = DQ.q s /\ DQ.now s' = DQ.now s /\
    (forall w', w' <> w -> DQ.cond_signal w' s' = DQ.cond_signal w' s).
Proof. apply broadcast_alone. Qed.

(** X4: [broadcast] among the steps of other goroutines.  In every state
    reached the two conditions have different channels, both open.  The
    statements of [broadcast] a goroutine has run are the first of: make a
    channel, store it in the condition of the call ([enqueueSignal] in
    [Enqueue], [dequeueSignal] in [Dequeue]), unlock, close the channel
    replaced, according to the statement the call has reached; a call that
    has returned nil has run the four, and the channel it closed is closed
    and is not the one it made; no other call has run any of them. *)
Theorem cond_broadcast_interleaved c t0 calls sys0 sched :
  DQ.init zero c t0 calls = Ok sys0 ->
  Z.of_nat (length sched) + 2 < Go.int_max ->
  exists sys tr,
    DQ.run zero Delay growslice sched sys0 = Ok (sys, tr) /\
    DQ.dequeueSignal (DQ.mem sys) <> DQ.enqueueSignal (DQ.mem sys) /\
    (forall w, DQ.chans (DQ.mem sys) !! DQ.cond_signal w (DQ.mem sys) = Some false) /\
    (forall tid th,
       DQ.threads sys !! tid = Some th ->
       let evs := bcast_events (events_of tid tr) in
       match DQ.state th with
       | DQ.Running (DQ.E_broadcast pc) => bcast_hist DQ.EnqueueSignal pc evs
       | DQ.Running (DQ.D_broadcast _ _ pc) => bcast_hist DQ.DequeueSignal pc evs
       | DQ.Running _ => evs = []
       | DQ.Returned (DQ.RetEnqueue None) => bcast_done DQ.EnqueueSignal (DQ.mem sys) evs
       | DQ.Returned (DQ.RetDequeue _ None) => bcast_done DQ.DequeueSignal (DQ.mem sys) evs
       | DQ.Returned _ => evs = []
       end).
Proof.
  intros Hinit Hlen.
  destruct (dq_reach c t0 calls sys0 sched Hinit Hlen) as (sys & tr & Hrun & HI).
  exists sys, tr. split; [done |].
  destruct (dinv_signals _ _ _ _ _ _ HI) as (Hne & Hd & He).
  split; [done |]. split; [by intros [] |].
  intros tid th Hth.
  destruct (dinv_hist _ _ _ _ _ _ HI tid th Hth) as (o & _ & Hh).
  destruct (DQ.state th) as [f | [[e |] | v [e |]]] eqn:Hst; cbn zeta;
    cbn [thread_hist] in Hh.
  - destruct Hh as [_ Hh]. destruct f; try (by rewrite Hh).
    + destruct Hh as (t & bevs & _ & -> & Hb). by rewrite bcast_events_hist.
    + destruct Hh as (t & bevs & -> & Hb). by rewrite bcast_events_hist.
  - by destruct Hh as (_ & -> & _).
  - destruct Hh as (t & bevs & _ & -> & Hb). by rewrite bcast_events_hist.
  - by destruct Hh as (_ & -> & _).
  - destruct Hh as (_ & t & bevs & -> & Hb). by rewrite bcast_events_hist.
Qed.

(** X5: the errors of the delay queue.  A call that has returned an error
    has returned [ctx.Err()], with the zero value for [Dequeue]; its
    context is cancelled; and it has put nothing in the heap, taken nothing
    out of it and run no statement of [broadcast].  The branches that wrap
    an unexpected error of the priority queue are never reached. *)
Theorem delay_queue_errors c t0 calls sys0 sched :
  DQ.init zero c t0 calls = Ok sys0 ->
  Z.of_nat (length sched) + 2 < Go.int_max ->
  exists sys tr,
    DQ.run zero Delay growslice sched sys0 = Ok (sys, tr) /\
    forall tid th,
      DQ.threads sys !! tid = Some th ->
      (forall e, DQ.state th = DQ.Returned (DQ.RetEnqueue (Some e)) ->
                 e = DQ.CtxErr /\ DQ.ctxDone th = true /\ events_of tid tr = []) /\
      (forall v e, DQ.state th = DQ.Returned (DQ.RetDequeue v (Some e)) ->
                   e = DQ.CtxErr /\ v = zero /\ DQ.ctxDone th = true /\
                   events_of tid tr = []) /\
      (forall err, DQ.state th <> DQ.Running (DQ.E_unlock err) /\
                   DQ.state th <> DQ.Running (DQ.D_unlock err)).
Proof.
  intros Hinit Hlen.
  destruct (dq_reach c t0 calls sys0 sched Hinit Hlen) as (sys & tr & Hrun & HI).
  exists sys, tr. split; [done |].
  intros tid th Hth.
  destruct (dinv_hist _ _ _ _ _ _ HI tid th Hth) as (o & _ & Hh).
  split_and!.
  - intros e He. rewrite He in Hh. cbn [thread_hist] in Hh.
    by destruct Hh as (_ & ? & ? & ?).
  - intros v e He. rewrite He in Hh. cbn [thread_hist] in Hh.
    by destruct Hh as (_ & ? & ? & ? & ?).
  - intros err. split; intros Hst; apply (dinv_frames _ _ _ _ _ _ HI tid th _ Hth Hst).
Qed.

(** X6: the calls that succeed.  An [Enqueue] that has returned nil is
    the call [Enqueue(ctx, t)] of its goroutine and has put [t] in the heap
    once and taken nothing out; a [Dequeue] that has returned [v] and nil
    has taken [v] out of the heap, once, and put nothing in; a call that
    has not returned has changed the heap once at most. *)
Theorem delay_queue_successes c t0 calls sys0 sched :
  DQ.init zero c t0 calls = Ok sys0 ->
  Z.of_nat (length sched) + 2 < Go.int_max ->
  exists sys tr,
    DQ.run zero Delay growslice sched sys0 = Ok (sys, tr) /\
    forall tid th,
      DQ.threads sys !! tid = Some th ->
      let evs := events_of tid tr in
      (DQ.state th = DQ.Returned (DQ.RetEnqueue None) ->
       exists t, calls !! tid = Some (DQ.OpEnqueue t) /\
                 inserted evs = [t] /\ removed evs = []) /\
      (forall v, DQ.state th = DQ.Returned (DQ.RetDequeue v None) ->
                 calls !! tid = Some DQ.OpDequeue /\
                 inserted evs = [] /\ removed evs = [v]) /\
      (forall f, DQ.state th = DQ.Running f ->
                 match calls !! tid with
                 | Some (DQ.OpEnqueue t) =>
                     removed evs = [] /\ (inserted evs = [] \/ inserted evs = [t])
                 | Some DQ.OpDequeue =>
                     inserted evs = [] /\ (length (removed evs) <= 1)%nat
                 | None => False
                 end).
Proof.
  intros Hinit Hlen.
  destruct (dq_reach c t0 calls sys0 sched Hinit Hlen) as (sys & tr & Hrun & HI).
  exists sys, tr. split; [done |].
  intros tid th Hth.
  destruct (dinv_hist _ _ _ _ _ _ HI tid th Hth) as (o & Ho & Hh).
  cbn zeta. split_and!.
  - intros Hst. rewrite Hst in Hh. cbn [thread_hist] in Hh.
    destruct Hh as (t & bevs & -> & -> & _). exists t. split; [done |].
    change (DQ.EvInsert t :: (DQ.EvBroadcast <$> bevs))
      with ([DQ.EvInsert t] ++ (DQ.EvBroadcast <$> bevs)).
    by rewrite inserted_app, removed_app, inserted_broadcast, removed_broadcast.
  - intros v Hst. rewrite Hst in Hh. cbn [thread_hist] in Hh.
    destruct Hh as (-> & t & bevs & -> & _). split; [done |].
    change (DQ.EvRemove v t :: (DQ.EvBroadcast <$> bevs))
      with ([DQ.EvRemove v t] ++ (DQ.EvBroadcast <$> bevs)).
    by rewrite inserted_app, removed_app, inserted_broadcast, removed_broadcast.
  - intros f Hst. rewrite Hst in Hh. cbn [thread_hist] in Hh. rewrite Ho.
    destruct Hh as [Hcall Hh].
    destruct f; cbn [call_of] in Hcall;
      try (subst o; rewrite Hh; cbn; by auto);
      try (match type of Hcall with
           | ex _ => destruct Hcall as [t ->]
           end; rewrite Hh; cbn; by auto).
    + destruct Hh as (t & bevs & -> & -> & _).
      change (DQ.EvInsert t :: (DQ.EvBroadcast <$> bevs))
        with ([DQ.EvInsert t] ++ (DQ.EvBroadcast <$> bevs)).
      rewrite inserted_app, removed_app, inserted_broadcast, removed_broadcast.
      cbn. by auto.
    + subst o. destruct Hh as (t & bevs & -> & _).
      change (DQ.EvRemove val t :: (DQ.EvBroadcast <$> bevs))
        with ([DQ.EvRemove val t] ++ (DQ.EvBroadcast <$> bevs)).
      rewrite inserted_app, removed_app, inserted_broadcast, removed_broadcast.
      cbn. by auto.
Qed.

(** X7: nothing is lost and nothing is made up.  In every state reached,
    the elements the calls have put in the heap are, up to their order,
    those the calls have taken out and those the heap holds. *)
Theorem delay_queue_conservation c t0 calls sys0 sched :
  DQ.init zero c t0 calls = Ok sys0 ->
  Z.of_nat (length sched) + 2 < Go.int_max ->
  exists sys tr,
    DQ.run zero Delay growslice sched sys0 = Ok (sys, tr) /\
    inserted tr.*2 ≡ₚ removed tr.*2 ++ held (DQ.q (DQ.mem sys)).
Proof.
  intros Hinit Hlen.
  destruct (dq_reach c t0 calls sys0 sched Hinit Hlen) as (sys & tr & Hrun & HI).
  exists sys, tr. split; [done |].
  destruct (run_conserve zero Delay growslice calls sched sys0 0 []
              (DInv_init zero Delay calls c t0 sys0 Hinit) ltac:(cbn; lia) sys tr Hrun)
    as (_ & Hp & _).
  destruct (init_queue c t0 calls sys0 Hinit) as [Hb _].
  unfold held in Hp at 1. by rewrite Hb in Hp.
Qed.

(** X8: the capacity of the delay queue.  In every state reached the
    capacity of the heap is the one [NewDelayQueue] was given, or 0 when
    that was not positive, and a heap with a positive capacity holds no
    more elements than its capacity. *)
Theorem delay_queue_bounded c t0 calls sys0 sched :
  DQ.init zero c t0 calls = Ok sys0 ->
  Z.of_nat (length sched) + 2 < Go.int_max ->
  exists sys tr,
    DQ.run zero Delay growslice sched sys0 = Ok (sys, tr) /\
    PQ.Cap (DQ.q (DQ.mem sys)) = Z.max 0 c /\
    0 <= PQ.Len (DQ.q (DQ.mem sys)) /\
    (0 < c -> PQ.Len (DQ.q (DQ.mem sys)) <= c).
Proof.
  intros Hinit Hlen.
  destruct (dq_reach c t0 calls sys0 sched Hinit Hlen) as (sys & tr & Hrun & HI).
  exists sys, tr. split; [done |].
  destruct (run_conserve zero Delay growslice calls sched sys0 0 []
              (DInv_init zero Delay calls c t0 sys0 Hinit) ltac:(cbn; lia) sys tr Hrun)
    as (Hc & _ & Hw).
  destruct (init_queue c t0 calls sys0 Hinit) as [Hb Hc0].
  destruct (dinv_wf _ _ _ _ _ _ HI) as [Hl _].
  unfold PQ.Cap. rewrite Hc, Hc0.
  split_and!; [done | unfold PQ.Len, backing, Go.len in *; lia |].
  intros Hpos.
  assert (Hw0 : within_cap (DQ.q (DQ.mem sys0))).
  { intros _. unfold PQ.Len, PQ.Cap, Go.len. unfold backing in Hb. rewrite Hb, Hc0.
    cbn. lia. }
  specialize (Hw Hw0). unfold within_cap, PQ.IsBoundless, PQ.Cap in Hw.
  rewrite Hc, Hc0 in Hw. rewrite Hw; [lia |]. apply Z.leb_gt. lia.
Qed.

(** X10: no broadcast is missed.  In every state reached, the channel a
    call has got from [signalCh] and waits on, or is about to wait on, is
    still the channel of the condition, so that the next call of
    [broadcast] on the condition closes it, or it is closed, or a goroutine
    that runs [broadcast] has replaced it and is about to close it. *)
Theorem delay_queue_no_missed_broadcast c t0 calls sys0 sched :
  DQ.init zero c t0 calls = Ok sys0 ->
  Z.of_nat (length sched) + 2 < Go.int_max ->
  exists sys tr,
    DQ.run zero Delay growslice sched sys0 = Ok (sys, tr) /\
    forall i thi f w sg,
      DQ.threads sys !! i = Some thi -> DQ.state thi = DQ.Running f ->
      waits f = Some (w, sg) -> woken sys w sg.
Proof.
  intros Hinit Hlen.
  destruct (dq_reach c t0 calls sys0 sched Hinit Hlen) as (sys & tr & Hrun & HI).
  exists sys, tr. split; [done |].
  apply (run_Wake zero Delay growslice calls sched sys0 0 []
           (DInv_init zero Delay calls c t0 sys0 Hinit) ltac:(cbn; lia)
           (Wake_init zero calls c t0 sys0 Hinit) sys tr Hrun).
Qed.

(** X11: a cancelled [Enqueue] returns.  An [Enqueue] whose context is
    cancelled and that is at the check of its context or waits for room at
    its [select] returns [ctx.Err()] within two steps of its goroutine,
    whichever case the [select] runs; these steps make no event and leave
    the heap as it is. *)
Theorem enqueue_cancelled_returns (sys : DQ.system T) tid th t picks :
  DQ.threads sys !! tid = Some th -> DQ.ctxDone th = true ->
  (DQ.state th = DQ.Running (DQ.E_check t) \/
   exists sg, DQ.state th = DQ.Running (DQ.E_select t sg)) ->
  length picks = 2%nat ->
  returns zero Delay growslice tid sys picks (DQ.RetEnqueue (Some DQ.CtxErr)).
Proof.
  intros Hth Hd [Hst | [sg Hst]] Hl.
  - eapply E_check_cancelled; [done | done | done | lia].
  - eapply E_select_cancelled; [done | done | done | lia].
Qed.

(** X12: a cancelled [Dequeue] returns.  A [Dequeue] whose context is
    cancelled and that is at the check of its context or waits at one of
    its [select] statements, while the mutex is unlocked and the element at
    the head of the heap, if there is one, is not ready, returns the zero
    value and [ctx.Err()] within six steps of its goroutine, whichever
    cases the selects run; these steps make no event and leave the heap as
    it is. *)
Theorem dequeue_cancelled_returns (sys : DQ.system T) tid th picks :
  DQ.threads sys !! tid = Some th -> DQ.ctxDone th = true ->
  (DQ.state th = DQ.Running DQ.D_check \/
   (exists sg, DQ.state th = DQ.Running (DQ.D_select2 sg)) \/
   (exists sg, DQ.state th = DQ.Running (DQ.D_select3 sg))) ->
  DQ.mutex (DQ.mem sys) = None -> none_ready Delay (DQ.mem sys) ->
  length picks = 6%nat ->
  returns zero Delay growslice tid sys picks (DQ.RetDequeue zero (Some DQ.CtxErr)).
Proof.
  intros Hth Hd [Hst | [[sg Hst] | [sg Hst]]] Hm Hnr Hl.
  - eapply D_check_cancelled; [done | done | done | lia].
  - eapply D_select2_cancelled; [done | done | done | lia].
  - eapply D_select3_cancelled; [done | done | done | done | done | lia].
Qed.

End DQProperties.

(** ** Runs of a delay queue

    A delay queue of capacity 2 whose elements are deadlines: the
    remaining delay of [v] at instant [t] is [v - t]. *)
Definition deadline_delay (v t : Z) : Z := v - t.

Definition dq_demo (calls : list (DQ.op Z)) : DQ.system Z :=
  DQ.mkSystem
    (DQ.mkShared (PQ.mkPQ 2 (Go.mkSlice [0] 3)) None 0%nat 1%nat [false; false] 0)
    ((fun o => DQ.mkThread (DQ.Running (DQ.enter o)) false None) <$> calls).

Lemma dq_demo_init calls : DQ.init 0 2 0 calls = Ok (dq_demo calls).
Proof. reflexivity. Qed.

Lemma deadline_delay_mono v t t' : t <= t' -> deadline_delay v t' <= deadline_delay v t.
Proof. unfold deadline_delay. lia. Qed.

(** An [Enqueue] of the deadline 5 runs up to its call of [broadcast],
    and a [Dequeue] tries to lock the mutex. *)
Definition dq_sched_lock : list DQ.action :=
  replicate 3 (DQ.Step 0 DQ.CaseDone) ++ replicate 3 (DQ.Step 1 DQ.CaseDone).

(** An [Enqueue] of the deadline 5 runs to its end. *)
Definition dq_sched_enqueue : list DQ.action := replicate 8 (DQ.Step 0 DQ.CaseDone).

(** An [Enqueue] of the deadline 5 runs to its end, five units of time
    pass, and a [Dequeue] runs to its end. *)
Definition dq_sched_ready : list DQ.action :=
  dq_sched_enqueue ++ [DQ.Tick 5] ++ replicate 10 (DQ.Step 1 DQ.CaseDone).

(** A [Dequeue] finds the queue empty and waits. *)
Definition dq_sched_wait : list DQ.action := replicate 5 (DQ.Step 0 DQ.CaseDone).

(** Then its context is cancelled and it takes a step. *)
Definition dq_sched_cancel : list DQ.action :=
  dq_sched_wait ++ [DQ.Cancel 0; DQ.Step 0 DQ.CaseSignal].

Lemma delay_queue_mutual_exclusion_witness :
  exists sys tr th,
    DQ.run 0 deadline_delay grow2 dq_sched_lock (dq_demo [DQ.OpEnqueue 5; DQ.OpDequeue])
      = Ok (sys, tr) /\
    DQ.threads sys !! 1%nat = Some th /\ DQ.state th = DQ.Running DQ.D_lock /\
    DQ.mutex (DQ.mem sys) = Some 0%nat.
Proof.
  destruct (delay_queue_mutual_exclusion 0 deadline_delay grow2 2 0
              [DQ.OpEnqueue 5; DQ.OpDequeue] (dq_demo [DQ.OpEnqueue 5; DQ.OpDequeue])
              dq_sched_lock (dq_demo_init _) ltac:(vm_compute; reflexivity))
    as (sys & tr & Hrun & Hholds & _ & _).
  assert (H0 : DQ.threads sys !! 0%nat =
               Some (DQ.mkThread (DQ.Running (DQ.E_broadcast DQ.B_make)) false None))
    by (vm_compute in Hrun; injection Hrun as <- <-; reflexivity).
  assert (H1 : DQ.threads sys !! 1%nat =
               Some (DQ.mkThread (DQ.Running DQ.D_lock) false None))
    by (vm_compute in Hrun; injection Hrun as <- <-; reflexivity).
  exists sys, tr, (DQ.mkThread (DQ.Running DQ.D_lock) false None).
  split; [exact Hrun |]. split; [exact H1 |]. split; [reflexivity |].
  exact (Hholds 0%nat _ H0 eq_refl).
Defined.

Lemma delay_queue_yields_ready_witness :
  exists sys tr th t,
    DQ.run 0 deadline_delay grow2 dq_sched_ready (dq_demo [DQ.OpEnqueue 5; DQ.OpDequeue])
      = Ok (sys, tr) /\
    DQ.threads sys !! 1%nat = Some th /\
    DQ.state th = DQ.Returned (DQ.RetDequeue 5 None) /\
    (1%nat, DQ.EvRemove 5 t) ∈ tr /\ deadline_delay 5 t <= 0.
Proof.
  destruct (delay_queue_yields_ready 0 deadline_delay grow2 2 0
              [DQ.OpEnqueue 5; DQ.OpDequeue] (dq_demo [DQ.OpEnqueue 5; DQ.OpDequeue])
              dq_sched_ready deadline_delay_mono (dq_demo_init _)
              ltac:(vm_compute; reflexivity))
    as (sys & tr & Hrun & _ & Hret).
  assert (H1 : DQ.threads sys !! 1%nat =
               Some (DQ.mkThread (DQ.Returned (DQ.RetDequeue 5 None)) false None))
    by (vm_compute in Hrun; injection Hrun as <- <-; reflexivity).
  destruct (Hret 1%nat _ 5 H1 eq_refl) as (t & Hin & Ht).
  exists sys, tr, (DQ.mkThread (DQ.Returned (DQ.RetDequeue 5 None)) false None), t.
  split; [exact Hrun |]. split; [exact H1 |]. split; [reflexivity |].
  split; [exact Hin | exact Ht].
Defined.

(** The state of a new queue once a goroutine has locked the mutex. *)
Definition dq_locked : DQ.shared Z :=
  DQ.mkShared (PQ.mkPQ 2 (Go.mkSlice [0] 3)) (Some 0%nat) 0%nat 1%nat [false; false] 0.

Lemma cond_broadcast_alone_witness :
  exists s',
    DQ.broadcast DQ.EnqueueSignal dq_locked =
      Ok (s', [DQ.BMake 2; DQ.BStore DQ.EnqueueSignal 2; DQ.BUnlock; DQ.BClose 1]) /\
    DQ.chans s' = [false; true; false] /\ DQ.enqueueSignal s' = 2%nat /\
    DQ.mutex s' = None.
Proof.
  destruct (cond_broadcast_alone DQ.EnqueueSignal dq_locked
              (ex_intro _ 0%nat eq_refl) eq_refl)
    as (s' & Hb & Hc & Hs & _ & _ & _ & Hm & _).
  exists s'. split; [exact Hb |]. split; [exact Hc |]. split; [exact Hs | exact Hm].
Defined.

Lemma cond_broadcast_interleaved_witness :
  exists sys tr,
    DQ.run 0 deadline_delay grow2 dq_sched_enqueue (dq_demo [DQ.OpEnqueue 5]) = Ok (sys, tr) /\
    bcast_done DQ.EnqueueSignal (DQ.mem sys) (bcast_events (events_of 0 tr)).
Proof.
  destruct (cond_broadcast_interleaved 0 deadline_delay grow2 2 0
              [DQ.OpEnqueue 5] (dq_demo [DQ.OpEnqueue 5]) dq_sched_enqueue
              (dq_demo_init _) ltac:(vm_compute; reflexivity))
    as (sys & tr & Hrun & _ & _ & Hb).
  assert (H0 : DQ.threads sys !! 0%nat =
               Some (DQ.mkThread (DQ.Returned (DQ.RetEnqueue None)) false None))
    by (vm_compute in Hrun; injection Hrun as <- <-; reflexivity).
  exists sys, tr. split; [exact Hrun |]. exact (Hb 0%nat _ H0).
Defined.

Lemma delay_queue_errors_witness :
  exists sys tr th,
    DQ.run 0 deadline_delay grow2 dq_sched_cancel (dq_demo [DQ.OpDequeue]) = Ok (sys, tr) /\
    DQ.threads sys !! 0%nat = Some th /\
    DQ.state th = DQ.Returned (DQ.RetDequeue 0 (Some DQ.CtxErr)) /\
    DQ.ctxDone th = true /\ events_of 0 tr = [].
Proof.
  destruct (delay_queue_errors 0 deadline_delay grow2 2 0
              [DQ.OpDequeue] (dq_demo [DQ.OpDequeue]) dq_sched_cancel
              (dq_demo_init _) ltac:(vm_compute; reflexivity))
    as (sys & tr & Hrun & Herr).
  assert (H0 : DQ.threads sys !! 0%nat =
               Some (DQ.mkThread (DQ.Returned (DQ.RetDequeue 0 (Some DQ.CtxErr))) true None))
    by (vm_compute in Hrun; injection Hrun as <- <-; reflexivity).
  destruct (Herr 0%nat _ H0) as (_ & Hd & _).
  destruct (Hd 0 DQ.CtxErr eq_refl) as (_ & _ & Hc & Hev).
  exists sys, tr, (DQ.mkThread (DQ.Returned (DQ.RetDequeue 0 (Some DQ.CtxErr))) true None).
  split; [exact Hrun |]. split; [exact H0 |]. split; [reflexivity |].
  split; [exact Hc | exact Hev].
Defined.

Lemma delay_queue_successes_witness :
  exists sys tr,
    DQ.run 0 deadline_delay grow2 dq_sched_ready (dq_demo [DQ.OpEnqueue 5; DQ.OpDequeue])
      = Ok (sys, tr) /\
    inserted (events_of 0 tr) = [5] /\ removed (events_of 1 tr) = [5].
Proof.
  destruct (delay_queue_successes 0 deadline_delay grow2 2 0
              [DQ.OpEnqueue 5; DQ.OpDequeue] (dq_demo [DQ.OpEnqueue 5; DQ.OpDequeue])
              dq_sched_ready (dq_demo_init _) ltac:(vm_compute; reflexivity))
    as (sys & tr & Hrun & Hs).
  assert (H0 : DQ.threads sys !! 0%nat =
               Some (DQ.mkThread (DQ.Returned (DQ.RetEnqueue None)) false None))
    by (vm_compute in Hrun; injection Hrun as <- <-; reflexivity).
  assert (H1 : DQ.threads sys !! 1%nat =
               Some (DQ.mkThread (DQ.Returned (DQ.RetDequeue 5 None)) false None))
    by (vm_compute in Hrun; injection Hrun as <- <-; reflexivity).
  destruct (Hs 0%nat _ H0) as (He & _ & _).
  destruct (He eq_refl) as (t & Ht & Hi & _).
  injection Ht as <-.
  destruct (Hs 1%nat _ H1) as (_ & Hd & _).
  destruct (Hd 5 eq_refl) as (_ & _ & Hr).
  exists sys, tr. split; [exact Hrun |]. split; [exact Hi | exact Hr].
Defined.

Lemma delay_queue_conservation_witness :
  exists sys tr,
    DQ.run 0 deadline_delay grow2 dq_sched_enqueue (dq_demo [DQ.OpEnqueue 5]) = Ok (sys, tr) /\
    inserted tr.*2 ≡ₚ removed tr.*2 ++ held (DQ.q (DQ.mem sys)).
Proof.
  exact (delay_queue_conservation 0 deadline_delay grow2 2 0
           [DQ.OpEnqueue 5] (dq_demo [DQ.OpEnqueue 5]) dq_sched_enqueue
           (dq_demo_init _) ltac:(vm_compute; reflexivity)).
Defined.

Lemma delay_queue_bounded_witness :
  exists sys tr,
    DQ.run 0 deadline_delay grow2 dq_sched_enqueue (dq_demo [DQ.OpEnqueue 5]) = Ok (sys, tr) /\
    PQ.Len (DQ.q (DQ.mem sys)) <= 2.
Proof.
  destruct (delay_queue_bounded 0 deadline_delay grow2 2 0
              [DQ.OpEnqueue 5] (dq_demo [DQ.OpEnqueue 5]) dq_sched_enqueue
              (dq_demo_init _) ltac:(vm_compute; reflexivity))
    as (sys & tr & Hrun & _ & _ & Hb).
  exists sys, tr. split; [exact Hrun |]. exact (Hb eq_refl).
Defined.

Lemma delay_queue_no_missed_broadcast_witness :
  exists sys tr,
    DQ.run 0 deadline_delay grow2 dq_sched_wait (dq_demo [DQ.OpDequeue]) = Ok (sys, tr) /\
    woken sys DQ.EnqueueSignal 1.
Proof.
  destruct (delay_queue_no_missed_broadcast 0 deadline_delay grow2 2 0
              [DQ.OpDequeue] (dq_demo [DQ.OpDequeue]) dq_sched_wait
              (dq_demo_init _) ltac:(vm_compute; reflexivity))
    as (sys & tr & Hrun & Hw).
  assert (H0 : DQ.threads sys !! 0%nat =
               Some (DQ.mkThread (DQ.Running (DQ.D_select2 1)) false None))
    by (vm_compute in Hrun; injection Hrun as <- <-; reflexivity).
  exists sys, tr. split; [exact Hrun |].
  exact (Hw 0%nat _ (DQ.D_select2 1) DQ.EnqueueSignal 1%nat H0 eq_refl eq_refl).
Defined.

(** A new queue and one goroutine whose context is cancelled. *)
Definition dq_cancelled (f : DQ.frame Z) : DQ.system Z :=
  DQ.mkSystem
    (DQ.mkShared (PQ.mkPQ 2 (Go.mkSlice [0] 3)) None 0%nat 1%nat [false; false] 0)
    [DQ.mkThread (DQ.Running f) true None].

Lemma enqueue_cancelled_returns_witness :
  returns 0 deadline_delay grow2 0 (dq_cancelled (DQ.E_select 5 0))
    [DQ.CaseSignal; DQ.CaseSignal] (DQ.RetEnqueue (Some DQ.CtxErr)).
Proof.
  apply (enqueue_cancelled_returns 0 deadline_delay grow2 (dq_cancelled (DQ.E_select 5 0))
           0%nat (DQ.mkThread (DQ.Running (DQ.E_select 5 0)) true None) 5).
  - reflexivity.
  - reflexivity.
  - right. exists 0%nat. reflexivity.
  - reflexivity.
Defined.

Lemma dequeue_cancelled_returns_witness :
  returns 0 deadline_delay grow2 0 (dq_cancelled (DQ.D_select2 1))
    (replicate 6 DQ.CaseSignal) (DQ.RetDequeue 0 (Some DQ.CtxErr)).
Proof.
  apply (dequeue_cancelled_returns 0 deadline_delay grow2 (dq_cancelled (DQ.D_select2 1))
           0%nat (DQ.mkThread (DQ.Running (DQ.D_select2 1)) true None)).
  - reflexivity.
  - reflexivity.
  - right; left. exists 1%nat. reflexivity.
  - reflexivity.
  - intros v Hv. discriminate Hv.
  - reflexivity.
Defined.

(** An [Enqueue] alone on the new queue. *)
Lemma enqueue_alone_returns_witness :
  exists sys' n,
    finishes 0 deadline_delay grow2 0 (dq_demo [DQ.OpEnqueue 5]) (replicate 8 DQ.CaseDone)
      (DQ.RetEnqueue None)
      (DQ.EvInsert 5 ::
       (DQ.EvBroadcast <$> [DQ.BMake n; DQ.BStore DQ.EnqueueSignal n; DQ.BUnlock;
                            DQ.BClose 1])) sys' /\
    held (DQ.q (DQ.mem sys')) ≡ₚ [5] /\ DQ.mutex (DQ.mem sys') = None.
Proof.
  destruct (enqueue_alone_returns 0 deadline_delay grow2 0 (dq_demo [DQ.OpEnqueue 5])
              (DQ.mkThread (DQ.Running (DQ.E_check 5)) false None) 5
              (replicate 8 DQ.CaseDone))
    as (sys' & n & Hfin & Hp & Hm & _).
  - reflexivity.
  - reflexivity.
  - reflexivity.
  - reflexivity.
  - split; [cbn; lia |]. unfold slice_wf, Go.len, Go.int_max. cbn. lia.
  - vm_compute. reflexivity.
  - reflexivity.
  - reflexivity.
  - reflexivity.
  - exists sys', n. split; [exact Hfin |]. split; [exact Hp | exact Hm].
Defined.

(** A queue that holds the deadline 5 at instant 7, and a goroutine that
    calls [Dequeue]. *)
Definition dq_ready : DQ.system Z :=
  DQ.mkSystem
    (DQ.mkShared (PQ.mkPQ 2 (Go.mkSlice [0; 5] 3)) None 0%nat 1%nat [false; false] 7)
    [DQ.mkThread (DQ.Running DQ.D_check) false None].

Lemma dequeue_alone_returns_witness :
  exists sys' n,
    finishes 0 deadline_delay grow2 0 dq_ready (replicate 10 DQ.CaseDone)
      (DQ.RetDequeue 5 None)
      (DQ.EvRemove 5 7 ::
       (DQ.EvBroadcast <$> [DQ.BMake n; DQ.BStore DQ.DequeueSignal n; DQ.BUnlock;
                            DQ.BClose 0])) sys' /\
    [5] ≡ₚ 5 :: held (DQ.q (DQ.mem sys')) /\ DQ.mutex (DQ.mem sys') = None.
Proof.
  destruct (dequeue_alone_returns 0 deadline_delay grow2 0 dq_ready
              (DQ.mkThread (DQ.Running DQ.D_check) false None) 5
              (replicate 10 DQ.CaseDone))
    as (sys' & n & Hfin & Hp & Hm & _).
  - reflexivity.
  - reflexivity.
  - reflexivity.
  - reflexivity.
  - split; [cbn; lia |]. unfold slice_wf, Go.len, Go.int_max. cbn. lia.
  - reflexivity.
  - vm_compute. discriminate.
  - reflexivity.
  - reflexivity.
  - exists sys', n. split; [exact Hfin |]. split; [exact Hp | exact Hm].
Defined.

Lemma delay_queue_round_trip_witness :
  exists sys tr th1,
    DQ.run 0 deadline_delay grow2 dq_sched_ready (dq_demo [DQ.OpEnqueue 5; DQ.OpDequeue])
      = Ok (sys, tr) /\
    DQ.threads sys !! 1%nat = Some th1 /\
    DQ.state th1 = DQ.Returned (DQ.RetDequeue 5 None) /\
    held (DQ.q (DQ.mem sys)) = [].
Proof.
  destruct (delay_queue_round_trip 0 deadline_delay grow2 2 0 5 5
              (dq_demo [DQ.OpEnqueue 5; DQ.OpDequeue])
              (replicate 8 DQ.CaseDone) (replicate 10 DQ.CaseDone))
    as (sys & tr & th0 & th1 & Hrun & _ & _ & Hth1 & Hst1 & Hh & _).
  - apply dq_demo_init.
  - vm_compute. discriminate.
  - reflexivity.
  - reflexivity.
  - exists sys, tr, th1. split; [exact Hrun |]. split; [exact Hth1 |].
    split; [exact Hst1 | exact Hh].
Defined.

(** A [Dequeue] alone on the new queue, which is empty. *)
Lemma dequeue_empty_waits_witness :
  exists sys',
    DQ.run 0 deadline_delay grow2 (replicate 5 (DQ.Step 0 DQ.CaseSignal))
      (dq_demo [DQ.OpDequeue]) = Ok (sys', []) /\
    DQ.threads sys' !! 0%nat =
      Some (DQ.mkThread (DQ.Running (DQ.D_select2 1)) false None) /\
    DQ.run 0 deadline_delay grow2 (replicate 3 (DQ.Step 0 DQ.CaseSignal)) sys' = Ok (sys', []).
Proof.
  destruct (dequeue_empty_waits 0 deadline_delay grow2 0 (dq_demo [DQ.OpDequeue])
              (DQ.mkThread (DQ.Running DQ.D_check) false None)
              (replicate 5 DQ.CaseSignal) (replicate 3 DQ.CaseSignal))
    as (sys' & Hrun & _ & Hth & _ & Hstay).
  - reflexivity.
  - reflexivity.
  - reflexivity.
  - reflexivity.
  - reflexivity.
  - reflexivity.
  - reflexivity.
  - exists sys'. split; [exact Hrun |]. split; [exact Hth | exact Hstay].
Defined.

(** A queue of capacity 1 that holds the deadline 5, and a goroutine that
    calls [Enqueue] with the deadline 9. *)
Definition dq_full : DQ.system Z :=
  DQ.mkSystem
    (DQ.mkShared (PQ.mkPQ 1 (Go.mkSlice [0; 5] 2)) None 0%nat 1%nat [false; false] 0)
    [DQ.mkThread (DQ.Running (DQ.E_check 9)) false None].

Lemma enqueue_full_waits_witness :
  exists sys',
    DQ.run 0 deadline_delay grow2 (replicate 5 (DQ.Step 0 DQ.CaseSignal)) dq_full
      = Ok (sys', []) /\
    DQ.mem sys' = DQ.mem dq_full /\
    DQ.threads sys' !! 0%nat =
      Some (DQ.mkThread (DQ.Running (DQ.E_select 9 0)) false None) /\
    DQ.run 0 deadline_delay grow2 (replicate 3 (DQ.Step 0 DQ.CaseSignal)) sys' = Ok (sys', []).
Proof.
  destruct (enqueue_full_waits 0 deadline_delay grow2 0 dq_full
              (DQ.mkThread (DQ.Running (DQ.E_check 9)) false None) 9
              (replicate 5 DQ.CaseSignal) (replicate 3 DQ.CaseSignal))
    as (sys' & Hrun & Hmem & Hth & _ & Hstay).
  - reflexivity.
  - reflexivity.
  - reflexivity.
  - reflexivity.
  - reflexivity.
  - reflexivity.
  - reflexivity.
  - exists sys'. split; [exact Hrun |]. split; [exact Hmem |].
    split; [exact Hth | exact Hstay].
Defined.
